(** * graphql-go: the input packer and the executor's ordering rules

    A shallow embedding of [internal/exec/packer] (the builder of input
    coercers and the coercers themselves) and of the two executor scenarios
    the test-suite pins down, with the properties the specification states
    about them.

    Layout: Go types and dynamic values; IEEE-754 doubles by value; the
    [ast] types the packer inspects; errors; [unmarshalInput]; the packer
    objects and their [Pack] methods over an explicit heap; the [Builder];
    the executor; then the theorems. *)

From Stdlib Require Import ZArith Lia Bool List Ascii String.
From Stdlib Require Import Floats.SpecFloat.
From stdpp Require Import base option list gmap strings.

#[local] Set Warnings "-register-all".
#[local] Open Scope string_scope.
#[local] Open Scope list_scope.
#[local] Open Scope Z_scope.

(* ===================================================================== *)
(** * Go types ([reflect.Type]) *)
(* ===================================================================== *)

Module reflect.
(** [reflect.Kind], restricted to the kinds of the modelled types. *)
Inductive Kind :=
| Invalid | Bool | Int | Int32 | Float64 | String
| Ptr | Slice | Struct | Interface | Map.

#[global] Instance Kind_eq_dec : EqDecision Kind.
Proof. solve_decision. Defined.
End reflect.

(** A Go type.  Defined types are referred to by name ([TNamed]); what a
    name stands for is looked up in the program's declarations, which is
    what lets [type recursive struct { Next *recursive }] be written.
    Type identity ([==] on [reflect.Type]) is equality of these terms. *)
Inductive GoType :=
| TBool | TInt | TInt32 | TFloat64 | TString
| TNamed (name : string)
| TPtr (elem : GoType)
| TSlice (elem : GoType)
| TStruct (fields : list StructField)
| TInterface                      (* interface{} *)
| TMap                            (* map[string]interface{} *)
with StructField :=
| mkStructField (Name : string) (PkgPath : string) (Typ : GoType).

Definition sfName (f : StructField) := let 'mkStructField n _ _ := f in n.
Definition sfPkgPath (f : StructField) := let 'mkStructField _ p _ := f in p.
Definition sfType (f : StructField) := let 'mkStructField _ _ t := f in t.

Fixpoint GoType_eq_dec (a b : GoType) : {a = b} + {a <> b}
with StructField_eq_dec (a b : StructField) : {a = b} + {a <> b}.
Proof.
  - decide equality.
    + apply Stdlib.Strings.String.string_dec.
    + revert fields0.
      induction fields as [|x xs IH]; intros [|y ys];
        try (right; discriminate).
      * left; reflexivity.
      * destruct (StructField_eq_dec x y); [|right; congruence].
        destruct (IH ys); [left; congruence | right; congruence].
  - decide equality; apply Stdlib.Strings.String.string_dec.
Defined.

#[global] Instance GoType_EqDecision : EqDecision GoType := GoType_eq_dec.

(* ===================================================================== *)
(** * Dynamic values ([interface{}]) *)
(* ===================================================================== *)

(** The dynamic values a request presents to the packer: [nil], the JSON
    shapes ([bool], [float64], [string], [[]interface{}],
    [map[string]interface{}]), [int32] (integer literals of a query), [int]
    (variables built by a Go caller), and values of defined types over
    those ([VNamed "ID" (VString s)] is [ID(s)]). *)
Inductive value :=
| VNil
| VBool (b : bool)
| VInt (n : Z)
| VInt32 (n : Z)
| VFloat64 (f : spec_float)
| VString (s : string)
| VNamed (name : string) (v : value)
| VList (l : list value)
| VMap (m : gmap string value).

(** [v == nil] *)
Definition is_nil (v : value) : bool :=
  match v with VNil => true | _ => false end.

(** [reflect.TypeOf]; [None] is the nil [reflect.Type] of a nil interface. *)
Definition TypeOf (v : value) : option GoType :=
  match v with
  | VNil => None
  | VBool _ => Some TBool
  | VInt _ => Some TInt
  | VInt32 _ => Some TInt32
  | VFloat64 _ => Some TFloat64
  | VString _ => Some TString
  | VNamed n _ => Some (TNamed n)
  | VList _ => Some (TSlice TInterface)
  | VMap _ => Some TMap
  end.

(* ===================================================================== *)
(** * 32-bit integers and doubles *)
(* ===================================================================== *)

Module math.
Definition MinInt32 : Z := - 2 ^ 31.
Definition MaxInt32 : Z := 2 ^ 31 - 1.
End math.

(** The conversion [int32(n)] of an [int]: the low 32 bits, signed. *)
Definition int32_of_int (n : Z) : Z := (n + 2 ^ 31) mod 2 ^ 32 - 2 ^ 31.

(** A double is modelled by the value it denotes: [S754_finite s m e] is
    [(-1)^s * m * 2^e].  The encoding (which [m], [e] are canonical) plays no
    part: the operations below are the IEEE ones on the denoted values. *)
Definition float64 := spec_float.

(** Signed mantissa and exponent of a zero or finite double. *)
Definition Fnum (f : float64) : option (Z * Z) :=
  match f with
  | S754_zero _ => Some (0, 0)
  | S754_finite s m e => Some (if s then Z.neg m else Z.pos m, e)
  | _ => None
  end.

(** IEEE comparison; [None] when unordered (a NaN operand). *)
Definition f64_compare (a b : float64) : option comparison :=
  match a, b with
  | S754_nan, _ | _, S754_nan => None
  | S754_infinity s1, S754_infinity s2 =>
      Some (match s1, s2 with
            | true, false => Lt | false, true => Gt | _, _ => Eq end)
  | S754_infinity s, _ => Some (if s then Lt else Gt)
  | _, S754_infinity s => Some (if s then Gt else Lt)
  | _, _ =>
      match Fnum a, Fnum b with
      | Some (m1, e1), Some (m2, e2) =>
          let e := Z.min e1 e2 in
          Some (m1 * 2 ^ (e1 - e) ?= m2 * 2 ^ (e2 - e))
      | _, _ => None
      end
  end.

(** Go's [<], [>] and [!=] on [float64]. *)
Definition f64_lt (a b : float64) : bool :=
  match f64_compare a b with Some Lt => true | _ => false end.
Definition f64_gt (a b : float64) : bool :=
  match f64_compare a b with Some Gt => true | _ => false end.
Definition f64_ne (a b : float64) : bool :=
  match f64_compare a b with Some Eq => false | _ => true end.

(** [float64(n)] of an integer: exact up to 53 bits, otherwise rounded to
    nearest, ties to even. *)
Definition float64_of_int (n : Z) : float64 :=
  if n =? 0 then S754_zero false else
  let a := Z.abs n in
  let k := Z.log2 a - 52 in
  if k <=? 0 then S754_finite (n <? 0) (Z.to_pos a) 0
  else
    let q := Z.shiftr a k in
    let r := a - Z.shiftl q k in
    let half := Z.shiftl 1 (k - 1) in
    let q' := if (r >? half) || ((r =? half) && Z.odd q) then q + 1 else q in
    S754_finite (n <? 0) (Z.to_pos q') k.

(** The integer part of a double (the fraction is discarded); [None] for
    NaN and the infinities. *)
Definition f64_trunc (f : float64) : option Z :=
  match Fnum f with
  | Some (m, e) => Some (if 0 <=? e then m * 2 ^ e else Z.quot m (2 ^ (- e)))
  | None => None
  end.

(** The integer [n] a double denotes exactly, if it denotes one:
    [m * 2^e = n], written without negative powers. *)
Definition float_is_integer (f : float64) (n : Z) : Prop :=
  match Fnum f with
  | Some (m, e) => m * 2 ^ Z.max e 0 = n * 2 ^ Z.max (- e) 0
  | None => False
  end.

Definition is_int32 (n : Z) : Prop := math.MinInt32 <= n <= math.MaxInt32.

(* ===================================================================== *)
(** * The schema types the packer inspects ([ast]) *)
(* ===================================================================== *)

Module ast.
(** [ast.Type].  The named types are singletons of a schema, so a name
    stands for the pointer.  [*ast.List] and [*ast.NonNull] are allocated
    per occurrence: [id] is that allocation, and two wrappers are the same
    map key only if they are the same allocation. *)
Inductive alloc :=
| Parsed (n : nat)              (* a wrapper of the parsed schema *)
| Built (n : nat).              (* a wrapper the builder allocates *)

Inductive Type_ :=
| ScalarTypeDefinition (name : string)
| EnumTypeDefinition (name : string)
| InputObject (name : string)
| ObjectTypeDefinition (name : string)
| InterfaceTypeDefinition (name : string)
| Union (name : string)
| List (id : alloc) (OfType : Type_)
| NonNull (id : alloc) (OfType : Type_).

#[global] Instance alloc_eq_dec : EqDecision alloc.
Proof. solve_decision. Defined.
#[global] Instance Type_eq_dec : EqDecision Type_.
Proof. solve_decision. Defined.

(** [ast.Value]: a literal of the schema, represented by what its
    [Deserialize(nil)] returns. *)
Definition Value := value.
Definition Deserialize (v : Value) : value := v.

(** [ast.InputValueDefinition]: [Name.Name], [Type], [Default]. *)
Record InputValueDefinition := {
  Name : string;
  Type' : Type_;
  Default : option Value;
}.

(** The [Values] of each input object, by name. *)
Definition Schema := string -> list InputValueDefinition.

(** [String()]: the type as written in a schema. *)
Fixpoint String (t : Type_) : string :=
  match t with
  | ScalarTypeDefinition n | EnumTypeDefinition n | InputObject n
  | ObjectTypeDefinition n | InterfaceTypeDefinition n | Union n => n
  | List _ t => "[" +:+ String t +:+ "]"
  | NonNull _ t => String t +:+ "!"
  end.

(** [Kind()], as printed in the build error. *)
Definition Kind (t : Type_) : string :=
  match t with
  | ScalarTypeDefinition _ => "SCALAR"
  | EnumTypeDefinition _ => "ENUM"
  | InputObject _ => "INPUT_OBJECT"
  | ObjectTypeDefinition _ => "OBJECT"
  | InterfaceTypeDefinition _ => "INTERFACE"
  | Union _ => "UNION"
  | List _ _ => "LIST"
  | NonNull _ _ => "NON_NULL"
  end.
End ast.

(* ===================================================================== *)
(** * Errors and results *)
(* ===================================================================== *)

(** An error is the format string of the [Errorf] call that made it and
    the arguments it was given. *)
Inductive error :=
| Errorf (format : string) (args : list fmtArg)
with fmtArg :=
| AType (t : option GoType)
| ASchemaType (t : ast.Type_)
| AKind (k : reflect.Kind)
| AValue (v : value)
| AString (s : string)
| AError (e : error).

(** The outcome of a call: a result, a returned error, a run-time panic, or
    [OutOfFuel] when the bound on nested calls of a recursive definition
    was too small. *)
Inductive res (A : Type) :=
| Ok (a : A)
| Err (e : error)
| Panic
| OutOfFuel.
Arguments Ok {A} a.
Arguments Err {A} e.
Arguments Panic {A}.
Arguments OutOfFuel {A}.

(* ===================================================================== *)
(** * The program: type declarations and method sets *)
(* ===================================================================== *)

(** [decode.Unmarshaler] as implemented by [*T].  [UnmarshalGraphQL] gives
    the error it returns, if any; [Nullable] says that [*T] is also a
    [NullUnmarshaller]. *)
Record Unmarshaler := {
  ImplementsGraphQLType : string -> bool;
  UnmarshalGraphQL : value -> option error;
  Nullable : bool;
}.

Record Program := {
  (** [type name underlying] *)
  underlying : string -> GoType;
  (** the [decode.Unmarshaler] methods of [*name], if it has them *)
  methods : string -> option Unmarshaler;
  (** what [int32(f)] gives when [f] is not representable, which the
      language leaves to the implementation *)
  int32_unrepresentable : float64 -> Z;
}.

Section Types.
Variable p : Program.

Definition kind_of_literal (t : GoType) : reflect.Kind :=
  match t with
  | TBool => reflect.Bool
  | TInt => reflect.Int
  | TInt32 => reflect.Int32
  | TFloat64 => reflect.Float64
  | TString => reflect.String
  | TNamed _ => reflect.Invalid
  | TPtr _ => reflect.Ptr
  | TSlice _ => reflect.Slice
  | TStruct _ => reflect.Struct
  | TInterface => reflect.Interface
  | TMap => reflect.Map
  end.

(** [t.Kind()] *)
Definition Kind (t : GoType) : reflect.Kind :=
  match t with
  | TNamed n => kind_of_literal (underlying p n)
  | _ => kind_of_literal t
  end.

(** [t.Elem()] of a pointer or slice type; it panics on other kinds. *)
Definition Elem (t : GoType) : option GoType :=
  match (match t with TNamed n => underlying p n | _ => t end) with
  | TPtr e | TSlice e => Some e
  | _ => None
  end.

(** [int32(f)] *)
Definition int32_of_float64 (f : float64) : Z :=
  match f64_trunc f with
  | Some n =>
      if (math.MinInt32 <=? n) && (n <=? math.MaxInt32) then n
      else int32_unrepresentable p f
  | None => int32_unrepresentable p f
  end.
End Types.

(* ===================================================================== *)
(** * Strings: runes, case folding *)
(* ===================================================================== *)

Definition byte_string (z : Z) : string :=
  String (ascii_of_N (Z.to_N z)) EmptyString.

(** UTF-8 encoding of a code point. *)
Definition utf8_encode (c : Z) : string :=
  if c <? 128 then byte_string c
  else if c <? 2048 then
    byte_string (Z.lor 192 (Z.shiftr c 6)) +:+
    byte_string (Z.lor 128 (Z.land c 63))
  else if c <? 65536 then
    byte_string (Z.lor 224 (Z.shiftr c 12)) +:+
    byte_string (Z.lor 128 (Z.land (Z.shiftr c 6) 63)) +:+
    byte_string (Z.lor 128 (Z.land c 63))
  else
    byte_string (Z.lor 240 (Z.shiftr c 18)) +:+
    byte_string (Z.lor 128 (Z.land (Z.shiftr c 12) 63)) +:+
    byte_string (Z.lor 128 (Z.land (Z.shiftr c 6) 63)) +:+
    byte_string (Z.lor 128 (Z.land c 63)).

(** [string(rune)] of an integer, which is what converting an integer to a
    string type does: invalid code points give U+FFFD. *)
Definition string_of_rune (n : Z) : string :=
  if (n <? 0) || (1114111 <? n) || ((55296 <=? n) && (n <=? 57343))
  then utf8_encode 65533
  else utf8_encode n.

(** [strings.ReplaceAll(s, "_", "")] *)
Fixpoint stripUnderscore (s : string) : string :=
  match s with
  | EmptyString => EmptyString
  | String c r =>
      if Ascii.eqb c "_"%char then stripUnderscore r
      else String c (stripUnderscore r)
  end.

Definition lower_ascii (c : ascii) : ascii :=
  let n := N_of_ascii c in
  if ((65 <=? n) && (n <=? 90))%N then ascii_of_N (n + 32) else c.

Fixpoint lower (s : string) : string :=
  match s with
  | EmptyString => EmptyString
  | String c r => String (lower_ascii c) (lower r)
  end.

(** [strings.EqualFold] on names of ASCII characters, which GraphQL names
    and the field names of the modelled structs are: equality up to the
    case of the ASCII letters.  (The Unicode folding of other letters is
    not modelled.) *)
Definition EqualFold (a b : string) : bool :=
  bool_decide (lower a = lower b).

(* ===================================================================== *)
(** * [unmarshalInput]: the built-in scalar coercion *)
(* ===================================================================== *)

#[global] Instance res_bind : MBind res := fun A B f m =>
  match m with
  | Ok a => f a
  | Err e => Err e
  | Panic => Panic
  | OutOfFuel => OutOfFuel
  end.

Section Coercion.
Variable p : Program.

(** [src.ConvertibleTo(dst)] for a destination of kind [String], its one
    use here: strings and integers convert to a string type. *)
Definition ConvertibleTo (src dst : GoType) : bool :=
  match Kind p dst, Kind p src with
  | reflect.String, (reflect.String | reflect.Int | reflect.Int32) => true
  | _, _ => false
  end.

(** The value under the defined types wrapped around it. *)
Fixpoint unnamed (v : value) : value :=
  match v with
  | VNamed _ v' => unnamed v'
  | _ => v
  end.

(** [reflect.ValueOf(input).Convert(typ).Interface()] for [typ] of kind
    [String]. *)
Definition Convert (input : value) (typ : GoType) : value :=
  let s := match unnamed input with
           | VString s => s
           | VInt n | VInt32 n => string_of_rune n
           | _ => EmptyString
           end in
  match typ with
  | TNamed n => VNamed n (VString s)
  | _ => VString s
  end.

Definition incompatible (input : value) : res value :=
  Err (Errorf "incompatible type: %s" [AType (TypeOf input)]).

Definition unmarshalInput (typ : GoType) (input : value) : res value :=
  if decide (TypeOf input = Some typ) then Ok input
  else
    match Kind p typ with
    | reflect.Int32 =>
        match input with
        | VInt input =>
            if (input <? math.MinInt32) || (input >? math.MaxInt32)
            then Err (Errorf "not a 32-bit integer" [])
            else Ok (VInt32 (int32_of_int input))
        | VFloat64 input =>
            let coerced := int32_of_float64 p input in
            if f64_lt input (float64_of_int math.MinInt32)
               || f64_gt input (float64_of_int math.MaxInt32)
               || f64_ne (float64_of_int coerced) input
            then Err (Errorf "not a 32-bit integer" [])
            else Ok (VInt32 coerced)
        | _ => incompatible input
        end
    | reflect.Float64 =>
        match input with
        | VInt32 input => Ok (VFloat64 (float64_of_int input))
        | VInt input => Ok (VFloat64 (float64_of_int input))
        | _ => incompatible input
        end
    | reflect.String =>
        match TypeOf input with
        | None => Panic       (* method call on the nil reflect.Type *)
        | Some t =>
            if ConvertibleTo t typ then Ok (Convert input typ)
            else incompatible input
        end
    | _ => incompatible input
    end.
End Coercion.

(* ===================================================================== *)
(** * Packed values ([reflect.Value]) *)
(* ===================================================================== *)

(** A [reflect.Value], named after the calls that make it. *)
Inductive rvalue :=
| RInvalid                                  (* reflect.Value{} *)
| ROf (v : value)                           (* reflect.ValueOf(v) *)
| RZero (t : GoType)                        (* reflect.Zero(t) *)
| RNew (t : GoType) (v : rvalue)            (* reflect.New(t), its Elem() set to v *)
| RSlice (t : GoType) (elems : list rvalue) (* reflect.MakeSlice(t, n, n), its n elements set *)
| RStruct (t : GoType) (sets : list (list nat * rvalue))
    (* reflect.New(t).Elem(): a zero struct, then the fields set, oldest first *)
| RUnmarshaled (t : GoType) (input : value).
    (* reflect.New(t).Elem() after the pointer's UnmarshalGraphQL(input) *)

(** [v.Type()]; [None] for the invalid value. *)
Definition rtype (v : rvalue) : option GoType :=
  match v with
  | RInvalid => None
  | ROf v => TypeOf v
  | RZero t => Some t
  | RNew t _ => Some (TPtr t)
  | RSlice t _ => Some t
  | RStruct t _ => Some t
  | RUnmarshaled t _ => Some t
  end.

(** The last value set at a field path of a struct value; [None] when the
    field still holds its zero value. *)
Definition FieldByIndex (s : rvalue) (index : list nat) : option rvalue :=
  match s with
  | RStruct _ sets =>
      snd <$> last (filter (fun s => bool_decide (s.1 = index)) sets)
  | _ => None
  end.

Section Reflect.
Variable p : Program.

Definition underlying_of (t : GoType) : GoType :=
  match t with TNamed n => underlying p n | _ => t end.

(** Whether a type is a named one; the predeclared types are. *)
Definition HasName (t : GoType) : bool :=
  match t with
  | TPtr _ | TSlice _ | TStruct _ | TInterface | TMap => false
  | _ => true
  end.

(** reflect's [directlyAssignable(T, V)]: identical types, or identical
    underlying types when at most one of the two is named. *)
Definition directlyAssignable (T V : GoType) : bool :=
  if decide (T = V) then true
  else if (HasName T && HasName V)
          || negb (bool_decide (Kind p T = Kind p V)) then false
  else bool_decide (underlying_of T = underlying_of V).

(** What [Set] checks before storing [x] in a location of type [T]; it
    panics otherwise.  Any valid value can be stored in an [interface{}]. *)
Definition assignable (T : GoType) (x : rvalue) : bool :=
  match rtype x with
  | None => false
  | Some V =>
      directlyAssignable T V || bool_decide (Kind p T = reflect.Interface)
  end.

(** The fields of a struct type. *)
Definition struct_fields (t : GoType) : list StructField :=
  match underlying_of t with TStruct fs => fs | _ => [] end.

(** The type of the field at a path; stepping through anything but a
    struct is a panic. *)
Fixpoint field_type (t : GoType) (index : list nat) : option GoType :=
  match index with
  | [] => Some t
  | i :: rest =>
      match struct_fields t !! i with
      | Some sf => field_type (sfType sf) rest
      | None => None
      end
  end.

(** [s.FieldByIndex(index).Set(x)] *)
Definition SetField (s : rvalue) (index : list nat) (x : rvalue)
  : res rvalue :=
  match s with
  | RStruct t sets =>
      match field_type t index with
      | Some ft =>
          if assignable ft x then Ok (RStruct t (sets ++ [(index, x)]))
          else Panic
      | None => Panic
      end
  | _ => Panic
  end.

(** [reflect.New(t).Interface().(decode.Unmarshaler)] *)
Definition unmarshaler_of (t : GoType) : option Unmarshaler :=
  match t with TNamed n => methods p n | _ => None end.

(** [isNullable]: [*t] is a [NullUnmarshaller]. *)
Definition isNullable (t : GoType) : bool :=
  match unmarshaler_of t with Some u => Nullable u | None => false end.

(** [t.FieldByNameFunc(fx)] on a struct type without embedded fields,
    which the modelled struct types are: the one field of the struct whose
    name satisfies [fx], with its index; no match when none or several
    do.  (The promotion of the fields of embedded structs is not
    modelled.) *)
Definition FieldByNameFunc (t : GoType) (fx : string -> bool)
  : option (StructField * list nat) :=
  match filter (fun x => fx (sfName x.2))
               (imap (fun i sf => (i, sf)) (struct_fields t)) with
  | [(i, sf)] => Some (sf, [i])
  | _ => None
  end.
End Reflect.

(* ===================================================================== *)
(** * The packers *)
(* ===================================================================== *)

(** Packers are heap objects: a [packer] interface value is [nil] or the
    address of one of them. *)
Abbreviation addr := nat (only parsing).
Definition packer := option addr.

Inductive packerObj :=
| StructPacker (structType : GoType) (usePtr : bool)
    (defaultStruct : rvalue) (fields : list addr)
| listPacker (sliceType : GoType) (elem : packer)
| nullPacker (elemPacker : packer) (valueType : GoType) (addPtr : bool)
| ValuePacker (ValueType : GoType)
| unmarshalerPacker (ValueType : GoType).

Record structPackerField := {
  name : string;
  index : list nat;
  def : option ast.Value;
  fpacker : packer;             (* the field [packer] *)
}.

(** The memory the packers live in: [*StructPacker], [*listPacker], ... in
    [packers], [*structPackerField] in [sfields]. *)
Record Heap := {
  packers : list packerObj;
  sfields : list structPackerField;
}.

(** Runs [f] over a list, stopping at the first outcome that is not [Ok]. *)
Fixpoint mapM_res {A B} (f : A -> res B) (l : list A) : res (list B) :=
  match l with
  | [] => Ok []
  | x :: rest => y ← f x; ys ← mapM_res f rest; Ok (y :: ys)
  end.

Fixpoint foldM_res {A S} (f : S -> A -> res S) (s : S) (l : list A) : res S :=
  match l with
  | [] => Ok s
  | x :: rest => s' ← f s x; foldM_res f s' rest
  end.

Definition got_null : error := Errorf "got null for non-null" [].

Section Pack.
Variable p : Program.

(** [v.Elem().FieldByIndex(f.index).Set(packed)] for one field of a
    struct packer, when the input has the field. *)
Definition packField (Pack : packer -> value -> res rvalue) (h : Heap)
    (values : gmap string value) (v : rvalue) (fa : addr) : res rvalue :=
  match sfields h !! fa with
  | None => Panic
  | Some f =>
      match values !! name f with
      | Some value =>
          packed ← Pack (fpacker f) value;
          SetField p v (index f) packed
      | None => Ok v
      end
  end.

(** [v.Index(i).Set(packed)] for one element of the input of a list
    packer. *)
Definition packElem (Pack : packer -> value -> res rvalue) (elem : packer)
    (et : GoType) (x : value) : res rvalue :=
  packed ← Pack elem x;
  if assignable p et packed then Ok packed else Panic.

(** The [Pack] methods.  [fuel] bounds the depth of nested [Pack]
    calls. *)
Fixpoint Pack (fuel : nat) (h : Heap) (pk : packer) (value : value)
  : res rvalue :=
  match fuel with
  | O => OutOfFuel
  | S fuel =>
    match pk ≫= (fun a => packers h !! a) with
    | None => Panic               (* a nil packer *)
    | Some (StructPacker structType usePtr defaultStruct fields) =>
        match value with
        | VNil => Err got_null
        | VMap values =>
            (* v := reflect.New(p.structType); v.Elem().Set(p.defaultStruct) *)
            v0 ← (if assignable p structType defaultStruct
                  then Ok defaultStruct else Panic);
            v ← foldM_res (packField (Pack fuel h) h values) v0 fields;
            if usePtr then Ok (RNew structType v) else Ok v
        | _ => Panic              (* value.(map[string]interface{}) *)
        end
    | Some (listPacker sliceType elem) =>
        let list := match value with VList l => l | _ => [value] end in
        match Kind p sliceType, Elem p sliceType with
        | reflect.Slice, Some et =>
            elems ← mapM_res (packElem (Pack fuel h) elem et) list;
            Ok (RSlice sliceType elems)
        | _, _ => Panic           (* reflect.MakeSlice of non-slice type *)
        end
    | Some (nullPacker elemPacker valueType addPtr) =>
        if is_nil value && negb (isNullable p valueType)
        then Ok (RZero valueType)
        else
          v ← Pack fuel h elemPacker value;
          if addPtr then
            match Elem p valueType with
            | Some et => if assignable p et v then Ok (RNew et v) else Panic
            | None => Panic
            end
          else Ok v
    | Some (ValuePacker ValueType) =>
        match value with
        | VNil => Err got_null
        | _ =>
            match unmarshalInput p ValueType value with
            | Ok coerced => Ok (ROf coerced)
            | Err err =>
                Err (Errorf "could not unmarshal %#v (%T) into %s: %s"
                       [AValue value; AType (TypeOf value);
                        AType (Some ValueType); AError err])
            | Panic => Panic
            | OutOfFuel => OutOfFuel
            end
        end
    | Some (unmarshalerPacker ValueType) =>
        if is_nil value && negb (isNullable p ValueType)
        then Err got_null
        else
          match unmarshaler_of p ValueType with
          | None => Panic         (* v.Interface().(decode.Unmarshaler) *)
          | Some u =>
              match UnmarshalGraphQL u value with
              | Some err => Err err
              | None => Ok (RUnmarshaled ValueType value)
              end
          end
    end
  end.
End Pack.

(** The fields of a struct packer that an input map has, in the packer's
    order, each with the input's value for it. *)
Definition presentFields (h : Heap) (values : gmap string value)
    (fields : list addr) : list (structPackerField * value) :=
  omap (fun fa => f ← sfields h !! fa; v ← values !! name f; Some (f, v))
       fields.

(** The present field [fv] packs to [x], which its struct field can
    hold. *)
Definition fieldPacked (p : Program) (h : Heap) (fuel : nat)
    (structType : GoType) (fv : structPackerField * value) (x : rvalue)
  : Prop :=
  Pack p fuel h (fpacker fv.1) fv.2 = Ok x /\
  exists ft, field_type p structType (index fv.1) = Some ft /\
             assignable p ft x = true.

(** What [StructPacker.Pack] returns for the struct [v]: [v.Elem()], or
    [v] itself when [usePtr] is set. *)
Definition structResult (usePtr : bool) (structType : GoType) (v : rvalue)
  : rvalue :=
  if usePtr then RNew structType v else v.

(* ===================================================================== *)
(** * The builder *)
(* ===================================================================== *)

Record typePair := {
  graphQLType : ast.Type_;
  resolverType : GoType;
}.

#[global] Instance typePair_eq_dec : EqDecision typePair.
Proof. solve_decision. Defined.

(** A [*packer]: the location a packer is stored in once it is known. *)
Inductive target :=
| elemOf (a : addr)               (* &p.elem of the list packer at a *)
| packerOf (f : addr).            (* &fe.packer of the field at f *)

#[global] Instance target_eq_dec : EqDecision target.
Proof. solve_decision. Defined.

Record packerMapEntry := {
  epacker : packer;               (* the field [packer] *)
  targets : list target;
}.

(** The builder, with the memory its packers are allocated in.
    [packerMap] keeps its keys in insertion order; [allocated] counts the
    [ast.NonNull] nodes the builder made. *)
Record Builder := {
  packerMap : list (typePair * packerMapEntry);
  structPackers : list addr;
  heap : Heap;
  allocated : nat;
}.

Definition NewBuilder : Builder :=
  {| packerMap := [];
     structPackers := [];
     heap := {| packers := []; sfields := [] |};
     allocated := 0 |}.

(** [b.packerMap[k]] *)
Fixpoint lookupEntry (k : typePair) (m : list (typePair * packerMapEntry))
  : option packerMapEntry :=
  match m with
  | [] => None
  | (k', e) :: rest => if decide (k' = k) then Some e else lookupEntry k rest
  end.

(** Updates the entry at [k] in place. *)
Fixpoint updateEntry (k : typePair) (f : packerMapEntry -> packerMapEntry)
    (m : list (typePair * packerMapEntry)) : list (typePair * packerMapEntry) :=
  match m with
  | [] => []
  | (k', e) :: rest =>
      if decide (k' = k) then (k', f e) :: rest
      else (k', e) :: updateEntry k f rest
  end.

(** Builder methods: they change the builder and return a result. *)
Definition M (A : Type) : Type := Builder -> res A * Builder.

Definition ret {A} (a : A) : M A := fun b => (Ok a, b).
Definition fail {A} (e : error) : M A := fun b => (Err e, b).
Definition panic {A} : M A := fun b => (Panic, b).
Definition bind {A B} (m : M A) (f : A -> M B) : M B :=
  fun b =>
    match m b with
    | (Ok a, b') => f a b'
    | (Err e, b') => (Err e, b')
    | (Panic, b') => (Panic, b')
    | (OutOfFuel, b') => (OutOfFuel, b')
    end.

Notation "x <- m ;; k" := (bind m (fun x => k))
  (at level 100, m at next level, right associativity).
Notation "m ;;; k" := (bind m (fun _ => k))
  (at level 100, right associativity).

(** [if err != nil { return ..., wrap(err) }] *)
Definition wrapErr {A} (m : M A) (wrap : error -> error) : M A :=
  fun b =>
    match m b with
    | (Err e, b') => (Err (wrap e), b')
    | r => r
    end.

Definition modify (f : Builder -> Builder) : M unit :=
  fun b => (Ok tt, f b).

Definition withHeap (f : Heap -> Heap) (b : Builder) : Builder :=
  {| packerMap := packerMap b;
     structPackers := structPackers b;
     heap := f (heap b);
     allocated := allocated b |}.

Definition withPackerMap
    (f : list (typePair * packerMapEntry) -> list (typePair * packerMapEntry))
    (b : Builder) : Builder :=
  {| packerMap := f (packerMap b);
     structPackers := structPackers b;
     heap := heap b;
     allocated := allocated b |}.

(** [&T{...}] for a packer object. *)
Definition newPacker (o : packerObj) : M addr :=
  fun b =>
    (Ok (length (packers (heap b))),
     withHeap (fun h => {| packers := packers h ++ [o];
                           sfields := sfields h |}) b).

(** [&structPackerField{...}] *)
Definition newField (f : structPackerField) : M addr :=
  fun b =>
    (Ok (length (sfields (heap b))),
     withHeap (fun h => {| packers := packers h;
                           sfields := sfields h ++ [f] |}) b).

(** [&ast.NonNull{OfType: t}] *)
Definition newNonNull (t : ast.Type_) : M ast.Type_ :=
  fun b =>
    (Ok (ast.NonNull (ast.Built (allocated b)) t),
     {| packerMap := packerMap b;
        structPackers := structPackers b;
        heap := heap b;
        allocated := S (allocated b) |}).

Definition setFieldIndex (fe : addr) (idx : list nat) (h : Heap) : Heap :=
  match sfields h !! fe with
  | Some f =>
      {| packers := packers h;
         sfields := <[fe := {| name := name f; index := idx;
                               def := def f; fpacker := fpacker f |}]>
                      (sfields h) |}
  | None => h
  end.

(** [*target = pk] *)
Definition setTarget (pk : packer) (h : Heap) (t : target) : Heap :=
  match t with
  | elemOf a =>
      match packers h !! a with
      | Some (listPacker sliceType _) =>
          {| packers := <[a := listPacker sliceType pk]> (packers h);
             sfields := sfields h |}
      | _ => h
      end
  | packerOf fe =>
      match sfields h !! fe with
      | Some f =>
          {| packers := packers h;
             sfields := <[fe := {| name := name f; index := index f;
                                   def := def f; fpacker := pk |}]>
                          (sfields h) |}
      | None => h
      end
  end.

Definition unwrapNonNull (t : ast.Type_) : ast.Type_ * bool :=
  match t with
  | ast.NonNull _ OfType => (OfType, true)
  | _ => (t, false)
  end.

Fixpoint forM {A B} (l : list A) (f : A -> M B) : M (list B) :=
  match l with
  | [] => ret []
  | x :: rest => y <- f x ;; ys <- forM rest f ;; ret (y :: ys)
  end.

(** The first loop of [Finish]: every target of every entry gets the
    entry's packer. *)
Definition linkEntry (h : Heap) (entry : typePair * packerMapEntry) : Heap :=
  foldl (setTarget (epacker entry.2)) h (targets entry.2).

Definition linkTargets (m : list (typePair * packerMapEntry)) (h : Heap)
  : Heap :=
  foldl linkEntry h m.

(** [p.defaultStruct = d] for the struct packer at [a]. *)
Definition setDefaultStruct (a : addr) (d : rvalue) (h : Heap) : Heap :=
  match packers h !! a with
  | Some (StructPacker structType usePtr _ fields) =>
      {| packers := <[a := StructPacker structType usePtr d fields]>
                      (packers h);
         sfields := sfields h |}
  | _ => h
  end.

(** The fields of a struct packer that declare a default value, in the
    packer's order, each with the deserialized default. *)
Definition defaultFields (h : Heap) (fields : list addr)
  : list (structPackerField * value) :=
  omap (fun fa => f ← sfields h !! fa; d ← def f;
                  Some (f, ast.Deserialize d))
       fields.

Section Build.
Variable p : Program.
Variable schema : ast.Schema.

Section Methods.
(** The recursive call. *)
Variable assignPacker : target -> ast.Type_ -> GoType -> M unit.

(** One round of the loop of [MakeStructPacker]. *)
Definition makeField (typ structType : GoType)
    (v : ast.InputValueDefinition) : M addr :=
  let name := ast.Name v in
  fe <- newField {| name := name; index := [];
                    def := ast.Default v; fpacker := None |} ;;
  let fx := fun n =>
    EqualFold (stripUnderscore n) (stripUnderscore name) in
  match FieldByNameFunc p structType fx with
  | None =>
      fail (Errorf "%s does not define field %q (hint: missing `args struct { ... }` wrapper for field arguments, or missing field on input struct)"
              [AType (Some typ); AString name])
  | Some (sf, idx) =>
      if negb (bool_decide (sfPkgPath sf = EmptyString)) then
        fail (Errorf "field %q must be exported" [AString (sfName sf)])
      else if (unwrapNonNull (ast.Type' v)).2
              && bool_decide (Kind p (sfType sf) = reflect.Ptr) then
        fail (Errorf "field %q must be a non-pointer since the parameter is required"
                [AString (sfName sf)])
      else
        modify (withHeap (setFieldIndex fe idx)) ;;;
        ft <- match ast.Default v with
              | Some _ => newNonNull (unwrapNonNull (ast.Type' v)).1
              | None => ret (ast.Type' v)
              end ;;
        wrapErr (assignPacker (packerOf fe) ft (sfType sf))
          (fun err => Errorf "field %q: %s"
                        [AString (sfName sf); AError err]) ;;;
        ret fe
  end.

Definition MakeStructPacker (values : list ast.InputValueDefinition)
    (typ : GoType) : M addr :=
  let '(structType, usePtr) :=
    if bool_decide (Kind p typ = reflect.Ptr)
    then (default typ (Elem p typ), true) else (typ, false) in
  if negb (bool_decide (Kind p structType = reflect.Struct)) then
    fail (Errorf "expected struct or pointer to struct, got %s (hint: missing `args struct { ... }` wrapper for field arguments?)"
            [AType (Some typ)])
  else
    fields <- forM values (makeField typ structType) ;;
    a <- newPacker (StructPacker structType usePtr RInvalid fields) ;;
    modify (fun b =>
      {| packerMap := packerMap b;
         structPackers := structPackers b ++ [a];
         heap := heap b;
         allocated := allocated b |}) ;;;
    ret a.

Definition makeNonNullPacker (schemaType : ast.Type_)
    (reflectType : GoType) : M addr :=
  match unmarshaler_of p reflectType with
  | Some u =>
      if negb (ImplementsGraphQLType u (ast.String schemaType)) then
        fail (Errorf "can not unmarshal %s into %s"
                [ASchemaType schemaType; AType (Some reflectType)])
      else newPacker (unmarshalerPacker reflectType)
  | None =>
      match schemaType with
      | ast.ScalarTypeDefinition _ => newPacker (ValuePacker reflectType)
      | ast.EnumTypeDefinition _ =>
          if negb (bool_decide (Kind p reflectType = reflect.String)) then
            fail (Errorf "wrong type, expected %s" [AKind reflect.String])
          else newPacker (ValuePacker reflectType)
      | ast.InputObject t =>
          MakeStructPacker (schema t) reflectType
      | ast.List _ OfType =>
          match Kind p reflectType, Elem p reflectType with
          | reflect.Slice, Some et =>
              a <- newPacker (listPacker reflectType None) ;;
              assignPacker (elemOf a) OfType et ;;;
              ret a
          | _, _ =>
              fail (Errorf "expected slice, got %s"
                      [AType (Some reflectType)])
          end
      | ast.ObjectTypeDefinition _
      | ast.InterfaceTypeDefinition _
      | ast.Union _ =>
          fail (Errorf "type of kind %s can not be used as input"
                  [AString (ast.Kind schemaType)])
      | ast.NonNull _ _ => panic          (* panic("unreachable") *)
      end
  end.

Definition makePacker (schemaType : ast.Type_) (reflectType : GoType)
  : M addr :=
  let '(t, nonNull) := unwrapNonNull schemaType in
  if negb nonNull then
    if bool_decide (Kind p reflectType = reflect.Ptr) then
      let '(elemType, addPtr) :=
        match t with
        | ast.InputObject _ => (reflectType, false)
                               (* keep pointer for input objects *)
        | _ => (default reflectType (Elem p reflectType), true)
        end in
      elem <- makeNonNullPacker t elemType ;;
      newPacker (nullPacker (Some elem) reflectType addPtr)
    else if isNullable p reflectType then
      elem <- makeNonNullPacker t reflectType ;;
      newPacker (nullPacker (Some elem) reflectType false)
    else
      fail (Errorf "%s is not a pointer or a nullable type"
              [AType (Some reflectType)])
  else makeNonNullPacker t reflectType.

Definition assignPacker_body (tgt : target) (schemaType : ast.Type_)
    (reflectType : GoType) : M unit :=
  let k := {| graphQLType := schemaType; resolverType := reflectType |} in
  (fun b =>
     match lookupEntry k (packerMap b) with
     | None =>
         (modify (withPackerMap (fun m =>
                    m ++ [(k, {| epacker := None; targets := [] |})])) ;;;
          pk <- makePacker schemaType reflectType ;;
          modify (withPackerMap (updateEntry k (fun e =>
                    {| epacker := Some pk; targets := targets e |})))) b
     | Some _ => (Ok tt, b)
     end) ;;;
  modify (withPackerMap (updateEntry k (fun e =>
            {| epacker := epacker e; targets := targets e ++ [tgt] |}))).
End Methods.

(** The body of the inner loop of [Finish], for the field at [fa] of the
    struct packer at [a]. *)
Definition finishField (fuel : nat) (a fa : addr) : M unit :=
  fun b =>
    match sfields (heap b) !! fa with
    | None => (Panic, b)
    | Some f =>
        match def f with
        | None => (Ok tt, b)
        | Some defaultVal =>
            match Pack p fuel (heap b) (fpacker f)
                    (ast.Deserialize defaultVal) with
            | Ok v =>
                match packers (heap b) !! a with
                | Some (StructPacker _ _ d _) =>
                    match SetField p d (index f) v with
                    | Ok d' => (Ok tt, withHeap (setDefaultStruct a d') b)
                    | Err e => (Err e, b)
                    | Panic => (Panic, b)
                    | OutOfFuel => (OutOfFuel, b)
                    end
                | _ => (Panic, b)
                end
            | Err err => (Err err, b)
            | Panic => (Panic, b)
            | OutOfFuel => (OutOfFuel, b)
            end
        end
    end.

(** The body of the second loop of [Finish], for the struct packer
    at [a]. *)
Definition finishStruct (fuel : nat) (a : addr) : M unit :=
  fun b =>
    match packers (heap b) !! a with
    | Some (StructPacker structType _ _ fields) =>
        (modify (withHeap (setDefaultStruct a (RStruct structType []))) ;;;
         forM fields (finishField fuel a) ;;;
         ret tt) b
    | _ => (Panic, b)
    end.

(** [Finish].  [fuel] bounds the depth of the [Pack] calls on the default
    values. *)
Definition Finish (fuel : nat) : M unit :=
  modify (fun b => withHeap (linkTargets (packerMap b)) b) ;;;
  (fun b => (forM (structPackers b) (finishStruct fuel) ;;; ret tt) b).

(** [assignPacker], unfolded [fuel] levels deep. *)
Fixpoint assignPacker (fuel : nat) (tgt : target) (schemaType : ast.Type_)
    (reflectType : GoType) : M unit :=
  match fuel with
  | O => fun b => (OutOfFuel, b)
  | S fuel =>
      assignPacker_body (assignPacker fuel) tgt schemaType reflectType
  end.
End Build.

(* ===================================================================== *)
(** * Vocabulary for the builder's properties *)
(* ===================================================================== *)

(** [R] relates the builder before and after [m], whatever [m] returns. *)
Definition always {A} (R : Builder -> Builder -> Prop) (m : M A) : Prop :=
  forall b, R b (m b).2.

(** [P] survives [m] whenever [m] returns without an error. *)
Definition keeps {A} (P : Builder -> Prop) (m : M A) : Prop :=
  forall b a b', P b -> m b = (Ok a, b') -> P b'.

(** A packer object none of whose late-bound parts is set: no default
    prototype, no element packer. *)
Definition unsetObj (o : packerObj) : Prop :=
  match o with
  | StructPacker _ _ defaultStruct _ => defaultStruct = RInvalid
  | listPacker _ elem => elem = None
  | _ => True
  end.

(** A heap in which nothing is linked yet. *)
Definition unlinked (h : Heap) : Prop :=
  Forall unsetObj (packers h) /\
  Forall (fun f => fpacker f = None) (sfields h).

(** What building does to the memory: packer objects are added and never
    changed, and nothing gets linked. *)
Definition grows (b b' : Builder) : Prop :=
  packers (heap b) `prefix_of` packers (heap b') /\
  (unlinked (heap b) -> unlinked (heap b')).

(** A packer object for a non-null position: anything but the nullable
    wrapper. *)
Definition nonNullObj (o : packerObj) : Prop :=
  match o with nullPacker _ _ _ => False | _ => True end.

(** A packer object that answers null with [got null for non-null]: a value
    packer, a struct packer, or an unmarshaler packer of a type that is not
    a [NullUnmarshaller]. *)
Definition rejectsNull (p : Program) (o : packerObj) : Prop :=
  match o with
  | ValuePacker _ | StructPacker _ _ _ _ => True
  | unmarshalerPacker T => isNullable p T = false
  | _ => False
  end.

(** A map key the builder can build a packer for, as far as nullability
    goes: a non-null type, or a Go type that can hold null. *)
Definition okKey (p : Program) (k : typePair) : Prop :=
  (unwrapNonNull (graphQLType k)).2 = true \/
  Kind p (resolverType k) = reflect.Ptr \/
  isNullable p (resolverType k) = true.

Definition okKeys (p : Program) (b : Builder) : Prop :=
  Forall (okKey p) (packerMap b).*1.

(** A builder as [NewBuilder] and successful calls of [MakeStructPacker]
    leave it. *)
Inductive built (p : Program) (schema : ast.Schema) : Builder -> Prop :=
| built_new : built p schema NewBuilder
| built_make fuel values typ b a b' :
    built p schema b ->
    MakeStructPacker p (assignPacker p schema fuel) values typ b = (Ok a, b') ->
    built p schema b'.

(** What a [*packer] points at holds; [None] if there is no such
    location. *)
Definition slot (h : Heap) (t : target) : option packer :=
  match t with
  | elemOf a =>
      match packers h !! a with
      | Some (listPacker _ elem) => Some elem
      | _ => None
      end
  | packerOf fe => fpacker <$> sfields h !! fe
  end.

(** Two builders with the same map, the same struct packers and the same
    contents in every location a target can point at. *)
Definition sameLinks (b b' : Builder) : Prop :=
  (forall t, slot (heap b') t = slot (heap b) t) /\
  packerMap b' = packerMap b /\
  structPackers b' = structPackers b.

(** All the targets recorded in the map, entry after entry. *)
Definition allTargets (b : Builder) : list target :=
  concat ((fun ke : typePair * packerMapEntry => targets ke.2)
            <$> packerMap b).

(** The entry for a pair the first time it is requested, and the two
    updates that follow. *)
Definition reserved (k : typePair) (b : Builder) : Builder :=
  withPackerMap (fun m => m ++ [(k, {| epacker := None; targets := [] |})]) b.

Definition filled (k : typePair) (pk : addr) (b : Builder) : Builder :=
  withPackerMap (updateEntry k (fun e =>
    {| epacker := Some pk; targets := targets e |})) b.

Definition recorded (k : typePair) (tgt : target) (b : Builder) : Builder :=
  withPackerMap (updateEntry k (fun e =>
    {| epacker := epacker e; targets := targets e ++ [tgt] |})) b.

(** What building does to the map: an entry stays under its key, with its
    packer, and the targets recorded for it stay, in their order, before
    those recorded later. *)
Definition slotsStay (b b' : Builder) : Prop :=
  forall k e,
    lookupEntry k (packerMap b) = Some e ->
    exists e',
      lookupEntry k (packerMap b') = Some e' /\
      epacker e' = epacker e /\
      targets e `prefix_of` targets e'.

(** The Go struct field that [MakeStructPacker] matches with a schema
    name: same name up to case and underscores. *)
Definition matchField (p : Program) (structType : GoType) (name : string)
  : option (StructField * list nat) :=
  FieldByNameFunc p structType
    (fun n => EqualFold (stripUnderscore n) (stripUnderscore name)).

(** The state in which [makeField] looks for the Go field: the builder
    with the new [structPackerField]. *)
Definition withNewField (v : ast.InputValueDefinition) (b : Builder)
  : Builder :=
  (newField {| name := ast.Name v; index := [];
               def := ast.Default v; fpacker := None |} b).2.

(** The struct type [MakeStructPacker] works on. *)
Definition structTypeOf (p : Program) (typ : GoType) : GoType :=
  if bool_decide (Kind p typ = reflect.Ptr)
  then default typ (Elem p typ) else typ.

(** A required argument bound to a pointer member. *)
Definition requiredButPointer (p : Program) (structType : GoType)
    (v : ast.InputValueDefinition) : Prop :=
  (unwrapNonNull (ast.Type' v)).2 = true /\
  exists sf idx, matchField p structType (ast.Name v) = Some (sf, idx) /\
    Kind p (sfType sf) = reflect.Ptr.

(** An optional argument, without a default value, bound to a member that
    cannot hold null. *)
Definition optionalButPlain (p : Program) (structType : GoType)
    (v : ast.InputValueDefinition) : Prop :=
  (unwrapNonNull (ast.Type' v)).2 = false /\
  ast.Default v = None /\
  exists sf idx, matchField p structType (ast.Name v) = Some (sf, idx) /\
    Kind p (sfType sf) <> reflect.Ptr /\
    isNullable p (sfType sf) = false.

(** ** Well-formed builders *)

(** A non-null GraphQL type. *)
Definition isNonNullType (t : ast.Type_) : Prop := (unwrapNonNull t).2 = true.

(** A location that exists in the heap, and one that is yet to be
    allocated. *)
Definition validTarget (h : Heap) (t : target) : Prop := is_Some (slot h t).

Definition freshTarget (h : Heap) (t : target) : Prop :=
  match t with
  | elemOf a => (length (packers h) <= a)%nat
  | packerOf fe => (length (sfields h) <= fe)%nat
  end.

(** What holds of a builder between two calls of its methods: the map has
    one entry per pair; no location is recorded twice, and every recorded
    location exists; the packer of an entry exists, and is no nullable
    wrapper if the entry's type is non-null; a field with a default value
    is recorded under a non-null type; and every field of every struct
    packer is recorded. *)
Record WF (b : Builder) : Prop := {
  wf_keys : NoDup (packerMap b).*1;
  wf_nodup : NoDup (allTargets b);
  wf_valid : forall t, t ∈ allTargets b -> validTarget (heap b) t;
  wf_packer : forall k e a,
    (k, e) ∈ packerMap b -> epacker e = Some a ->
    exists o, packers (heap b) !! a = Some o /\
              (isNonNullType (graphQLType k) -> nonNullObj o);
  wf_default : forall k e fe f,
    (k, e) ∈ packerMap b -> packerOf fe ∈ targets e ->
    sfields (heap b) !! fe = Some f -> def f <> None ->
    isNonNullType (graphQLType k);
  wf_fields : forall a st up d fs fe,
    packers (heap b) !! a = Some (StructPacker st up d fs) -> fe ∈ fs ->
    packerOf fe ∈ allTargets b;
}.

(** What a successful call does to the builder, [extra] being the targets
    the caller asked to record: objects are added and not changed, fields
    keep their default, map keys and recorded targets stay, a newly
    recorded target is newly allocated (or one of [extra]), and no entry is
    left without a packer that had one or was not there. *)
Definition extends (extra : list target) (b b' : Builder) : Prop :=
  packers (heap b) `prefix_of` packers (heap b') /\
  (length (sfields (heap b)) <= length (sfields (heap b')))%nat /\
  (forall fe f, sfields (heap b) !! fe = Some f ->
     exists f', sfields (heap b') !! fe = Some f' /\ def f' = def f) /\
  (forall t, t ∈ allTargets b -> t ∈ allTargets b') /\
  (forall t, t ∈ allTargets b' ->
     t ∈ allTargets b \/ freshTarget (heap b) t \/ t ∈ extra) /\
  (forall k e, (k, e) ∈ packerMap b' -> epacker e = None ->
     exists e0, (k, e0) ∈ packerMap b /\ epacker e0 = None) /\
  (forall k, k ∈ (packerMap b).*1 -> k ∈ (packerMap b').*1).

(** The contract of [assignPacker]: called on a well-formed builder with a
    location that exists and is not yet recorded (under a non-null type if
    it is the packer of a field with a default value), it leaves, when it
    succeeds, a well-formed builder in which the location is recorded. *)
Definition assignSpec (assign : target -> ast.Type_ -> GoType -> M unit)
  : Prop :=
  forall tgt t T b r b',
    WF b -> validTarget (heap b) tgt -> tgt ∉ allTargets b ->
    (forall fe f, tgt = packerOf fe -> sfields (heap b) !! fe = Some f ->
                  def f <> None -> isNonNullType t) ->
    assign tgt t T b = (Ok r, b') ->
    WF b' /\ extends [tgt] b b' /\ tgt ∈ allTargets b'.

(** The contract of the other methods: from a well-formed builder, a
    successful call leaves a well-formed one, and [Q] holds of what it
    returns. *)
Definition methodSpec {A} (m : M A) (Q : A -> Builder -> Prop) : Prop :=
  forall b r b',
    WF b -> m b = (Ok r, b') -> WF b' /\ extends [] b b' /\ Q r b'.

(** The constructor of a packer object, which [Finish] does not change. *)
Definition sameShape (o o' : packerObj) : Prop :=
  match o, o' with
  | StructPacker st up _ fs, StructPacker st' up' _ fs' =>
      st = st' /\ up = up' /\ fs = fs'
  | listPacker st _, listPacker st' _ => st = st'
  | nullPacker e vt ap, nullPacker e' vt' ap' => e = e' /\ vt = vt' /\ ap = ap'
  | ValuePacker t, ValuePacker t' => t = t'
  | unmarshalerPacker t, unmarshalerPacker t' => t = t'
  | _, _ => False
  end.

(** Two heaps with the same packer objects up to their late-bound parts. *)
Definition sameShapes (h h' : Heap) : Prop :=
  forall a o, packers h !! a = Some o ->
    exists o', packers h' !! a = Some o' /\ sameShape o o'.

Definition keepsShapes (b b' : Builder) : Prop :=
  sameShapes (heap b) (heap b').

(* ===================================================================== *)
(** * The programs of the test-suite *)
(* ===================================================================== *)

(** The declarations of [graphql_test.go] that the input tests use:
    [type recursive struct { Next *recursive }], [type StringEnum string],
    and [IntEnum], which has the [decode.Unmarshaler] methods. *)
Definition testProgram : Program :=
  {| underlying := fun n =>
       if bool_decide (n = "recursive") then
         TStruct [mkStructField "Next" "" (TPtr (TNamed "recursive"))]
       else if bool_decide (n = "StringEnum") then TString
       else if bool_decide (n = "IntEnum") then TInt
       else TInterface;
     methods := fun n =>
       if bool_decide (n = "IntEnum") then
         Some {| ImplementsGraphQLType := fun s => bool_decide (s = "IntEnum");
                 UnmarshalGraphQL := fun input =>
                   match input with
                   | VString _ => None
                   | _ => Some (Errorf "wrong type for IntEnum: %T"
                                  [AType (TypeOf input)])
                   end;
                 Nullable := false |}
       else None;
     int32_unrepresentable := fun _ => math.MinInt32 |}.

(** A program that declares [type Celsius int32], a defined type without
    methods. *)
Definition celsiusProgram : Program :=
  {| underlying := fun n =>
       if bool_decide (n = "Celsius") then TInt32 else TInterface;
     methods := fun _ => None;
     int32_unrepresentable := fun _ => math.MinInt32 |}.

(** A program that declares [graphql.Time]: a struct around [time.Time]
    with the [decode.Unmarshaler] methods.  Its [UnmarshalGraphQL] takes
    strings and numbers (every string is taken to parse as a time). *)
Definition timeProgram : Program :=
  {| underlying := fun n =>
       if bool_decide (n = "Time") then
         TStruct [mkStructField "Time" "" (TNamed "time.Time")]
       else TStruct [];
     methods := fun n =>
       if bool_decide (n = "Time") then
         Some {| ImplementsGraphQLType := fun s => bool_decide (s = "Time");
                 UnmarshalGraphQL := fun input =>
                   match input with
                   | VString _ | VInt32 _ | VInt _ | VFloat64 _ => None
                   | _ => Some (Errorf "wrong type for Time: %T"
                                  [AType (TypeOf input)])
                   end;
                 Nullable := false |}
       else None;
     int32_unrepresentable := fun _ => math.MinInt32 |}.

(** A program that declares [graphql.NullString]: a struct of a [*string]
    and a flag, with the [decode.Unmarshaler] methods and [Nullable].  Its
    [UnmarshalGraphQL] takes null and strings. *)
Definition nullStringProgram : Program :=
  {| underlying := fun n =>
       if bool_decide (n = "NullString") then
         TStruct [mkStructField "Value" "" (TPtr TString);
                  mkStructField "Set" "" TBool]
       else TStruct [];
     methods := fun n =>
       if bool_decide (n = "NullString") then
         Some {| ImplementsGraphQLType := fun s => bool_decide (s = "String");
                 UnmarshalGraphQL := fun input =>
                   match input with
                   | VNil | VString _ => None
                   | _ => Some (Errorf "wrong type for String: %T"
                                  [AType (TypeOf input)])
                   end;
                 Nullable := true |}
       else None;
     int32_unrepresentable := fun _ => math.MinInt32 |}.

(** Arguments [(name: String = "World")] bound to [struct{ Name
    graphql.NullString }], and [(ids: [Int] = [1])] bound to [struct{ Ids
    []*int32 }]. *)
Definition nameArguments : list ast.InputValueDefinition :=
  [ {| ast.Name := "name";
       ast.Type' := ast.ScalarTypeDefinition "String";
       ast.Default := Some (VString "World") |} ].

Definition nameArgs : GoType :=
  TStruct [mkStructField "Name" "" (TNamed "NullString")].

Definition idsArguments : list ast.InputValueDefinition :=
  [ {| ast.Name := "ids";
       ast.Type' := ast.List (ast.Parsed 0) (ast.ScalarTypeDefinition "Int");
       ast.Default := Some (VList [VInt32 1]) |} ].

Definition idsArgs : GoType :=
  TStruct [mkStructField "Ids" "" (TSlice (TPtr TInt32))].

(** Arguments [(value: Int!)] and [(value: Int)], and the structs
    [{ Value *int32 }] and [{ Value int32 }] to bind them to; and
    [(name: String!)], to bind to [struct{ Name graphql.NullString }]. *)
Definition requiredArguments : list ast.InputValueDefinition :=
  [ {| ast.Name := "value";
       ast.Type' := ast.NonNull (ast.Parsed 0) (ast.ScalarTypeDefinition "Int");
       ast.Default := None |} ].

Definition optionalArguments : list ast.InputValueDefinition :=
  [ {| ast.Name := "value";
       ast.Type' := ast.ScalarTypeDefinition "Int";
       ast.Default := None |} ].

Definition pointerArgs : GoType :=
  TStruct [mkStructField "Value" "" (TPtr TInt32)].

Definition plainArgs : GoType :=
  TStruct [mkStructField "Value" "" TInt32].

Definition requiredNameArguments : list ast.InputValueDefinition :=
  [ {| ast.Name := "name";
       ast.Type' :=
         ast.NonNull (ast.Parsed 0) (ast.ScalarTypeDefinition "String");
       ast.Default := None |} ].

(** The arguments of [addHour(time: Time = "2001-02-03T04:05:06Z"): Time!]
    of [TestTime], and the [args struct{ Time graphql.Time }] of
    [timeResolver.AddHour]. *)
Definition addHourArguments : list ast.InputValueDefinition :=
  [ {| ast.Name := "time";
       ast.Type' := ast.ScalarTypeDefinition "Time";
       ast.Default := Some (VString "2001-02-03T04:05:06Z") |} ].

Definition addHourArgs : GoType :=
  TStruct [mkStructField "Time" "" (TNamed "Time")].

(** Arguments [(first: Int = 10, after: String)] and a struct [{ First int32;
    After *string }] for them: one argument with a default value, one
    without. *)
Definition pageArguments : list ast.InputValueDefinition :=
  [ {| ast.Name := "first";
       ast.Type' := ast.ScalarTypeDefinition "Int";
       ast.Default := Some (VInt32 10) |};
    {| ast.Name := "after";
       ast.Type' := ast.ScalarTypeDefinition "String";
       ast.Default := None |} ].

Definition pageArgs : GoType :=
  TStruct [mkStructField "First" "" TInt32;
           mkStructField "After" "" (TPtr TString)].

(** Arguments [(first: Int = 10, last: Int = 20)] and a struct [{ First
    int32; Last int32 }] for them: two arguments of one type, each with a
    default value. *)
Definition rangeArguments : list ast.InputValueDefinition :=
  [ {| ast.Name := "first";
       ast.Type' := ast.ScalarTypeDefinition "Int";
       ast.Default := Some (VInt32 10) |};
    {| ast.Name := "last";
       ast.Type' := ast.ScalarTypeDefinition "Int";
       ast.Default := Some (VInt32 20) |} ].

Definition rangeArgs : GoType :=
  TStruct [mkStructField "First" "" TInt32;
           mkStructField "Last" "" TInt32].

(** [input Input { v: Int! }] and [input RecursiveInput { next:
    RecursiveInput }] of [TestInput]. *)
Definition testSchema : ast.Schema := fun n =>
  if bool_decide (n = "Input") then
    [ {| ast.Name := "v";
         ast.Type' := ast.NonNull (ast.Parsed 0) (ast.ScalarTypeDefinition "Int");
         ast.Default := None |} ]
  else if bool_decide (n = "RecursiveInput") then
    [ {| ast.Name := "next";
         ast.Type' := ast.InputObject "RecursiveInput";
         ast.Default := None |} ]
  else [].

(** [args struct{ Value *recursive }] of [inputResolver.Recursive]. *)
Definition recursiveArgs : GoType :=
  TStruct [mkStructField "Value" "" (TPtr (TNamed "recursive"))].

(** The loop [for v != nil { v = v.Next; n++ }] of [inputResolver.Recursive],
    with [n] an [int32]: [n++] wraps around.  [fuel] bounds the number of
    rounds; [None] when it is too small for the chain. *)
Fixpoint chainLength (fuel : nat) (v : rvalue) (n : Z) : option Z :=
  match v with
  | RNew _ s =>
      match fuel with
      | O => None
      | S fuel =>
          let n' := int32_of_int (n + 1) in
          match FieldByIndex s [0%nat] with
          | Some next => chainLength fuel next n'
          | None => Some n'           (* [v.Next] is nil *)
          end
      end
  | _ => Some n                       (* [v] is nil *)
  end.

(** [inputResolver.Recursive]: [var n int32; v := args.Value], the loop,
    [return n]. *)
Definition Recursive (fuel : nat) (args : rvalue) : option Z :=
  match FieldByIndex args [0%nat] with
  | Some v => chainLength fuel v 0
  | None => Some 0
  end.

(** The argument of [recursive(value: RecursiveInput)]. *)
Definition recursiveArguments : list ast.InputValueDefinition :=
  [ {| ast.Name := "value";
       ast.Type' := ast.InputObject "RecursiveInput";
       ast.Default := None |} ].

(** The input [{next: {next: ... {}}}] with [n] times [next], and the chain
    of [n + 1] structs it packs to. *)
Fixpoint nested (n : nat) : value :=
  match n with
  | O => VMap ∅
  | S n => VMap {[ "next" := nested n ]}
  end.

Fixpoint chain (n : nat) : rvalue :=
  match n with
  | O => RNew (TNamed "recursive") (RStruct (TNamed "recursive") [])
  | S n =>
      RNew (TNamed "recursive")
        (RStruct (TNamed "recursive") [([0%nat], chain n)])
  end.

(** Modelled from the spec: "Ordering guarantee: finish runs only after all
    reachable packers are built".  The schema builder makes the packers of
    a field's arguments with [MakeStructPacker] and runs [Finish] when all
    is built, in the order that [newMeta] of [meta.go] shows; its
    [makeObjectExec] and [finish] are missing from the sources. *)
Definition buildArgs (p : Program) (schema : ast.Schema) (fuel : nat)
    (values : list ast.InputValueDefinition) (typ : GoType)
  : res addr * Builder :=
  (a <- MakeStructPacker p (assignPacker p schema fuel) values typ ;;
   Finish p fuel ;;;
   ret a) NewBuilder.

(** The packers of [(first: Int = 10, after: String)], before and after
    [Finish]. *)
Definition pageBuilt : res addr * Builder :=
  Eval vm_compute in
    MakeStructPacker testProgram (assignPacker testProgram testSchema 4)
      pageArguments pageArgs NewBuilder.

(** The same after the first loop of [Finish] only. *)
Definition pageLinked : Builder :=
  Eval vm_compute in
    withHeap (linkTargets (packerMap pageBuilt.2)) pageBuilt.2.

Definition pageFinished : res addr * Builder :=
  Eval vm_compute in buildArgs testProgram testSchema 4 pageArguments pageArgs.

(** The packers of [list(value: [Input!]!)] for the [args struct{ Value
    []*struct{ V int32 } }] of [inputResolver.List]. *)
Definition listArguments : list ast.InputValueDefinition :=
  [ {| ast.Name := "value";
       ast.Type' :=
         ast.NonNull (ast.Parsed 1)
           (ast.List (ast.Parsed 2)
              (ast.NonNull (ast.Parsed 3) (ast.InputObject "Input")));
       ast.Default := None |} ].

Definition inputStruct : GoType := TStruct [mkStructField "V" "" TInt32].

Definition listArgs : GoType :=
  TStruct [mkStructField "Value" "" (TSlice (TPtr inputStruct))].

Definition listFinished : res addr * Builder :=
  Eval vm_compute in
    buildArgs testProgram testSchema 4 listArguments listArgs.

(** The packers of [(name: String = "World")] and of [(ids: [Int] = [1])],
    after [Finish]. *)
Definition nameFinished : res addr * Builder :=
  Eval vm_compute in
    buildArgs nullStringProgram testSchema 4 nameArguments nameArgs.

Definition idsFinished : res addr * Builder :=
  Eval vm_compute in
    buildArgs testProgram testSchema 4 idsArguments idsArgs.

(** The packers of [recursive(value: RecursiveInput)], before and after
    [Finish]. *)
Definition recursiveBuilt : res addr * Builder :=
  Eval vm_compute in
    MakeStructPacker testProgram (assignPacker testProgram testSchema 4)
      recursiveArguments recursiveArgs NewBuilder.

Definition recursiveFinished : res addr * Builder :=
  Eval vm_compute in
    buildArgs testProgram testSchema 4 recursiveArguments recursiveArgs.

(* ===================================================================== *)
(** * The executor *)
(* ===================================================================== *)

(** The executor ([internal/exec]) is not among the sources: only its
    tests are.  This section follows the specification's "Executor"
    chapter (field resolution, value completion, operation kinds). *)
Module exec.

(** Modelled from the spec: the response tree, "keys preserve the order of
    their first appearance in the selection set" (the executor's output
    buffer is missing from the sources). *)
Inductive json :=
| JNull
| JInt (n : Z)
| JString (s : string)
| JArray (l : list json)
| JObject (kv : list (string * json)).

(** Modelled from the spec: the execution path, "an ordered sequence of
    segments, each a field response-key or a list index". *)
Inductive segment :=
| Key (k : string)
| Index (i : nat).

#[global] Instance segment_eq_dec : EqDecision segment.
Proof. solve_decision. Defined.

(** Modelled from the spec: a wire error, "{ message, path?, locations?,
    rule?, extensions? }", without the source locations. *)
Record QueryError := {
  Message : string;
  Path : list segment;
  Extensions : option (gmap string value);
}.

(** Modelled from the spec: a resolver error, with the [extensions()] map
    it may expose. *)
Record ResolverError := {
  Error : string;
  ErrorExtensions : option (gmap string value);
}.

(** Modelled from the spec: a field of a selection set, with its response
    key (the alias, or the field name). *)
Inductive Selection :=
| Field (alias : option string) (fname : string)
    (args : gmap string value) (sels : list Selection).

Definition responseKey (s : Selection) : string :=
  match s with Field (Some a) _ _ _ => a | Field None n _ _ => n end.

(** Modelled from the spec: the kind of an operation.  A subscription is
    not run by the plain execution path and is left out. *)
Inductive OperationKind := Query | Mutation.

(** Modelled from the spec: "Mutations disable the parallelism at the top
    level". *)
Definition isSerial (kind : OperationKind) : bool :=
  match kind with Mutation => true | Query => false end.

(** Modelled from the spec: a field group, "a response key (alias or field
    name) and the concatenated set of subselections from all spreads that
    landed on it".  The field and the arguments are those of the first
    selection with the key (validation makes the others agree). *)
Record FieldGroup := {
  gkey : string;
  gname : string;
  gargs : gmap string value;
  gsels : list Selection;
}.

(** Modelled from the spec: a selection joins the field group of its
    response key, or starts a group at the end of the list. *)
Fixpoint addField (sel : Selection) (groups : list FieldGroup)
  : list FieldGroup :=
  match groups with
  | [] =>
      let 'Field _ fname args sub := sel in
      [{| gkey := responseKey sel; gname := fname; gargs := args;
          gsels := sub |}]
  | g :: rest =>
      if bool_decide (gkey g = responseKey sel) then
        let 'Field _ _ _ sub := sel in
        {| gkey := gkey g; gname := gname g; gargs := gargs g;
           gsels := gsels g ++ sub |} :: rest
      else g :: addField sel rest
  end.

(** Modelled from the spec: selection collection, "an ordered list of field
    groups", the keys in the order of their first appearance.  Fragment
    spreads and the [@skip] and [@include] directives are taken as applied:
    a selection set lists the fields that landed on the object. *)
Definition collectFields (sels : list Selection) : list FieldGroup :=
  foldl (fun groups sel => addField sel groups) [] sels.


(** Modelled from the spec: the scheduling of the "parallel tasks" of a
    selection set (the scheduler is missing from the sources).  For the
    selection set at a path, with [n] field groups, a schedule names the
    order in which the groups are run; the groups themselves run one at a
    time. *)
Definition Schedule := list segment -> nat -> list nat.

(** Modelled from the spec: "no ordering constraint".  The order that a
    schedule's answer stands for: every group once, those the answer names
    first and in its order, the others after them. *)
Definition runOrder (n : nat) (wish : list nat) : list nat :=
  let named := remove_dups (filter (fun i => i < n)%nat wish) in
  named ++ filter (fun i => i ∉ named) (seq 0 n).

(** Modelled from the spec: the two moments of a field that "each must
    complete (including nested completion) before the next begins" is
    about, the start of its resolution and the end of its completion, each
    with the field's path.  (They are the moments at which the field hook
    of the tracer and its finish callback are called.) *)
Inductive event :=
| Started (path : list segment)
| Finished (path : list segment).


(** Modelled from the spec: the return type of each field of each object
    type of the compiled schema. *)
Definition FieldTypes := string -> string -> option ast.Type_.

(** What was completed for the group at an index. *)
Fixpoint lookupDone {A} (i : nat) (done : list (nat * A)) : option A :=
  match done with
  | [] => None
  | (j, c) :: rest => if bool_decide (j = i) then Some c else lookupDone i rest
  end.

(** Modelled from the spec: "the response preserves selection-set order":
    the completed groups under their keys, in the order of the groups. *)
Definition assemble {A} (groups : list FieldGroup) (done : list (nat * A))
  : list (string * A) :=
  omap (fun ig : nat * FieldGroup =>
          (fun c => (gkey ig.2, c)) <$> lookupDone ig.1 done)
       (imap (fun i g => (i, g)) groups).

Section Exec.
(** What resolvers share and may change. *)
Context {Store : Type}.

(** Modelled from the spec: what a resolver call gives back, "(value) |
    (value, error)": [Fail] is a non-empty error, [Nil] a null value, and
    an object is the resolver of its fields. *)
Inductive resolved :=
| Nil
| Fail (e : ResolverError)
| Scalar (j : json)
| Items (l : list resolved)
| Object (typeName : string)
    (call : string -> gmap string value -> Store -> resolved * Store).

(** The per-request state: the resolvers' state, the error accumulator and
    the events so far. *)
Record State := {
  store : Store;
  errors : list QueryError;
  history : list event;
}.

Definition addError (e : QueryError) (st : State) : State :=
  {| store := store st; errors := errors st ++ [e];
     history := history st |}.

Definition addEvent (e : event) (st : State) : State :=
  {| store := store st; errors := errors st;
     history := history st ++ [e] |}.

(** The outcome of completing a value: a response value, or the null
    that a non-null position hands to its parent. *)
Inductive completed :=
| Value (j : json)
| PropagateNull
| Unfinished.                 (* the bound on the nesting was too small *)

Definition isNonNull (t : ast.Type_) : bool := (unwrapNonNull t).2.

(** A null at a position of type [t]: it stays if [t] is nullable and
    goes to the parent otherwise. *)
Definition nullAt (t : ast.Type_) : completed :=
  if isNonNull t then PropagateNull else Value JNull.

(** Collects the completed members of a list or an object; one
    propagated null makes the whole null. *)
Fixpoint collect {A} (l : list (A * completed)) : option (option (list (A * json))) :=
  match l with
  | [] => Some (Some [])
  | (a, c) :: rest =>
      match c, collect rest with
      | Unfinished, _ | _, None => None
      | PropagateNull, Some _ => Some None
      | Value j, Some r => Some ((fun r => (a, j) :: r) <$> r)
      end
  end.

Variable types : FieldTypes.
Variable sched : Schedule.

Section Members.
(** The completion of one value, as used for the members. *)
Variable complete :
  ast.Type_ -> list Selection -> list segment -> resolved -> State ->
  completed * State.

(** Modelled from the spec: "complete each element with its path
    extended by the index", the elements in source order, [i] being
    the index of the first one. *)
Fixpoint completeItems (OfType : ast.Type_) (sels : list Selection)
    (path : list segment) (i : nat) (l : list resolved) (st : State)
  : list (nat * completed) * State :=
  match l with
  | [] => ([], st)
  | x :: rest =>
      let '(c, st1) := complete OfType sels (path ++ [Index i]) x st in
      let '(cs, st2) := completeItems OfType sels path (S i) rest st1 in
      ((i, c) :: cs, st2)
  end.

(** Modelled from the spec: the resolution of one field group, "Field
    resolution": the resolver is invoked on the state of the moment and
    the value is completed, nested selections included.  A field that the
    object type does not have is not run. *)
Definition resolveGroup (typeName : string)
    (call : string -> gmap string value -> Store -> resolved * Store)
    (path : list segment) (g : FieldGroup) (st : State)
  : option (completed * State) :=
  match types typeName (gname g) with
  | None => None
  | Some ft =>
      let here := path ++ [Key (gkey g)] in
      let '(x, s') := call (gname g) (gargs g) (store st) in
      let '(c, st1) :=
        complete ft (gsels g) here x
          (addEvent (Started here)
             {| store := s'; errors := errors st; history := history st |}) in
      Some (c, addEvent (Finished here) st1)
  end.

(** Modelled from the spec: the field groups run in a given order, each
    on the state that the one before it left. *)
Fixpoint runGroups (typeName : string)
    (call : string -> gmap string value -> Store -> resolved * Store)
    (path : list segment) (groups : list FieldGroup) (order : list nat)
    (st : State) : list (nat * completed) * State :=
  match order with
  | [] => ([], st)
  | i :: rest =>
      match groups !! i ≫= (fun g => resolveGroup typeName call path g st) with
      | None => runGroups typeName call path groups rest st
      | Some (c, st1) =>
          let '(cs, st2) := runGroups typeName call path groups rest st1 in
          ((i, c) :: cs, st2)
      end
  end.


(** Modelled from the spec: the fields of a selection set on an object.
    The selections are collected into field groups; the groups run in
    selection order when the set is [serial], and in the order of the
    schedule otherwise ("no ordering constraint"); the response has them
    in selection order either way. *)
Definition resolveFields (serial : bool) (typeName : string)
    (call : string -> gmap string value -> Store -> resolved * Store)
    (path : list segment) (sels : list Selection) (st : State)
  : list (string * completed) * State :=
  let groups := collectFields sels in
  let n := length groups in
  let order := if serial then seq 0 n else runOrder n (sched path n) in
  let '(done, st') := runGroups typeName call path groups order st in
  (assemble groups done, st').
End Members.

(** Modelled from the spec: value completion ("Value completion", steps
    1 to 4, and "Field resolution").  A resolver error is reported at
    the field's path, with its extensions, and the value becomes null; a
    null in a non-null position is reported as [got nil for non-null];
    either null bubbles up to the nearest nullable ancestor.  The
    selection set of an object below the root is never serial.  [fuel]
    bounds the nesting of the selection sets and lists. *)
Fixpoint completeValue (fuel : nat) (t : ast.Type_) (sels : list Selection)
    (path : list segment) (r : resolved) (st : State)
  : completed * State :=
  match fuel with
  | O => (Unfinished, st)
  | S fuel =>
    let inner := (unwrapNonNull t).1 in
    match r with
    | Fail e =>
        (nullAt t,
         addError {| Message := Error e; Path := path;
                     Extensions := ErrorExtensions e |} st)
    | Nil =>
        if isNonNull t then
          (PropagateNull,
           addError {| Message := "graphql: got nil for non-null "
                                  +:+ String (ascii_of_nat 34) (ast.String inner)
                                  +:+ String (ascii_of_nat 34) EmptyString;
                       Path := path; Extensions := None |} st)
        else (Value JNull, st)
    | Scalar j => (Value j, st)
    | Items l =>
        match inner with
        | ast.List _ OfType =>
            let '(cs, st') :=
              completeItems (completeValue fuel) OfType sels path 0 l st in
            match collect cs with
            | None => (Unfinished, st')
            | Some None => (nullAt t, st')
            | Some (Some js) => (Value (JArray (snd <$> js)), st')
            end
        | _ => (nullAt t, st)
        end
    | Object typeName call =>
        let '(cs, st') :=
          resolveFields (completeValue fuel) false typeName call path sels
            st in
        match collect cs with
        | None => (Unfinished, st')
        | Some None => (nullAt t, st')
        | Some (Some kv) => (Value (JObject kv), st')
        end
    end
  end.

(** Modelled from the spec: the run of an operation on the root resolver
    of its kind ("Operation kinds"): the selection set of the root object
    is serial for a mutation.  The root object is a nullable position: a
    null that reaches it is the value of the operation. *)
Definition runOperation (fuel : nat) (kind : OperationKind)
    (rootType : string)
    (root : string -> gmap string value -> Store -> resolved * Store)
    (sels : list Selection) (st : State) : completed * State :=
  match fuel with
  | O => (Unfinished, st)
  | S fuel =>
      let '(cs, st') :=
        resolveFields (completeValue fuel) (isSerial kind) rootType root []
          sels st in
      match collect cs with
      | None => (Unfinished, st')
      | Some None => (Value JNull, st')
      | Some (Some kv) => (Value (JObject kv), st')
      end
  end.


(** Modelled from the spec: a response, "{ data, errors }". *)
Record Response := {
  Data : json;
  Errors : list QueryError;
}.

(** Modelled from the spec: the execution of an operation: its response
    and the state the resolvers are left in. *)
Definition Exec (fuel : nat) (kind : OperationKind) (rootType : string)
    (root : string -> gmap string value -> Store -> resolved * Store)
    (sels : list Selection) (s : Store) : option (Response * Store) :=
  match runOperation fuel kind rootType root sels
          {| store := s; errors := []; history := [] |} with
  | (Value j, st) => Some ({| Data := j; Errors := errors st |}, store st)
  | (PropagateNull, st) =>
      Some ({| Data := JNull; Errors := errors st |}, store st)
  | (Unfinished, _) => None
  end.
End Exec.





(** Selection sets with at most one field group, down to a depth: the
    ones no schedule can reorder. *)
Fixpoint narrow (depth : nat) (sels : list Selection) : bool :=
  match depth with
  | O => true
  | S depth =>
      bool_decide (length (collectFields sels) <= 1)%nat
      && forallb (fun g => narrow depth (gsels g)) (collectFields sels)
  end.
End exec.

(* ===================================================================== *)
(** * The executor scenarios of the test-suite *)
(* ===================================================================== *)

Module scenario.
Import exec.

(** [droidNotFoundError] of [graphql_test.go], with its [Error()] and
    [Extensions()]. *)
Definition droidNotFoundError : ResolverError :=
  {| Error := "Error [NotFound]: This is not the droid you are looking for";
     ErrorExtensions := Some
       {[ "code" := VString "NotFound";
          "message" := VString "This is not the droid you are looking for" ]} |}.

(** [droidResolver.Name]: the error if the droid has one, else the
    name. *)
Definition droidResolver (name : string) (err : option ResolverError)
  : @resolved unit :=
  Object "Droid" (fun f _ s =>
    if bool_decide (f = "name") then
      (match err with Some e => Fail e | None => Scalar (JString name) end, s)
    else (Nil, s)).

Definition r2d2 := droidResolver "R2-D2" None.
Definition c3po := droidResolver "C-3PO" None.
Definition notFoundDroid := droidResolver "" (Some droidNotFoundError).

(** [findDroidsResolver.FindDroids] *)
Definition findDroidsResolver (f : string) (_ : gmap string value)
    (s : unit) : @resolved unit * unit :=
  if bool_decide (f = "findDroids") then
    (Items [r2d2; notFoundDroid; c3po], s)
  else (Nil, s).

(** [type Query { findDroids: [Droid!]! }  type Droid { name: String! }],
    or with [[Droid]!] when [elementNonNull] is off. *)
Definition droidTypes (elementNonNull : bool) : FieldTypes :=
  fun typeName f =>
    if bool_decide (typeName = "Query") && bool_decide (f = "findDroids") then
      Some (ast.NonNull (ast.Parsed 0)
              (ast.List (ast.Parsed 1)
                 (if elementNonNull
                  then ast.NonNull (ast.Parsed 2)
                         (ast.ObjectTypeDefinition "Droid")
                  else ast.ObjectTypeDefinition "Droid")))
    else if bool_decide (typeName = "Droid") && bool_decide (f = "name") then
      Some (ast.NonNull (ast.Parsed 3) (ast.ScalarTypeDefinition "String"))
    else None.

(** [{ findDroids { name } }] *)
Definition findDroidsQuery : list Selection :=
  [Field None "findDroids" ∅ [Field None "name" ∅ []]].

(** The one error both responses carry. *)
Definition droidError : QueryError :=
  {| Message := Error droidNotFoundError;
     Path := [Key "findDroids"; Index 1; Key "name"];
     Extensions := Some
       {[ "code" := VString "NotFound";
          "message" := VString "This is not the droid you are looking for" ]} |}.

(** [theNumberResolver]: the shared integer is the resolvers' state.
    [TheNumber] reads it; [ChangeTheNumber] stores [args.NewNumber] and
    returns the resolver itself, as the [Query] object. *)
Definition theNumber (f : string) (_ : gmap string value) (number : Z)
  : @resolved Z * Z :=
  if bool_decide (f = "theNumber") then (Scalar (JInt number), number)
  else (Nil, number).

Definition theNumberResolver (f : string) (args : gmap string value)
    (number : Z) : @resolved Z * Z :=
  if bool_decide (f = "changeTheNumber") then
    match args !! "newNumber" with
    | Some (VInt32 n) => (Object "Query" theNumber, n)
    | _ => (Nil, number)
    end
  else theNumber f args number.

(** [type Query { theNumber: Int! }
     type Mutation { changeTheNumber(newNumber: Int!): Query }] *)
Definition numberTypes : FieldTypes :=
  fun typeName f =>
    if bool_decide (typeName = "Query") && bool_decide (f = "theNumber") then
      Some (ast.NonNull (ast.Parsed 0) (ast.ScalarTypeDefinition "Int"))
    else if bool_decide (typeName = "Mutation")
            && bool_decide (f = "changeTheNumber") then
      Some (ast.ObjectTypeDefinition "Query")
    else None.

Definition change (alias : string) (n : Z) : Selection :=
  Field (Some alias) "changeTheNumber" {[ "newNumber" := VInt32 n ]}
    [Field None "theNumber" ∅ []].

(** [mutation { first: changeTheNumber(newNumber: 1) { theNumber } second:
    changeTheNumber(newNumber: 3) { theNumber } third:
    changeTheNumber(newNumber: 2) { theNumber } }] *)
Definition changeThrice : list Selection :=
  [change "first" 1; change "second" 3; change "third" 2].

(** A schedule that runs the field groups of every selection set last to
    first. *)
Definition lastFirst : Schedule := fun _ n => rev (seq 0 n).
End scenario.
(* ===================================================================== *)
(** * Further vocabulary and test-suite code *)
(* ===================================================================== *)

(** The inputs the coercion to a string type refuses: booleans, doubles,
    lists and maps. *)
Definition notStringLike (input : value) : Prop :=
  match input with
  | VBool _ | VFloat64 _ | VList _ | VMap _ => True
  | _ => False
  end.

(** Two names that differ in underscores and in the case of ASCII letters
    only: equal once the underscores are dropped and the ASCII capitals
    are put in lower case. *)
Definition sameName (a b : string) : Prop :=
  lower (stripUnderscore a) = lower (stripUnderscore b).

#[global] Instance sameName_dec a b : Decision (sameName a b).
Proof. unfold sameName. apply _. Defined.

(** An argument that [MakeStructPacker] finds no usable Go field for: no
    field, or several, have its name, or the one that has is not
    exported. *)
Definition noUsableField (p : Program) (structType : GoType)
    (v : ast.InputValueDefinition) : Prop :=
  matchField p structType (ast.Name v) = None \/
  exists sf idx, matchField p structType (ast.Name v) = Some (sf, idx) /\
                 sfPkgPath sf <> EmptyString.

(** [changeTheNumber(newNumber: Int!)] and the [args struct{ newNumber
    int32 }] of [resolverWithUnexportedField]. *)
Definition newNumberArguments : list ast.InputValueDefinition :=
  [ {| ast.Name := "newNumber";
       ast.Type' := ast.NonNull (ast.Parsed 0) (ast.ScalarTypeDefinition "Int");
       ast.Default := None |} ].

Definition unexportedArgs : GoType :=
  TStruct [mkStructField "newNumber" "graphql_test" TInt32].

(** The fields allocated so far stay as they are, and more may follow. *)
Definition fieldsKept (b b' : Builder) : Prop :=
  sfields (heap b) `prefix_of` sfields (heap b').

(** The [structPackerField] that [MakeStructPacker] makes for an argument:
    the argument's name and default value, and the index of the exported Go
    field of that name; its packer is not set yet. *)
Definition fieldFor (p : Program) (structType : GoType) (h : Heap)
    (v : ast.InputValueDefinition) (fe : addr) : Prop :=
  exists sf idx,
    matchField p structType (ast.Name v) = Some (sf, idx) /\
    sfPkgPath sf = EmptyString /\
    sfields h !! fe
    = Some {| name := ast.Name v; index := idx; def := ast.Default v;
              fpacker := None |}.

(** The struct packers of a heap, and a builder whose [structPackers] lists
    each of them once. *)
Definition isStructPacker (h : Heap) (a : addr) : Prop :=
  exists st up d fs, packers h !! a = Some (StructPacker st up d fs).

Definition structsListed (b : Builder) : Prop :=
  NoDup (structPackers b) /\
  forall a, a ∈ structPackers b <-> isStructPacker (heap b) a.

(** Two heaps with the same struct packers, prototypes included. *)
Definition sameStructs (h h' : Heap) : Prop :=
  forall a st up d fs,
    packers h' !! a = Some (StructPacker st up d fs) <->
    packers h !! a = Some (StructPacker st up d fs).

(** The Go type that the non-null packer of a pair is made for: the type
    itself, or what the pointer points at when the GraphQL type is nullable
    and no input object. *)
Definition elemTypeOf (p : Program) (t : ast.Type_) (T : GoType) : GoType :=
  if (unwrapNonNull t).2 then T
  else if bool_decide (Kind p T = reflect.Ptr) then
    match (unwrapNonNull t).1 with
    | ast.InputObject _ => T
    | _ => default T (Elem p T)
    end
  else T.

(** A pair of a GraphQL type and a Go type that passes the checks of
    [makePacker] and [makeNonNullPacker]. *)
Definition compatible (p : Program) (t : ast.Type_) (T : GoType) : Prop :=
  ((unwrapNonNull t).2 = false ->
   Kind p T = reflect.Ptr \/ isNullable p T = true) /\
  match unmarshaler_of p (elemTypeOf p t T) with
  | Some u => ImplementsGraphQLType u (ast.String (unwrapNonNull t).1) = true
  | None =>
      match (unwrapNonNull t).1 with
      | ast.ScalarTypeDefinition _ => True
      | ast.EnumTypeDefinition _ =>
          Kind p (elemTypeOf p t T) = reflect.String
      | ast.InputObject _ =>
          Kind p (structTypeOf p (elemTypeOf p t T)) = reflect.Struct
      | ast.List _ _ => Kind p (elemTypeOf p t T) = reflect.Slice
      | _ => False
      end
  end.

(** Every pair of the map that has its packer is a compatible one. *)
Definition allCompatible (p : Program) (b : Builder) : Prop :=
  forall k e, (k, e) ∈ packerMap b -> epacker e <> None ->
    compatible p (graphQLType k) (resolverType k).

(** [IntEnum] of [graphql_test.go]: [type IntEnum int] with the methods
    [String], [ImplementsGraphQLType] and [UnmarshalGraphQL].  The last
    returns its error and what [*e] is afterwards. *)
Module IntEnum.
Definition String (e : Z) : string :=
  if e =? 0 then "Int0"
  else if e =? 1 then "Int1"
  else "IntN".

Definition ImplementsGraphQLType (name : string) : bool :=
  bool_decide (name = "IntEnum").

Definition UnmarshalGraphQL (e : Z) (input : value) : option error * Z :=
  match input with
  | VString str =>
      (None,
       if bool_decide (str = "Int0") then 0
       else if bool_decide (str = "Int1") then 1
       else -1)
  | _ => (Some (Errorf "wrong type for IntEnum: %T" [AType (TypeOf input)]), e)
  end.
End IntEnum.

(** Every [ast.NonNull] of the builder's own among the map keys was
    allocated before now. *)
Definition freshIds (b : Builder) : Prop :=
  forall k i t, k ∈ (packerMap b).*1 ->
    graphQLType k = ast.NonNull (ast.Built i) t -> (i < allocated b)%nat.

(** [input Node { next: Node = {} }], to bind to [recursive]. *)
Definition nodeSchema : ast.Schema := fun n =>
  if bool_decide (n = "Node") then
    [ {| ast.Name := "next";
         ast.Type' := ast.InputObject "Node";
         ast.Default := Some (VMap ∅) |} ]
  else [].

(** The Go type of what a packer returns. *)
Definition wantType (o : packerObj) : GoType :=
  match o with
  | StructPacker st up _ _ => if up then TPtr st else st
  | listPacker st _ => st
  | nullPacker _ vt _ => vt
  | ValuePacker T => T
  | unmarshalerPacker T => T
  end.

(** A program none of whose defined types is a pointer type, and whose
    defined types of kind [Int32] or [Float64] have the [Unmarshaler]
    methods. *)
Definition plainProgram (p : Program) : Prop :=
  forall n,
    match kind_of_literal (underlying p n) with
    | reflect.Ptr => False
    | reflect.Int32 | reflect.Float64 => methods p n <> None
    | _ => True
    end.

(** What the builder makes sure of for a packer object: a nullable wrapper
    that adds a pointer is for a pointer type, one that adds none has an
    element packer for its own type; a value packer is for a type without
    the [Unmarshaler] methods. *)
Definition typedObj (p : Program) (h : Heap) (o : packerObj) : Prop :=
  match o with
  | nullPacker elem vt addPtr =>
      if addPtr then Kind p vt = reflect.Ptr
      else exists e o', elem = Some e /\ packers h !! e = Some o' /\
                        wantType o' = vt
  | ValuePacker T => unmarshaler_of p T = None
  | _ => True
  end.

Definition typedHeap (p : Program) (h : Heap) : Prop :=
  forall a o, packers h !! a = Some o -> typedObj p h o.

(** A builder whose packer objects are as above, and in which the packer
    of every map entry is one for the Go type of the pair. *)
Definition typedBuilder (p : Program) (b : Builder) : Prop :=
  typedHeap p (heap b) /\
  forall k e a, (k, e) ∈ packerMap b -> epacker e = Some a ->
    exists o, packers (heap b) !! a = Some o /\ wantType o = resolverType k.

(** Every struct packer has a prototype of its struct type. *)
Definition protoHeap (h : Heap) : Prop :=
  forall a st up d fs,
    packers h !! a = Some (StructPacker st up d fs) ->
    exists sets, d = RStruct st sets.

(** Two builders with as many packer objects. *)
Definition sameSize (b b' : Builder) : Prop :=
  length (packers (heap b)) = length (packers (heap b')).

(** The [List] method of the [inputResolver] of [graphql_test.go], on the
    packed [args struct{ Value []*struct{ V int32 } }]: the [V] of every
    entry, in order.  [entry.V] of a nil entry is a panic ([None]); a field
    never set holds its zero value. *)
Module inputResolver.
Definition entryV (entry : rvalue) : option Z :=
  match entry with
  | RNew _ s =>
      match FieldByIndex s [0%nat] with
      | Some (ROf (VInt32 n)) => Some n
      | Some _ => None
      | None => Some 0
      end
  | _ => None
  end.

Definition List (args : rvalue) : option (list Z) :=
  match FieldByIndex args [0%nat] with
  | Some (RSlice _ entries) => mapM entryV entries
  | Some _ => None
  | None => Some []
  end.
End inputResolver.

(** The input [[{v: n1}, {v: n2}, ...]] of [list(value: [Input!]!)]. *)
Definition inputList (ns : list Z) : value :=
  VList ((fun n => VMap {[ "v" := VInt n ]}) <$> ns).


(* ===================================================================== *)
(** * Properties of the scalar coercion *)
(* ===================================================================== *)

Lemma int32_of_int_in_range n : is_int32 n -> int32_of_int n = n.
Proof.
  unfold is_int32, math.MinInt32, math.MaxInt32, int32_of_int. intros H.
  rewrite Z.mod_small; lia.
Qed.

Lemma float64_of_int_small n :
  n <> 0 -> Z.abs n < 2 ^ 53 ->
  float64_of_int n = S754_finite (n <? 0) (Z.to_pos (Z.abs n)) 0.
Proof.
  intros Hn Hlt. unfold float64_of_int.
  destruct (Z.eqb_spec n 0); [contradiction|].
  assert (Z.log2 (Z.abs n) < 53) by (apply Z.log2_lt_pow2; lia).
  destruct (Z.leb_spec (Z.log2 (Z.abs n) - 52) 0); [reflexivity | lia].
Qed.

(** The signed mantissa and exponent of [float64(n)] for a small [n]. *)
Lemma Fnum_float64_of_int n :
  Z.abs n < 2 ^ 53 -> Fnum (float64_of_int n) = Some (n, 0).
Proof.
  intros Hlt. destruct (Z.eq_dec n 0) as [->|Hn]; [reflexivity|].
  rewrite float64_of_int_small by assumption. simpl.
  destruct (Z.ltb_spec n 0); f_equal; f_equal; lia.
Qed.

(** Comparing a zero or finite double with an integer-valued one. *)
Lemma f64_compare_Fnum f g m e c :
  Fnum f = Some (m, e) -> Fnum g = Some (c, 0) ->
  f64_compare f g =
    Some (m * 2 ^ (e - Z.min e 0) ?= c * 2 ^ (0 - Z.min e 0)).
Proof.
  intros Hf Hg.
  destruct f as [sf| | |sf mf ef], g as [sg| | |sg mg eg];
    simpl in Hf, Hg; simplify_eq; reflexivity.
Qed.

Lemma f64_compare_Fnum_l f g m e c :
  Fnum f = Some (c, 0) -> Fnum g = Some (m, e) ->
  f64_compare f g =
    Some (c * 2 ^ (0 - Z.min 0 e) ?= m * 2 ^ (e - Z.min 0 e)).
Proof.
  intros Hf Hg.
  destruct f as [sf| | |sf mf ef], g as [sg| | |sg mg eg];
    simpl in Hf, Hg; simplify_eq; reflexivity.
Qed.

Lemma f64_no_Fnum_rejected f c :
  Fnum f = None ->
  f64_lt f (float64_of_int math.MinInt32)
  || f64_gt f (float64_of_int math.MaxInt32)
  || f64_ne (float64_of_int c) f = true.
Proof.
  intros Hf.
  destruct f as [| [|] | |]; simpl in Hf; try discriminate.
  - reflexivity.
  - rewrite !orb_true_iff. left. right. reflexivity.
  - rewrite !orb_true_iff. right.
    unfold f64_ne. destruct (float64_of_int c); reflexivity.
Qed.

Section CoercionFacts.
Variable p : Program.

(** The checks on a zero or finite double, as arithmetic on its mantissa
    and exponent. *)
Lemma float_checks f m e :
  Fnum f = Some (m, e) ->
  let lo := math.MinInt32 in
  let hi := math.MaxInt32 in
  (0 <= e ->
     f64_lt f (float64_of_int lo) = (m * 2 ^ e <? lo) /\
     f64_gt f (float64_of_int hi) = (m * 2 ^ e >? hi) /\
     forall c, Z.abs c < 2 ^ 53 ->
       f64_ne (float64_of_int c) f = negb (c =? m * 2 ^ e)) /\
  (e < 0 ->
     f64_lt f (float64_of_int lo) = (m <? lo * 2 ^ (- e)) /\
     f64_gt f (float64_of_int hi) = (m >? hi * 2 ^ (- e)) /\
     forall c, Z.abs c < 2 ^ 53 ->
       f64_ne (float64_of_int c) f = negb (c * 2 ^ (- e) =? m)).
Proof.
  intros Hf lo hi.
  assert (Hlo : Fnum (float64_of_int lo) = Some (lo, 0))
    by (apply Fnum_float64_of_int; vm_compute; reflexivity).
  assert (Hhi : Fnum (float64_of_int hi) = Some (hi, 0))
    by (apply Fnum_float64_of_int; vm_compute; reflexivity).
  split; intros He.
  - assert (Hmin : Z.min e 0 = 0) by lia.
    assert (Hmin' : Z.min 0 e = 0) by lia.
    repeat split.
    + unfold f64_lt. rewrite (f64_compare_Fnum _ _ _ _ _ Hf Hlo), Hmin.
      rewrite !Z.sub_0_r, Z.pow_0_r, Z.mul_1_r.
      unfold Z.ltb. destruct (_ ?= _); reflexivity.
    + unfold f64_gt. rewrite (f64_compare_Fnum _ _ _ _ _ Hf Hhi), Hmin.
      rewrite !Z.sub_0_r, Z.pow_0_r, Z.mul_1_r.
      unfold Z.gtb. destruct (_ ?= _); reflexivity.
    + intros c Hc. unfold f64_ne.
      rewrite (f64_compare_Fnum_l _ _ _ _ _ (Fnum_float64_of_int c Hc) Hf).
      rewrite Hmin', !Z.sub_0_r, Z.pow_0_r, Z.mul_1_r.
      match goal with |- context [?a ?= ?b] =>
        destruct (Z.compare_spec a b), (Z.eqb_spec a b) end;
        simpl; try reflexivity; lia.
  - assert (Hmin : Z.min e 0 = e) by lia.
    assert (Hmin' : Z.min 0 e = e) by lia.
    repeat split.
    + unfold f64_lt. rewrite (f64_compare_Fnum _ _ _ _ _ Hf Hlo), Hmin.
      rewrite Z.sub_diag, Z.pow_0_r, Z.mul_1_r, Z.sub_0_l.
      unfold Z.ltb. destruct (_ ?= _); reflexivity.
    + unfold f64_gt. rewrite (f64_compare_Fnum _ _ _ _ _ Hf Hhi), Hmin.
      rewrite Z.sub_diag, Z.pow_0_r, Z.mul_1_r, Z.sub_0_l.
      unfold Z.gtb. destruct (_ ?= _); reflexivity.
    + intros c Hc. unfold f64_ne.
      rewrite (f64_compare_Fnum_l _ _ _ _ _ (Fnum_float64_of_int c Hc) Hf).
      rewrite Hmin', Z.sub_diag, Z.pow_0_r, Z.mul_1_r, Z.sub_0_l.
      match goal with |- context [?a ?= ?b] =>
        destruct (Z.compare_spec a b), (Z.eqb_spec a b) end;
        simpl; try reflexivity; lia.
Qed.

Lemma unmarshalInput_VFloat64 typ f :
  Kind p typ = reflect.Int32 ->
  unmarshalInput p typ (VFloat64 f) =
    let coerced := int32_of_float64 p f in
    if f64_lt f (float64_of_int math.MinInt32)
       || f64_gt f (float64_of_int math.MaxInt32)
       || f64_ne (float64_of_int coerced) f
    then Err (Errorf "not a 32-bit integer" [])
    else Ok (VInt32 coerced).
Proof.
  intros Hk. unfold unmarshalInput.
  destruct (decide _) as [Heq|_].
  - simpl in Heq. injection Heq as <-. discriminate.
  - rewrite Hk. reflexivity.
Qed.

Lemma unmarshalInput_float_exact typ f n :
  Kind p typ = reflect.Int32 ->
  float_is_integer f n -> is_int32 n ->
  unmarshalInput p typ (VFloat64 f) = Ok (VInt32 n).
Proof.
  intros Hk Hint Hr. rewrite unmarshalInput_VFloat64 by assumption.
  unfold float_is_integer in Hint.
  destruct (Fnum f) as [[m e]|] eqn:Hf; [|contradiction].
  destruct (float_checks f m e Hf) as [Hpos Hneg].
  assert (Hn53 : Z.abs n < 2 ^ 53)
    by (unfold is_int32, math.MinInt32, math.MaxInt32 in Hr; lia).
  unfold is_int32 in Hr.
  destruct (Z.lt_ge_cases e 0) as [He|He].
  - destruct (Hneg He) as (Hlt & Hgt & Hne).
    rewrite Z.max_r, Z.max_l, Z.pow_0_r, Z.mul_1_r in Hint by lia.
    assert (Hk2 : 0 < 2 ^ (- e)) by (apply Z.pow_pos_nonneg; lia).
    assert (Hc : int32_of_float64 p f = n).
    { unfold int32_of_float64, f64_trunc. rewrite Hf.
      destruct (Z.leb_spec 0 e); [lia|].
      rewrite Hint, Z.quot_mul by lia.
      destruct (Z.leb_spec math.MinInt32 n), (Z.leb_spec n math.MaxInt32);
        simpl; lia. }
    cbv zeta. rewrite Hc, Hlt, Hgt, (Hne n Hn53).
    destruct (Z.ltb_spec m (math.MinInt32 * 2 ^ (- e))); [nia|].
    destruct (Z.gtb_spec m (math.MaxInt32 * 2 ^ (- e))); [nia|].
    rewrite Hint, Z.eqb_refl. reflexivity.
  - destruct (Hpos He) as (Hlt & Hgt & Hne).
    rewrite Z.max_l, Z.max_r, Z.pow_0_r, Z.mul_1_r in Hint by lia.
    assert (Hc : int32_of_float64 p f = n).
    { unfold int32_of_float64, f64_trunc. rewrite Hf.
      destruct (Z.leb_spec 0 e); [|lia].
      rewrite Hint.
      destruct (Z.leb_spec math.MinInt32 n), (Z.leb_spec n math.MaxInt32);
        simpl; lia. }
    cbv zeta. rewrite Hc, Hlt, Hgt, (Hne n Hn53), Hint.
    destruct (Z.ltb_spec n math.MinInt32); [lia|].
    destruct (Z.gtb_spec n math.MaxInt32); [lia|].
    rewrite Z.eqb_refl. reflexivity.
Qed.

Lemma unmarshalInput_float_reject typ f :
  Kind p typ = reflect.Int32 ->
  (forall n, float_is_integer f n -> ~ is_int32 n) ->
  unmarshalInput p typ (VFloat64 f) =
    Err (Errorf "not a 32-bit integer" []).
Proof.
  intros Hk Hno. rewrite unmarshalInput_VFloat64 by assumption.
  cbv zeta.
  destruct (Fnum f) as [[m e]|] eqn:Hf;
    [|rewrite f64_no_Fnum_rejected by assumption; reflexivity].
  destruct (float_checks f m e Hf) as [Hpos Hneg].
  unfold float_is_integer in Hno. rewrite Hf in Hno.
  unfold is_int32 in Hno.
  destruct (Z.lt_ge_cases e 0) as [He|He].
  - destruct (Hneg He) as (Hlt & Hgt & Hne).
    rewrite Z.max_r, Z.max_l, Z.pow_0_r in Hno by lia.
    assert (Hk2 : 0 < 2 ^ (- e)) by (apply Z.pow_pos_nonneg; lia).
    rewrite Hlt, Hgt.
    destruct (Z.ltb_spec m (math.MinInt32 * 2 ^ (- e))); [reflexivity|].
    destruct (Z.gtb_spec m (math.MaxInt32 * 2 ^ (- e)));
      [rewrite orb_true_r; reflexivity|].
    assert (Hq : math.MinInt32 <= Z.quot m (2 ^ (- e)) <= math.MaxInt32).
    { split.
      - rewrite <- (Z.quot_mul math.MinInt32 (2 ^ (- e))) by lia.
        apply Z.quot_le_mono; lia.
      - rewrite <- (Z.quot_mul math.MaxInt32 (2 ^ (- e))) by lia.
        apply Z.quot_le_mono; lia. }
    assert (Hc : int32_of_float64 p f = Z.quot m (2 ^ (- e))).
    { unfold int32_of_float64, f64_trunc. rewrite Hf.
      destruct (Z.leb_spec 0 e); [lia|].
      destruct (Z.leb_spec math.MinInt32 (Z.quot m (2 ^ (- e)))),
               (Z.leb_spec (Z.quot m (2 ^ (- e))) math.MaxInt32);
        simpl; lia. }
    rewrite Hc, Hne
      by (unfold math.MinInt32, math.MaxInt32 in Hq; lia).
    destruct (Z.eqb_spec (Z.quot m (2 ^ (- e)) * 2 ^ (- e)) m) as [Heq|];
      [|reflexivity].
    exfalso. apply (Hno (Z.quot m (2 ^ (- e)))); [lia | exact Hq].
  - destruct (Hpos He) as (Hlt & Hgt & Hne).
    rewrite Z.max_l, Z.max_r, Z.pow_0_r in Hno by lia.
    rewrite Hlt, Hgt.
    destruct (Z.ltb_spec (m * 2 ^ e) math.MinInt32); [reflexivity|].
    destruct (Z.gtb_spec (m * 2 ^ e) math.MaxInt32);
      [rewrite orb_true_r; reflexivity|].
    exfalso. apply (Hno (m * 2 ^ e)); lia.
Qed.

Lemma unmarshalInput_VInt typ n :
  Kind p typ = reflect.Int32 ->
  unmarshalInput p typ (VInt n) =
    if (n <? math.MinInt32) || (n >? math.MaxInt32)
    then Err (Errorf "not a 32-bit integer" [])
    else Ok (VInt32 (int32_of_int n)).
Proof.
  intros Hk. unfold unmarshalInput.
  destruct (decide _) as [Heq|_].
  - simpl in Heq. injection Heq as <-. discriminate.
  - rewrite Hk. reflexivity.
Qed.

(** A double denotes an integer of the 32-bit range or it does not. *)
Lemma float_is_int32_dec f :
  (exists n, float_is_integer f n /\ is_int32 n) \/
  (forall n, float_is_integer f n -> ~ is_int32 n).
Proof.
  unfold float_is_integer.
  destruct (Fnum f) as [[m e]|]; [|right; intros n []].
  assert (Hdec : forall n, {is_int32 n} + {~ is_int32 n}).
  { intros n. unfold is_int32.
    destruct (Z_le_dec math.MinInt32 n), (Z_le_dec n math.MaxInt32);
      [left; lia | right; lia ..]. }
  destruct (Z.lt_ge_cases e 0) as [He|He].
  - rewrite Z.max_r, Z.max_l, Z.pow_0_r, Z.mul_1_r by lia.
    assert (Hk2 : 0 < 2 ^ (- e)) by (apply Z.pow_pos_nonneg; lia).
    destruct (Z.eq_dec (Z.quot m (2 ^ (- e)) * 2 ^ (- e)) m) as [Hd|Hd].
    + destruct (Hdec (Z.quot m (2 ^ (- e)))) as [Hr|Hr].
      * left. exists (Z.quot m (2 ^ (- e))). split; [lia | exact Hr].
      * right. intros n Hn Hr'. apply Hr.
        rewrite Hn, Z.quot_mul by lia. exact Hr'.
    + right. intros n Hn _. apply Hd. rewrite Hn, Z.quot_mul by lia.
      reflexivity.
  - rewrite Z.max_l, Z.max_r, Z.pow_0_r by lia.
    destruct (Hdec (m * 2 ^ e)) as [Hr|Hr].
    + left. exists (m * 2 ^ e). split; [lia | exact Hr].
    + right. intros n Hn Hr'. apply Hr.
      replace (m * 2 ^ e) with n by lia. exact Hr'.
Qed.
End CoercionFacts.

(** C3.  The coercion to a 32-bit [Int] (a target type of kind [Int32]):
    an [int] of the range [-2^31, 2^31-1] coerces to itself, a [float64]
    that is exactly an integer of that range coerces to that integer, an
    [int] outside the range and a [float64] that is no integer of the range
    are errors, and a value already an [int32] is returned as it is.
    Nothing is truncated or wrapped: whatever is accepted is the integer the
    input denotes. *)
Theorem unmarshalInput_int32_range (p : Program) (typ : GoType) :
  Kind p typ = reflect.Int32 ->
  (forall n, is_int32 n -> unmarshalInput p typ (VInt n) = Ok (VInt32 n)) /\
  (forall f n, float_is_integer f n -> is_int32 n ->
     unmarshalInput p typ (VFloat64 f) = Ok (VInt32 n)) /\
  (forall n, ~ is_int32 n ->
     unmarshalInput p typ (VInt n) = Err (Errorf "not a 32-bit integer" [])) /\
  (forall f, (forall n, float_is_integer f n -> ~ is_int32 n) ->
     unmarshalInput p typ (VFloat64 f) =
       Err (Errorf "not a 32-bit integer" [])) /\
  (forall n, unmarshalInput p TInt32 (VInt32 n) = Ok (VInt32 n)) /\
  (forall input r, TypeOf input <> Some typ ->
     unmarshalInput p typ input = Ok r ->
     exists n, r = VInt32 n /\ is_int32 n /\
       (input = VInt n \/
        exists f, input = VFloat64 f /\ float_is_integer f n)).
Proof.
  intros Hk.
  assert (Hint_ok : forall n, is_int32 n ->
            unmarshalInput p typ (VInt n) = Ok (VInt32 n)).
  { intros n Hr. rewrite unmarshalInput_VInt by assumption.
    rewrite int32_of_int_in_range by assumption. unfold is_int32 in Hr.
    destruct (Z.ltb_spec n math.MinInt32); [lia|].
    destruct (Z.gtb_spec n math.MaxInt32); [lia|]. reflexivity. }
  assert (Hint_err : forall n, ~ is_int32 n ->
            unmarshalInput p typ (VInt n) =
              Err (Errorf "not a 32-bit integer" [])).
  { intros n Hr. rewrite unmarshalInput_VInt by assumption.
    unfold is_int32 in Hr.
    destruct (Z.ltb_spec n math.MinInt32); [reflexivity|].
    destruct (Z.gtb_spec n math.MaxInt32); [reflexivity|]. lia. }
  split; [exact Hint_ok|].
  split; [intros f n; apply unmarshalInput_float_exact; assumption|].
  split; [exact Hint_err|].
  split; [intros f; apply unmarshalInput_float_reject; assumption|].
  split.
  - intros n. unfold unmarshalInput.
    destruct (decide (TypeOf (VInt32 n) = Some TInt32)) as [_|Hne];
      [reflexivity | exfalso; apply Hne; reflexivity].
  - intros input r Hty Hok.
    destruct input as [|b|n|n|f|s|nm v|l|m].
    3: { (* int *)
      assert (Hdec : is_int32 n \/ ~ is_int32 n) by (unfold is_int32; lia).
      destruct Hdec as [Hr|Hr].
      + rewrite Hint_ok in Hok by assumption. injection Hok as <-.
        exists n. split; [reflexivity|]. split; [exact Hr|]. left; reflexivity.
      + rewrite Hint_err in Hok by assumption. discriminate. }
    4: { (* float64 *)
      destruct (float_is_int32_dec f) as [(n & Hn & Hr)|Hno].
      + rewrite (unmarshalInput_float_exact p typ f n) in Hok by assumption.
        injection Hok as <-. exists n.
        split; [reflexivity|]. split; [exact Hr|]. right. exists f. auto.
      + rewrite unmarshalInput_float_reject in Hok by assumption.
        discriminate. }
    all: unfold unmarshalInput in Hok;
      rewrite decide_False in Hok by exact Hty;
      rewrite Hk in Hok; discriminate.
Qed.

(** The coercion at the inputs 42, 42.0 (as 21 * 2^1), 2^31 and 0.5 (as
    1 * 2^-1), for the target [int32]. *)
Lemma unmarshalInput_int32_range_witness :
  unmarshalInput testProgram TInt32 (VInt 42) = Ok (VInt32 42) /\
  unmarshalInput testProgram TInt32 (VFloat64 (S754_finite false 21 1))
    = Ok (VInt32 42) /\
  unmarshalInput testProgram TInt32 (VInt (2 ^ 31))
    = Err (Errorf "not a 32-bit integer" []) /\
  unmarshalInput testProgram TInt32 (VFloat64 (S754_finite false 1 (-1)))
    = Err (Errorf "not a 32-bit integer" []).
Proof.
  pose proof (unmarshalInput_int32_range testProgram TInt32 eq_refl)
    as (Hint & Hfloat & Hint_err & Hfloat_err & _).
  split; [|split; [|split]].
  - apply Hint. unfold is_int32, math.MinInt32, math.MaxInt32. lia.
  - apply Hfloat.
    + reflexivity.
    + unfold is_int32, math.MinInt32, math.MaxInt32. lia.
  - apply Hint_err. intros [_ Hle]. apply Hle. reflexivity.
  - apply Hfloat_err. intros n Hn. unfold float_is_integer, Fnum in Hn.
    change (1 * 1 = n * 2) in Hn. lia.
Defined.

(* --------------------------------------------------------------------- *)
(** ** Coercing twice *)

Lemma unmarshalInput_same_type (p : Program) typ input :
  TypeOf input = Some typ -> unmarshalInput p typ input = Ok input.
Proof.
  intros H. unfold unmarshalInput.
  destruct (decide _); [reflexivity | contradiction].
Qed.

Lemma Convert_TypeOf (p : Program) typ input :
  Kind p typ = reflect.String -> TypeOf (Convert input typ) = Some typ.
Proof.
  intros Hk. destruct typ; try discriminate Hk; reflexivity.
Qed.

(** The dynamic type of what the coercion returns is the target type,
    unless the target is a defined type of kind [Int32] or [Float64]. *)
Lemma unmarshalInput_TypeOf (p : Program) typ input out :
  (Kind p typ = reflect.Int32 -> typ = TInt32) ->
  (Kind p typ = reflect.Float64 -> typ = TFloat64) ->
  unmarshalInput p typ input = Ok out ->
  TypeOf out = Some typ.
Proof.
  intros Hi Hf. unfold unmarshalInput, incompatible.
  destruct (decide _) as [Heq|Hne].
  - intros [= <-]. exact Heq.
  - destruct (Kind p typ) eqn:Hk; try discriminate.
    + rewrite (Hi eq_refl).
      destruct input; try discriminate.
      * destruct (_ || _); [discriminate|]. intros [= <-]. reflexivity.
      * cbv zeta. destruct (_ || _); [discriminate|].
        intros [= <-]. reflexivity.
    + rewrite (Hf eq_refl).
      destruct input; try discriminate; intros [= <-]; reflexivity.
    + destruct (TypeOf input) as [t|]; [|discriminate].
      destruct (ConvertibleTo p t typ); [|discriminate].
      intros [= <-]. apply (Convert_TypeOf p). exact Hk.
Qed.

(** C9, as amended.  An input whose dynamic type is already the target
    type is returned unchanged, for every target type; and when the target
    is not a defined type of kind [Int32] or [Float64], the result of a
    successful coercion has the target type, so that coercing it again
    returns it unchanged, with no error. *)
Theorem unmarshalInput_idempotent (p : Program) (typ : GoType) :
  (forall input, TypeOf input = Some typ ->
     unmarshalInput p typ input = Ok input) /\
  ((Kind p typ = reflect.Int32 -> typ = TInt32) ->
   (Kind p typ = reflect.Float64 -> typ = TFloat64) ->
   forall input out,
     unmarshalInput p typ input = Ok out ->
     unmarshalInput p typ out = Ok out).
Proof.
  split.
  - intros input. apply unmarshalInput_same_type.
  - intros Hi Hf input out Hok.
    apply unmarshalInput_same_type.
    exact (unmarshalInput_TypeOf p typ input out Hi Hf Hok).
Qed.

(** The integer literal 7 coerced to [float64], then coerced again; and the
    string [Option1] coerced to [StringEnum], then coerced again. *)
Lemma unmarshalInput_idempotent_witness :
  (unmarshalInput testProgram TFloat64 (VInt32 7)
     = Ok (VFloat64 (S754_finite false 7 0)) /\
   unmarshalInput testProgram TFloat64 (VFloat64 (S754_finite false 7 0))
     = Ok (VFloat64 (S754_finite false 7 0))) /\
  (unmarshalInput testProgram (TNamed "StringEnum") (VString "Option1")
     = Ok (VNamed "StringEnum" (VString "Option1")) /\
   unmarshalInput testProgram (TNamed "StringEnum")
     (VNamed "StringEnum" (VString "Option1"))
     = Ok (VNamed "StringEnum" (VString "Option1"))).
Proof.
  split; (split; [reflexivity|]).
  - refine (proj2 (unmarshalInput_idempotent testProgram TFloat64)
              _ _ (VInt32 7) _ eq_refl); [discriminate | reflexivity].
  - refine (proj2 (unmarshalInput_idempotent testProgram (TNamed "StringEnum"))
              _ _ (VString "Option1") _ eq_refl); discriminate.
Defined.

(** C9, as stated, fails for a defined type of kind [Int32]: with [type
    Celsius int32] the [int] 5 coerces to the [int32] 5, which is not a
    [Celsius], and coercing that again is an error. *)
Lemma unmarshalInput_defined_int32_twice :
  unmarshalInput celsiusProgram (TNamed "Celsius") (VInt 5) = Ok (VInt32 5) /\
  unmarshalInput celsiusProgram (TNamed "Celsius") (VInt32 5)
    = Err (Errorf "incompatible type: %s" [AType (Some TInt32)]) /\
  ~ (forall p typ input out,
       unmarshalInput p typ input = Ok out ->
       unmarshalInput p typ out = Ok out).
Proof.
  split; [reflexivity|]. split; [reflexivity|].
  intros H.
  specialize (H celsiusProgram (TNamed "Celsius") (VInt 5) (VInt32 5) eq_refl).
  discriminate H.
Qed.

(* ===================================================================== *)
(** * Properties of the [Pack] methods *)
(* ===================================================================== *)

Lemma mapM_res_Ok {A B} (f : A -> res B) l xs :
  mapM_res f l = Ok xs <-> Forall2 (fun v x => f v = Ok x) l xs.
Proof.
  revert xs. induction l as [|v l IH]; intros xs; simpl.
  - split.
    + intros [= <-]. constructor.
    + intros H. inversion H. reflexivity.
  - split.
    + destruct (f v) as [x| | |] eqn:Hf; simpl; try discriminate.
      destruct (mapM_res f l) as [ys| | |] eqn:Hl; simpl; try discriminate.
      intros [= <-]. constructor; [exact Hf | apply IH; reflexivity].
    + intros H. inversion H as [|v' x l' ys Hf Hl]; subst.
      rewrite Hf. simpl. apply IH in Hl. rewrite Hl. reflexivity.
Qed.

Section PackFacts.
Variable p : Program.
Variable h : Heap.

Lemma Pack_nullPacker fuel a elemPacker valueType addPtr value :
  packers h !! a = Some (nullPacker elemPacker valueType addPtr) ->
  Pack p (S fuel) h (Some a) value =
    if is_nil value && negb (isNullable p valueType)
    then Ok (RZero valueType)
    else
      v ← Pack p fuel h elemPacker value;
      if addPtr then
        match Elem p valueType with
        | Some et => if assignable p et v then Ok (RNew et v) else Panic
        | None => Panic
        end
      else Ok v.
Proof. intros H. simpl. rewrite H. reflexivity. Qed.

Lemma Pack_ValuePacker_nil fuel a ValueType :
  packers h !! a = Some (ValuePacker ValueType) ->
  Pack p (S fuel) h (Some a) VNil = Err got_null.
Proof. intros H. simpl. rewrite H. reflexivity. Qed.

Lemma Pack_StructPacker_nil fuel a structType usePtr defaultStruct fields :
  packers h !! a
    = Some (StructPacker structType usePtr defaultStruct fields) ->
  Pack p (S fuel) h (Some a) VNil = Err got_null.
Proof. intros H. simpl. rewrite H. reflexivity. Qed.

Lemma packElem_Ok fuel elem et v x :
  packElem p (Pack p fuel h) elem et v = Ok x <->
  Pack p fuel h elem v = Ok x /\ assignable p et x = true.
Proof.
  unfold packElem. destruct (Pack p fuel h elem v) as [y| | |]; simpl.
  - destruct (assignable p et y) eqn:Ha.
    + split; [intros [= <-]; auto | intros [[= <-] _]; reflexivity].
    + split; [discriminate | intros [[= <-] Hx]; congruence].
  - split; [discriminate | intros [? _]; discriminate].
  - split; [discriminate | intros [? _]; discriminate].
  - split; [discriminate | intros [? _]; discriminate].
Qed.

Lemma Pack_listPacker fuel a sliceType elem et value :
  packers h !! a = Some (listPacker sliceType elem) ->
  Kind p sliceType = reflect.Slice ->
  Elem p sliceType = Some et ->
  Pack p (S fuel) h (Some a) value =
    (elems ← mapM_res (packElem p (Pack p fuel h) elem et)
               (match value with VList l => l | _ => [value] end);
     Ok (RSlice sliceType elems)).
Proof. intros H Hk He. simpl. rewrite H, Hk, He. reflexivity. Qed.
End PackFacts.

(** C6.  A list packer packs an array element by element with its element
    packer, into a slice of the same length and order; any other input
    is packed as the one-element array holding it. *)
Theorem Pack_list (p : Program) (h : Heap) (fuel : nat) (a : addr)
    (sliceType : GoType) (elem : packer) (et : GoType) :
  packers h !! a = Some (listPacker sliceType elem) ->
  Kind p sliceType = reflect.Slice ->
  Elem p sliceType = Some et ->
  (forall l xs,
     Forall2 (fun v x => Pack p fuel h elem v = Ok x /\
                         assignable p et x = true) l xs ->
     Pack p (S fuel) h (Some a) (VList l) = Ok (RSlice sliceType xs)) /\
  (forall l r,
     Pack p (S fuel) h (Some a) (VList l) = Ok r ->
     exists xs, r = RSlice sliceType xs /\ length xs = length l /\
       forall i v, l !! i = Some v ->
         exists x, xs !! i = Some x /\ Pack p fuel h elem v = Ok x) /\
  (forall value, (forall l, value <> VList l) ->
     Pack p (S fuel) h (Some a) value
       = Pack p (S fuel) h (Some a) (VList [value])) /\
  (forall value x, (forall l, value <> VList l) ->
     Pack p fuel h elem value = Ok x -> assignable p et x = true ->
     Pack p (S fuel) h (Some a) value = Ok (RSlice sliceType [x])).
Proof.
  intros Ha Hk He.
  assert (Hlist : forall l xs,
            Forall2 (fun v x => Pack p fuel h elem v = Ok x /\
                                assignable p et x = true) l xs ->
            Pack p (S fuel) h (Some a) (VList l) = Ok (RSlice sliceType xs)).
  { intros l xs Hall.
    rewrite (Pack_listPacker p h fuel a _ _ _ _ Ha Hk He).
    assert (Hm : mapM_res (packElem p (Pack p fuel h) elem et) l = Ok xs).
    { apply mapM_res_Ok. eapply Forall2_impl; [exact Hall|].
      intros v x Hx. apply packElem_Ok. exact Hx. }
    rewrite Hm. reflexivity. }
  assert (Hsingle : forall value, (forall l, value <> VList l) ->
            Pack p (S fuel) h (Some a) value
              = Pack p (S fuel) h (Some a) (VList [value])).
  { intros value Hnl.
    rewrite !(Pack_listPacker p h fuel a _ _ _ _ Ha Hk He).
    destruct value; try reflexivity. exfalso. eapply Hnl. reflexivity. }
  split; [exact Hlist|]. split; [|split; [exact Hsingle|]].
  - intros l r. rewrite (Pack_listPacker p h fuel a _ _ _ _ Ha Hk He).
    destruct (mapM_res _ l) as [xs| | |] eqn:Hm; simpl; try discriminate.
    intros [= <-]. apply mapM_res_Ok in Hm.
    exists xs. split; [reflexivity|].
    split; [symmetry; eapply Forall2_length; exact Hm|].
    intros i v Hi.
    destruct (Forall2_lookup_l _ _ _ _ _ Hm Hi) as (x & Hx & Hp).
    exists x. split; [exact Hx|]. apply packElem_Ok in Hp. apply Hp.
  - intros value x Hnl Hx Hassign. rewrite (Hsingle value Hnl).
    apply Hlist. constructor; [auto | constructor].
Qed.

(** The list packer of [list(value: [Input!]!)]: the array [[{v: 41},
    {v: 42}]] packs to the two structs in order, and the single value
    [{v: 42}] packs to the one-element slice. *)
Lemma Pack_list_witness :
  let h := heap listFinished.2 in
  let packedInput n :=
    RNew inputStruct (RStruct inputStruct [([0%nat], ROf (VInt32 n))]) in
  Pack testProgram 4 h (Some 0%nat)
    (VList [VMap {[ "v" := VInt32 41 ]}; VMap {[ "v" := VInt32 42 ]}])
  = Ok (RSlice (TSlice (TPtr inputStruct)) [packedInput 41; packedInput 42]) /\
  Pack testProgram 4 h (Some 0%nat) (VMap {[ "v" := VInt32 42 ]})
  = Ok (RSlice (TSlice (TPtr inputStruct)) [packedInput 42]).
Proof.
  intros h packedInput.
  destruct (Pack_list testProgram h 3 0%nat (TSlice (TPtr inputStruct))
              (Some 2%nat) (TPtr inputStruct) eq_refl eq_refl eq_refl)
    as (Harray & _ & _ & Hsingle).
  split.
  - apply Harray. repeat constructor.
  - apply Hsingle; [discriminate | reflexivity | reflexivity].
Defined.

(* --------------------------------------------------------------------- *)
(** ** Struct packers *)

Lemma FieldByIndex_app_absent t sets more idx :
  idx ∉ (fst <$> more) ->
  FieldByIndex (RStruct t (sets ++ more)) idx
    = FieldByIndex (RStruct t sets) idx.
Proof.
  intros Hnot. unfold FieldByIndex. rewrite filter_app.
  assert (Hnil : filter (fun s : list nat * rvalue => bool_decide (s.1 = idx))
                   more = []).
  { induction more as [|s more IH]; [reflexivity|].
    rewrite filter_cons. rewrite fmap_cons in Hnot.
    apply not_elem_of_cons in Hnot as [Hne Hrest].
    destruct (decide _) as [Hd|Hd].
    - apply bool_decide_unpack in Hd. congruence.
    - apply IH. exact Hrest. }
  rewrite Hnil, app_nil_r. reflexivity.
Qed.

Lemma FieldByIndex_app_last t sets idx x more :
  idx ∉ (fst <$> more) ->
  FieldByIndex (RStruct t (sets ++ (idx, x) :: more)) idx = Some x.
Proof.
  intros Hnot.
  replace (sets ++ (idx, x) :: more) with ((sets ++ [(idx, x)]) ++ more)
    by (rewrite <- app_assoc; reflexivity).
  rewrite FieldByIndex_app_absent by exact Hnot.
  unfold FieldByIndex. rewrite filter_app, filter_cons.
  destruct (decide _) as [_|Hd].
  - rewrite filter_nil, last_snoc. reflexivity.
  - exfalso. apply Hd. apply bool_decide_pack. reflexivity.
Qed.

Section StructFacts.
Variable p : Program.
Variable h : Heap.

Lemma Pack_StructPacker fuel a structType usePtr defaultStruct fields values :
  packers h !! a
    = Some (StructPacker structType usePtr defaultStruct fields) ->
  Pack p (S fuel) h (Some a) (VMap values) =
    (v0 ← (if assignable p structType defaultStruct
           then Ok defaultStruct else Panic);
     v ← foldM_res (packField p (Pack p fuel h) h values) v0 fields;
     Ok (structResult usePtr structType v)).
Proof.
  intros H. simpl. rewrite H. unfold structResult.
  destruct usePtr; reflexivity.
Qed.

Lemma assignable_same t v : rtype v = Some t -> assignable p t v = true.
Proof.
  intros H. unfold assignable, directlyAssignable. rewrite H.
  destruct (decide (t = t)); [reflexivity | contradiction].
Qed.

Lemma bind_Ok {A B} (a : A) (k : A -> res B) : (Ok a ≫= k) = k a.
Proof. reflexivity. Qed.

Lemma foldM_res_cons {A St} (f : St -> A -> res St) s x l :
  foldM_res f s (x :: l) = (s' ← f s x; foldM_res f s' l).
Proof. reflexivity. Qed.

Lemma presentFields_cons_present values fa fields f v :
  sfields h !! fa = Some f -> values !! name f = Some v ->
  presentFields h values (fa :: fields)
    = (f, v) :: presentFields h values fields.
Proof.
  intros Hf Hv. unfold presentFields. simpl. rewrite Hf. simpl.
  rewrite Hv. reflexivity.
Qed.

Lemma presentFields_cons_absent values fa fields f :
  sfields h !! fa = Some f -> values !! name f = None ->
  presentFields h values (fa :: fields) = presentFields h values fields.
Proof.
  intros Hf Hv. unfold presentFields. simpl. rewrite Hf. simpl.
  rewrite Hv. reflexivity.
Qed.

Lemma packField_present Pk values s fa f v :
  sfields h !! fa = Some f -> values !! name f = Some v ->
  packField p Pk h values s fa
    = (packed ← Pk (fpacker f) v; SetField p s (index f) packed).
Proof. intros Hf Hv. unfold packField. rewrite Hf, Hv. reflexivity. Qed.

Lemma packField_absent Pk values s fa f :
  sfields h !! fa = Some f -> values !! name f = None ->
  packField p Pk h values s fa = Ok s.
Proof. intros Hf Hv. unfold packField. rewrite Hf, Hv. reflexivity. Qed.

Lemma SetField_Ok structType sets idx x ft :
  field_type p structType idx = Some ft -> assignable p ft x = true ->
  SetField p (RStruct structType sets) idx x
    = Ok (RStruct structType (sets ++ [(idx, x)])).
Proof. intros Hft Ha. unfold SetField. rewrite Hft, Ha. reflexivity. Qed.

(** The loop of [StructPacker.Pack]: the present fields are stored on top
    of what the struct already holds, in the packer's order. *)
Lemma packFields_Ok fuel values structType fields :
  Forall (fun fa => is_Some (sfields h !! fa)) fields ->
  forall sets xs,
    Forall2 (fieldPacked p h fuel structType)
      (presentFields h values fields) xs ->
    foldM_res (packField p (Pack p fuel h) h values)
      (RStruct structType sets) fields
    = Ok (RStruct structType
            (sets ++ zip (index ∘ fst <$> presentFields h values fields) xs)).
Proof.
  induction 1 as [|fa fields [f Hf] Hvalid IH]; intros sets xs Hall.
  - inversion Hall; subst. simpl. rewrite app_nil_r. reflexivity.
  - rewrite foldM_res_cons.
    destruct (values !! name f) as [v|] eqn:Hv.
    + rewrite (presentFields_cons_present _ _ _ _ _ Hf Hv) in Hall |- *.
      rewrite (packField_present _ _ _ _ _ _ Hf Hv).
      inversion Hall as [|fv x pf xs' Hx Hrest]; subst.
      destruct Hx as (Hpack & ft & Hft & Hassign). simpl in Hpack, Hft.
      rewrite Hpack, bind_Ok.
      rewrite (SetField_Ok _ _ _ _ _ Hft Hassign), bind_Ok.
      rewrite (IH _ _ Hrest). rewrite <- app_assoc. reflexivity.
    + rewrite (presentFields_cons_absent _ _ _ _ Hf Hv) in Hall |- *.
      rewrite (packField_absent _ _ _ _ _ Hf Hv), bind_Ok.
      apply IH. exact Hall.
Qed.

(** The first present field whose packer fails stops the loop with that
    error. *)
Lemma packFields_Err fuel values structType fields :
  Forall (fun fa => is_Some (sfields h !! fa)) fields ->
  forall sets before fv after xs e,
    presentFields h values fields = before ++ fv :: after ->
    Forall2 (fieldPacked p h fuel structType) before xs ->
    Pack p fuel h (fpacker fv.1) fv.2 = Err e ->
    foldM_res (packField p (Pack p fuel h) h values)
      (RStruct structType sets) fields
    = Err e.
Proof.
  induction 1 as [|fa fields [f Hf] Hvalid IH];
    intros sets before fv after xs e Hsplit Hall Herr.
  - destruct before; discriminate Hsplit.
  - rewrite foldM_res_cons.
    destruct (values !! name f) as [v|] eqn:Hv.
    + rewrite (presentFields_cons_present _ _ _ _ _ Hf Hv) in Hsplit.
      rewrite (packField_present _ _ _ _ _ _ Hf Hv).
      destruct before as [|fv0 before].
      * simpl in Hsplit. injection Hsplit as <- Hrest. simpl in Herr.
        rewrite Herr. reflexivity.
      * simpl in Hsplit. injection Hsplit as <- Hrest.
        inversion Hall as [|fv1 x pf xs' Hx Hall']; subst.
        destruct Hx as (Hpack & ft & Hft & Hassign). simpl in Hpack, Hft.
        rewrite Hpack, bind_Ok.
        rewrite (SetField_Ok _ _ _ _ _ Hft Hassign), bind_Ok.
        eapply IH; eassumption.
    + rewrite (presentFields_cons_absent _ _ _ _ Hf Hv) in Hsplit.
      rewrite (packField_absent _ _ _ _ _ Hf Hv), bind_Ok.
      eapply IH; eassumption.
Qed.
End StructFacts.

(* ===================================================================== *)
(** * Reasoning about builder methods *)
(* ===================================================================== *)

Lemma bind_Ok_inv {A B} (m : M A) (k : A -> M B) b r b' :
  bind m k b = (Ok r, b') ->
  exists a b1, m b = (Ok a, b1) /\ k a b1 = (Ok r, b').
Proof.
  unfold bind. destruct (m b) as [[a| | |] b1]; try discriminate.
  intros H. exists a, b1. auto.
Qed.

Section Always.
Context (R : Builder -> Builder -> Prop).
Hypothesis R_refl : forall b, R b b.
Hypothesis R_trans : forall b1 b2 b3, R b1 b2 -> R b2 b3 -> R b1 b3.

Lemma always_ret {A} (a : A) : always R (ret a).
Proof. intros b. apply R_refl. Qed.

Lemma always_fail {A} e : always R (@fail A e).
Proof. intros b. apply R_refl. Qed.

Lemma always_panic {A} : always R (@panic A).
Proof. intros b. apply R_refl. Qed.

Lemma always_modify f : (forall b, R b (f b)) -> always R (modify f).
Proof. intros H b. apply H. Qed.

Lemma always_bind {A B} (m : M A) (k : A -> M B) :
  always R m -> (forall a, always R (k a)) -> always R (bind m k).
Proof.
  intros Hm Hk b. unfold bind. specialize (Hm b).
  destruct (m b) as [[a| | |] b1]; simpl in *; try exact Hm.
  eapply R_trans; [exact Hm | apply Hk].
Qed.

Lemma always_wrapErr {A} (m : M A) w : always R m -> always R (wrapErr m w).
Proof.
  intros Hm b. unfold wrapErr. specialize (Hm b).
  destruct (m b) as [[a| | |] b1]; exact Hm.
Qed.

Lemma always_forM {A B} (l : list A) (f : A -> M B) :
  (forall x, always R (f x)) -> always R (forM l f).
Proof.
  intros Hf. induction l as [|x l IH]; simpl.
  - apply always_ret.
  - apply always_bind; [apply Hf|]. intros y.
    apply always_bind; [exact IH|]. intros ys. apply always_ret.
Qed.
End Always.

Section Keeps.
Context (P : Builder -> Prop).

Lemma keeps_ret {A} (a : A) : keeps P (ret a).
Proof. intros b a' b' HP [= _ <-]. exact HP. Qed.

Lemma keeps_fail {A} e : keeps P (@fail A e).
Proof. intros b a' b' _ [=]. Qed.

Lemma keeps_panic {A} : keeps P (@panic A).
Proof. intros b a' b' _ [=]. Qed.

Lemma keeps_modify f : (forall b, P b -> P (f b)) -> keeps P (modify f).
Proof. intros H b a b' HP [= _ <-]. apply H. exact HP. Qed.

Lemma keeps_bind {A B} (m : M A) (k : A -> M B) :
  keeps P m -> (forall a, keeps P (k a)) -> keeps P (bind m k).
Proof.
  intros Hm Hk b r b' HP H.
  apply bind_Ok_inv in H as (a & b1 & Hmb & Hkb).
  eapply Hk; [|exact Hkb]. eapply Hm; eassumption.
Qed.

Lemma keeps_wrapErr {A} (m : M A) w : keeps P m -> keeps P (wrapErr m w).
Proof.
  intros Hm b a b' HP. unfold wrapErr.
  destruct (m b) as [[a0| | |] b1] eqn:Hmb; try discriminate.
  intros [= <- <-]. eapply Hm; eassumption.
Qed.

Lemma keeps_forM {A B} (l : list A) (f : A -> M B) :
  (forall x, keeps P (f x)) -> keeps P (forM l f).
Proof.
  intros Hf. induction l as [|x l IH]; simpl.
  - apply keeps_ret.
  - apply keeps_bind; [apply Hf|]. intros y.
    apply keeps_bind; [exact IH|]. intros ys. apply keeps_ret.
Qed.
End Keeps.

(* ===================================================================== *)
(** * Building adds packers and links nothing *)
(* ===================================================================== *)

Lemma grows_refl b : grows b b.
Proof. split; [reflexivity | auto]. Qed.

Lemma grows_trans b1 b2 b3 : grows b1 b2 -> grows b2 b3 -> grows b1 b3.
Proof.
  intros [Hp1 Hu1] [Hp2 Hu2]. split; [etransitivity; eassumption | auto].
Qed.

Lemma grows_same_heap b b' : heap b' = heap b -> grows b b'.
Proof. intros H. unfold grows. rewrite H. split; [reflexivity | auto]. Qed.

Lemma grows_newPacker o : unsetObj o -> always grows (newPacker o).
Proof.
  intros Ho b. simpl. split; simpl.
  - apply prefix_app_r. reflexivity.
  - intros [Hp Hf]. split; simpl; [|exact Hf].
    apply Forall_app. split; [exact Hp | repeat constructor; exact Ho].
Qed.

Lemma grows_newField f : fpacker f = None -> always grows (newField f).
Proof.
  intros Hf b. simpl. split; simpl.
  - reflexivity.
  - intros [Hp Hfs]. split; simpl; [exact Hp|].
    apply Forall_app. split; [exact Hfs | repeat constructor; exact Hf].
Qed.

Lemma grows_newNonNull t : always grows (newNonNull t).
Proof. intros b. apply grows_same_heap. reflexivity. Qed.

Lemma grows_setFieldIndex fe idx b :
  grows b (withHeap (setFieldIndex fe idx) b).
Proof.
  unfold grows, withHeap, setFieldIndex. simpl.
  destruct (sfields (heap b) !! fe) as [f|] eqn:Hfe; simpl.
  - split; [reflexivity|]. intros [Hp Hfs]. split; simpl; [exact Hp|].
    apply Forall_insert; [exact Hfs|]. simpl.
    eapply Forall_lookup_1 in Hfs; [|exact Hfe]. exact Hfs.
  - split; [reflexivity | auto].
Qed.

Ltac grows_step_with leaf :=
  first
    [ leaf
    | apply (always_bind grows grows_trans); [|intros ?]
    | apply (always_ret grows grows_refl)
    | apply (always_fail grows grows_refl)
    | apply (always_panic grows grows_refl)
    | apply (always_wrapErr grows)
    | apply (always_forM grows grows_refl grows_trans); intros ?
    | apply grows_newNonNull
    | apply grows_newPacker; exact I
    | apply grows_newPacker; reflexivity
    | apply grows_newField; reflexivity
    | match goal with
      | |- always _ (match ?x with _ => _ end) => destruct x
      end ].

Ltac grows_step := grows_step_with fail.

Section BuildGrows.
Variable p : Program.
Variable schema : ast.Schema.
Variable assign : target -> ast.Type_ -> GoType -> M unit.
Hypothesis assign_grows : forall tgt t T, always grows (assign tgt t T).

Lemma makeField_grows typ structType v :
  always grows (makeField p assign typ structType v).
Proof.
  unfold makeField. repeat grows_step.
  - apply always_modify. intros b. apply grows_setFieldIndex.
  - apply assign_grows.
Qed.

Lemma MakeStructPacker_grows values typ :
  always grows (MakeStructPacker p assign values typ).
Proof.
  unfold MakeStructPacker.
  repeat grows_step_with ltac:(apply makeField_grows).
  apply always_modify. intros b'. apply grows_same_heap. reflexivity.
Qed.

Lemma makeNonNullPacker_grows t T :
  always grows (makeNonNullPacker p schema assign t T).
Proof.
  unfold makeNonNullPacker.
  repeat grows_step_with
    ltac:(first [apply MakeStructPacker_grows | apply assign_grows]).
Qed.

Lemma makePacker_grows t T : always grows (makePacker p schema assign t T).
Proof.
  unfold makePacker.
  repeat grows_step_with ltac:(apply makeNonNullPacker_grows).
Qed.

Lemma assignPacker_body_grows tgt t T :
  always grows (assignPacker_body p schema assign tgt t T).
Proof.
  unfold assignPacker_body. cbv zeta.
  apply (always_bind grows grows_trans).
  - intros b. destruct (lookupEntry _ _).
    + apply grows_refl.
    + revert b.
      repeat grows_step_with
        ltac:(first [ apply makePacker_grows
                    | apply always_modify; intros ?;
                      apply grows_same_heap; reflexivity ]).
  - intros _. apply always_modify. intros b. apply grows_same_heap.
    reflexivity.
Qed.
End BuildGrows.

Lemma assignPacker_grows p schema fuel tgt t T :
  always grows (assignPacker p schema fuel tgt t T).
Proof.
  revert tgt t T. induction fuel as [|fuel IH]; intros tgt t T.
  - intros b. apply grows_refl.
  - simpl. apply assignPacker_body_grows. exact IH.
Qed.

(* ===================================================================== *)
(** * [assignPacker]: one slot per pair *)
(* ===================================================================== *)

Section AssignFacts.
Variable p : Program.
Variable schema : ast.Schema.

(** The first request for a pair: the entry is reserved, then the packer
    is built in the builder that has the entry, then the entry gets the
    packer and the target. *)
Lemma assignPacker_miss fuel tgt t T b :
  let k := {| graphQLType := t; resolverType := T |} in
  lookupEntry k (packerMap b) = None ->
  assignPacker p schema (S fuel) tgt t T b =
    match makePacker p schema (assignPacker p schema fuel) t T (reserved k b)
    with
    | (Ok pk, b1) => (Ok tt, recorded k tgt (filled k pk b1))
    | (Err e, b1) => (Err e, b1)
    | (Panic, b1) => (Panic, b1)
    | (OutOfFuel, b1) => (OutOfFuel, b1)
    end.
Proof.
  intros k Hk. simpl. unfold assignPacker_body. fold k.
  unfold bind at 1. rewrite Hk.
  unfold bind, modify. simpl. fold (reserved k b).
  destruct (makePacker _ _ _ _ _ _) as [[pk| | |] b1]; reflexivity.
Qed.

(** A later request for the pair: nothing is built, the target is added to
    the entry. *)
Lemma assignPacker_hit fuel tgt t T b e :
  let k := {| graphQLType := t; resolverType := T |} in
  lookupEntry k (packerMap b) = Some e ->
  assignPacker p schema (S fuel) tgt t T b = (Ok tt, recorded k tgt b).
Proof.
  intros k Hk. simpl. unfold assignPacker_body. fold k.
  unfold bind. rewrite Hk. reflexivity.
Qed.
End AssignFacts.

Lemma lookupEntry_app_None k m k' e :
  lookupEntry k m = None ->
  lookupEntry k (m ++ [(k', e)]) = if decide (k' = k) then Some e else None.
Proof.
  induction m as [|[k0 e0] m IH]; simpl; [reflexivity|].
  destruct (decide (k0 = k)); [discriminate | exact IH].
Qed.

Lemma lookupEntry_updateEntry k f m :
  lookupEntry k (updateEntry k f m) = f <$> lookupEntry k m.
Proof.
  induction m as [|[k0 e0] m IH]; simpl; [reflexivity|].
  destruct (decide (k0 = k)) as [->|Hne]; simpl.
  - rewrite decide_True by reflexivity. reflexivity.
  - rewrite decide_False by exact Hne. exact IH.
Qed.

Lemma updateEntry_keys k f m : (updateEntry k f m).*1 = m.*1.
Proof.
  induction m as [|[k0 e0] m IH]; simpl; [reflexivity|].
  destruct (decide (k0 = k)); simpl; [reflexivity | f_equal; exact IH].
Qed.

(* ===================================================================== *)
(** * [Finish]: linking the targets *)
(* ===================================================================== *)

Lemma slot_setTarget_same pk h t :
  is_Some (slot h t) -> slot (setTarget pk h t) t = Some pk.
Proof.
  intros [x Hx]. destruct t as [a|fe]; simpl in *.
  - destruct (packers h !! a) as [[| st e | | |]|] eqn:Ha;
      try discriminate Hx.
    simpl. rewrite list_lookup_insert_eq; [reflexivity|].
    apply lookup_lt_Some in Ha. exact Ha.
  - destruct (sfields h !! fe) as [f|] eqn:Hf; [|discriminate Hx].
    simpl. rewrite list_lookup_insert_eq; [reflexivity|].
    apply lookup_lt_Some in Hf. exact Hf.
Qed.

Lemma slot_setTarget_other pk h t t' :
  t <> t' -> slot (setTarget pk h t) t' = slot h t'.
Proof.
  intros Hne. destruct t as [a|fe]; simpl.
  - destruct (packers h !! a) as [[| st e | | |]|] eqn:Ha; try reflexivity.
    destruct t' as [a'|fe']; simpl; [|reflexivity].
    rewrite list_lookup_insert_ne by congruence. reflexivity.
  - destruct (sfields h !! fe) as [f|] eqn:Hf; [|reflexivity].
    destruct t' as [a'|fe']; simpl; [reflexivity|].
    rewrite list_lookup_insert_ne by congruence. reflexivity.
Qed.

Lemma slot_setTarget_valid pk h t t' :
  is_Some (slot h t') -> is_Some (slot (setTarget pk h t) t').
Proof.
  intros Hv. destruct (decide (t = t')) as [->|Hne].
  - rewrite slot_setTarget_same by exact Hv. eauto.
  - rewrite slot_setTarget_other by exact Hne. exact Hv.
Qed.

Lemma foldl_setTarget_other pk ts t :
  t ∉ ts -> forall h, slot (foldl (setTarget pk) h ts) t = slot h t.
Proof.
  induction ts as [|t0 ts IH]; intros Hnot h; simpl; [reflexivity|].
  apply not_elem_of_cons in Hnot as [Hne Hrest].
  rewrite IH by exact Hrest. apply slot_setTarget_other. congruence.
Qed.

Lemma foldl_setTarget_valid pk ts t :
  forall h, is_Some (slot h t) ->
            is_Some (slot (foldl (setTarget pk) h ts) t).
Proof.
  induction ts as [|t0 ts IH]; intros h Hv; simpl; [exact Hv|].
  apply IH. apply slot_setTarget_valid. exact Hv.
Qed.

Lemma foldl_setTarget_same pk ts t :
  t ∈ ts -> forall h, is_Some (slot h t) ->
  slot (foldl (setTarget pk) h ts) t = Some pk.
Proof.
  induction ts as [|t0 ts IH]; intros Hin h Hv; simpl.
  - apply elem_of_nil in Hin. contradiction.
  - destruct (decide (t ∈ ts)) as [Hin'|Hnot].
    + apply IH; [exact Hin'|]. apply slot_setTarget_valid. exact Hv.
    + apply elem_of_cons in Hin as [->|Hin']; [|contradiction].
      rewrite foldl_setTarget_other by exact Hnot.
      apply slot_setTarget_same. exact Hv.
Qed.

Lemma linkTargets_other m t :
  t ∉ concat ((fun ke : typePair * packerMapEntry => targets ke.2) <$> m) ->
  forall h, slot (linkTargets m h) t = slot h t.
Proof.
  unfold linkTargets.
  induction m as [|entry m IH]; intros Hnot h; simpl; [reflexivity|].
  simpl in Hnot. apply not_elem_of_app in Hnot as [Hhere Hrest].
  rewrite IH by exact Hrest. unfold linkEntry.
  apply foldl_setTarget_other. exact Hhere.
Qed.

(** After the first loop of [Finish] every recorded target holds the packer
    of its entry, provided no location is recorded twice. *)
Lemma linkTargets_slot m :
  NoDup (concat ((fun ke : typePair * packerMapEntry => targets ke.2) <$> m)) ->
  forall h k e t,
    (k, e) ∈ m -> t ∈ targets e -> is_Some (slot h t) ->
    slot (linkTargets m h) t = Some (epacker e).
Proof.
  induction m as [|entry m IH]; intros Hnd h k e t Hin Ht Hv.
  - apply elem_of_nil in Hin. contradiction.
  - simpl in Hnd. apply NoDup_app in Hnd as (Hnd1 & Hdisj & Hnd2).
    change (linkTargets (entry :: m) h) with (linkTargets m (linkEntry h entry)).
    apply elem_of_cons in Hin as [<-|Hin].
    + rewrite linkTargets_other by (apply Hdisj; exact Ht).
      unfold linkEntry. apply foldl_setTarget_same; assumption.
    + apply (IH Hnd2 _ k e t Hin Ht).
      unfold linkEntry. apply foldl_setTarget_valid. exact Hv.
Qed.

Lemma slot_setDefaultStruct a d h t :
  slot (setDefaultStruct a d h) t = slot h t.
Proof.
  unfold setDefaultStruct.
  destruct (packers h !! a) as [[st up d0 fs| | | |]|] eqn:Ha; try reflexivity.
  destruct t as [a'|fe]; simpl; [|reflexivity].
  destruct (decide (a = a')) as [<-|Hne].
  - rewrite list_lookup_insert_eq by (apply lookup_lt_Some in Ha; exact Ha).
    rewrite Ha. reflexivity.
  - rewrite list_lookup_insert_ne by exact Hne. reflexivity.
Qed.

Lemma sameLinks_refl b : sameLinks b b.
Proof. repeat split. Qed.

Lemma sameLinks_trans b1 b2 b3 :
  sameLinks b1 b2 -> sameLinks b2 b3 -> sameLinks b1 b3.
Proof.
  intros (Hs1 & Hm1 & Hp1) (Hs2 & Hm2 & Hp2). repeat split.
  - intros t. rewrite Hs2. apply Hs1.
  - congruence.
  - congruence.
Qed.

Lemma sameLinks_setDefaultStruct a d b :
  sameLinks b (withHeap (setDefaultStruct a d) b).
Proof.
  repeat split. intros t. simpl. apply slot_setDefaultStruct.
Qed.

Section FinishFacts.
Variable p : Program.

Lemma finishField_sameLinks fuel a fa :
  always sameLinks (finishField p fuel a fa).
Proof.
  intros b. unfold finishField.
  destruct (sfields (heap b) !! fa) as [f|]; [|apply sameLinks_refl].
  destruct (def f) as [dv|]; [|apply sameLinks_refl].
  destruct (Pack _ _ _ _ _) as [v| | |]; try apply sameLinks_refl.
  destruct (packers (heap b) !! a) as [[st up d fs| | | |]|];
    try apply sameLinks_refl.
  destruct (SetField p d (index f) v); try apply sameLinks_refl.
  apply sameLinks_setDefaultStruct.
Qed.

Lemma finishStruct_sameLinks fuel a :
  always sameLinks (finishStruct p fuel a).
Proof.
  intros b. unfold finishStruct.
  destruct (packers (heap b) !! a) as [[st up d fs| | | |]|];
    try apply sameLinks_refl.
  revert b.
  apply (always_bind sameLinks sameLinks_trans).
  - apply always_modify. intros b. apply sameLinks_setDefaultStruct.
  - intros _. apply (always_bind sameLinks sameLinks_trans).
    + apply (always_forM sameLinks sameLinks_refl sameLinks_trans).
      intros fa. apply finishField_sameLinks.
    + intros _. apply (always_ret sameLinks sameLinks_refl).
Qed.

(** [Finish] stores, in every recorded target, the packer of the entry the
    target is recorded in; it does so whatever the default values then do. *)
Lemma Finish_slot fuel b k e t :
  NoDup (allTargets b) ->
  (k, e) ∈ packerMap b -> t ∈ targets e -> is_Some (slot (heap b) t) ->
  slot (heap (Finish p fuel b).2) t = Some (epacker e).
Proof.
  intros Hnd Hin Ht Hv.
  rewrite <- (linkTargets_slot (packerMap b) Hnd (heap b) k e t Hin Ht Hv).
  unfold Finish, bind, modify.
  set (b1 := withHeap (linkTargets (packerMap b)) b).
  change (linkTargets (packerMap b) (heap b)) with (heap b1).
  assert (Hall : always sameLinks
            (fun b => (forM (structPackers b) (finishStruct p fuel) ;;; ret tt) b)).
  { intros b0.
    apply (always_bind sameLinks sameLinks_trans).
    - apply (always_forM sameLinks sameLinks_refl sameLinks_trans).
      intros a. apply finishStruct_sameLinks.
    - intros _. apply (always_ret sameLinks sameLinks_refl). }
  destruct (Hall b1) as (Hs & _ & _). apply Hs.
Qed.
End FinishFacts.

(* ===================================================================== *)
(** * [Finish]: the default prototypes *)
(* ===================================================================== *)

Lemma setDefaultStruct_lookup a d h st up d0 fs :
  packers h !! a = Some (StructPacker st up d0 fs) ->
  packers (setDefaultStruct a d h) !! a = Some (StructPacker st up d fs).
Proof.
  intros Ha. unfold setDefaultStruct. rewrite Ha. simpl.
  apply list_lookup_insert_eq. apply lookup_lt_Some in Ha. exact Ha.
Qed.

Lemma setDefaultStruct_sfields a d h :
  sfields (setDefaultStruct a d h) = sfields h.
Proof.
  unfold setDefaultStruct.
  destruct (packers h !! a) as [[| | | |]|]; reflexivity.
Qed.

Lemma setDefaultStruct_twice a d1 d2 h :
  setDefaultStruct a d2 (setDefaultStruct a d1 h) = setDefaultStruct a d2 h.
Proof.
  destruct (packers h !! a) as [[st up d0 fs| | | |]|] eqn:Ha.
  - unfold setDefaultStruct at 1.
    rewrite (setDefaultStruct_lookup a d1 h st up d0 fs Ha).
    unfold setDefaultStruct. rewrite Ha. simpl.
    rewrite list_insert_insert_eq. reflexivity.
  - unfold setDefaultStruct at 2. rewrite Ha. reflexivity.
  - unfold setDefaultStruct at 2. rewrite Ha. reflexivity.
  - unfold setDefaultStruct at 2. rewrite Ha. reflexivity.
  - unfold setDefaultStruct at 2. rewrite Ha. reflexivity.
  - unfold setDefaultStruct at 2. rewrite Ha. reflexivity.
Qed.

Lemma setDefaultStruct_id a h st up d fs :
  packers h !! a = Some (StructPacker st up d fs) ->
  setDefaultStruct a d h = h.
Proof.
  intros Ha. unfold setDefaultStruct. rewrite Ha.
  rewrite list_insert_id by exact Ha. destruct h; reflexivity.
Qed.

Lemma withHeap_withHeap f g b :
  withHeap f (withHeap g b) = withHeap (fun h => f (g h)) b.
Proof. reflexivity. Qed.

Lemma defaultFields_sfields h h' fs :
  sfields h' = sfields h -> defaultFields h' fs = defaultFields h fs.
Proof. intros H. unfold defaultFields. rewrite H. reflexivity. Qed.

Section DefaultFacts.
Variable p : Program.
Variable fuel : nat.
Variable a : addr.

Lemma finishField_Ok_inv fa b r b' :
  finishField p fuel a fa b = (Ok r, b') ->
  exists f, sfields (heap b) !! fa = Some f /\
    ((def f = None /\ b' = b) \/
     (exists dv v st up d fs d',
        def f = Some dv /\
        Pack p fuel (heap b) (fpacker f) (ast.Deserialize dv) = Ok v /\
        packers (heap b) !! a = Some (StructPacker st up d fs) /\
        SetField p d (index f) v = Ok d' /\
        b' = withHeap (setDefaultStruct a d') b)).
Proof.
  unfold finishField.
  destruct (sfields (heap b) !! fa) as [f|]; [|discriminate].
  intros H. exists f. split; [reflexivity|].
  destruct (def f) as [dv|].
  - right.
    destruct (Pack p fuel (heap b) (fpacker f) (ast.Deserialize dv))
      as [v| | |] eqn:Hv; try discriminate.
    destruct (packers (heap b) !! a) as [[st up d fs| | | |]|] eqn:Ha;
      try discriminate.
    destruct (SetField p d (index f) v) as [d'| | |] eqn:Hs; try discriminate.
    injection H as _ <-.
    exists dv, v, st, up, d, fs, d'. auto 10.
  - left. injection H as _ <-. auto.
Qed.

Lemma SetField_Ok_inv s idx x s' :
  SetField p s idx x = Ok s' ->
  exists t sets ft,
    s = RStruct t sets /\ s' = RStruct t (sets ++ [(idx, x)]) /\
    field_type p t idx = Some ft /\ assignable p ft x = true.
Proof.
  unfold SetField. destruct s as [| | | | |t sets|]; try discriminate.
  destruct (field_type p t idx) as [ft|] eqn:Hft; [|discriminate].
  destruct (assignable p ft x) eqn:Ha; [|discriminate].
  intros [= <-]. exists t, sets, ft. auto.
Qed.

(** The inner loop of [Finish] on one struct packer: the prototype gets
    the packed default of every field that declares one, in order, each
    default packed in the heap as the fields before it left it; nothing
    else changes. *)
Lemma finishFields_spec st up fs0 fs :
  forall b r b' sets0,
    packers (heap b) !! a
      = Some (StructPacker st up (RStruct st sets0) fs0) ->
    forM fs (finishField p fuel a) b = (Ok r, b') ->
    exists xs,
      let sets := zip (index ∘ fst <$> defaultFields (heap b) fs) xs in
      b' = withHeap (setDefaultStruct a (RStruct st (sets0 ++ sets))) b /\
      length xs = length (defaultFields (heap b) fs) /\
      forall i fv x,
        defaultFields (heap b) fs !! i = Some fv -> xs !! i = Some x ->
        fieldPacked p
          (setDefaultStruct a (RStruct st (sets0 ++ take i sets)) (heap b))
          fuel st fv x.
Proof.
  induction fs as [|fa fs IH]; intros b r b' sets0 Ha Hrun.
  - simpl in Hrun. injection Hrun as _ <-. exists []. simpl.
    split; [|split; [reflexivity|]].
    + rewrite app_nil_r. unfold withHeap.
      rewrite (setDefaultStruct_id _ _ _ _ _ _ Ha). destruct b; reflexivity.
    + intros i fv x Hi. rewrite lookup_nil in Hi. discriminate.
  - simpl in Hrun.
    apply bind_Ok_inv in Hrun as (y & b1 & Hfa & Hrun).
    apply bind_Ok_inv in Hrun as (ys & b2 & Hrest & Hret).
    injection Hret as _ <-.
    apply finishField_Ok_inv in Hfa as (f & Hf & Hcase).
    destruct Hcase as [[Hd ->]|
      (dv & v & st' & up' & d & fs' & d' & Hd & Hv & Ha' & Hset & ->)].
    + destruct (IH _ _ _ _ Ha Hrest) as (xs & Hb & Hlen & Hall).
      assert (Hdf : defaultFields (heap b) (fa :: fs)
                    = defaultFields (heap b) fs).
      { unfold defaultFields. simpl. rewrite Hf. simpl. rewrite Hd.
        reflexivity. }
      exists xs. cbv zeta. rewrite Hdf. auto.
    + rewrite Ha in Ha'. injection Ha' as <- <- <- <-.
      apply SetField_Ok_inv in Hset
        as (t & sets & ft & [= <- <-] & -> & Hft & Hassign).
      set (b1 := withHeap
             (setDefaultStruct a (RStruct st (sets0 ++ [(index f, v)]))) b)
        in *.
      assert (Ha1 : packers (heap b1) !! a
                = Some (StructPacker st up
                          (RStruct st (sets0 ++ [(index f, v)])) fs0)).
      { apply (setDefaultStruct_lookup _ _ _ _ _ _ _ Ha). }
      assert (Hsf : sfields (heap b1) = sfields (heap b)).
      { apply setDefaultStruct_sfields. }
      destruct (IH _ _ _ _ Ha1 Hrest) as (xs & Hb & Hlen & Hall).
      rewrite (defaultFields_sfields _ _ _ Hsf) in Hb, Hlen, Hall.
      assert (Hdf : defaultFields (heap b) (fa :: fs)
                    = (f, ast.Deserialize dv) :: defaultFields (heap b) fs).
      { unfold defaultFields. simpl. rewrite Hf. simpl. rewrite Hd.
        reflexivity. }
      exists (v :: xs). cbv zeta. rewrite Hdf. simpl.
      split; [|split].
      * rewrite Hb. unfold b1. rewrite withHeap_withHeap.
        unfold withHeap. simpl. rewrite setDefaultStruct_twice.
        rewrite <- app_assoc. reflexivity.
      * rewrite Hlen. reflexivity.
      * intros [|i] fv x Hi Hx; simpl in Hi, Hx.
        -- injection Hi as <-. injection Hx as <-. simpl.
           rewrite app_nil_r, (setDefaultStruct_id _ _ _ _ _ _ Ha).
           split; [exact Hv|]. exists ft. auto.
        -- specialize (Hall i fv x Hi Hx). simpl.
           unfold b1 in Hall. simpl in Hall.
           rewrite setDefaultStruct_twice, <- app_assoc in Hall.
           exact Hall.
Qed.
End DefaultFacts.

Lemma finishStruct_spec p fuel a b r b' st up d fs :
  packers (heap b) !! a = Some (StructPacker st up d fs) ->
  finishStruct p fuel a b = (Ok r, b') ->
  exists xs,
    let sets := zip (index ∘ fst <$> defaultFields (heap b) fs) xs in
    b' = withHeap (setDefaultStruct a (RStruct st sets)) b /\
    length xs = length (defaultFields (heap b) fs) /\
    forall i fv x,
      defaultFields (heap b) fs !! i = Some fv -> xs !! i = Some x ->
      fieldPacked p (setDefaultStruct a (RStruct st (take i sets)) (heap b))
        fuel st fv x.
Proof.
  intros Ha Hrun. unfold finishStruct in Hrun. rewrite Ha in Hrun.
  apply bind_Ok_inv in Hrun as ([] & b0 & Hmod & Hrun).
  injection Hmod as <-.
  apply bind_Ok_inv in Hrun as (ys & b1 & Hrun & Hret).
  injection Hret as _ <-.
  set (b0 := withHeap (setDefaultStruct a (RStruct st [])) b) in *.
  assert (Ha0 : packers (heap b0) !! a
            = Some (StructPacker st up (RStruct st []) fs)).
  { apply (setDefaultStruct_lookup _ _ _ _ _ _ _ Ha). }
  assert (Hsf : sfields (heap b0) = sfields (heap b)).
  { apply setDefaultStruct_sfields. }
  destruct (finishFields_spec p fuel a st up fs fs _ _ _ _ Ha0 Hrun)
    as (xs & Hb & Hlen & Hall).
  rewrite (defaultFields_sfields _ _ _ Hsf) in Hb, Hlen, Hall.
  exists xs. cbv zeta. split; [|split; [exact Hlen|]].
  - rewrite Hb. unfold b0. rewrite withHeap_withHeap. unfold withHeap.
    simpl. rewrite setDefaultStruct_twice. reflexivity.
  - intros i fv x Hi Hx. specialize (Hall i fv x Hi Hx).
    unfold b0 in Hall. simpl in Hall.
    rewrite setDefaultStruct_twice in Hall. exact Hall.
Qed.

(** Nothing is linked in a builder before [Finish]: every prototype is
    still the invalid value, every target still nil. *)
Lemma built_unlinked p schema b : built p schema b -> unlinked (heap b).
Proof.
  induction 1 as [|fuel values typ b a b' Hb IH Hmake].
  - split; constructor.
  - pose proof (MakeStructPacker_grows p (assignPacker p schema fuel)
                  (assignPacker_grows p schema fuel) values typ b) as [_ Hu].
    rewrite Hmake in Hu. apply Hu. exact IH.
Qed.

Lemma Pack_StructPacker_unfinished p h fuel a st up fs values :
  packers h !! a = Some (StructPacker st up RInvalid fs) ->
  Pack p (S fuel) h (Some a) (VMap values) = Panic.
Proof. intros Ha. rewrite (Pack_StructPacker p h fuel a _ _ _ _ _ Ha). reflexivity. Qed.

(** C4.  A struct packer packs a map by starting from its default
    prototype and storing, in the packer's order, every field the map has,
    packed with that field's packer: a field of the result that no present
    field writes keeps what the prototype holds, a present field holds its
    packed value.  Before [Finish] a builder has no prototype at all (and
    packing panics); [Finish] makes the prototype of a struct packer out of
    the zero struct by storing the packed default of every field that
    declares one, and changes nothing else. *)
Theorem StructPacker_Pack_defaults (p : Program) (schema : ast.Schema) :
  (forall h fuel a st up defaults fs values xs,
     packers h !! a = Some (StructPacker st up (RStruct st defaults) fs) ->
     Forall (fun fa => is_Some (sfields h !! fa)) fs ->
     Forall2 (fieldPacked p h fuel st) (presentFields h values fs) xs ->
     let overrides := zip (index ∘ fst <$> presentFields h values fs) xs in
     let packed := RStruct st (defaults ++ overrides) in
     Pack p (S fuel) h (Some a) (VMap values)
       = Ok (structResult up st packed) /\
     (forall idx, idx ∉ overrides.*1 ->
        FieldByIndex packed idx = FieldByIndex (RStruct st defaults) idx) /\
     (forall before idx x after,
        overrides = before ++ (idx, x) :: after -> idx ∉ after.*1 ->
        FieldByIndex packed idx = Some x)) /\
  (forall b, built p schema b ->
     unlinked (heap b) /\
     forall a st up d fs fuel values,
       packers (heap b) !! a = Some (StructPacker st up d fs) ->
       d = RInvalid /\
       Pack p (S fuel) (heap b) (Some a) (VMap values) = Panic) /\
  (forall fuel a b r b' st up d fs,
     packers (heap b) !! a = Some (StructPacker st up d fs) ->
     finishStruct p fuel a b = (Ok r, b') ->
     exists xs,
       let sets := zip (index ∘ fst <$> defaultFields (heap b) fs) xs in
       b' = withHeap (setDefaultStruct a (RStruct st sets)) b /\
       length xs = length (defaultFields (heap b) fs) /\
       forall i fv x,
         defaultFields (heap b) fs !! i = Some fv -> xs !! i = Some x ->
         fieldPacked p
           (setDefaultStruct a (RStruct st (take i sets)) (heap b))
           fuel st fv x).
Proof.
  split; [|split].
  - intros h fuel a st up defaults fs values xs Ha Hvalid Hall overrides packed.
    split; [|split].
    + rewrite (Pack_StructPacker p h fuel a _ _ _ _ _ Ha).
      rewrite assignable_same by reflexivity. rewrite bind_Ok.
      rewrite (packFields_Ok p h fuel values st fs Hvalid defaults xs Hall).
      reflexivity.
    + intros idx Hnot. apply FieldByIndex_app_absent. exact Hnot.
    + intros before idx x after Hsplit Hnot. unfold packed.
      rewrite Hsplit, app_assoc.
      apply FieldByIndex_app_last. exact Hnot.
  - intros b Hb. pose proof (built_unlinked p schema b Hb) as Hu.
    split; [exact Hu|].
    intros a st up d fs fuel values Ha.
    destruct Hu as [Hobjs _].
    eapply Forall_lookup_1 in Hobjs; [|exact Ha]. simpl in Hobjs. subst d.
    split; [reflexivity|].
    apply (Pack_StructPacker_unfinished p _ fuel a st up fs values Ha).
  - intros fuel a b r b' st up d fs. apply finishStruct_spec.
Qed.

(** The packer of [(first: Int = 10, after: String)] on the input
    [{after: "x"}]: [First] keeps the default 10 and [After] is the packed
    "x"; before [Finish] the same call panics; and the prototype is what
    [Finish] made of the one default. *)
Lemma StructPacker_Pack_defaults_witness :
  (Pack testProgram 3 (heap pageFinished.2) (Some 3%nat)
     (VMap {[ "after" := VString "x" ]})
   = Ok (RStruct pageArgs
           [([0%nat], ROf (VInt32 10));
            ([1%nat], RNew TString (ROf (VString "x")))]) /\
   FieldByIndex
     (RStruct pageArgs
        [([0%nat], ROf (VInt32 10));
         ([1%nat], RNew TString (ROf (VString "x")))]) [0%nat]
   = Some (ROf (VInt32 10))) /\
  Pack testProgram 3 (heap pageBuilt.2) (Some 3%nat)
    (VMap {[ "after" := VString "x" ]}) = Panic /\
  exists xs,
    pageFinished.2
      = withHeap (setDefaultStruct 3%nat
                    (RStruct pageArgs (zip [[0%nat]] xs))) pageLinked /\
    length xs = 1%nat.
Proof.
  destruct (StructPacker_Pack_defaults testProgram testSchema)
    as (Hpack & Hbuilt & Hfinish).
  split; [|split].
  - assert (Hvalid : Forall
              (fun fa => is_Some (sfields (heap pageFinished.2) !! fa))
              [0%nat; 1%nat]).
    { repeat constructor; eexists; reflexivity. }
    assert (Hfields : Forall2
              (fieldPacked testProgram (heap pageFinished.2) 2 pageArgs)
              (presentFields (heap pageFinished.2)
                 {[ "after" := VString "x" ]} [0%nat; 1%nat])
              [RNew TString (ROf (VString "x"))]).
    { constructor; [|constructor].
      split; [reflexivity|]. exists (TPtr TString). split; reflexivity. }
    destruct (Hpack (heap pageFinished.2) 2%nat 3%nat pageArgs false
                [([0%nat], ROf (VInt32 10))] [0%nat; 1%nat]
                {[ "after" := VString "x" ]}
                [RNew TString (ROf (VString "x"))]
                eq_refl Hvalid Hfields) as (Hok & Habsent & _).
    split; [exact Hok|].
    apply (Habsent [0%nat]). simpl. intros Hin.
    apply list_elem_of_singleton in Hin. discriminate Hin.
  - assert (Hb : built testProgram testSchema pageBuilt.2).
    { apply (built_make testProgram testSchema 4 pageArguments pageArgs
               NewBuilder 3%nat); [constructor | reflexivity]. }
    destruct (Hbuilt pageBuilt.2 Hb) as [_ Hpanic].
    exact (proj2 (Hpanic 3%nat pageArgs false RInvalid [0%nat; 1%nat] 2%nat
                    {[ "after" := VString "x" ]} eq_refl)).
  - destruct (Hfinish 4%nat 3%nat pageLinked tt pageFinished.2
                pageArgs false RInvalid [0%nat; 1%nat] eq_refl eq_refl)
      as (xs & Hb & Hlen & _).
    exists xs. split; [exact Hb | exact Hlen].
Defined.

(* ===================================================================== *)
(** * Optional and required arguments *)
(* ===================================================================== *)

Lemma okKeys_same_keys p b b' :
  (packerMap b').*1 = (packerMap b).*1 -> okKeys p b -> okKeys p b'.
Proof. unfold okKeys. intros ->. auto. Qed.

Lemma okKey_dec p k : {okKey p k} + {~ okKey p k}.
Proof.
  unfold okKey.
  destruct (unwrapNonNull (graphQLType k)).2; [left; auto|].
  destruct (decide (Kind p (resolverType k) = reflect.Ptr)); [left; auto|].
  destruct (isNullable p (resolverType k)); [left; auto|].
  right. intros [H|[H|H]]; congruence.
Qed.

Section MakePackerFacts.
Variable p : Program.
Variable schema : ast.Schema.
Variable assign : target -> ast.Type_ -> GoType -> M unit.

(** A nullable type and a Go type that is neither a pointer nor a
    [NullUnmarshaller]: no packer. *)
Lemma makePacker_plain_nullable t T b :
  ~ okKey p {| graphQLType := t; resolverType := T |} ->
  makePacker p schema assign t T b =
    (Err (Errorf "%s is not a pointer or a nullable type" [AType (Some T)]), b).
Proof.
  unfold okKey. simpl. intros Hnot. unfold makePacker.
  destruct (unwrapNonNull t) as [t' nn]. simpl in Hnot.
  destruct nn; [exfalso; auto|]. simpl.
  destruct (bool_decide_reflect (Kind p T = reflect.Ptr)); [exfalso; auto|].
  destruct (isNullable p T); [exfalso; auto|]. reflexivity.
Qed.

Lemma makePacker_NonNull id t T :
  makePacker p schema assign (ast.NonNull id t) T
    = makeNonNullPacker p schema assign t T.
Proof. reflexivity. Qed.

Lemma assignPacker_body_miss tgt t T b :
  let k := {| graphQLType := t; resolverType := T |} in
  lookupEntry k (packerMap b) = None ->
  assignPacker_body p schema assign tgt t T b =
    match makePacker p schema assign t T (reserved k b) with
    | (Ok pk, b1) => (Ok tt, recorded k tgt (filled k pk b1))
    | (Err e, b1) => (Err e, b1)
    | (Panic, b1) => (Panic, b1)
    | (OutOfFuel, b1) => (OutOfFuel, b1)
    end.
Proof.
  intros k Hk. unfold assignPacker_body. fold k.
  unfold bind at 1. rewrite Hk.
  unfold bind, modify. simpl. fold (reserved k b).
  destruct (makePacker _ _ _ _ _ _) as [[pk| | |] b1]; reflexivity.
Qed.

Lemma assignPacker_body_hit tgt t T b e :
  let k := {| graphQLType := t; resolverType := T |} in
  lookupEntry k (packerMap b) = Some e ->
  assignPacker_body p schema assign tgt t T b = (Ok tt, recorded k tgt b).
Proof.
  intros k Hk. unfold assignPacker_body. fold k.
  unfold bind. rewrite Hk. reflexivity.
Qed.
End MakePackerFacts.

Lemma lookupEntry_Some_key k m e :
  lookupEntry k m = Some e -> k ∈ m.*1.
Proof.
  induction m as [|[k0 e0] m IH]; simpl; [discriminate|].
  destruct (decide (k0 = k)) as [->|Hne].
  - intros _. apply elem_of_cons. left. reflexivity.
  - intros H. apply elem_of_cons. right. apply IH. exact H.
Qed.

Ltac keeps_step_with P leaf :=
  first
    [ leaf
    | apply (keeps_bind P); [|intros ?]
    | apply (keeps_ret P)
    | apply (keeps_fail P)
    | apply (keeps_panic P)
    | apply (keeps_wrapErr P)
    | apply (keeps_forM P); intros ?
    | match goal with
      | |- keeps _ (match ?x with _ => _ end) => destruct x
      end ].

Section BuildKeepsKeys.
Variable p : Program.
Variable schema : ast.Schema.
Variable assign : target -> ast.Type_ -> GoType -> M unit.
Hypothesis assign_keeps : forall tgt t T, keeps (okKeys p) (assign tgt t T).

Lemma keeps_okKeys_same_map {A} (m : M A) :
  (forall b, (packerMap (m b).2).*1 = (packerMap b).*1) ->
  keeps (okKeys p) m.
Proof.
  intros Hm b a b' Hok Hrun. specialize (Hm b). rewrite Hrun in Hm.
  eapply okKeys_same_keys; eassumption.
Qed.

Ltac same_map := apply keeps_okKeys_same_map; intros ?; reflexivity.

Lemma makeField_keeps typ structType v :
  keeps (okKeys p) (makeField p assign typ structType v).
Proof.
  unfold makeField.
  repeat keeps_step_with (okKeys p)
    ltac:(first [apply assign_keeps | same_map]).
Qed.

Lemma MakeStructPacker_keeps values typ :
  keeps (okKeys p) (MakeStructPacker p assign values typ).
Proof.
  unfold MakeStructPacker.
  repeat keeps_step_with (okKeys p)
    ltac:(first [apply makeField_keeps | same_map]).
Qed.

Lemma makeNonNullPacker_keeps t T :
  keeps (okKeys p) (makeNonNullPacker p schema assign t T).
Proof.
  unfold makeNonNullPacker.
  repeat keeps_step_with (okKeys p)
    ltac:(first [ apply MakeStructPacker_keeps | apply assign_keeps
                | same_map ]).
Qed.

Lemma makePacker_keeps t T :
  keeps (okKeys p) (makePacker p schema assign t T).
Proof.
  unfold makePacker.
  repeat keeps_step_with (okKeys p)
    ltac:(first [apply makeNonNullPacker_keeps | same_map]).
Qed.

Lemma assignPacker_body_keeps tgt t T :
  keeps (okKeys p) (assignPacker_body p schema assign tgt t T).
Proof.
  intros b a b' Hok Hrun.
  set (k := {| graphQLType := t; resolverType := T |}).
  destruct (lookupEntry k (packerMap b)) as [e|] eqn:Hk.
  - rewrite (assignPacker_body_hit p schema assign tgt t T b e Hk) in Hrun.
    injection Hrun as _ <-.
    eapply okKeys_same_keys; [|exact Hok]. apply updateEntry_keys.
  - rewrite (assignPacker_body_miss p schema assign tgt t T b Hk) in Hrun.
    destruct (okKey_dec p k) as [Hkey|Hkey].
    + destruct (makePacker _ _ _ _ _ _) as [[pk| | |] b1] eqn:Hmake;
        try discriminate.
      injection Hrun as _ <-.
      assert (Hok1 : okKeys p b1).
      { eapply makePacker_keeps; [|exact Hmake].
        unfold okKeys, reserved. simpl. rewrite fmap_app.
        apply Forall_app. split; [exact Hok|].
        constructor; [exact Hkey | constructor]. }
      eapply okKeys_same_keys; [|exact Hok1].
      unfold recorded, filled. simpl. rewrite !updateEntry_keys.
      reflexivity.
    + rewrite (makePacker_plain_nullable p schema assign t T _ Hkey) in Hrun.
      discriminate.
Qed.
End BuildKeepsKeys.

Lemma assignPacker_keeps p schema fuel tgt t T :
  keeps (okKeys p) (assignPacker p schema fuel tgt t T).
Proof.
  revert tgt t T. induction fuel as [|fuel IH]; intros tgt t T.
  - intros b a b' _ [=].
  - simpl. apply assignPacker_body_keeps. exact IH.
Qed.

Lemma built_okKeys p schema b : built p schema b -> okKeys p b.
Proof.
  induction 1 as [|fuel values typ b a b' Hb IH Hmake].
  - constructor.
  - eapply MakeStructPacker_keeps; [|exact IH|exact Hmake].
    intros tgt t T. apply assignPacker_keeps.
Qed.

Lemma forM_rejects {A B} (P : Builder -> Prop) (f : A -> M B) l x0 :
  (forall x, keeps P (f x)) ->
  x0 ∈ l ->
  (forall b, P b -> forall r b', f x0 b <> (Ok r, b')) ->
  forall b, P b -> forall r b', forM l f b <> (Ok r, b').
Proof.
  intros Hkeeps Hin Hrej. induction l as [|x l IH]; intros b HP r b' Hrun.
  - apply elem_of_nil in Hin. exact Hin.
  - simpl in Hrun. apply bind_Ok_inv in Hrun as (y & b1 & Hx & Hrun).
    apply bind_Ok_inv in Hrun as (ys & b2 & Hl & _).
    apply elem_of_cons in Hin as [->|Hin].
    + exact (Hrej b HP y b1 Hx).
    + exact (IH Hin b1 (Hkeeps x b y b1 HP Hx) ys b2 Hl).
Qed.

Section OptionalityFacts.
Variable p : Program.
Variable schema : ast.Schema.

Lemma MakeStructPacker_unfold assign values typ :
  MakeStructPacker p assign values typ =
    let structType := structTypeOf p typ in
    if negb (bool_decide (Kind p structType = reflect.Struct)) then
      fail (Errorf "expected struct or pointer to struct, got %s (hint: missing `args struct { ... }` wrapper for field arguments?)"
              [AType (Some typ)])
    else
      fields <- forM values (makeField p assign typ structType) ;;
      a <- newPacker (StructPacker structType
                        (bool_decide (Kind p typ = reflect.Ptr))
                        RInvalid fields) ;;
      modify (fun b =>
        {| packerMap := packerMap b;
           structPackers := structPackers b ++ [a];
           heap := heap b;
           allocated := allocated b |}) ;;;
      ret a.
Proof.
  unfold MakeStructPacker, structTypeOf.
  destruct (bool_decide (Kind p typ = reflect.Ptr)); reflexivity.
Qed.

Lemma makeField_required_pointer assign typ structType v b sf idx :
  matchField p structType (ast.Name v) = Some (sf, idx) ->
  sfPkgPath sf = EmptyString ->
  (unwrapNonNull (ast.Type' v)).2 = true ->
  Kind p (sfType sf) = reflect.Ptr ->
  makeField p assign typ structType v b =
    (Err (Errorf "field %q must be a non-pointer since the parameter is required"
            [AString (sfName sf)]), withNewField v b).
Proof.
  intros Hmatch Hexp Hnn Hptr. unfold makeField, bind. simpl.
  unfold matchField in Hmatch. rewrite Hmatch, Hexp, Hnn, Hptr.
  reflexivity.
Qed.

Lemma makeField_optional_plain fuel typ structType v b sf idx :
  okKeys p b ->
  matchField p structType (ast.Name v) = Some (sf, idx) ->
  sfPkgPath sf = EmptyString ->
  (unwrapNonNull (ast.Type' v)).2 = false ->
  ast.Default v = None ->
  Kind p (sfType sf) <> reflect.Ptr ->
  isNullable p (sfType sf) = false ->
  (makeField p (assignPacker p schema (S fuel)) typ structType v b).1 =
    Err (Errorf "field %q: %s"
           [AString (sfName sf);
            AError (Errorf "%s is not a pointer or a nullable type"
                      [AType (Some (sfType sf))])]).
Proof.
  intros Hok Hmatch Hexp Hnn Hdef Hptr Hnull.
  unfold makeField, bind. simpl.
  unfold matchField in Hmatch. rewrite Hmatch, Hexp, Hnn, Hdef. simpl.
  unfold wrapErr.
  set (b1 := withHeap (setFieldIndex _ idx) (withHeap _ b)).
  set (k := {| graphQLType := ast.Type' v; resolverType := sfType sf |}).
  assert (Hkey : ~ okKey p k).
  { unfold okKey. simpl. intros [H|[H|H]]; congruence. }
  assert (Hk : lookupEntry k (packerMap b1) = None).
  { destruct (lookupEntry k (packerMap b1)) as [e|] eqn:Hl; [|reflexivity].
    exfalso. apply Hkey. apply lookupEntry_Some_key in Hl.
    unfold okKeys in Hok. rewrite Forall_forall in Hok. apply Hok.
    exact Hl. }
  rewrite (assignPacker_body_miss p schema _ _ _ _ b1 Hk).
  fold k. rewrite (makePacker_plain_nullable p schema _ _ _ _ Hkey).
  reflexivity.
Qed.

Lemma makeField_rejects fuel typ structType v :
  requiredButPointer p structType v \/ optionalButPlain p structType v ->
  forall b, okKeys p b ->
  forall fe b',
    makeField p (assignPacker p schema fuel) typ structType v b
      <> (Ok fe, b').
Proof.
  intros Hbad b Hok fe b' Hrun.
  destruct Hbad as [(Hnn & sf & idx & Hmatch & Hptr)
                   |(Hnn & Hdef & sf & idx & Hmatch & Hptr & Hnull)].
  - destruct (decide (sfPkgPath sf = EmptyString)) as [Hexp|Hexp].
    + rewrite (makeField_required_pointer _ _ _ _ _ _ _ Hmatch Hexp Hnn Hptr)
        in Hrun. discriminate.
    + unfold makeField, bind in Hrun. simpl in Hrun.
      unfold matchField in Hmatch. rewrite Hmatch in Hrun.
      rewrite bool_decide_false in Hrun by exact Hexp. discriminate.
  - destruct (decide (sfPkgPath sf = EmptyString)) as [Hexp|Hexp].
    + destruct fuel as [|fuel].
      * unfold makeField, bind in Hrun. simpl in Hrun.
        unfold matchField in Hmatch.
        rewrite Hmatch, Hexp, Hnn, Hdef in Hrun. discriminate.
      * pose proof (makeField_optional_plain fuel typ structType v b sf idx
                      Hok Hmatch Hexp Hnn Hdef Hptr Hnull) as Herr.
        rewrite Hrun in Herr. discriminate.
    + unfold makeField, bind in Hrun. simpl in Hrun.
      unfold matchField in Hmatch. rewrite Hmatch in Hrun.
      rewrite bool_decide_false in Hrun by exact Hexp. discriminate.
Qed.

Lemma MakeStructPacker_rejects fuel values typ v b :
  okKeys p b -> v ∈ values ->
  requiredButPointer p (structTypeOf p typ) v \/
  optionalButPlain p (structTypeOf p typ) v ->
  forall a b',
    MakeStructPacker p (assignPacker p schema fuel) values typ b
      <> (Ok a, b').
Proof.
  intros Hok Hin Hbad a b' Hrun.
  rewrite MakeStructPacker_unfold in Hrun. cbv zeta in Hrun.
  destruct (negb _); [discriminate|].
  apply bind_Ok_inv in Hrun as (fields & b1 & Hfields & _).
  revert Hfields.
  apply (forM_rejects (okKeys p) _ values v); try assumption.
  - intros x. apply makeField_keeps. intros tgt t T.
    apply assignPacker_keeps.
  - intros b0 Hok0. apply makeField_rejects; assumption.
Qed.

Lemma MakeStructPacker_first_Err assign typ v rest b e :
  Kind p (structTypeOf p typ) = reflect.Struct ->
  (makeField p assign typ (structTypeOf p typ) v b).1 = Err e ->
  (MakeStructPacker p assign (v :: rest) typ b).1 = Err e.
Proof.
  intros Hk Herr. rewrite MakeStructPacker_unfold. cbv zeta.
  rewrite Hk. rewrite bool_decide_true by reflexivity. simpl.
  unfold bind.
  destruct (makeField p assign typ (structTypeOf p typ) v b) as [r b1].
  simpl in Herr. subst r. reflexivity.
Qed.
End OptionalityFacts.

(** C7, as amended.  In a builder left by successful builds, a struct
    packer is never made when one of the declared arguments is non-null and
    matched with a pointer field, or is nullable, has no default value, and
    is matched with a field that is neither a pointer nor a
    [NullUnmarshaller]; when the first declared argument is such a one (and
    its field is exported), the build error is the one of that check. *)
Theorem MakeStructPacker_optionality (p : Program) (schema : ast.Schema) :
  (forall fuel values typ v b,
     built p schema b -> v ∈ values ->
     requiredButPointer p (structTypeOf p typ) v \/
     optionalButPlain p (structTypeOf p typ) v ->
     forall a b',
       MakeStructPacker p (assignPacker p schema fuel) values typ b
         <> (Ok a, b')) /\
  (forall assign typ v rest b sf idx,
     Kind p (structTypeOf p typ) = reflect.Struct ->
     matchField p (structTypeOf p typ) (ast.Name v) = Some (sf, idx) ->
     sfPkgPath sf = EmptyString ->
     (unwrapNonNull (ast.Type' v)).2 = true ->
     Kind p (sfType sf) = reflect.Ptr ->
     (MakeStructPacker p assign (v :: rest) typ b).1 =
       Err (Errorf "field %q must be a non-pointer since the parameter is required"
              [AString (sfName sf)])) /\
  (forall fuel typ v rest b sf idx,
     built p schema b ->
     Kind p (structTypeOf p typ) = reflect.Struct ->
     matchField p (structTypeOf p typ) (ast.Name v) = Some (sf, idx) ->
     sfPkgPath sf = EmptyString ->
     (unwrapNonNull (ast.Type' v)).2 = false ->
     ast.Default v = None ->
     Kind p (sfType sf) <> reflect.Ptr ->
     isNullable p (sfType sf) = false ->
     (MakeStructPacker p (assignPacker p schema (S fuel)) (v :: rest) typ b).1 =
       Err (Errorf "field %q: %s"
              [AString (sfName sf);
               AError (Errorf "%s is not a pointer or a nullable type"
                         [AType (Some (sfType sf))])])).
Proof.
  split; [|split].
  - intros fuel values typ v b Hb. apply MakeStructPacker_rejects.
    apply (built_okKeys p schema). exact Hb.
  - intros assign typ v rest b sf idx Hk Hmatch Hexp Hnn Hptr.
    apply MakeStructPacker_first_Err; [exact Hk|].
    rewrite (makeField_required_pointer p assign typ _ v b sf idx
               Hmatch Hexp Hnn Hptr).
    reflexivity.
  - intros fuel typ v rest b sf idx Hb Hk Hmatch Hexp Hnn Hdef Hptr Hnull.
    apply MakeStructPacker_first_Err; [exact Hk|].
    apply (makeField_optional_plain p schema fuel typ _ v b sf idx);
      try assumption.
    apply (built_okKeys p schema). exact Hb.
Qed.

(** [(value: Int!)] bound to [struct{ Value *int32 }] and [(value: Int)]
    bound to [struct{ Value int32 }]: both are build errors. *)
Lemma MakeStructPacker_optionality_witness :
  (MakeStructPacker testProgram (assignPacker testProgram testSchema 1)
     requiredArguments pointerArgs NewBuilder).1
  = Err (Errorf "field %q must be a non-pointer since the parameter is required"
           [AString "Value"]) /\
  (MakeStructPacker testProgram (assignPacker testProgram testSchema 1)
     optionalArguments plainArgs NewBuilder).1
  = Err (Errorf "field %q: %s"
           [AString "Value";
            AError (Errorf "%s is not a pointer or a nullable type"
                      [AType (Some TInt32)])]) /\
  (forall a b',
     MakeStructPacker testProgram (assignPacker testProgram testSchema 1)
       optionalArguments plainArgs NewBuilder <> (Ok a, b')).
Proof.
  destruct (MakeStructPacker_optionality testProgram testSchema)
    as (Hnever & Hrequired & Hoptional).
  split; [|split].
  - apply (Hrequired _ pointerArgs _ [] NewBuilder
             (mkStructField "Value" "" (TPtr TInt32)) [0%nat]);
      reflexivity.
  - apply (Hoptional 0%nat plainArgs _ [] NewBuilder
             (mkStructField "Value" "" TInt32) [0%nat]);
      try reflexivity; try discriminate.
    constructor.
  - apply (Hnever 1%nat optionalArguments plainArgs
             {| ast.Name := "value";
                ast.Type' := ast.ScalarTypeDefinition "Int";
                ast.Default := None |} NewBuilder).
    + constructor.
    + apply elem_of_cons. left. reflexivity.
    + right. split; [reflexivity|]. split; [reflexivity|].
      exists (mkStructField "Value" "" TInt32), [0%nat].
      split; [reflexivity|]. split; [discriminate | reflexivity].
Defined.

(** C7, as stated, fails: [addHour(time: Time = "2001-02-03T04:05:06Z")] of
    [TestTime] declares a nullable argument bound to the field [Time
    graphql.Time], which is neither a pointer nor a [NullUnmarshaller], and
    the struct packer is built; and [(name: String!)] is built for a field
    of type [graphql.NullString], an optional member. *)
Lemma MakeStructPacker_default_accepted :
  ((unwrapNonNull (ast.ScalarTypeDefinition "Time")).2 = false /\
   matchField timeProgram addHourArgs "time"
     = Some (mkStructField "Time" "" (TNamed "Time"), [0%nat]) /\
   Kind timeProgram (TNamed "Time") <> reflect.Ptr /\
   isNullable timeProgram (TNamed "Time") = false /\
   (MakeStructPacker timeProgram (assignPacker timeProgram testSchema 2)
      addHourArguments addHourArgs NewBuilder).1 = Ok 1%nat) /\
  (isNullable nullStringProgram (TNamed "NullString") = true /\
   (MakeStructPacker nullStringProgram
      (assignPacker nullStringProgram testSchema 2)
      requiredNameArguments nameArgs NewBuilder).1 = Ok 1%nat).
Proof.
  split; [split; [|split; [|split; [|split]]] | split];
    try reflexivity.
  discriminate.
Qed.


(* ===================================================================== *)
(** * Well-formed builders *)
(* ===================================================================== *)

Lemma lookupEntry_None_key k m : lookupEntry k m = None -> k ∉ m.*1.
Proof.
  induction m as [|[k0 e0] m IH]; simpl; intros H Hin.
  - apply elem_of_nil in Hin. exact Hin.
  - destruct (decide (k0 = k)) as [->|Hne]; [discriminate|].
    apply elem_of_cons in Hin as [->|Hin]; [congruence|].
    exact (IH H Hin).
Qed.

Lemma elem_of_updateEntry k f m k' e' :
  (k', e') ∈ updateEntry k f m ->
  (k', e') ∈ m \/ (k' = k /\ exists e, (k, e) ∈ m /\ e' = f e).
Proof.
  induction m as [|[k0 e0] m IH]; simpl; intros Hin.
  - left. exact Hin.
  - destruct (decide (k0 = k)) as [->|Hne].
    + apply elem_of_cons in Hin as [[= -> ->]|Hin].
      * right. split; [reflexivity|]. exists e0.
        split; [apply elem_of_cons; left; reflexivity | reflexivity].
      * left. apply elem_of_cons. right. exact Hin.
    + apply elem_of_cons in Hin as [[= -> ->]|Hin].
      * left. apply elem_of_cons. left. reflexivity.
      * destruct (IH Hin) as [Hold|(-> & e & He & ->)].
        -- left. apply elem_of_cons. right. exact Hold.
        -- right. split; [reflexivity|]. exists e.
           split; [apply elem_of_cons; right; exact He | reflexivity].
Qed.

Lemma elem_of_updateEntry_key k f m e' :
  NoDup m.*1 -> (k, e') ∈ updateEntry k f m ->
  exists e, (k, e) ∈ m /\ e' = f e.
Proof.
  induction m as [|[k0 e0] m IH]; simpl; intros Hnd Hin.
  - apply elem_of_nil in Hin. contradiction.
  - apply NoDup_cons in Hnd as [Hk0 Hnd].
    destruct (decide (k0 = k)) as [->|Hne].
    + apply elem_of_cons in Hin as [[= ->]|Hin].
      * exists e0. split; [apply elem_of_cons; left; reflexivity | reflexivity].
      * exfalso. apply Hk0. apply list_elem_of_fmap.
        exists (k, e'). split; [reflexivity | exact Hin].
    + apply elem_of_cons in Hin as [[= -> ->]|Hin]; [congruence|].
      destruct (IH Hnd Hin) as (e & He & ->).
      exists e. split; [apply elem_of_cons; right; exact He | reflexivity].
Qed.

Lemma elem_of_updateEntry_ne k f m k' e' :
  k' <> k -> (k', e') ∈ updateEntry k f m -> (k', e') ∈ m.
Proof.
  intros Hne Hin. apply elem_of_updateEntry in Hin as [H|(-> & _)];
    [exact H | contradiction].
Qed.

(** The targets of a map, entry after entry. *)
Lemma targets_updateEntry_same k f m :
  (forall e, targets (f e) = targets e) ->
  (fun ke : typePair * packerMapEntry => targets ke.2) <$> updateEntry k f m
  = (fun ke : typePair * packerMapEntry => targets ke.2) <$> m.
Proof.
  intros Hf. induction m as [|[k0 e0] m IH]; simpl; [reflexivity|].
  destruct (decide (k0 = k)); simpl.
  - rewrite Hf. reflexivity.
  - f_equal. exact IH.
Qed.

Lemma targets_updateEntry_add k tgt m e :
  lookupEntry k m = Some e ->
  concat ((fun ke : typePair * packerMapEntry => targets ke.2)
            <$> updateEntry k (fun e =>
                  {| epacker := epacker e; targets := targets e ++ [tgt] |}) m)
  ≡ₚ tgt :: concat ((fun ke : typePair * packerMapEntry => targets ke.2) <$> m).
Proof.
  revert e. induction m as [|[k0 e0] m IH]; simpl; intros e Hk;
    [discriminate|].
  destruct (decide (k0 = k)) as [->|Hne]; simpl.
  - rewrite <- app_assoc. simpl.
    rewrite <- Permutation_middle. reflexivity.
  - rewrite (IH e Hk). rewrite <- Permutation_middle. reflexivity.
Qed.

Lemma allTargets_reserved k b : allTargets (reserved k b) = allTargets b.
Proof.
  unfold allTargets, reserved. simpl.
  rewrite fmap_app, concat_app. simpl. rewrite app_nil_r. reflexivity.
Qed.

Lemma allTargets_filled k pk b : allTargets (filled k pk b) = allTargets b.
Proof.
  unfold allTargets, filled. simpl.
  rewrite targets_updateEntry_same by reflexivity. reflexivity.
Qed.

Lemma allTargets_recorded k tgt b e :
  lookupEntry k (packerMap b) = Some e ->
  allTargets (recorded k tgt b) ≡ₚ tgt :: allTargets b.
Proof. intros Hk. unfold allTargets, recorded. simpl.
       apply (targets_updateEntry_add k tgt _ e Hk). Qed.

Lemma elem_of_allTargets b t :
  t ∈ allTargets b <-> exists k e, (k, e) ∈ packerMap b /\ t ∈ targets e.
Proof.
  unfold allTargets. rewrite list_elem_of_In, in_concat. split.
  - intros (ts & Hts & Ht). apply list_elem_of_In in Hts, Ht.
    apply list_elem_of_fmap in Hts as ([k e] & -> & Hke). eauto.
  - intros (k & e & Hke & Ht). exists (targets e).
    split; apply list_elem_of_In; [|exact Ht].
    apply list_elem_of_fmap. exists (k, e). auto.
Qed.

Lemma validTarget_not_fresh h t : validTarget h t -> ~ freshTarget h t.
Proof.
  unfold validTarget. intros [x Hx] Hfresh. destruct t as [a|fe]; simpl in *.
  - destruct (packers h !! a) eqn:Ha; [|discriminate].
    apply lookup_lt_Some in Ha. lia.
  - destruct (sfields h !! fe) eqn:Hf; [|discriminate].
    apply lookup_lt_Some in Hf. lia.
Qed.

Lemma validTarget_grows h h' t :
  packers h `prefix_of` packers h' ->
  (length (sfields h) <= length (sfields h'))%nat ->
  validTarget h t -> validTarget h' t.
Proof.
  unfold validTarget. intros Hp Hl [x Hx]. destruct t as [a|fe]; simpl in *.
  - destruct (packers h !! a) as [o|] eqn:Ha; [|discriminate].
    pose proof (prefix_lookup_Some _ _ _ _ Ha Hp) as Ha'.
    unfold slot. rewrite Ha'. eauto.
  - destruct (sfields h !! fe) as [f|] eqn:Hf; [|discriminate].
    apply lookup_lt_Some in Hf.
    destruct (lookup_lt_is_Some_2 (sfields h') fe) as [f' Hf']; [lia|].
    unfold slot. rewrite Hf'. simpl. eauto.
Qed.

Lemma freshTarget_shrinks h h' t :
  packers h `prefix_of` packers h' ->
  (length (sfields h) <= length (sfields h'))%nat ->
  freshTarget h' t -> freshTarget h t.
Proof.
  intros Hp Hl. apply prefix_length in Hp.
  destruct t; simpl; lia.
Qed.

Lemma extends_refl ex b : extends ex b b.
Proof.
  repeat split; try reflexivity; eauto.
Qed.

Lemma extends_trans ex1 ex2 b1 b2 b3 :
  extends ex1 b1 b2 -> extends ex2 b2 b3 -> extends (ex1 ++ ex2) b1 b3.
Proof.
  intros (Hp1 & Hl1 & Hd1 & Hk1 & Hn1 & Hu1 & He1)
         (Hp2 & Hl2 & Hd2 & Hk2 & Hn2 & Hu2 & He2).
  split; [etransitivity; eassumption|].
  split; [lia|].
  split; [|split; [|split; [|split]]].
  - intros fe f Hf. destruct (Hd1 fe f Hf) as (f1 & Hf1 & Hdef1).
    destruct (Hd2 fe f1 Hf1) as (f2 & Hf2 & Hdef2).
    exists f2. split; [exact Hf2 | congruence].
  - auto.
  - intros t Ht. destruct (Hn2 t Ht) as [H2|[H2|H2]].
    + destruct (Hn1 t H2) as [H1|[H1|H1]]; [auto | auto |].
      right. right. apply elem_of_app. auto.
    + right. left. eapply freshTarget_shrinks; eassumption.
    + right. right. apply elem_of_app. auto.
  - intros k e Hin He. destruct (Hu2 k e Hin He) as (e0 & Hin0 & He0).
    exact (Hu1 k e0 Hin0 He0).
  - auto.
Qed.

Lemma extends_weaken ex ex' b b' :
  extends ex b b' ->
  (forall t, t ∈ ex ->
     t ∈ allTargets b \/ freshTarget (heap b) t \/ t ∈ ex') ->
  extends ex' b b'.
Proof.
  intros (Hp & Hl & Hd & Hk & Hn & Hu & He) Hex.
  repeat split; try assumption.
  intros t Ht. destruct (Hn t Ht) as [H|[H|H]]; auto.
Qed.

Lemma allTargets_same_map b b' :
  packerMap b' = packerMap b -> allTargets b' = allTargets b.
Proof. intros H. unfold allTargets. rewrite H. reflexivity. Qed.

(** A step that leaves the map alone, adds packer objects and fields, and
    changes no default value. *)
Lemma extends_same_map b b' :
  packerMap b' = packerMap b ->
  packers (heap b) `prefix_of` packers (heap b') ->
  (length (sfields (heap b)) <= length (sfields (heap b')))%nat ->
  (forall fe f, sfields (heap b) !! fe = Some f ->
     exists f', sfields (heap b') !! fe = Some f' /\ def f' = def f) ->
  extends [] b b'.
Proof.
  intros Hmap Hp Hl Hd.
  pose proof (allTargets_same_map b b' Hmap) as Hts.
  repeat split; try assumption.
  - rewrite Hts. auto.
  - rewrite Hts. auto.
  - rewrite Hmap. eauto.
  - rewrite Hmap. auto.
Qed.

Lemma WF_same_map b b' :
  WF b ->
  packerMap b' = packerMap b ->
  packers (heap b) `prefix_of` packers (heap b') ->
  (length (sfields (heap b)) <= length (sfields (heap b')))%nat ->
  (forall fe f, sfields (heap b) !! fe = Some f ->
     exists f', sfields (heap b') !! fe = Some f' /\ def f' = def f) ->
  (forall a st up d fs fe,
     (length (packers (heap b)) <= a)%nat ->
     packers (heap b') !! a = Some (StructPacker st up d fs) -> fe ∈ fs ->
     packerOf fe ∈ allTargets b) ->
  WF b'.
Proof.
  intros [Hkeys Hnd Hvalid Hpk Hdef Hfs] Hmap Hp Hl Hd Hnew.
  pose proof (allTargets_same_map b b' Hmap) as Hts.
  split.
  - rewrite Hmap. exact Hkeys.
  - rewrite Hts. exact Hnd.
  - rewrite Hts. intros t Ht.
    apply (validTarget_grows (heap b)); auto.
  - rewrite Hmap. intros k e a Hin He.
    destruct (Hpk k e a Hin He) as (o & Ho & Hnn).
    exists o. split; [|exact Hnn].
    exact (prefix_lookup_Some _ _ _ _ Ho Hp).
  - rewrite Hmap. intros k e fe f' Hin Ht Hf' Hdf.
    assert (Hv : validTarget (heap b) (packerOf fe)).
    { apply Hvalid. apply elem_of_allTargets. eauto. }
    destruct Hv as [x Hx]. simpl in Hx.
    destruct (sfields (heap b) !! fe) as [f|] eqn:Hf; [|discriminate].
    destruct (Hd fe f Hf) as (f'' & Hf'' & Hdf'').
    assert (f'' = f') by congruence. subst f''.
    apply (Hdef k e fe f Hin Ht Hf). congruence.
  - rewrite Hts. intros a st up d fs fe Ha Hfe.
    destruct (decide (a < length (packers (heap b)))%nat) as [Hlt|Hge].
    + apply (Hfs a st up d fs fe); [|exact Hfe].
      destruct Hp as [more Hmore]. rewrite Hmore in Ha.
      rewrite lookup_app_l in Ha by exact Hlt. exact Ha.
    + apply (Hnew a st up d fs fe); [lia | exact Ha | exact Hfe].
Qed.

Lemma newField_spec f b fe b' :
  WF b -> newField f b = (Ok fe, b') ->
  WF b' /\ extends [] b b' /\
  fe = length (sfields (heap b)) /\
  sfields (heap b') !! fe = Some f /\
  packerMap b' = packerMap b.
Proof.
  intros Hwf [= <- <-]. simpl.
  assert (Hd : forall fe0 f0, sfields (heap b) !! fe0 = Some f0 ->
            exists f', (sfields (heap b) ++ [f]) !! fe0 = Some f' /\
                       def f' = def f0).
  { intros fe0 f0 Hf0. exists f0. split; [|reflexivity].
    apply lookup_app_l_Some. exact Hf0. }
  split; [|split; [|split; [|split]]].
  - apply (WF_same_map b); simpl; auto.
    + rewrite length_app. lia.
    + intros a st up d fs fe Hle Ha. apply lookup_lt_Some in Ha.
      lia.
  - apply extends_same_map; simpl; auto. rewrite length_app. lia.
  - reflexivity.
  - apply list_lookup_middle. reflexivity.
  - reflexivity.
Qed.

Lemma newPacker_spec o b a b' :
  WF b ->
  (forall st up d fs fe, o = StructPacker st up d fs -> fe ∈ fs ->
     packerOf fe ∈ allTargets b) ->
  newPacker o b = (Ok a, b') ->
  WF b' /\ extends [] b b' /\ packers (heap b') !! a = Some o.
Proof.
  intros Hwf Ho [= <- <-]. simpl.
  split; [|split].
  - apply (WF_same_map b); simpl; eauto.
    + apply prefix_app_r. reflexivity.
    + intros a st up d fs fe Hle Ha Hfe.
      assert (a = length (packers (heap b))) as ->.
      { apply lookup_lt_Some in Ha. rewrite length_app in Ha. simpl in Ha.
        lia. }
      rewrite list_lookup_middle in Ha by reflexivity.
      injection Ha as Ha. eauto.
  - apply extends_same_map; simpl; eauto.
    apply prefix_app_r. reflexivity.
  - apply list_lookup_middle. reflexivity.
Qed.

Lemma setFieldIndex_spec fe idx b f :
  WF b -> sfields (heap b) !! fe = Some f ->
  let b' := withHeap (setFieldIndex fe idx) b in
  WF b' /\ extends [] b b' /\
  sfields (heap b') !! fe
    = Some {| name := name f; index := idx; def := def f;
              fpacker := fpacker f |} /\
  length (sfields (heap b')) = length (sfields (heap b)) /\
  packerMap b' = packerMap b.
Proof.
  intros Hwf Hf b'.
  assert (Hb' : b' = withHeap (fun h =>
            {| packers := packers h;
               sfields := <[fe := {| name := name f; index := idx;
                                     def := def f; fpacker := fpacker f |}]>
                            (sfields h) |}) b).
  { subst b'. unfold withHeap, setFieldIndex. rewrite Hf. reflexivity. }
  rewrite Hb'. clear b' Hb'. simpl.
  assert (Hd : forall fe0 f0, sfields (heap b) !! fe0 = Some f0 ->
            exists f',
              <[fe := {| name := name f; index := idx; def := def f;
                         fpacker := fpacker f |}]> (sfields (heap b)) !! fe0
              = Some f' /\ def f' = def f0).
  { intros fe0 f0 Hf0. destruct (decide (fe0 = fe)) as [->|Hne].
    - eexists. split.
      + apply list_lookup_insert_eq. apply lookup_lt_Some in Hf. exact Hf.
      + simpl. congruence.
    - exists f0. split; [|reflexivity].
      rewrite list_lookup_insert_ne by congruence. exact Hf0. }
  split; [|split; [|split; [|split]]].
  - apply (WF_same_map b); simpl;
      [exact Hwf | reflexivity | reflexivity | rewrite length_insert; lia
      | exact Hd |].
    intros a st up d fs fe0 Hle Ha. apply lookup_lt_Some in Ha. lia.
  - apply extends_same_map; simpl;
      [reflexivity | reflexivity | rewrite length_insert; lia | exact Hd].
  - apply list_lookup_insert_eq. apply lookup_lt_Some in Hf. exact Hf.
  - apply length_insert.
  - reflexivity.
Qed.

Lemma wrapErr_Ok_inv {A} (m : M A) w b r b' :
  wrapErr m w b = (Ok r, b') -> m b = (Ok r, b').
Proof.
  unfold wrapErr. destruct (m b) as [[a| | |] b1]; try discriminate.
  intros H. exact H.
Qed.

Lemma WF_fresh_not_recorded b t :
  WF b -> freshTarget (heap b) t -> t ∉ allTargets b.
Proof.
  intros Hwf Hfresh Hin.
  exact (validTarget_not_fresh _ _ (wf_valid b Hwf t Hin) Hfresh).
Qed.

Lemma extends_nil_trans_l ex b1 b2 b3 :
  extends [] b1 b2 -> extends ex b2 b3 -> extends ex b1 b3.
Proof. intros H1 H2. exact (extends_trans [] ex b1 b2 b3 H1 H2). Qed.

(** A target that was new when the call started need not be declared. *)
Lemma extends_fresh tgt b b' :
  freshTarget (heap b) tgt -> extends [tgt] b b' -> extends [] b b'.
Proof.
  intros Hfresh Hext. apply (extends_weaken [tgt]); [exact Hext|].
  intros t Ht. apply list_elem_of_singleton in Ht as ->. auto.
Qed.

Section BuildWF.
Variable p : Program.
Variable schema : ast.Schema.
Variable assign : target -> ast.Type_ -> GoType -> M unit.
Hypothesis assign_spec : assignSpec assign.

Lemma makeField_spec typ structType v :
  methodSpec (makeField p assign typ structType v)
    (fun fe b' => packerOf fe ∈ allTargets b').
Proof.
  intros b r b' Hwf Hrun. unfold makeField in Hrun.
  apply bind_Ok_inv in Hrun as (fe & b1 & Hnew & Hrun).
  destruct (newField_spec _ _ _ _ Hwf Hnew)
    as (Hwf1 & Hext1 & Hfe & Hf1 & Hmap1).
  destruct (FieldByNameFunc _ _ _) as [[sf idx]|]; [|discriminate].
  destruct (negb _); [discriminate|].
  destruct (_ && _); [discriminate|].
  apply bind_Ok_inv in Hrun as ([] & b2 & Hmod & Hrun).
  injection Hmod as <-.
  destruct (setFieldIndex_spec fe idx b1 _ Hwf1 Hf1)
    as (Hwf2 & Hext2 & Hf2 & Hlen2 & Hmap2).
  set (b2 := withHeap (setFieldIndex fe idx) b1) in *.
  apply bind_Ok_inv in Hrun as (ft & b3 & Hft & Hrun).
  apply bind_Ok_inv in Hrun as ([] & b4 & Hassign & Hret).
  injection Hret as <- <-. apply wrapErr_Ok_inv in Hassign.
  assert (Hfresh : freshTarget (heap b) (packerOf fe)).
  { simpl. lia. }
  assert (Hb3 : WF b3 /\ extends [] b2 b3 /\
          sfields (heap b3) !! fe = sfields (heap b2) !! fe /\
          packerMap b3 = packerMap b2 /\
          forall d, ast.Default v = Some d -> isNonNullType ft).
  { destruct (ast.Default v) as [d|].
    - injection Hft as <- <-. split; [|split; [|split; [|split]]].
      + apply (WF_same_map b2); simpl; eauto; try reflexivity.
        intros a st up d0 fs fe0 Hle Ha. apply lookup_lt_Some in Ha. lia.
      + apply extends_same_map; simpl; eauto; reflexivity.
      + reflexivity.
      + reflexivity.
      + intros _ _. reflexivity.
    - injection Hft as <- <-. split; [|split; [|split; [|split]]].
      + exact Hwf2.
      + apply extends_refl.
      + reflexivity.
      + reflexivity.
      + discriminate. }
  destruct Hb3 as (Hwf3 & Hext3 & Hf3 & Hmap3 & Hnn).
  assert (Hts3 : allTargets b3 = allTargets b).
  { apply allTargets_same_map. congruence. }
  pose proof (extends_nil_trans_l [] _ _ _ Hext1
                (extends_nil_trans_l [] _ _ _ Hext2 Hext3)) as Hext03.
  destruct (assign_spec (packerOf fe) ft (sfType sf) b3 tt b4) as
    (Hwf4 & Hext4 & Hin4); try assumption.
  - unfold validTarget. simpl. rewrite Hf3, Hf2. simpl. eauto.
  - rewrite Hts3. exact (WF_fresh_not_recorded b _ Hwf Hfresh).
  - intros fe0 f0 [= <-] Hf0 Hd0. rewrite Hf3, Hf2 in Hf0.
    injection Hf0 as <-. simpl in Hd0.
    destruct (ast.Default v) as [d|] eqn:Hdv; [|congruence].
    exact (Hnn d eq_refl).
  - split; [exact Hwf4|]. split; [|exact Hin4].
    apply (extends_fresh (packerOf fe)); [exact Hfresh|].
    exact (extends_nil_trans_l _ _ _ _ Hext03 Hext4).
Qed.
Lemma makeFields_spec typ structType values :
  methodSpec (forM values (makeField p assign typ structType))
    (fun fes b' => Forall (fun fe => packerOf fe ∈ allTargets b') fes).
Proof.
  induction values as [|v values IH]; intros b r b' Hwf Hrun.
  - injection Hrun as <- <-.
    split; [exact Hwf|]. split; [apply extends_refl | constructor].
  - simpl in Hrun.
    apply bind_Ok_inv in Hrun as (fe & b1 & Hfield & Hrun).
    apply bind_Ok_inv in Hrun as (fes & b2 & Hrest & Hret).
    injection Hret as <- <-.
    destruct (makeField_spec _ _ _ _ _ _ Hwf Hfield) as (Hwf1 & Hext1 & Hfe).
    destruct (IH _ _ _ Hwf1 Hrest) as (Hwf2 & Hext2 & Hfes).
    split; [exact Hwf2|].
    split; [exact (extends_nil_trans_l _ _ _ _ Hext1 Hext2)|].
    constructor; [|exact Hfes].
    destruct Hext2 as (_ & _ & _ & Hk & _). auto.
Qed.

Lemma MakeStructPacker_spec values typ :
  methodSpec (MakeStructPacker p assign values typ)
    (fun a b' => exists st up fs,
       packers (heap b') !! a = Some (StructPacker st up RInvalid fs)).
Proof.
  intros b r b' Hwf Hrun. rewrite MakeStructPacker_unfold in Hrun.
  cbv zeta in Hrun. destruct (negb _); [discriminate|].
  apply bind_Ok_inv in Hrun as (fields & b1 & Hfields & Hrun).
  apply bind_Ok_inv in Hrun as (a & b2 & Hnew & Hrun).
  apply bind_Ok_inv in Hrun as ([] & b3 & Hmod & Hret).
  injection Hret as <- <-. injection Hmod as <-.
  destruct (makeFields_spec _ _ _ _ _ _ Hwf Hfields)
    as (Hwf1 & Hext1 & Hrec).
  assert (Hprem : forall st up d fs fe,
            StructPacker (structTypeOf p typ)
              (bool_decide (Kind p typ = reflect.Ptr)) RInvalid fields
            = StructPacker st up d fs ->
            fe ∈ fs -> packerOf fe ∈ allTargets b1).
  { intros st up d fs fe [= _ _ _ <-] Hfe.
    rewrite Forall_forall in Hrec. exact (Hrec fe Hfe). }
  destruct (newPacker_spec _ _ _ _ Hwf1 Hprem Hnew) as (Hwf2 & Hext2 & Ha).
  split; [|split].
  - apply (WF_same_map b2); simpl; eauto; try reflexivity.
    intros a0 st up d fs fe Hle Ha0. apply lookup_lt_Some in Ha0. lia.
  - apply (extends_nil_trans_l [] _ _ _ Hext1).
    apply (extends_nil_trans_l [] _ _ _ Hext2).
    apply extends_same_map; simpl; eauto; reflexivity.
  - simpl. eauto.
Qed.

Lemma makeNonNullPacker_spec t T :
  methodSpec (makeNonNullPacker p schema assign t T)
    (fun a b' => exists o, packers (heap b') !! a = Some o /\ nonNullObj o).
Proof.
  assert (Hleaf : forall o, nonNullObj o ->
            (forall st up d fs, o <> StructPacker st up d fs) ->
            methodSpec (newPacker o)
              (fun a b' => exists o, packers (heap b') !! a = Some o /\
                                     nonNullObj o)).
  { intros o Hnn Hns b r b' Hwf Hnew.
    assert (Hprem : forall st up d fs fe, o = StructPacker st up d fs ->
              fe ∈ fs -> packerOf fe ∈ allTargets b).
    { intros st up d fs fe Ho. destruct (Hns _ _ _ _ Ho). }
    destruct (newPacker_spec _ _ _ _ Hwf Hprem Hnew) as (Hwf1 & Hext1 & Ha).
    eauto. }
  intros b r b' Hwf Hrun. unfold makeNonNullPacker in Hrun.
  destruct (unmarshaler_of p T) as [u|].
  { destruct (negb _); [discriminate|].
    apply (Hleaf (unmarshalerPacker T)) with (b := b);
      [exact I | discriminate | exact Hwf | exact Hrun]. }
  destruct t as [n|n|n|n|n|n|id t|id t]; try discriminate.
  - apply (Hleaf (ValuePacker T)) with (b := b);
      [exact I | discriminate | exact Hwf | exact Hrun].
  - destruct (negb _); [discriminate|].
    apply (Hleaf (ValuePacker T)) with (b := b);
      [exact I | discriminate | exact Hwf | exact Hrun].
  - destruct (MakeStructPacker_spec _ _ _ _ _ Hwf Hrun)
      as (Hwf1 & Hext1 & st & up & fs & Ha).
    split; [exact Hwf1|]. split; [exact Hext1|].
    eexists. split; [exact Ha | exact I].
  - destruct (Kind p T); try discriminate.
    destruct (Elem p T) as [et|]; [|discriminate].
    apply bind_Ok_inv in Hrun as (a & b1 & Hnew & Hrun).
    apply bind_Ok_inv in Hrun as ([] & b2 & Hassign & Hret).
    injection Hret as <- <-.
    assert (Hprem : forall st up d fs fe,
              listPacker T None = StructPacker st up d fs ->
              fe ∈ fs -> packerOf fe ∈ allTargets b) by discriminate.
    destruct (newPacker_spec _ _ _ _ Hwf Hprem Hnew) as (Hwf1 & Hext1 & Ha).
    assert (Ha0 : a = length (packers (heap b)) /\
                  packerMap b1 = packerMap b).
    { injection Hnew as <- <-. auto. }
    destruct Ha0 as [Ha0 Hmap1].
    assert (Hfresh : freshTarget (heap b) (elemOf a)).
    { simpl. lia. }
    destruct (assign_spec (elemOf a) t et b1 tt b2) as
      (Hwf2 & Hext2 & Hin2); try assumption.
    + unfold validTarget. simpl. rewrite Ha. eauto.
    + rewrite (allTargets_same_map b b1 Hmap1).
      exact (WF_fresh_not_recorded b _ Hwf Hfresh).
    + discriminate.
    + split; [exact Hwf2|]. split.
      * apply (extends_fresh (elemOf a)); [exact Hfresh|].
        exact (extends_nil_trans_l _ _ _ _ Hext1 Hext2).
      * exists (listPacker T None). split; [|exact I].
        destruct Hext2 as (Hp & _).
        exact (prefix_lookup_Some _ _ _ _ Ha Hp).
Qed.
End BuildWF.

Lemma key_lookupEntry k m : k ∈ m.*1 -> is_Some (lookupEntry k m).
Proof.
  induction m as [|[k0 e0] m IH]; simpl; intros Hin.
  - apply elem_of_nil in Hin. contradiction.
  - destruct (decide (k0 = k)) as [->|Hne]; [eauto|].
    apply elem_of_cons in Hin as [->|Hin]; [congruence | auto].
Qed.

(** The three updates of the map in [assignPacker]. *)
Lemma WF_reserved k b :
  WF b -> lookupEntry k (packerMap b) = None -> WF (reserved k b).
Proof.
  intros [Hkeys Hnd Hvalid Hpk Hdef Hfs] Hk.
  split; try rewrite allTargets_reserved; simpl; try assumption.
  - rewrite fmap_app. apply NoDup_app. split; [exact Hkeys|]. split.
    + intros k0 Hk0 Hin. simpl in Hin.
      apply list_elem_of_singleton in Hin as ->.
      exact (lookupEntry_None_key _ _ Hk Hk0).
    + simpl. apply NoDup_singleton.
  - intros k0 e a Hin He. apply elem_of_app in Hin as [Hin|Hin].
    + exact (Hpk k0 e a Hin He).
    + apply list_elem_of_singleton in Hin. injection Hin as -> ->.
      discriminate.
  - intros k0 e fe f Hin Ht. apply elem_of_app in Hin as [Hin|Hin].
    + exact (Hdef k0 e fe f Hin Ht).
    + apply list_elem_of_singleton in Hin. injection Hin as -> ->.
      apply elem_of_nil in Ht. contradiction.
Qed.

Lemma WF_filled k pk b o :
  WF b -> packers (heap b) !! pk = Some o ->
  (isNonNullType (graphQLType k) -> nonNullObj o) ->
  WF (filled k pk b).
Proof.
  intros [Hkeys Hnd Hvalid Hpk Hdef Hfs] Ho Hnn.
  split; try rewrite allTargets_filled; simpl; try assumption.
  - rewrite updateEntry_keys. exact Hkeys.
  - intros k0 e' a Hin He.
    apply elem_of_updateEntry in Hin as [Hin|(-> & e & Hin & ->)].
    + exact (Hpk k0 e' a Hin He).
    + injection He as <-. eauto.
  - intros k0 e' fe f Hin Ht.
    apply elem_of_updateEntry in Hin as [Hin|(-> & e & Hin & ->)].
    + exact (Hdef k0 e' fe f Hin Ht).
    + exact (Hdef k e fe f Hin Ht).
Qed.

Lemma WF_recorded k tgt b e :
  WF b -> lookupEntry k (packerMap b) = Some e ->
  validTarget (heap b) tgt -> tgt ∉ allTargets b ->
  (forall fe f, tgt = packerOf fe -> sfields (heap b) !! fe = Some f ->
                def f <> None -> isNonNullType (graphQLType k)) ->
  WF (recorded k tgt b).
Proof.
  intros [Hkeys Hnd Hvalid Hpk Hdef Hfs] Hk Hv Hnew Hd.
  pose proof (allTargets_recorded k tgt b e Hk) as Hperm.
  split; simpl.
  - rewrite updateEntry_keys. exact Hkeys.
  - rewrite Hperm. apply NoDup_cons. auto.
  - intros t Ht. rewrite Hperm in Ht.
    apply elem_of_cons in Ht as [->|Ht]; auto.
  - intros k0 e' a Hin He.
    apply elem_of_updateEntry in Hin as [Hin|(-> & e0 & Hin & ->)].
    + exact (Hpk k0 e' a Hin He).
    + exact (Hpk k e0 a Hin He).
  - intros k0 e' fe f Hin Ht Hf Hdf.
    apply elem_of_updateEntry in Hin as [Hin|(-> & e0 & Hin & ->)].
    + exact (Hdef k0 e' fe f Hin Ht Hf Hdf).
    + simpl in Ht. apply elem_of_app in Ht as [Ht|Ht].
      * exact (Hdef k e0 fe f Hin Ht Hf Hdf).
      * apply list_elem_of_singleton in Ht.
        exact (Hd fe f (eq_sym Ht) Hf Hdf).
  - intros a st up d fs fe Ha Hfe. rewrite Hperm.
    apply elem_of_cons. right. exact (Hfs a st up d fs fe Ha Hfe).
Qed.

Lemma extends_recorded k tgt b e :
  lookupEntry k (packerMap b) = Some e ->
  extends [tgt] b (recorded k tgt b) /\ tgt ∈ allTargets (recorded k tgt b).
Proof.
  intros Hk. pose proof (allTargets_recorded k tgt b e Hk) as Hperm.
  split; [|rewrite Hperm; apply elem_of_cons; auto].
  split; [reflexivity|]. split; [reflexivity|].
  split; [eauto|]. split; [|split; [|split]].
  - intros t Ht. rewrite Hperm. apply elem_of_cons. auto.
  - intros t Ht. rewrite Hperm in Ht.
    apply elem_of_cons in Ht as [->|Ht]; [|auto].
    right. right. apply list_elem_of_singleton. reflexivity.
  - simpl. intros k0 e' Hin He.
    apply elem_of_updateEntry in Hin as [Hin|(-> & e0 & Hin & ->)]; eauto.
  - simpl. rewrite updateEntry_keys. auto.
Qed.

(** The first request for a pair: the entry is reserved, the packer is
    made, and the entry gets it. *)
Lemma extends_filled k pk b b2 :
  lookupEntry k (packerMap b) = None ->
  WF b2 -> extends [] (reserved k b) b2 ->
  extends [] b (filled k pk b2) /\
  is_Some (lookupEntry k (packerMap (filled k pk b2))).
Proof.
  intros Hk Hwf2 (Hp & Hl & Hd & Hkeep & Hn & Hu & Hkeys).
  rewrite allTargets_reserved in Hkeep, Hn. simpl in *.
  split.
  - split; [exact Hp|]. split; [exact Hl|]. split; [exact Hd|].
    rewrite allTargets_filled.
    split; [exact Hkeep|]. split; [exact Hn|]. split.
    + simpl. intros k0 e' Hin He.
      destruct (decide (k0 = k)) as [->|Hne].
      * apply elem_of_updateEntry_key in Hin as (e0 & _ & ->);
          [discriminate | exact (wf_keys _ Hwf2)].
      * apply elem_of_updateEntry_ne in Hin; [|exact Hne].
        destruct (Hu k0 e' Hin He) as (e0 & Hin0 & He0).
        apply elem_of_app in Hin0 as [Hin0|Hin0]; [eauto|].
        apply list_elem_of_singleton in Hin0. congruence.
    + simpl. rewrite updateEntry_keys. intros k0 Hk0. apply Hkeys.
      rewrite fmap_app. apply elem_of_app. auto.
  - apply key_lookupEntry. rewrite updateEntry_keys. apply Hkeys.
    rewrite fmap_app. apply elem_of_app. right. simpl.
    apply list_elem_of_singleton. reflexivity.
Qed.

Section AssignWF.
Variable p : Program.
Variable schema : ast.Schema.

Section Body.
Variable assign : target -> ast.Type_ -> GoType -> M unit.
Hypothesis assign_spec : assignSpec assign.

Lemma makePacker_spec t T :
  methodSpec (makePacker p schema assign t T)
    (fun a b' => exists o, packers (heap b') !! a = Some o /\
                           (isNonNullType t -> nonNullObj o)).
Proof.
  assert (Hnull : forall t0 T0 vt addPtr,
    methodSpec (elem <- makeNonNullPacker p schema assign t0 T0 ;;
                newPacker (nullPacker (Some elem) vt addPtr))
      (fun a b' => exists o, packers (heap b') !! a = Some o)).
  { intros t0 T0 vt addPtr b r b' Hwf Hrun.
    apply bind_Ok_inv in Hrun as (elem & b1 & Hmake & Hnew).
    destruct (makeNonNullPacker_spec p schema assign assign_spec
                _ _ _ _ _ Hwf Hmake) as (Hwf1 & Hext1 & _).
    assert (Hprem : forall st up d fs fe,
              nullPacker (Some elem) vt addPtr = StructPacker st up d fs ->
              fe ∈ fs -> packerOf fe ∈ allTargets b1) by discriminate.
    destruct (newPacker_spec _ _ _ _ Hwf1 Hprem Hnew) as (Hwf2 & Hext2 & Ha).
    split; [exact Hwf2|].
    split; [exact (extends_nil_trans_l _ _ _ _ Hext1 Hext2) | eauto]. }
  intros b r b' Hwf Hrun. unfold makePacker, isNonNullType in *.
  destruct (unwrapNonNull t) as [t0 nonNull]. simpl.
  destruct nonNull; simpl in Hrun.
  - destruct (makeNonNullPacker_spec p schema assign assign_spec
                _ _ _ _ _ Hwf Hrun) as (Hwf1 & Hext1 & o & Ha & Hnn).
    split; [exact Hwf1|]. split; [exact Hext1|]. eauto.
  - assert (Hgoal : forall o, packers (heap b') !! r = Some o ->
              exists o, packers (heap b') !! r = Some o /\
                        (false = true -> nonNullObj o)).
    { intros o Ho. exists o. split; [exact Ho | discriminate]. }
    destruct (bool_decide (Kind p T = reflect.Ptr)).
    + destruct (match t0 with
                | ast.InputObject _ => (T, false)
                | _ => (default T (Elem p T), true)
                end) as [elemType addPtr].
      destruct (Hnull _ _ _ _ _ _ _ Hwf Hrun) as (Hwf1 & Hext1 & o & Ha).
      eauto.
    + destruct (isNullable p T); [|discriminate].
      destruct (Hnull _ _ _ _ _ _ _ Hwf Hrun) as (Hwf1 & Hext1 & o & Ha).
      eauto.
Qed.

Lemma assignPacker_body_spec :
  assignSpec (assignPacker_body p schema assign).
Proof.
  intros tgt t T b r b' Hwf Hv Hnew Hdef Hrun.
  unfold assignPacker_body in Hrun.
  apply bind_Ok_inv in Hrun as ([] & b3 & Hfirst & Hrec).
  injection Hrec as <- <-.
  set (k := {| graphQLType := t; resolverType := T |}) in *.
  change (withPackerMap _ b3) with (recorded k tgt b3).
  destruct (lookupEntry k (packerMap b)) as [e|] eqn:Hk.
  - injection Hfirst as <-.
    destruct (extends_recorded k tgt b e Hk) as [Hext Hin].
    split; [|split; [exact Hext | exact Hin]].
    apply (WF_recorded k tgt b e); auto.
  - apply bind_Ok_inv in Hfirst as ([] & b1 & Hres & Hfirst).
    injection Hres as <-.
    change (withPackerMap _ b) with (reserved k b) in Hfirst.
    apply bind_Ok_inv in Hfirst as (pk & b2 & Hmake & Hfill).
    injection Hfill as <-.
    change (withPackerMap _ b2) with (filled k pk b2).
    destruct (makePacker_spec _ _ _ _ _ (WF_reserved k b Hwf Hk) Hmake)
      as (Hwf2 & Hext2 & o & Ho & Hnn).
    pose proof (WF_filled k pk b2 o Hwf2 Ho Hnn) as Hwf3.
    destruct (extends_filled k pk b b2 Hk Hwf2 Hext2) as [Hext3 [e He]].
    destruct (extends_recorded k tgt _ e He) as [Hext4 Hin].
    assert (Hv3 : validTarget (heap (filled k pk b2)) tgt).
    { destruct Hext3 as (Hp & Hl & _).
      exact (validTarget_grows _ _ _ Hp Hl Hv). }
    assert (Hnew3 : tgt ∉ allTargets (filled k pk b2)).
    { intros Hin3. destruct Hext3 as (_ & _ & _ & _ & Hn & _).
      destruct (Hn _ Hin3) as [H|[H|H]].
      - exact (Hnew H).
      - exact (validTarget_not_fresh _ _ Hv H).
      - apply elem_of_nil in H. exact H. }
    split; [|split; [|exact Hin]].
    + apply (WF_recorded k tgt _ e); auto.
      intros fe f -> Hf Hdf. simpl in Hf.
      destruct Hv as [x Hx]. simpl in Hx.
      destruct (sfields (heap b) !! fe) as [f0|] eqn:Hf0; [|discriminate].
      destruct Hext3 as (_ & _ & Hd & _).
      destruct (Hd fe f0 Hf0) as (f' & Hf' & Hdf'). simpl in Hf'.
      assert (f' = f) by congruence. subst f'.
      apply (Hdef fe f0 eq_refl Hf0). congruence.
    + exact (extends_nil_trans_l _ _ _ _ Hext3 Hext4).
Qed.
End Body.

Lemma assignPacker_spec fuel : assignSpec (assignPacker p schema fuel).
Proof.
  induction fuel as [|fuel IH].
  - intros tgt t T b r b' _ _ _ _ Hrun. discriminate.
  - exact (assignPacker_body_spec _ IH).
Qed.

(** Every builder that successful calls of [MakeStructPacker] leave is
    well-formed, and every entry of its map has its packer. *)
Lemma built_WF b :
  built p schema b ->
  WF b /\ forall k e, (k, e) ∈ packerMap b -> epacker e <> None.
Proof.
  induction 1 as [|fuel values typ b a b' Hb [Hwf Hall] Hrun].
  - split.
    + split; simpl;
        [apply NoDup_nil_2 | apply NoDup_nil_2 | intros t H
        | intros k e a H | intros k e fe f H | intros a st up d fs fe H];
        try (apply elem_of_nil in H; contradiction).
      rewrite lookup_nil in H. discriminate.
    + intros k e Hin. apply elem_of_nil in Hin. contradiction.
  - destruct (MakeStructPacker_spec p (assignPacker p schema fuel)
                (assignPacker_spec fuel) values typ b a b' Hwf Hrun)
      as (Hwf' & Hext & _).
    split; [exact Hwf'|]. intros k e Hin He.
    destruct Hext as (_ & _ & _ & _ & _ & Hu & _).
    destruct (Hu k e Hin He) as (e0 & Hin0 & He0).
    exact (Hall k e0 Hin0 He0).
Qed.
End AssignWF.

(* ===================================================================== *)
(** * What [Finish] leaves of a well-formed builder *)
(* ===================================================================== *)

Lemma sameShape_refl o : sameShape o o.
Proof. destruct o; simpl; auto. Qed.

Lemma sameShape_trans o1 o2 o3 :
  sameShape o1 o2 -> sameShape o2 o3 -> sameShape o1 o3.
Proof.
  destruct o1, o2; simpl; try contradiction; destruct o3; simpl;
    try contradiction; intuition congruence.
Qed.

Lemma sameShape_nonNullObj o o' :
  sameShape o o' -> nonNullObj o -> nonNullObj o'.
Proof. destruct o, o'; simpl; auto. Qed.

Lemma sameShapes_refl h : sameShapes h h.
Proof. intros a o Ho. exists o. split; [exact Ho | apply sameShape_refl]. Qed.

Lemma sameShapes_trans h1 h2 h3 :
  sameShapes h1 h2 -> sameShapes h2 h3 -> sameShapes h1 h3.
Proof.
  intros H12 H23 a o Ho. destruct (H12 a o Ho) as (o2 & Ho2 & Hs2).
  destruct (H23 a o2 Ho2) as (o3 & Ho3 & Hs3).
  exists o3. split; [exact Ho3 | exact (sameShape_trans _ _ _ Hs2 Hs3)].
Qed.

Lemma sameShapes_insert h a o o' sf :
  packers h !! a = Some o -> sameShape o o' ->
  sameShapes h {| packers := <[a := o']> (packers h); sfields := sf |}.
Proof.
  intros Ha Hs a0 o0 Ho0. simpl.
  destruct (decide (a0 = a)) as [->|Hne].
  - exists o'. split.
    + apply list_lookup_insert_eq. apply lookup_lt_Some in Ha. exact Ha.
    + congruence.
  - exists o0. split; [|apply sameShape_refl].
    rewrite list_lookup_insert_ne by congruence. exact Ho0.
Qed.

Lemma sameShapes_setTarget pk h t : sameShapes h (setTarget pk h t).
Proof.
  destruct t as [a|fe]; simpl.
  - destruct (packers h !! a) as [[| st e | | |]|] eqn:Ha;
      try apply sameShapes_refl.
    apply (sameShapes_insert h a (listPacker st e)); [exact Ha | reflexivity].
  - destruct (sfields h !! fe); [|apply sameShapes_refl].
    intros a o Ho. exists o. split; [exact Ho | apply sameShape_refl].
Qed.

Lemma sameShapes_setDefaultStruct a d h :
  sameShapes h (setDefaultStruct a d h).
Proof.
  unfold setDefaultStruct.
  destruct (packers h !! a) as [[st up d0 fs| | | |]|] eqn:Ha;
    try apply sameShapes_refl.
  apply (sameShapes_insert h a (StructPacker st up d0 fs));
    [exact Ha | simpl; auto].
Qed.

Lemma sameShapes_linkTargets m h : sameShapes h (linkTargets m h).
Proof.
  unfold linkTargets. revert h.
  induction m as [|entry m IH]; intros h; simpl; [apply sameShapes_refl|].
  apply (sameShapes_trans _ (linkEntry h entry)); [|apply IH].
  unfold linkEntry. generalize (targets entry.2) as ts. intros ts. revert h.
  induction ts as [|t ts IHts]; intros h; simpl; [apply sameShapes_refl|].
  apply (sameShapes_trans _ (setTarget (epacker entry.2) h t));
    [apply sameShapes_setTarget | apply IHts].
Qed.

Section FinishShapes.
Variable p : Program.

Lemma keepsShapes_refl b : keepsShapes b b.
Proof. apply sameShapes_refl. Qed.

Lemma keepsShapes_trans b1 b2 b3 :
  keepsShapes b1 b2 -> keepsShapes b2 b3 -> keepsShapes b1 b3.
Proof. apply sameShapes_trans. Qed.

Lemma finishField_sameShapes fuel a fa :
  always keepsShapes (finishField p fuel a fa).
Proof.
  intros b. unfold finishField.
  destruct (sfields (heap b) !! fa) as [f|]; [|apply keepsShapes_refl].
  destruct (def f) as [dv|]; [|apply keepsShapes_refl].
  destruct (Pack _ _ _ _ _) as [v| | |]; try apply keepsShapes_refl.
  destruct (packers (heap b) !! a) as [[st up d fs| | | |]|];
    try apply keepsShapes_refl.
  destruct (SetField p d (index f) v); try apply keepsShapes_refl.
  apply sameShapes_setDefaultStruct.
Qed.

Lemma finishStruct_sameShapes fuel a :
  always keepsShapes (finishStruct p fuel a).
Proof.
  intros b. unfold finishStruct.
  destruct (packers (heap b) !! a) as [[st up d fs| | | |]|];
    try apply keepsShapes_refl.
  revert b. apply (always_bind keepsShapes keepsShapes_trans).
  - apply always_modify. intros b. apply sameShapes_setDefaultStruct.
  - intros _. apply (always_bind keepsShapes keepsShapes_trans).
    + apply (always_forM keepsShapes keepsShapes_refl keepsShapes_trans).
      intros fa. apply finishField_sameShapes.
    + intros _. apply (always_ret keepsShapes keepsShapes_refl).
Qed.

Lemma Finish_sameShapes fuel b :
  sameShapes (heap b) (heap (Finish p fuel b).2).
Proof.
  revert b. change (always keepsShapes (Finish p fuel)). unfold Finish.
  apply (always_bind keepsShapes keepsShapes_trans).
  - apply always_modify. intros b. apply sameShapes_linkTargets.
  - intros _ b. revert b. apply (always_bind keepsShapes keepsShapes_trans).
    + intros b.
      apply (always_forM keepsShapes keepsShapes_refl keepsShapes_trans).
      intros a. apply finishStruct_sameShapes.
    + intros _. apply (always_ret keepsShapes keepsShapes_refl).
Qed.
End FinishShapes.

Section BuiltFinish.
Variable p : Program.
Variable schema : ast.Schema.

(** After [Finish], every target recorded for an entry holds the entry's
    packer, which exists. *)
Lemma built_Finish_slot fuel b k e t :
  built p schema b -> (k, e) ∈ packerMap b -> t ∈ targets e ->
  exists a o,
    epacker e = Some a /\
    packers (heap b) !! a = Some o /\
    (isNonNullType (graphQLType k) -> nonNullObj o) /\
    slot (heap (Finish p fuel b).2) t = Some (Some a).
Proof.
  intros Hb Hin Ht. destruct (built_WF p schema b Hb) as [Hwf Hall].
  destruct (epacker e) as [a|] eqn:He; [|destruct (Hall k e Hin He)].
  destruct (wf_packer b Hwf k e a Hin He) as (o & Ho & Hnn).
  exists a, o. split; [reflexivity|]. split; [exact Ho|].
  split; [exact Hnn|]. rewrite <- He.
  apply (Finish_slot p fuel b k e t (wf_nodup b Hwf) Hin Ht).
  apply (wf_valid b Hwf). apply elem_of_allTargets. eauto.
Qed.

(** After [Finish], every field of every struct packer has a packer, and
    the packer of a field with a default value is no nullable wrapper. *)
Lemma built_Finish_field fuel b a st up d fs fe f :
  built p schema b ->
  packers (heap b) !! a = Some (StructPacker st up d fs) -> fe ∈ fs ->
  sfields (heap b) !! fe = Some f ->
  exists pa o,
    slot (heap (Finish p fuel b).2) (packerOf fe) = Some (Some pa) /\
    packers (heap (Finish p fuel b).2) !! pa = Some o /\
    (def f <> None -> nonNullObj o).
Proof.
  intros Hb Ha Hfe Hf. destruct (built_WF p schema b Hb) as [Hwf Hall].
  pose proof (wf_fields b Hwf a st up d fs fe Ha Hfe) as Hrec.
  apply elem_of_allTargets in Hrec as (k & e & Hin & Ht).
  destruct (built_Finish_slot fuel b k e _ Hb Hin Ht)
    as (pa & o & He & Ho & Hnn & Hslot).
  destruct (Finish_sameShapes p fuel b pa o Ho) as (o' & Ho' & Hs).
  exists pa, o'. split; [exact Hslot|]. split; [exact Ho'|].
  intros Hdf. apply (sameShape_nonNullObj o o' Hs). apply Hnn.
  exact (wf_default b Hwf k e fe f Hin Ht Hf Hdf).
Qed.
End BuiltFinish.

(* ===================================================================== *)
(** * The recursive input type *)
(* ===================================================================== *)

Lemma rtype_chain n : rtype (chain n) = Some (TPtr (TNamed "recursive")).
Proof. destruct n; reflexivity. Qed.

Lemma int32_of_int_add_l x y :
  int32_of_int (int32_of_int x + y) = int32_of_int (x + y).
Proof.
  unfold int32_of_int.
  replace ((x + 2 ^ 31) mod 2 ^ 32 - 2 ^ 31 + y + 2 ^ 31)
    with ((x + 2 ^ 31) mod 2 ^ 32 + y) by lia.
  rewrite Z.add_mod_idemp_l by lia.
  replace (x + 2 ^ 31 + y) with (x + y + 2 ^ 31) by lia. reflexivity.
Qed.

(** The loop on a chain of [n + 1] structs: [n + 1] rounds of [n++]. *)
Lemma chainLength_chain n acc :
  chainLength (S n) (chain n) acc
  = Some (int32_of_int (acc + Z.of_nat n + 1)).
Proof.
  revert acc. induction n as [|n IH]; intros acc.
  - cbn [chainLength chain]. simpl FieldByIndex. f_equal. f_equal. lia.
  - change (chainLength (S (S n)) (chain (S n)) acc)
      with (chainLength (S n) (chain n) (int32_of_int (acc + 1))).
    rewrite IH. f_equal.
    rewrite <- Z.add_assoc, int32_of_int_add_l. f_equal. lia.
Qed.

(** The packer of [RecursiveInput] on a nesting of depth [n]: with fuel
    [2 * n + 2] it returns the chain of [n + 1] structs. *)
Lemma Pack_nested n :
  Pack testProgram (2 * n + 2) (heap recursiveFinished.2) (Some 1%nat)
    (nested n) = Ok (chain n).
Proof.
  set (h := heap recursiveFinished.2).
  assert (Hnull : packers h !! 1%nat
            = Some (nullPacker (Some 0%nat) (TPtr (TNamed "recursive")) false))
    by reflexivity.
  assert (Hstruct : packers h !! 0%nat
            = Some (StructPacker (TNamed "recursive") true
                      (RStruct (TNamed "recursive") []) [1%nat]))
    by reflexivity.
  assert (Hf : sfields h !! 1%nat
            = Some {| name := "next"; index := [0%nat]; def := None;
                      fpacker := Some 1%nat |})
    by reflexivity.
  induction n as [|n IH].
  - change (2 * 0 + 2)%nat with (S (S O)).
    rewrite (Pack_nullPacker testProgram h _ _ _ _ _ (nested 0) Hnull).
    change (is_nil (nested 0)) with false. rewrite andb_false_l.
    change (nested 0) with (VMap ∅).
    rewrite (Pack_StructPacker testProgram h _ _ _ _ _ _ ∅ Hstruct).
    rewrite assignable_same by reflexivity. rewrite bind_Ok.
    rewrite foldM_res_cons.
    rewrite (packField_absent testProgram h _ ∅ _ _ _ Hf)
      by apply lookup_empty.
    reflexivity.
  - replace (2 * S n + 2)%nat with (S (S (2 * n + 2))) by lia.
    rewrite (Pack_nullPacker testProgram h _ _ _ _ _ (nested (S n)) Hnull).
    change (is_nil (nested (S n))) with false. rewrite andb_false_l.
    change (nested (S n)) with (VMap {[ "next" := nested n ]}).
    rewrite (Pack_StructPacker testProgram h _ _ _ _ _ _
               {[ "next" := nested n ]} Hstruct).
    rewrite assignable_same by reflexivity. rewrite bind_Ok.
    rewrite foldM_res_cons.
    rewrite (packField_present testProgram h _ {[ "next" := nested n ]}
               _ _ _ (nested n) Hf)
      by apply lookup_singleton_eq.
    change (fpacker _) with (Some 1%nat). rewrite IH, bind_Ok.
    change (index _) with [0%nat].
    rewrite (SetField_Ok testProgram (TNamed "recursive") [] [0%nat]
               (chain n) (TPtr (TNamed "recursive")) eq_refl)
      by (apply assignable_same, rtype_chain).
    reflexivity.
Qed.

(** [recursive(value: {next: ... {}})] with [n] times [next]: the args
    pack, and [Recursive] counts [n + 1] in [int32]. *)
Lemma Recursive_nested n :
  exists args,
    Pack testProgram (2 * n + 3) (heap recursiveFinished.2) (Some 2%nat)
      (VMap {[ "value" := nested n ]}) = Ok args /\
    Recursive (S n) args = Some (int32_of_int (Z.of_nat n + 1)).
Proof.
  set (h := heap recursiveFinished.2).
  exists (RStruct recursiveArgs [([0%nat], chain n)]).
  split.
  - replace (2 * n + 3)%nat with (S (2 * n + 2)) by lia.
    assert (Hstruct : packers h !! 2%nat
              = Some (StructPacker recursiveArgs false
                        (RStruct recursiveArgs []) [0%nat]))
      by reflexivity.
    assert (Hf : sfields h !! 0%nat
              = Some {| name := "value"; index := [0%nat]; def := None;
                        fpacker := Some 1%nat |})
      by reflexivity.
    rewrite (Pack_StructPacker testProgram h _ _ _ _ _ _
               {[ "value" := nested n ]} Hstruct).
    rewrite assignable_same by reflexivity. rewrite bind_Ok.
    rewrite foldM_res_cons.
    rewrite (packField_present testProgram h _ {[ "value" := nested n ]}
               _ _ _ (nested n) Hf)
      by apply lookup_singleton_eq.
    change (fpacker _) with (Some 1%nat). rewrite Pack_nested, bind_Ok.
    change (index _) with [0%nat].
    rewrite (SetField_Ok testProgram recursiveArgs [] [0%nat]
               (chain n) (TPtr (TNamed "recursive")) eq_refl)
      by (apply assignable_same, rtype_chain).
    reflexivity.
  - change (Recursive (S n) (RStruct recursiveArgs [([0%nat], chain n)]))
      with (chainLength (S n) (chain n) 0).
    rewrite chainLength_chain. reflexivity.
Qed.

Lemma built_slots_nil p schema b t pk :
  built p schema b -> slot (heap b) t = Some pk -> pk = None.
Proof.
  intros Hb. destruct (built_unlinked p schema b Hb) as [Hobjs Hfields].
  destruct t as [a|fe]; simpl.
  - destruct (packers (heap b) !! a) as [[| st e | | |]|] eqn:Ha;
      try discriminate.
    intros [= <-]. eapply Forall_lookup_1 in Hobjs; [|exact Ha].
    exact Hobjs.
  - destruct (sfields (heap b) !! fe) as [f|] eqn:Hf; [|discriminate].
    intros [= <-]. eapply Forall_lookup_1 in Hfields; [|exact Hf].
    exact Hfields.
Qed.

(* ===================================================================== *)
(** * The slots of the map stay *)
(* ===================================================================== *)

Lemma slotsStay_refl b : slotsStay b b.
Proof. intros k e He. exists e. auto. Qed.

Lemma slotsStay_trans b1 b2 b3 :
  slotsStay b1 b2 -> slotsStay b2 b3 -> slotsStay b1 b3.
Proof.
  intros H1 H2 k e He.
  destruct (H1 k e He) as (e2 & He2 & Hp2 & Ht2).
  destruct (H2 k e2 He2) as (e3 & He3 & Hp3 & Ht3).
  exists e3. split; [exact He3|]. split; [congruence|].
  etransitivity; eassumption.
Qed.

Lemma slotsStay_same_map b b' : packerMap b' = packerMap b -> slotsStay b b'.
Proof. intros H k e He. exists e. rewrite H. auto. Qed.

Lemma lookupEntry_app_Some k m e m' :
  lookupEntry k m = Some e -> lookupEntry k (m ++ m') = Some e.
Proof.
  induction m as [|[k0 e0] m IH]; simpl; [discriminate|].
  destruct (decide (k0 = k)); auto.
Qed.

Lemma lookupEntry_updateEntry_ne k k' f m :
  k' <> k -> lookupEntry k' (updateEntry k f m) = lookupEntry k' m.
Proof.
  intros Hne. induction m as [|[k0 e0] m IH]; simpl; [reflexivity|].
  destruct (decide (k0 = k)) as [->|Hk]; simpl.
  - rewrite !decide_False by congruence. reflexivity.
  - destruct (decide (k0 = k')); [reflexivity | exact IH].
Qed.

Lemma slotsStay_reserved k b : slotsStay b (reserved k b).
Proof.
  intros k' e He. exists e. split; [|auto].
  unfold reserved. simpl. apply lookupEntry_app_Some. exact He.
Qed.

Lemma slotsStay_recorded k tgt b : slotsStay b (recorded k tgt b).
Proof.
  intros k' e He. unfold recorded. simpl.
  destruct (decide (k' = k)) as [->|Hne].
  - rewrite lookupEntry_updateEntry, He. simpl. eexists. split; [reflexivity|].
    simpl. split; [reflexivity|]. apply prefix_app_r. reflexivity.
  - rewrite lookupEntry_updateEntry_ne by exact Hne. exists e. auto.
Qed.

(** Filling the entry of [k] leaves the entries that were there before [k]
    was reserved. *)
Lemma slotsStay_filled k pk b b1 :
  lookupEntry k (packerMap b) = None ->
  slotsStay b b1 -> slotsStay b (filled k pk b1).
Proof.
  intros Hk H k' e He.
  destruct (H k' e He) as (e1 & He1 & Hp & Ht).
  exists e1. split; [|auto]. unfold filled. simpl.
  rewrite lookupEntry_updateEntry_ne; [exact He1|]. congruence.
Qed.

Ltac stay_step_with leaf :=
  first
    [ leaf
    | apply (always_bind slotsStay slotsStay_trans); [|intros ?]
    | apply (always_ret slotsStay slotsStay_refl)
    | apply (always_fail slotsStay slotsStay_refl)
    | apply (always_panic slotsStay slotsStay_refl)
    | apply (always_wrapErr slotsStay)
    | apply (always_forM slotsStay slotsStay_refl slotsStay_trans); intros ?
    | (intros ?; apply slotsStay_same_map; reflexivity)
    | match goal with
      | |- always _ (match ?x with _ => _ end) => destruct x
      end ].

Section BuildStay.
Variable p : Program.
Variable schema : ast.Schema.
Variable assign : target -> ast.Type_ -> GoType -> M unit.
Hypothesis assign_stay : forall tgt t T, always slotsStay (assign tgt t T).

Lemma makeField_stay typ structType v :
  always slotsStay (makeField p assign typ structType v).
Proof.
  unfold makeField. repeat stay_step_with ltac:(apply assign_stay).
Qed.

Lemma MakeStructPacker_stay values typ :
  always slotsStay (MakeStructPacker p assign values typ).
Proof.
  unfold MakeStructPacker.
  repeat stay_step_with ltac:(apply makeField_stay).
Qed.

Lemma makeNonNullPacker_stay t T :
  always slotsStay (makeNonNullPacker p schema assign t T).
Proof.
  unfold makeNonNullPacker.
  repeat stay_step_with
    ltac:(first [apply MakeStructPacker_stay | apply assign_stay]).
Qed.

Lemma makePacker_stay t T :
  always slotsStay (makePacker p schema assign t T).
Proof.
  unfold makePacker.
  repeat stay_step_with ltac:(apply makeNonNullPacker_stay).
Qed.

Lemma assignPacker_body_stay tgt t T :
  always slotsStay (assignPacker_body p schema assign tgt t T).
Proof.
  intros b. set (k := {| graphQLType := t; resolverType := T |}).
  destruct (lookupEntry k (packerMap b)) as [e|] eqn:Hk.
  - rewrite (assignPacker_body_hit p schema assign tgt t T b e Hk).
    apply slotsStay_recorded.
  - rewrite (assignPacker_body_miss p schema assign tgt t T b Hk). fold k.
    pose proof (makePacker_stay t T (reserved k b)) as Hm.
    destruct (makePacker _ _ _ _ _ _) as [[pk| | |] b1]; simpl in Hm |- *;
      try (eapply slotsStay_trans; [apply slotsStay_reserved | exact Hm]).
    eapply slotsStay_trans; [|apply slotsStay_recorded].
    apply slotsStay_filled; [exact Hk|].
    eapply slotsStay_trans; [apply slotsStay_reserved | exact Hm].
Qed.
End BuildStay.

Lemma assignPacker_stay p schema fuel tgt t T :
  always slotsStay (assignPacker p schema fuel tgt t T).
Proof.
  revert tgt t T. induction fuel as [|fuel IH]; intros tgt t T.
  - intros b. apply slotsStay_refl.
  - simpl. apply assignPacker_body_stay. exact IH.
Qed.

(** A request that returns has its target in the slot of its pair. *)
Lemma assignPacker_Ok_recorded p schema fuel tgt t T b r b' :
  assignPacker p schema fuel tgt t T b = (Ok r, b') ->
  exists e,
    lookupEntry {| graphQLType := t; resolverType := T |} (packerMap b')
    = Some e /\ tgt ∈ targets e.
Proof.
  destruct fuel as [|fuel]; [discriminate|].
  set (k := {| graphQLType := t; resolverType := T |}).
  destruct (lookupEntry k (packerMap b)) as [e|] eqn:Hk.
  - rewrite (assignPacker_hit p schema fuel tgt t T b e Hk). fold k.
    intros [= _ <-]. unfold recorded. simpl.
    rewrite lookupEntry_updateEntry, Hk. simpl. eexists.
    split; [reflexivity|]. simpl. apply elem_of_app. right.
    apply list_elem_of_singleton. reflexivity.
  - rewrite (assignPacker_miss p schema fuel tgt t T b Hk). fold k.
    pose proof (makePacker_stay p schema _
                  (assignPacker_stay p schema fuel) t T (reserved k b)) as Hm.
    destruct (makePacker _ _ _ _ _ _) as [[pk| | |] b1]; try discriminate.
    intros [= _ <-]. simpl in Hm.
    destruct (Hm k {| epacker := None; targets := [] |}) as (e1 & He1 & _).
    { unfold reserved. simpl. rewrite lookupEntry_app_None by exact Hk.
      rewrite decide_True by reflexivity. reflexivity. }
    unfold recorded, filled. simpl.
    rewrite !lookupEntry_updateEntry, He1. simpl. eexists.
    split; [reflexivity|]. simpl. apply elem_of_app. right.
    apply list_elem_of_singleton. reflexivity.
Qed.

(** [buildArgs] runs [Finish] on the builder that [MakeStructPacker]
    left. *)
Lemma buildArgs_Ok p schema fuel values typ a b' :
  buildArgs p schema fuel values typ = (Ok a, b') ->
  exists b,
    MakeStructPacker p (assignPacker p schema fuel) values typ NewBuilder
    = (Ok a, b) /\
    built p schema b /\
    Finish p fuel b = (Ok tt, b').
Proof.
  unfold buildArgs. intros H.
  apply bind_Ok_inv in H as (a0 & b & Hmake & H).
  apply bind_Ok_inv in H as ([] & b1 & Hfinish & H).
  injection H as <- <-.
  exists b. split; [exact Hmake|]. split; [|exact Hfinish].
  apply (built_make p schema fuel values typ NewBuilder a0);
    [constructor | exact Hmake].
Qed.

(** C8.  The map is keyed by the type node and the Go type.  The first
    request under a key reserves the map entry and builds the packer in the
    builder that already has it; the entry stays through everything that
    is built after; a later request under the key, a back-edge made while
    the packer is being built included, builds nothing and adds its target
    to the entry.  While packers are being built no target is set, the map
    has one entry per key and no target is recorded twice; every entry has
    its packer when the build returns, the schema builder runs [Finish]
    on the builder so left, and [Finish] stores the packer of every entry
    in every target recorded for it.
    The packers of [recursive(value: RecursiveInput)] have one slot, with
    the target of the argument and that of the back-edge.  Packing [{next:
    ... {}}] nested [n] deep with them returns, and [Recursive] counts
    [n + 1] in [int32]: 3 for [{next: {next: {}}}]. *)
Theorem assignPacker_one_slot_per_pair (p : Program) (schema : ast.Schema) :
  (forall fuel tgt t T b,
     let k := {| graphQLType := t; resolverType := T |} in
     lookupEntry k (packerMap b) = None ->
     lookupEntry k (packerMap (reserved k b))
       = Some {| epacker := None; targets := [] |} /\
     heap (reserved k b) = heap b /\
     assignPacker p schema (S fuel) tgt t T b =
       match makePacker p schema (assignPacker p schema fuel) t T
               (reserved k b) with
       | (Ok pk, b1) => (Ok tt, recorded k tgt (filled k pk b1))
       | (Err e, b1) => (Err e, b1)
       | (Panic, b1) => (Panic, b1)
       | (OutOfFuel, b1) => (OutOfFuel, b1)
       end) /\
  (forall fuel tgt t T b e,
     let k := {| graphQLType := t; resolverType := T |} in
     lookupEntry k (packerMap b) = Some e ->
     assignPacker p schema (S fuel) tgt t T b = (Ok tt, recorded k tgt b) /\
     heap (recorded k tgt b) = heap b /\
     (packerMap (recorded k tgt b)).*1 = (packerMap b).*1 /\
     lookupEntry k (packerMap (recorded k tgt b))
       = Some {| epacker := epacker e; targets := targets e ++ [tgt] |}) /\
  ((forall fuel tgt t T b r b',
      assignPacker p schema fuel tgt t T b = (r, b') -> slotsStay b b') /\
   (forall fuel t T b r b',
      makePacker p schema (assignPacker p schema fuel) t T b = (r, b') ->
      slotsStay b b') /\
   (forall fuel values typ b r b',
      MakeStructPacker p (assignPacker p schema fuel) values typ b = (r, b') ->
      slotsStay b b')) /\
  (forall fuel1 fuel2 tgt1 tgt2 t T b r b1 b2,
     let k := {| graphQLType := t; resolverType := T |} in
     (assignPacker p schema fuel1 tgt1 t T b = (Ok r, b1) \/
      b1 = reserved k b) ->
     slotsStay b1 b2 ->
     assignPacker p schema (S fuel2) tgt2 t T b2
       = (Ok tt, recorded k tgt2 b2) /\
     heap (recorded k tgt2 b2) = heap b2) /\
  (forall b t pk,
     built p schema b -> slot (heap b) t = Some pk -> pk = None) /\
  (forall b,
     built p schema b ->
     NoDup (packerMap b).*1 /\ NoDup (allTargets b)) /\
  (forall fuel b k e t,
     built p schema b -> (k, e) ∈ packerMap b -> t ∈ targets e ->
     exists a, epacker e = Some a /\
               slot (heap (Finish p fuel b).2) t = Some (Some a)) /\
  (forall fuel values typ a b',
     buildArgs p schema fuel values typ = (Ok a, b') ->
     exists b,
       MakeStructPacker p (assignPacker p schema fuel) values typ NewBuilder
       = (Ok a, b) /\
       built p schema b /\
       Finish p fuel b = (Ok tt, b')) /\
  (recursiveBuilt
   = MakeStructPacker testProgram (assignPacker testProgram testSchema 4)
       recursiveArguments recursiveArgs NewBuilder /\
   packerMap recursiveBuilt.2
   = [({| graphQLType := ast.InputObject "RecursiveInput";
          resolverType := TPtr (TNamed "recursive") |},
       {| epacker := Some 1%nat;
          targets := [packerOf 1%nat; packerOf 0%nat] |})] /\
   recursiveFinished
   = buildArgs testProgram testSchema 4 recursiveArguments recursiveArgs) /\
  (forall n, exists args,
     Pack testProgram (2 * n + 3) (heap recursiveFinished.2) (Some 2%nat)
       (VMap {[ "value" := nested n ]}) = Ok args /\
     Recursive (S n) args = Some (int32_of_int (Z.of_nat n + 1)) /\
     (Z.of_nat n + 1 <= math.MaxInt32 ->
      Recursive (S n) args = Some (Z.of_nat n + 1))).
Proof.
  assert (Hhit : forall fuel tgt t T b e,
     let k := {| graphQLType := t; resolverType := T |} in
     lookupEntry k (packerMap b) = Some e ->
     assignPacker p schema (S fuel) tgt t T b = (Ok tt, recorded k tgt b)).
  { intros fuel tgt t T b e k Hk.
    apply (assignPacker_hit p schema fuel tgt t T b e). exact Hk. }
  repeat apply conj.
  - intros fuel tgt t T b k Hk. split; [|split].
    + unfold reserved. simpl. rewrite lookupEntry_app_None by exact Hk.
      rewrite decide_True by reflexivity. reflexivity.
    + reflexivity.
    + apply assignPacker_miss. exact Hk.
  - intros fuel tgt t T b e k Hk. split; [|split; [|split]].
    + apply (Hhit fuel tgt t T b e). exact Hk.
    + reflexivity.
    + unfold recorded. simpl. apply updateEntry_keys.
    + unfold recorded. simpl. rewrite lookupEntry_updateEntry, Hk.
      reflexivity.
  - intros fuel tgt t T b r b' Hrun.
    pose proof (assignPacker_stay p schema fuel tgt t T b) as H.
    rewrite Hrun in H. exact H.
  - intros fuel t T b r b' Hrun.
    pose proof (makePacker_stay p schema _
                  (assignPacker_stay p schema fuel) t T b) as H.
    rewrite Hrun in H. exact H.
  - intros fuel values typ b r b' Hrun.
    pose proof (MakeStructPacker_stay p _
                  (assignPacker_stay p schema fuel) values typ b) as H.
    rewrite Hrun in H. exact H.
  - intros fuel1 fuel2 tgt1 tgt2 t T b r b1 b2 k Hfirst Hstay.
    assert (Hk1 : exists e1, lookupEntry k (packerMap b1) = Some e1).
    { destruct Hfirst as [Hrun| ->].
      - destruct (assignPacker_Ok_recorded p schema fuel1 tgt1 t T b r b1 Hrun)
          as (e1 & He1 & _).
        eauto.
      - unfold reserved. simpl.
        destruct (lookupEntry k (packerMap b)) as [e|] eqn:Hk.
        + exists e. apply lookupEntry_app_Some. exact Hk.
        + rewrite lookupEntry_app_None by exact Hk.
          rewrite decide_True by reflexivity. eauto. }
    destruct Hk1 as (e1 & He1).
    destruct (Hstay k e1 He1) as (e2 & He2 & _).
    split; [|reflexivity]. apply (Hhit fuel2 tgt2 t T b2 e2). exact He2.
  - intros b t pk. apply built_slots_nil.
  - intros b Hb. destruct (built_WF p schema b Hb) as [Hwf _].
    split; [exact (wf_keys b Hwf) | exact (wf_nodup b Hwf)].
  - intros fuel b k e t Hb Hin Ht.
    destruct (built_Finish_slot p schema fuel b k e t Hb Hin Ht)
      as (a & o & He & _ & _ & Hs).
    eauto.
  - intros fuel values typ a b'. apply buildArgs_Ok.
  - vm_compute. reflexivity.
  - reflexivity.
  - vm_compute. reflexivity.
  - intros n. destruct (Recursive_nested n) as (args & Hpack & Hrec).
    exists args. split; [exact Hpack|]. split; [exact Hrec|].
    intros Hn. rewrite Hrec. f_equal. apply int32_of_int_in_range.
    unfold is_int32, math.MinInt32, math.MaxInt32 in *. lia.
Qed.

(** The packers of [recursive(value: RecursiveInput)]: when the [next]
    field of [RecursiveInput] asks for the pair again, the entry is there
    and only the target is added; after [Finish] that target holds the
    packer of the entry; and [{next: {next: {}}}] counts 3. *)
Lemma assignPacker_one_slot_per_pair_witness :
  let k := {| graphQLType := ast.InputObject "RecursiveInput";
              resolverType := TPtr (TNamed "recursive") |} in
  assignPacker testProgram testSchema 1 (packerOf 7%nat)
    (ast.InputObject "RecursiveInput") (TPtr (TNamed "recursive"))
    recursiveBuilt.2
  = (Ok tt, recorded k (packerOf 7%nat) recursiveBuilt.2) /\
  slot (heap recursiveBuilt.2) (packerOf 1%nat) = Some None /\
  slot (heap (Finish testProgram 4 recursiveBuilt.2).2) (packerOf 1%nat)
  = Some (Some 1%nat) /\
  exists args,
    Pack testProgram 7 (heap recursiveFinished.2) (Some 2%nat)
      (VMap {[ "value" := VMap {[ "next" := VMap {[ "next" := VMap ∅ ]} ]} ]})
    = Ok args /\
    Recursive 3 args = Some 3.
Proof.
  destruct (assignPacker_one_slot_per_pair testProgram testSchema)
    as (_ & Hhit & _ & _ & Hnil & _ & Hfinish & _ & _ & Hrec).
  assert (Hb : built testProgram testSchema recursiveBuilt.2).
  { apply (built_make testProgram testSchema 4 recursiveArguments
             recursiveArgs NewBuilder 2%nat); [constructor | reflexivity]. }
  intros k. split; [|split; [|split]].
  - apply (Hhit 0%nat (packerOf 7%nat) _ _ recursiveBuilt.2
             {| epacker := Some 1%nat;
                targets := [packerOf 1%nat; packerOf 0%nat] |}).
    reflexivity.
  - destruct (slot (heap recursiveBuilt.2) (packerOf 1%nat)) as [pk|] eqn:Hs;
      [|vm_compute in Hs; discriminate Hs].
    rewrite (Hnil _ _ pk Hb Hs). reflexivity.
  - destruct (Hfinish 4%nat recursiveBuilt.2 k
                {| epacker := Some 1%nat;
                   targets := [packerOf 1%nat; packerOf 0%nat] |}
                (packerOf 1%nat) Hb) as (a & Ha & Hs).
    + apply elem_of_cons. left. reflexivity.
    + apply elem_of_cons. left. reflexivity.
    + rewrite Hs, <- Ha. reflexivity.
  - destruct (Hrec 2%nat) as (args & Hpack & _ & Hcount).
    exists args. split; [exact Hpack|]. apply Hcount.
    unfold math.MaxInt32. lia.
Defined.

(** The arguments [(first: Int = 10, last: Int = 20)]: each is
    requested under a [NonNull] node of its own, so the second request for
    [Int!] and [int32] does not find the slot of the first: the map has two
    entries for the pair, and two value packers were built. *)
Lemma default_requests_new_slots :
  let b := (MakeStructPacker testProgram
              (assignPacker testProgram testSchema 4)
              rangeArguments rangeArgs NewBuilder).2 in
  let k0 := {| graphQLType :=
                 ast.NonNull (ast.Built 0) (ast.ScalarTypeDefinition "Int");
               resolverType := TInt32 |} in
  let k1 := {| graphQLType :=
                 ast.NonNull (ast.Built 1) (ast.ScalarTypeDefinition "Int");
               resolverType := TInt32 |} in
  packerMap b
  = [(k0, {| epacker := Some 0%nat; targets := [packerOf 0%nat] |});
     (k1, {| epacker := Some 1%nat; targets := [packerOf 1%nat] |})] /\
  ast.String (graphQLType k0) = ast.String (graphQLType k1) /\
  resolverType k0 = resolverType k1 /\
  packers (heap b) !! 0%nat = Some (ValuePacker TInt32) /\
  packers (heap b) !! 1%nat = Some (ValuePacker TInt32).
Proof. repeat split. Qed.
(* ===================================================================== *)
(** * Nullable wrappers and arguments with a default value *)
(* ===================================================================== *)

Lemma newPacker_inv o b a b' :
  newPacker o b = (Ok a, b') ->
  packers (heap b') !! a = Some o /\
  packerMap b' = packerMap b /\ structPackers b' = structPackers b.
Proof.
  unfold newPacker. intros [= <- <-]. simpl. split; [|auto].
  apply list_lookup_middle. reflexivity.
Qed.

Section DefaultBuildFacts.
Variable p : Program.
Variable schema : ast.Schema.
Variable assign : target -> ast.Type_ -> GoType -> M unit.

Lemma MakeStructPacker_result values typ b a b' :
  MakeStructPacker p assign values typ b = (Ok a, b') ->
  exists fields,
    packers (heap b') !! a
      = Some (StructPacker (structTypeOf p typ)
                (bool_decide (Kind p typ = reflect.Ptr)) RInvalid fields) /\
    a ∈ structPackers b'.
Proof.
  rewrite MakeStructPacker_unfold. cbv zeta.
  destruct (negb _); [discriminate|]. intros Hrun.
  apply bind_Ok_inv in Hrun as (fields & b1 & _ & Hrun).
  apply bind_Ok_inv in Hrun as (a0 & b2 & Hnew & Hrun).
  apply bind_Ok_inv in Hrun as ([] & b3 & Hmod & Hret).
  injection Hret as <- <-. injection Hmod as <-.
  apply newPacker_inv in Hnew as (Ha & _ & _).
  exists fields. split; [exact Ha|]. simpl.
  apply elem_of_app. right. apply list_elem_of_singleton. reflexivity.
Qed.

(** The nullable wrapper made for a pointer type adds the pointer itself,
    except for an input object: there the struct packer is built for the
    pointer type, and returns the pointer. *)
Lemma makePacker_pointer t T b pk b' :
  (unwrapNonNull t).2 = false -> Kind p T = reflect.Ptr ->
  makePacker p schema assign t T b = (Ok pk, b') ->
  exists elem addPtr,
    packers (heap b') !! pk = Some (nullPacker (Some elem) T addPtr) /\
    match t with
    | ast.InputObject _ =>
        addPtr = false /\
        (unmarshaler_of p T = None ->
         exists fs, packers (heap b') !! elem
                    = Some (StructPacker (structTypeOf p T) true RInvalid fs))
    | _ => addPtr = true
    end.
Proof.
  intros Hnn Hk Hrun. unfold makePacker in Hrun.
  destruct t as [n|n|n|n|n|n|id t|id t]; simpl in Hnn; try discriminate;
    simpl in Hrun; rewrite (bool_decide_eq_true_2 _ Hk) in Hrun;
    apply bind_Ok_inv in Hrun as (elem & b1 & Hmake & Hnew);
    pose proof Hnew as Hb'; apply newPacker_inv in Hnew as (Hpk & _);
    eexists elem, _; (split; [exact Hpk|]); try reflexivity.
  split; [reflexivity|]. intros Hu.
  unfold makeNonNullPacker in Hmake. rewrite Hu in Hmake.
  apply MakeStructPacker_result in Hmake as (fs & Helem & _).
  rewrite (bool_decide_eq_true_2 _ Hk) in Helem.
  exists fs. injection Hb' as _ <-. simpl.
  apply lookup_app_l_Some. exact Helem.
Qed.

Hypothesis assign_grows : forall tgt t T, always grows (assign tgt t T).

(** The packer made for a non-null position is never the nullable
    wrapper. *)
Lemma makeNonNullPacker_nonNullObj t T b a b' :
  makeNonNullPacker p schema assign t T b = (Ok a, b') ->
  exists o, packers (heap b') !! a = Some o /\ nonNullObj o.
Proof.
  unfold makeNonNullPacker.
  destruct (unmarshaler_of p T) as [u|].
  { destruct (negb _); [discriminate|]. intros Hnew.
    apply newPacker_inv in Hnew as (Ha & _).
    exists (unmarshalerPacker T). split; [exact Ha | exact I]. }
  destruct t as [n|n|n|n|n|n|id t|id t]; try discriminate.
  - intros Hnew. apply newPacker_inv in Hnew as (Ha & _).
    exists (ValuePacker T). split; [exact Ha | exact I].
  - destruct (negb _); [discriminate|]. intros Hnew.
    apply newPacker_inv in Hnew as (Ha & _).
    exists (ValuePacker T). split; [exact Ha | exact I].
  - intros Hmake. apply MakeStructPacker_result in Hmake as (fs & Ha & _).
    eexists. split; [exact Ha | exact I].
  - destruct (Kind p T); try discriminate.
    destruct (Elem p T) as [et|]; [|discriminate].
    intros Hrun.
    apply bind_Ok_inv in Hrun as (a0 & b1 & Hnew & Hrun).
    apply bind_Ok_inv in Hrun as ([] & b2 & Hassign & Hret).
    injection Hret as <- <-.
    apply newPacker_inv in Hnew as (Ha & _).
    pose proof (assign_grows (elemOf a0) t et b1) as [[more Hmore] _].
    rewrite Hassign in Hmore. simpl in Hmore.
    exists (listPacker T None). split; [|exact I].
    rewrite Hmore. apply lookup_app_l_Some. exact Ha.
Qed.

(** For an argument with a default value, [makeField] asks for the packer
    of the non-null version of the declared type: the declared type without
    its [NonNull], in a new [NonNull]. *)
Lemma makeField_default typ structType v b sf idx d :
  matchField p structType (ast.Name v) = Some (sf, idx) ->
  sfPkgPath sf = EmptyString ->
  (unwrapNonNull (ast.Type' v)).2
    && bool_decide (Kind p (sfType sf) = reflect.Ptr) = false ->
  ast.Default v = Some d ->
  let fe := length (sfields (heap b)) in
  let ft := ast.NonNull (ast.Built (allocated b))
              (unwrapNonNull (ast.Type' v)).1 in
  exists b2,
    packerMap b2 = packerMap b /\
    makeField p assign typ structType v b =
      match assign (packerOf fe) ft (sfType sf) b2 with
      | (Ok _, b3) => (Ok fe, b3)
      | (Err e, b3) =>
          (Err (Errorf "field %q: %s" [AString (sfName sf); AError e]), b3)
      | (Panic, b3) => (Panic, b3)
      | (OutOfFuel, b3) => (OutOfFuel, b3)
      end.
Proof.
  intros Hmatch Hexp Hcheck Hdef fe ft.
  unfold makeField, bind. simpl.
  unfold matchField in Hmatch. rewrite Hmatch, Hexp, Hcheck, Hdef. simpl.
  unfold wrapErr.
  match goal with
  | |- context [assign _ _ _ ?s] => exists s
  end.
  split; [reflexivity|].
  destruct (assign _ _ _ _) as [[[]| | |] b3]; reflexivity.
Qed.
End DefaultBuildFacts.

Lemma Pack_rejectsNull p h fuel a o :
  packers h !! a = Some o -> rejectsNull p o ->
  Pack p (S fuel) h (Some a) VNil = Err got_null.
Proof.
  intros Ha Hrej. simpl. rewrite Ha.
  destruct o as [st up d fs| | |T|T]; simpl in Hrej; try contradiction;
    try reflexivity.
  rewrite Hrej. reflexivity.
Qed.

(* --------------------------------------------------------------------- *)
(** ** Nullable wrappers *)

(** C5.  A nullable wrapper packs null to the zero value of its target
    type when that type is not a [NullUnmarshaller], and hands every other
    input to its element packer, wrapping the result in a new pointer when
    [addPtr] is set; a [ValuePacker] and a [StructPacker] answer null with
    the error [got null for non-null] and no value.  The wrapper that
    [makePacker] makes for a pointer type has [addPtr] set, but for an input
    object, where the element packer is the struct packer of the pointer
    type, which returns the pointer. *)
Theorem Pack_null (p : Program) (h : Heap) (fuel : nat) (a : addr) :
  (forall elemPacker valueType addPtr,
     packers h !! a = Some (nullPacker elemPacker valueType addPtr) ->
     (isNullable p valueType = false ->
      Pack p (S fuel) h (Some a) VNil = Ok (RZero valueType)) /\
     (forall value v,
        is_nil value = false ->
        Pack p fuel h elemPacker value = Ok v ->
        (addPtr = false -> Pack p (S fuel) h (Some a) value = Ok v) /\
        (forall et, addPtr = true -> valueType = TPtr et ->
           assignable p et v = true ->
           Pack p (S fuel) h (Some a) value = Ok (RNew et v) /\
           rtype (RNew et v) = Some valueType)) /\
     (forall value e,
        is_nil value = false ->
        Pack p fuel h elemPacker value = Err e ->
        Pack p (S fuel) h (Some a) value = Err e)) /\
  (forall ValueType,
     packers h !! a = Some (ValuePacker ValueType) ->
     Pack p (S fuel) h (Some a) VNil = Err (Errorf "got null for non-null" [])) /\
  (forall structType usePtr defaultStruct fields,
     packers h !! a
       = Some (StructPacker structType usePtr defaultStruct fields) ->
     Pack p (S fuel) h (Some a) VNil = Err (Errorf "got null for non-null" [])) /\
  (forall schema depth t T b pk b',
     (unwrapNonNull t).2 = false -> Kind p T = reflect.Ptr ->
     makePacker p schema (assignPacker p schema depth) t T b = (Ok pk, b') ->
     exists elem addPtr,
       packers (heap b') !! pk = Some (nullPacker (Some elem) T addPtr) /\
       match t with
       | ast.InputObject _ =>
           addPtr = false /\
           (unmarshaler_of p T = None ->
            exists fs,
              packers (heap b') !! elem
              = Some (StructPacker (structTypeOf p T) true RInvalid fs))
       | _ => addPtr = true
       end).
Proof.
  split; [|split; [|split]];
    [| | |intros schema depth t T b pk b'; apply makePacker_pointer].
  - intros elemPacker valueType addPtr Ha. split; [|split].
    + intros Hn. rewrite (Pack_nullPacker p h fuel a _ _ _ _ Ha), Hn.
      reflexivity.
    + intros value v Hnil Hv.
      rewrite (Pack_nullPacker p h fuel a _ _ _ _ Ha), Hnil, Hv. simpl.
      split.
      * intros ->. reflexivity.
      * intros et -> -> Hassign. simpl. rewrite Hassign. auto.
    + intros value e Hnil He.
      rewrite (Pack_nullPacker p h fuel a _ _ _ _ Ha), Hnil, He.
      reflexivity.
  - intros ValueType Ha. exact (Pack_ValuePacker_nil p h fuel a _ Ha).
  - intros structType usePtr defaultStruct fields Ha.
    exact (Pack_StructPacker_nil p h fuel a _ _ _ _ Ha).
Qed.

(** The packers of [(first: Int = 10, after: String)]: the nullable
    wrapper of [after] packs null to the nil [*string] and "x" to a pointer
    to "x"; the value packer of [first] and the struct packer of the
    arguments answer null with the error.  The wrapper made for
    [RecursiveInput] and [*recursive] adds no pointer: its element is the
    struct packer that returns one. *)
Lemma Pack_null_witness :
  (exists elem fs,
     let b' := (makePacker testProgram testSchema
                  (assignPacker testProgram testSchema 3)
                  (ast.InputObject "RecursiveInput")
                  (TPtr (TNamed "recursive")) NewBuilder).2 in
     packers (heap b') !! 3%nat
       = Some (nullPacker (Some elem) (TPtr (TNamed "recursive")) false) /\
     packers (heap b') !! elem
       = Some (StructPacker (TNamed "recursive") true RInvalid fs)) /\
  Pack testProgram 2 (heap pageFinished.2) (Some 2%nat) VNil
    = Ok (RZero (TPtr TString)) /\
  Pack testProgram 2 (heap pageFinished.2) (Some 2%nat) (VString "x")
    = Ok (RNew TString (ROf (VString "x"))) /\
  Pack testProgram 2 (heap pageFinished.2) (Some 0%nat) VNil
    = Err (Errorf "got null for non-null" []) /\
  Pack testProgram 2 (heap pageFinished.2) (Some 3%nat) VNil
    = Err (Errorf "got null for non-null" []).
Proof.
  split; [|split; [|split; [|split]]].
  - destruct (Pack_null testProgram (heap pageFinished.2) 1 2%nat)
      as (_ & _ & _ & Hmake).
    destruct (Hmake testSchema 3%nat (ast.InputObject "RecursiveInput")
                (TPtr (TNamed "recursive")) NewBuilder 3%nat _
                eq_refl eq_refl eq_refl)
      as (elem & addPtr & Hpk & -> & Hstruct).
    destruct (Hstruct eq_refl) as (fs & Helem).
    exists elem, fs. split; [exact Hpk | exact Helem].
  - destruct (Pack_null testProgram (heap pageFinished.2) 1 2%nat)
      as (Hnull & _ & _).
    destruct (Hnull (Some 1%nat) (TPtr TString) true eq_refl)
      as (Hzero & _ & _).
    apply Hzero. reflexivity.
  - destruct (Pack_null testProgram (heap pageFinished.2) 1 2%nat)
      as (Hnull & _ & _).
    destruct (Hnull (Some 1%nat) (TPtr TString) true eq_refl)
      as (_ & Hdelegate & _).
    destruct (Hdelegate (VString "x") (ROf (VString "x")) eq_refl eq_refl)
      as (_ & Hptr).
    exact (proj1 (Hptr TString eq_refl eq_refl eq_refl)).
  - destruct (Pack_null testProgram (heap pageFinished.2) 1 0%nat)
      as (_ & Hvalue & _ & _).
    exact (Hvalue TInt32 eq_refl).
  - destruct (Pack_null testProgram (heap pageFinished.2) 1 3%nat)
      as (_ & _ & Hstruct & _).
    exact (Hstruct pageArgs false
             (RStruct pageArgs [([0%nat], ROf (VInt32 10))])
             [0%nat; 1%nat] eq_refl).
Defined.

(* --------------------------------------------------------------------- *)
(** ** Fields with a default value *)

(** C10, as amended.  For an argument with a default value [makeField]
    requests the packer of the non-null version of the declared type (the
    type without its [NonNull], wrapped in a new [NonNull]); the packer made
    for a non-null type is never the nullable wrapper, and in every builder
    that [MakeStructPacker] leaves, [Finish] gives every struct packer field
    with a default value a packer that is not one; a struct packer whose
    input has an explicit null for a field whose packer is a value packer, a
    struct packer or an unmarshaler packer of a type that is not a
    [NullUnmarshaller] returns the error [got null for non-null]; and a
    field absent from the input keeps what the default prototype holds. *)
Theorem default_field_packers (p : Program) (schema : ast.Schema) :
  (forall fuel typ structType v b sf idx d,
     matchField p structType (ast.Name v) = Some (sf, idx) ->
     sfPkgPath sf = EmptyString ->
     (unwrapNonNull (ast.Type' v)).2
       && bool_decide (Kind p (sfType sf) = reflect.Ptr) = false ->
     ast.Default v = Some d ->
     let fe := length (sfields (heap b)) in
     let ft := ast.NonNull (ast.Built (allocated b))
                 (unwrapNonNull (ast.Type' v)).1 in
     exists b2,
       packerMap b2 = packerMap b /\
       makeField p (assignPacker p schema fuel) typ structType v b =
         match assignPacker p schema fuel (packerOf fe) ft (sfType sf) b2 with
         | (Ok _, b3) => (Ok fe, b3)
         | (Err e, b3) =>
             (Err (Errorf "field %q: %s" [AString (sfName sf); AError e]), b3)
         | (Panic, b3) => (Panic, b3)
         | (OutOfFuel, b3) => (OutOfFuel, b3)
         end) /\
  (forall fuel id t T b a b',
     makePacker p schema (assignPacker p schema fuel) (ast.NonNull id t) T b
       = (Ok a, b') ->
     exists o, packers (heap b') !! a = Some o /\ nonNullObj o) /\
  (forall fuel b a st up d fs fe f,
     built p schema b ->
     packers (heap b) !! a = Some (StructPacker st up d fs) -> fe ∈ fs ->
     sfields (heap b) !! fe = Some f -> def f <> None ->
     exists pa o,
       slot (heap (Finish p fuel b).2) (packerOf fe) = Some (Some pa) /\
       packers (heap (Finish p fuel b).2) !! pa = Some o /\
       nonNullObj o) /\
  (forall h fuel a st up defaults fs values before f after xs pa o,
     packers h !! a = Some (StructPacker st up (RStruct st defaults) fs) ->
     Forall (fun fa => is_Some (sfields h !! fa)) fs ->
     presentFields h values fs = before ++ (f, VNil) :: after ->
     Forall2 (fieldPacked p h (S fuel) st) before xs ->
     fpacker f = Some pa -> packers h !! pa = Some o -> rejectsNull p o ->
     Pack p (S (S fuel)) h (Some a) (VMap values)
       = Err (Errorf "got null for non-null" [])) /\
  (forall h fuel a st up defaults fs values xs idx,
     packers h !! a = Some (StructPacker st up (RStruct st defaults) fs) ->
     Forall (fun fa => is_Some (sfields h !! fa)) fs ->
     Forall2 (fieldPacked p h fuel st) (presentFields h values fs) xs ->
     idx ∉ (index ∘ fst <$> presentFields h values fs) ->
     exists packed,
       Pack p (S fuel) h (Some a) (VMap values)
         = Ok (structResult up st packed) /\
       FieldByIndex packed idx = FieldByIndex (RStruct st defaults) idx).
Proof.
  split; [|split; [|split; [|split]]].
  - intros fuel typ structType v b sf idx d.
    apply makeField_default.
  - intros fuel id t T b a b'. rewrite makePacker_NonNull.
    apply makeNonNullPacker_nonNullObj.
    intros tgt t0 T0. apply assignPacker_grows.
  - intros fuel b a st up d fs fe f Hb Ha Hfe Hf Hdf.
    destruct (built_Finish_field p schema fuel b a st up d fs fe f
                Hb Ha Hfe Hf) as (pa & o & Hslot & Ho & Hnn).
    exists pa, o. auto.
  - intros h fuel a st up defaults fs values before f after xs pa o
      Ha Hvalid Hsplit Hbefore Hpa Ho Hrej.
    rewrite (Pack_StructPacker p h (S fuel) a _ _ _ _ _ Ha).
    rewrite assignable_same by reflexivity. rewrite bind_Ok.
    rewrite (packFields_Err p h (S fuel) values st fs Hvalid defaults
               before (f, VNil) after xs got_null Hsplit Hbefore);
      [reflexivity|].
    simpl. rewrite Hpa. apply (Pack_rejectsNull p h fuel pa o Ho Hrej).
  - intros h fuel a st up defaults fs values xs idx Ha Hvalid Hall Hnot.
    eexists. split.
    + rewrite (Pack_StructPacker p h fuel a _ _ _ _ _ Ha).
      rewrite assignable_same by reflexivity. rewrite bind_Ok.
      rewrite (packFields_Ok p h fuel values st fs Hvalid defaults xs Hall).
      reflexivity.
    + apply FieldByIndex_app_absent.
      intros Hin. apply Hnot.
      apply list_elem_of_fmap in Hin as ([i x] & -> & Hin).
      apply elem_of_zip_l in Hin. exact Hin.
Qed.

(** The packer of [(first: Int = 10, after: String)]: the packer made for
    [first] is a value packer, [Finish] stores a packer that is no nullable
    wrapper in the field, an explicit null for [first] is the error, and
    without [first] the field keeps the default 10. *)
Lemma default_field_packers_witness :
  (exists o,
     packers (heap (makePacker testProgram testSchema
                      (assignPacker testProgram testSchema 3)
                      (ast.NonNull (ast.Built 0) (ast.ScalarTypeDefinition "Int"))
                      TInt32 NewBuilder).2) !! 0%nat = Some o /\
     nonNullObj o) /\
  (exists pa o,
     slot (heap (Finish testProgram 3 pageBuilt.2).2) (packerOf 0%nat)
       = Some (Some pa) /\
     packers (heap (Finish testProgram 3 pageBuilt.2).2) !! pa = Some o /\
     nonNullObj o) /\
  Pack testProgram 3 (heap pageFinished.2) (Some 3%nat)
    (VMap {[ "first" := VNil ]})
  = Err (Errorf "got null for non-null" []) /\
  exists packed,
    Pack testProgram 3 (heap pageFinished.2) (Some 3%nat) (VMap ∅)
      = Ok packed /\
    FieldByIndex packed [0%nat] = Some (ROf (VInt32 10)).
Proof.
  destruct (default_field_packers testProgram testSchema)
    as (_ & Hnonnull & Hdefault & Hnull & Habsent).
  split; [|split; [|split]].
  - apply (Hnonnull 3%nat (ast.Built 0) (ast.ScalarTypeDefinition "Int")
             TInt32 NewBuilder 0%nat). reflexivity.
  - apply (Hdefault 3%nat pageBuilt.2 3%nat pageArgs false RInvalid
             [0%nat; 1%nat] 0%nat
             {| name := "first"; index := [0%nat]; def := Some (VInt32 10);
                fpacker := None |}).
    + apply (built_make testProgram testSchema 4 pageArguments pageArgs
               NewBuilder 3%nat); [constructor | reflexivity].
    + reflexivity.
    + apply elem_of_cons. left. reflexivity.
    + reflexivity.
    + discriminate.
  - apply (Hnull (heap pageFinished.2) 1%nat 3%nat pageArgs false
             [([0%nat], ROf (VInt32 10))] [0%nat; 1%nat]
             {[ "first" := VNil ]} []
             {| name := "first"; index := [0%nat]; def := Some (VInt32 10);
                fpacker := Some 0%nat |}
             [] [] 0%nat (ValuePacker TInt32)).
    + reflexivity.
    + repeat constructor; eexists; reflexivity.
    + reflexivity.
    + constructor.
    + reflexivity.
    + reflexivity.
    + exact I.
  - destruct (Habsent (heap pageFinished.2) 2%nat 3%nat pageArgs false
                [([0%nat], ROf (VInt32 10))] [0%nat; 1%nat] ∅ [] [0%nat])
      as (packed & Hpack & Hfield).
    + reflexivity.
    + repeat constructor; eexists; reflexivity.
    + constructor.
    + intros Hin. apply elem_of_nil in Hin. exact Hin.
    + exists packed. split; [exact Hpack|]. rewrite Hfield. reflexivity.
Defined.

(** C10, as stated, fails where the Go type is a [NullUnmarshaller]: the
    field [name] of [(name: String = "World")], bound to a
    [graphql.NullString], declares a default, and an explicit null for it
    is no error: it is unmarshaled into the type's null. *)
Lemma default_field_null_accepted :
  (def <$> sfields (heap nameFinished.2) !! 0%nat)
    = Some (Some (VString "World")) /\
  Pack nullStringProgram 3 (heap nameFinished.2) (Some 1%nat)
    (VMap {[ "name" := VNil ]})
  = Ok (RStruct nameArgs
          [([0%nat], RUnmarshaled (TNamed "NullString") (VString "World"));
           ([0%nat], RUnmarshaled (TNamed "NullString") VNil)]) /\
  FieldByIndex
    (RStruct nameArgs
       [([0%nat], RUnmarshaled (TNamed "NullString") (VString "World"));
        ([0%nat], RUnmarshaled (TNamed "NullString") VNil)]) [0%nat]
  = Some (RUnmarshaled (TNamed "NullString") VNil).
Proof. repeat split. Qed.

(** The list packer is the other packer of a non-null position that takes
    an explicit null: for [(ids: [Int] = [1])], bound to [struct{ Ids
    []*int32 }], it packs the null as the one-element list of a nil
    pointer. *)
Example default_list_null_wrapped :
  Pack testProgram 5 (heap idsFinished.2) (Some 3%nat)
    (VMap {[ "ids" := VNil ]})
  = Ok (RStruct idsArgs
          [([0%nat], RSlice (TSlice (TPtr TInt32))
                       [RNew TInt32 (ROf (VInt32 1))]);
           ([0%nat], RSlice (TSlice (TPtr TInt32))
                       [RZero (TPtr TInt32)])]).
Proof. vm_compute. reflexivity. Qed.

(* ===================================================================== *)
(** * More on the scalar coercion *)
(* ===================================================================== *)

Lemma float64_of_int_exact n :
  Z.abs n < 2 ^ 53 -> float_is_integer (float64_of_int n) n.
Proof.
  intros Hn. unfold float_is_integer.
  rewrite (Fnum_float64_of_int n Hn). reflexivity.
Qed.

(** The coercion to a [Float] (a target type of kind [Float64]): an [int32]
    and an [int] of at most 53 bits become the double that denotes them, so
    that coercing the result of an [int32] back to a 32-bit [Int] returns
    the integer; a double is accepted by [float64] alone, not by a defined
    type of kind [Float64]; and booleans, strings, lists, maps and null are
    errors. *)
Theorem unmarshalInput_float64 (p : Program) (typ typ32 : GoType) :
  Kind p typ = reflect.Float64 -> Kind p typ32 = reflect.Int32 ->
  (forall n, is_int32 n ->
     exists f,
       unmarshalInput p typ (VInt32 n) = Ok (VFloat64 f) /\
       float_is_integer f n /\
       unmarshalInput p typ32 (VFloat64 f) = Ok (VInt32 n)) /\
  (forall n, Z.abs n < 2 ^ 53 ->
     exists f,
       unmarshalInput p typ (VInt n) = Ok (VFloat64 f) /\
       float_is_integer f n) /\
  (forall f,
     unmarshalInput p typ (VFloat64 f) =
       if decide (typ = TFloat64) then Ok (VFloat64 f)
       else Err (Errorf "incompatible type: %s" [AType (Some TFloat64)])) /\
  (forall input,
     match input with
     | VNil | VBool _ | VString _ | VList _ | VMap _ => True
     | _ => False
     end ->
     unmarshalInput p typ input =
       Err (Errorf "incompatible type: %s" [AType (TypeOf input)])).
Proof.
  intros Hk Hk32.
  assert (Hne : forall t, Kind p t <> reflect.Float64 -> Some t <> Some typ).
  { intros t Ht [= ->]. exact (Ht Hk). }
  split; [|split; [|split]].
  - intros n Hn. exists (float64_of_int n).
    assert (Hn53 : Z.abs n < 2 ^ 53)
      by (unfold is_int32, math.MinInt32, math.MaxInt32 in Hn; lia).
    pose proof (float64_of_int_exact n Hn53) as Hexact.
    split; [|split; [exact Hexact|]].
    + unfold unmarshalInput.
      rewrite decide_False by (apply Hne; discriminate).
      rewrite Hk. reflexivity.
    + exact (unmarshalInput_float_exact p typ32 _ n Hk32 Hexact Hn).
  - intros n Hn. exists (float64_of_int n).
    split; [|exact (float64_of_int_exact n Hn)].
    unfold unmarshalInput.
    rewrite decide_False by (apply Hne; discriminate).
    rewrite Hk. reflexivity.
  - intros f. unfold unmarshalInput. simpl.
    destruct (decide (typ = TFloat64)) as [->|Hty].
    + rewrite decide_True by reflexivity. reflexivity.
    + rewrite decide_False by congruence. rewrite Hk. reflexivity.
  - intros input Hin. unfold unmarshalInput, incompatible.
    destruct input; try contradiction; simpl;
      try (rewrite decide_False by (apply Hne; discriminate));
      try (rewrite decide_False by discriminate);
      rewrite Hk; reflexivity.
Qed.

(** The integer literal 7 as a [Float], and back as an [Int]. *)
Lemma unmarshalInput_float64_witness :
  exists f,
    unmarshalInput testProgram TFloat64 (VInt32 7) = Ok (VFloat64 f) /\
    float_is_integer f 7 /\
    unmarshalInput testProgram TInt32 (VFloat64 f) = Ok (VInt32 7).
Proof.
  destruct (unmarshalInput_float64 testProgram TFloat64 TInt32
              eq_refl eq_refl) as (Hint32 & _).
  apply (Hint32 7).
  unfold is_int32, math.MinInt32, math.MaxInt32. lia.
Defined.

(** The coercion to a string type (a target type of kind [String]): a
    value of any string type is converted to the target type with its
    characters unchanged; an integer becomes the string of the code point
    it is, not its digits; booleans, doubles, lists and maps are errors. *)
Theorem unmarshalInput_string (p : Program) (typ : GoType) :
  Kind p typ = reflect.String ->
  (forall input t s,
     TypeOf input = Some t -> Kind p t = reflect.String ->
     unnamed input = VString s ->
     exists out,
       unmarshalInput p typ input = Ok out /\
       TypeOf out = Some typ /\ unnamed out = VString s) /\
  (forall n,
     exists out,
       unmarshalInput p typ (VInt32 n) = Ok out /\
       TypeOf out = Some typ /\ unnamed out = VString (string_of_rune n)) /\
  (forall input, notStringLike input ->
     unmarshalInput p typ input =
       Err (Errorf "incompatible type: %s" [AType (TypeOf input)])).
Proof.
  intros Hk.
  assert (Hconv : forall input,
            TypeOf (Convert input typ) = Some typ /\
            unnamed (Convert input typ)
            = VString match unnamed input with
                      | VString s => s
                      | VInt n | VInt32 n => string_of_rune n
                      | _ => EmptyString
                      end).
  { intros input. split; [exact (Convert_TypeOf p typ input Hk)|].
    unfold Convert. destruct typ; reflexivity. }
  split; [|split].
  - intros input t s Hty Hkt Hs. unfold unmarshalInput.
    destruct (decide (TypeOf input = Some typ)) as [Heq|Hne].
    + exists input. auto.
    + rewrite Hk, Hty. unfold ConvertibleTo. rewrite Hk, Hkt.
      exists (Convert input typ). split; [reflexivity|].
      destruct (Hconv input) as [H1 H2]. rewrite H2, Hs. auto.
  - intros n. unfold unmarshalInput.
    rewrite decide_False
      by (simpl; intros [= <-]; discriminate Hk).
    rewrite Hk. simpl. unfold ConvertibleTo. rewrite Hk. simpl.
    exists (Convert (VInt32 n) typ). split; [reflexivity|].
    exact (Hconv (VInt32 n)).
  - intros input Hin. unfold unmarshalInput, incompatible.
    destruct input; try contradiction; simpl;
      (rewrite decide_False by (intros [= <-]; discriminate Hk));
      rewrite Hk; unfold ConvertibleTo; rewrite Hk; reflexivity.
Qed.

(** The string [Option1] as a [StringEnum], the [StringEnum] back as a
    [string], and the integer 65 as a [string]. *)
Lemma unmarshalInput_string_witness :
  (exists out,
     unmarshalInput testProgram (TNamed "StringEnum") (VString "Option1")
       = Ok out /\
     TypeOf out = Some (TNamed "StringEnum") /\
     unnamed out = VString "Option1") /\
  (exists out,
     unmarshalInput testProgram TString
       (VNamed "StringEnum" (VString "Option1")) = Ok out /\
     TypeOf out = Some TString /\ unnamed out = VString "Option1") /\
  (exists out,
     unmarshalInput testProgram TString (VInt32 65) = Ok out /\
     TypeOf out = Some TString /\ unnamed out = VString "A").
Proof.
  split; [|split].
  - exact (proj1 (unmarshalInput_string testProgram (TNamed "StringEnum")
                    eq_refl)
             (VString "Option1") TString "Option1" eq_refl eq_refl eq_refl).
  - exact (proj1 (unmarshalInput_string testProgram TString eq_refl)
             (VNamed "StringEnum" (VString "Option1"))
             (TNamed "StringEnum") "Option1" eq_refl eq_refl eq_refl).
  - exact (proj1 (proj2 (unmarshalInput_string testProgram TString eq_refl))
             65).
Defined.

(* ===================================================================== *)
(** * More on the [Pack] methods *)
(* ===================================================================== *)

(** [ValuePacker.Pack] never panics: it returns the coerced value or an
    error, null being the error [got null for non-null] and a failed
    coercion the error that names the value and the target type.  Unless
    the target is a defined type of kind [Int32] or [Float64], the value
    returned has the target type, so that storing it in a struct field or
    slice element of that type does not panic. *)
Theorem ValuePacker_Pack_sound (p : Program) (h : Heap) (fuel : nat)
    (a : addr) (T : GoType) :
  packers h !! a = Some (ValuePacker T) ->
  (forall value,
     (exists v, Pack p (S fuel) h (Some a) value = Ok (ROf v) /\
                value <> VNil /\ unmarshalInput p T value = Ok v) \/
     (Pack p (S fuel) h (Some a) value = Err got_null /\ value = VNil) \/
     (exists e,
        Pack p (S fuel) h (Some a) value
        = Err (Errorf "could not unmarshal %#v (%T) into %s: %s"
                 [AValue value; AType (TypeOf value); AType (Some T);
                  AError e]) /\
        unmarshalInput p T value = Err e)) /\
  ((Kind p T = reflect.Int32 -> T = TInt32) ->
   (Kind p T = reflect.Float64 -> T = TFloat64) ->
   forall value x,
     Pack p (S fuel) h (Some a) value = Ok x ->
     rtype x = Some T /\ assignable p T x = true).
Proof.
  intros Ha.
  assert (Hcases : forall value,
     (exists v, Pack p (S fuel) h (Some a) value = Ok (ROf v) /\
                value <> VNil /\ unmarshalInput p T value = Ok v) \/
     (Pack p (S fuel) h (Some a) value = Err got_null /\ value = VNil) \/
     (exists e,
        Pack p (S fuel) h (Some a) value
        = Err (Errorf "could not unmarshal %#v (%T) into %s: %s"
                 [AValue value; AType (TypeOf value); AType (Some T);
                  AError e]) /\
        unmarshalInput p T value = Err e)).
  { intros value. simpl. rewrite Ha.
    assert (Hdec : value = VNil \/ value <> VNil)
      by (destruct value; [left; reflexivity | right; discriminate ..]).
    destruct Hdec as [->|Hnil]; [right; left; auto|].
    assert (Hnopanic : unmarshalInput p T value <> Panic /\
                       unmarshalInput p T value <> OutOfFuel).
    { unfold unmarshalInput, incompatible.
      destruct (decide _); [split; discriminate|].
      destruct (Kind p T); try (split; discriminate).
      - destruct value; try (split; discriminate);
          cbv zeta; destruct (_ || _); split; discriminate.
      - destruct value; split; discriminate.
      - destruct value; try contradiction; simpl;
          destruct (ConvertibleTo _ _ _); split; discriminate. }
    destruct Hnopanic as [Hp Ho].
    destruct (unmarshalInput p T value) as [v|e| |] eqn:Hu;
      try contradiction.
    - left. exists v. destruct value; try contradiction; auto.
    - right. right. exists e. destruct value; try contradiction; auto. }
  split; [exact Hcases|].
  intros Hi Hf value x Hok.
  destruct (Hcases value) as [(v & Hv & _ & Hu)|[[He _]|(e & He & _)]];
    rewrite Hok in *; try discriminate.
  injection Hv as ->.
  pose proof (unmarshalInput_TypeOf p T value v Hi Hf Hu) as Hty.
  split; [exact Hty | apply assignable_same; exact Hty].
Qed.

(** The value packer of [first] in [(first: Int = 10, after: String)]:
    what it returns for 42 is an [int32]. *)
Lemma ValuePacker_Pack_sound_witness :
  rtype (ROf (VInt32 42)) = Some TInt32 /\
  assignable testProgram TInt32 (ROf (VInt32 42)) = true.
Proof.
  refine (proj2 (ValuePacker_Pack_sound testProgram (heap pageFinished.2)
                   1 0%nat TInt32 eq_refl) _ _ (VInt32 42) _ eq_refl).
  - reflexivity.
  - discriminate.
Defined.

Lemma mapM_res_Err {A B} (f : A -> res B) before x after xs e :
  Forall2 (fun v y => f v = Ok y) before xs -> f x = Err e ->
  mapM_res f (before ++ x :: after) = Err e.
Proof.
  intros Hall Hx. induction Hall as [|v y before xs Hv Hall IH]; simpl.
  - rewrite Hx. reflexivity.
  - rewrite Hv. simpl. rewrite IH. reflexivity.
Qed.

(** A list packer stops at the first element that its element packer
    refuses and returns that error, also when the input is a single value;
    the empty array packs to the empty slice, whatever the element packer
    is. *)
Theorem Pack_list_first_error (p : Program) (h : Heap) (fuel : nat)
    (a : addr) (sliceType : GoType) (elem : packer) (et : GoType) :
  packers h !! a = Some (listPacker sliceType elem) ->
  Kind p sliceType = reflect.Slice ->
  Elem p sliceType = Some et ->
  Pack p (S fuel) h (Some a) (VList []) = Ok (RSlice sliceType []) /\
  (forall before v after xs e,
     Forall2 (fun v x => Pack p fuel h elem v = Ok x /\
                         assignable p et x = true) before xs ->
     Pack p fuel h elem v = Err e ->
     Pack p (S fuel) h (Some a) (VList (before ++ v :: after)) = Err e) /\
  (forall value e, (forall l, value <> VList l) ->
     Pack p fuel h elem value = Err e ->
     Pack p (S fuel) h (Some a) value = Err e).
Proof.
  intros Ha Hk He.
  assert (Hlist : forall before v after xs e,
     Forall2 (fun v x => Pack p fuel h elem v = Ok x /\
                         assignable p et x = true) before xs ->
     Pack p fuel h elem v = Err e ->
     Pack p (S fuel) h (Some a) (VList (before ++ v :: after)) = Err e).
  { intros before v after xs e Hall Herr.
    rewrite (Pack_listPacker p h fuel a _ _ _ _ Ha Hk He).
    rewrite (mapM_res_Err _ before v after xs e); [reflexivity| |].
    - eapply Forall2_impl; [exact Hall|].
      intros v0 x Hx. apply packElem_Ok. exact Hx.
    - unfold packElem. rewrite Herr. reflexivity. }
  split; [|split; [exact Hlist|]].
  - rewrite (Pack_listPacker p h fuel a _ _ _ _ Ha Hk He). reflexivity.
  - intros value e Hnl Herr.
    replace (Pack p (S fuel) h (Some a) value)
      with (Pack p (S fuel) h (Some a) (VList ([] ++ value :: []))).
    + apply (Hlist [] value [] [] e); [constructor | exact Herr].
    + rewrite !(Pack_listPacker p h fuel a _ _ _ _ Ha Hk He).
      destruct value; try reflexivity. exfalso. eapply Hnl. reflexivity.
Qed.

(** The list packer of [list(value: [Input!]!)]: in [[{v: 41}, null]] the
    null is refused by the struct packer of [Input!], and so is the
    list. *)
Lemma Pack_list_first_error_witness :
  Pack testProgram 4 (heap listFinished.2) (Some 0%nat)
    (VList [VMap {[ "v" := VInt32 41 ]}; VNil])
  = Err (Errorf "got null for non-null" []).
Proof.
  destruct (Pack_list_first_error testProgram (heap listFinished.2) 3 0%nat
              (TSlice (TPtr inputStruct)) (Some 2%nat) (TPtr inputStruct)
              eq_refl eq_refl eq_refl) as (_ & Hfirst & _).
  apply (Hfirst [VMap {[ "v" := VInt32 41 ]}] VNil []
           [RNew inputStruct (RStruct inputStruct [([0%nat], ROf (VInt32 41))])]).
  - repeat constructor.
  - reflexivity.
Defined.

Lemma foldM_res_ext {A St} (f g : St -> A -> res St) l s :
  (forall x, x ∈ l -> forall s, f s x = g s x) ->
  foldM_res f s l = foldM_res g s l.
Proof.
  revert s. induction l as [|x l IH]; intros s Hfg; simpl; [reflexivity|].
  rewrite (Hfg x) by (apply elem_of_cons; auto).
  destruct (g s x) as [s'| | |]; simpl; try reflexivity.
  apply IH. intros y Hy. apply Hfg. apply elem_of_cons. auto.
Qed.

(** A struct packer reads the entries of the input map that its fields
    name, and nothing else: two maps that agree on those names pack alike,
    so that an entry no field names is ignored.  An input that is neither
    null nor a map is a panic. *)
Theorem Pack_struct_named_entries (p : Program) (h : Heap) (fuel : nat)
    (a : addr) (st : GoType) (up : bool) (d : rvalue) (fs : list addr) :
  packers h !! a = Some (StructPacker st up d fs) ->
  (forall values values',
     (forall fa f, fa ∈ fs -> sfields h !! fa = Some f ->
        values !! name f = values' !! name f) ->
     Pack p (S fuel) h (Some a) (VMap values)
       = Pack p (S fuel) h (Some a) (VMap values')) /\
  (forall values k v,
     (forall fa f, fa ∈ fs -> sfields h !! fa = Some f -> name f <> k) ->
     Pack p (S fuel) h (Some a) (VMap (<[k := v]> values))
       = Pack p (S fuel) h (Some a) (VMap values)) /\
  (forall value,
     match value with VNil | VMap _ => False | _ => True end ->
     Pack p (S fuel) h (Some a) value = Panic).
Proof.
  intros Ha.
  assert (Hagree : forall values values',
     (forall fa f, fa ∈ fs -> sfields h !! fa = Some f ->
        values !! name f = values' !! name f) ->
     Pack p (S fuel) h (Some a) (VMap values)
       = Pack p (S fuel) h (Some a) (VMap values')).
  { intros values values' Hsame.
    rewrite !(Pack_StructPacker p h fuel a _ _ _ _ _ Ha).
    destruct (assignable p st d); [|reflexivity]. rewrite !bind_Ok.
    rewrite (foldM_res_ext (packField p (Pack p fuel h) h values)
               (packField p (Pack p fuel h) h values')); [reflexivity|].
    intros fa Hfa s. unfold packField.
    destruct (sfields h !! fa) as [f|] eqn:Hf; [|reflexivity].
    rewrite (Hsame fa f Hfa Hf). reflexivity. }
  split; [exact Hagree|]. split.
  - intros values k v Hk. apply Hagree. intros fa f Hfa Hf.
    apply lookup_insert_ne. intros ->. exact (Hk fa f Hfa Hf eq_refl).
  - intros value Hv. simpl. rewrite Ha.
    destruct value; try contradiction; reflexivity.
Qed.

(** The packer of [(first: Int = 10, after: String)] packs [{after: "x",
    last: 3}] as it packs [{after: "x"}]. *)
Lemma Pack_struct_named_entries_witness :
  Pack testProgram 3 (heap pageFinished.2) (Some 3%nat)
    (VMap (<[ "last" := VInt32 3 ]> {[ "after" := VString "x" ]}))
  = Pack testProgram 3 (heap pageFinished.2) (Some 3%nat)
      (VMap {[ "after" := VString "x" ]}).
Proof.
  destruct (Pack_struct_named_entries testProgram (heap pageFinished.2) 2
              3%nat pageArgs false (RStruct pageArgs [([0%nat], ROf (VInt32 10))])
              [0%nat; 1%nat] eq_refl) as (_ & Hignore & _).
  apply Hignore. intros fa f Hfa Hf.
  apply elem_of_cons in Hfa as [->|Hfa].
  - injection Hf as <-. discriminate.
  - apply list_elem_of_singleton in Hfa as ->.
    injection Hf as <-. discriminate.
Defined.

(** The loop of [StructPacker.Pack] ends at the first present field whose
    round does not return a struct. *)
Lemma packFields_stop (p : Program) (h : Heap) fuel values structType fields :
  Forall (fun fa => is_Some (sfields h !! fa)) fields ->
  forall sets before fv after xs (stop : res rvalue),
    presentFields h values fields = before ++ fv :: after ->
    Forall2 (fieldPacked p h fuel structType) before xs ->
    (forall sets',
       (packed ← Pack p fuel h (fpacker fv.1) fv.2;
        SetField p (RStruct structType sets') (index fv.1) packed) = stop) ->
    (forall s, stop <> Ok s) ->
    foldM_res (packField p (Pack p fuel h) h values)
      (RStruct structType sets) fields
    = stop.
Proof.
  induction 1 as [|fa fields [f Hf] Hvalid IH];
    intros sets before fv after xs stop Hsplit Hall Hstep Hstop.
  - destruct before; discriminate Hsplit.
  - rewrite foldM_res_cons.
    destruct (values !! name f) as [v|] eqn:Hv.
    + rewrite (presentFields_cons_present h _ _ _ _ _ Hf Hv) in Hsplit.
      rewrite (packField_present p h _ _ _ _ _ _ Hf Hv).
      destruct before as [|fv0 before].
      * simpl in Hsplit. injection Hsplit as <- Hrest.
        pose proof (Hstep sets) as Hs. cbn [fst snd] in Hs. rewrite Hs.
        destruct stop as [s| | |]; try reflexivity.
        destruct (Hstop s eq_refl).
      * simpl in Hsplit. injection Hsplit as <- Hrest.
        inversion Hall as [|fv1 x pf xs' Hx Hall']; subst.
        destruct Hx as (Hpack & ft & Hft & Hassign). simpl in Hpack, Hft.
        rewrite Hpack, bind_Ok.
        rewrite (SetField_Ok p _ _ _ _ _ Hft Hassign), bind_Ok.
        eapply IH; eassumption.
    + rewrite (presentFields_cons_absent h _ _ _ _ Hf Hv) in Hsplit.
      rewrite (packField_absent p h _ _ _ _ _ Hf Hv), bind_Ok.
      eapply IH; eassumption.
Qed.

(** A struct packer packs the fields the input has in the packer's order:
    the first one that its packer refuses ends the call with that error,
    and the first one whose packed value the Go field cannot hold ends it
    with a panic. *)
Theorem Pack_struct_first_error (p : Program) (h : Heap) (fuel : nat)
    (a : addr) (st : GoType) (up : bool) (defaults : list (list nat * rvalue))
    (fs : list addr) (values : gmap string value) :
  packers h !! a = Some (StructPacker st up (RStruct st defaults) fs) ->
  Forall (fun fa => is_Some (sfields h !! fa)) fs ->
  forall before f v after xs,
    presentFields h values fs = before ++ (f, v) :: after ->
    Forall2 (fieldPacked p h fuel st) before xs ->
    (forall e,
       Pack p fuel h (fpacker f) v = Err e ->
       Pack p (S fuel) h (Some a) (VMap values) = Err e) /\
    (forall x ft,
       Pack p fuel h (fpacker f) v = Ok x ->
       field_type p st (index f) = Some ft -> assignable p ft x = false ->
       Pack p (S fuel) h (Some a) (VMap values) = Panic).
Proof.
  intros Ha Hvalid before f v after xs Hsplit Hbefore.
  assert (Hstart : Pack p (S fuel) h (Some a) (VMap values) =
            (s ← foldM_res (packField p (Pack p fuel h) h values)
                   (RStruct st defaults) fs;
             Ok (structResult up st s))).
  { rewrite (Pack_StructPacker p h fuel a _ _ _ _ _ Ha).
    rewrite assignable_same by reflexivity. reflexivity. }
  split.
  - intros e Herr. rewrite Hstart.
    rewrite (packFields_stop p h fuel values st fs Hvalid defaults
               before (f, v) after xs (Err e) Hsplit Hbefore);
      [reflexivity | | discriminate].
    intros sets'. simpl. rewrite Herr. reflexivity.
  - intros x ft Hok Hft Hno. rewrite Hstart.
    rewrite (packFields_stop p h fuel values st fs Hvalid defaults
               before (f, v) after xs Panic Hsplit Hbefore);
      [reflexivity | | discriminate].
    intros sets'. simpl. rewrite Hok. simpl. rewrite Hft, Hno. reflexivity.
Qed.

(** The packer of [(first: Int = 10, after: String)]: for [{first: "x"}]
    the packer of [first] refuses the string, and that is the error of the
    call. *)
Lemma Pack_struct_first_error_witness :
  Pack testProgram 3 (heap pageFinished.2) (Some 3%nat)
    (VMap {[ "first" := VString "x" ]})
  = Err (Errorf "could not unmarshal %#v (%T) into %s: %s"
           [AValue (VString "x"); AType (Some TString); AType (Some TInt32);
            AError (Errorf "incompatible type: %s" [AType (Some TString)])]).
Proof.
  refine (proj1 (Pack_struct_first_error testProgram (heap pageFinished.2) 2
                   3%nat pageArgs false [([0%nat], ROf (VInt32 10))]
                   [0%nat; 1%nat] {[ "first" := VString "x" ]} eq_refl _
                   []
                   {| name := "first"; index := [0%nat];
                      def := Some (VInt32 10); fpacker := Some 0%nat |}
                   (VString "x") [] [] eq_refl _) _ eq_refl).
  - repeat constructor; eexists; reflexivity.
  - constructor.
Defined.

(* ===================================================================== *)
(** * More on [MakeStructPacker] *)
(* ===================================================================== *)

(** The name predicates of two schema names that differ in underscores and
    ASCII case only agree on every Go field name, whatever the case
    folding is, as long as it is an equivalence that takes ASCII capitals
    for their small letters. *)
Lemma name_predicates_agree (fold : string -> string -> bool) n1 n2 :
  (forall a b, fold a b = fold b a) ->
  (forall a b c, fold a b = true -> fold b c = true -> fold a c = true) ->
  (forall a b, lower a = lower b -> fold a b = true) ->
  sameName n1 n2 ->
  forall n,
    fold (stripUnderscore n) (stripUnderscore n1)
    = fold (stripUnderscore n) (stripUnderscore n2).
Proof.
  intros Hsym Htrans Hascii Hn n.
  pose proof (Hascii _ _ Hn) as H12.
  assert (H21 : fold (stripUnderscore n2) (stripUnderscore n1) = true)
    by (rewrite Hsym; exact H12).
  destruct (fold (stripUnderscore n) (stripUnderscore n1)) eqn:H1.
  - symmetry. exact (Htrans _ _ _ H1 H12).
  - destruct (fold (stripUnderscore n) (stripUnderscore n2)) eqn:H2;
      [|reflexivity].
    rewrite (Htrans _ _ _ H2 H21) in H1. discriminate.
Qed.

Lemma EqualFold_equivalence :
  (forall a b, EqualFold a b = EqualFold b a) /\
  (forall a b c,
     EqualFold a b = true -> EqualFold b c = true -> EqualFold a c = true) /\
  (forall a b, lower a = lower b -> EqualFold a b = true).
Proof.
  unfold EqualFold. split; [|split].
  - intros a b. apply bool_decide_ext. split; congruence.
  - intros a b c Hab Hbc. apply bool_decide_eq_true_1 in Hab, Hbc.
    apply bool_decide_eq_true_2. congruence.
  - intros a b H. apply bool_decide_eq_true_2. exact H.
Qed.

(** The Go field of an argument is looked up by a predicate on the field
    names that ignores underscores and case.  For two schema names that
    differ in underscores and in the case of ASCII letters only, the
    predicates agree on every field name, under every case folding that
    is an equivalence and takes an ASCII capital for its small letter; so
    the two names find the same field of every struct, or both none. *)
Theorem matchField_by_name (n1 n2 : string) :
  sameName n1 n2 ->
  (forall fold : string -> string -> bool,
     (forall a b, fold a b = fold b a) ->
     (forall a b c, fold a b = true -> fold b c = true -> fold a c = true) ->
     (forall a b, lower a = lower b -> fold a b = true) ->
     forall n,
       fold (stripUnderscore n) (stripUnderscore n1)
       = fold (stripUnderscore n) (stripUnderscore n2)) /\
  (forall p st, matchField p st n1 = matchField p st n2).
Proof.
  intros Hn. split.
  - intros fold Hsym Htrans Hascii.
    exact (name_predicates_agree fold n1 n2 Hsym Htrans Hascii Hn).
  - intros p st. unfold matchField, FieldByNameFunc.
    destruct EqualFold_equivalence as (Hsym & Htrans & Hascii).
    match goal with
    | |- match ?a with _ => _ end = match ?b with _ => _ end =>
        assert (Heq : a = b); [|rewrite Heq; reflexivity]
    end.
    apply list_filter_iff. intros [i sf]. simpl.
    rewrite (name_predicates_agree EqualFold n1 n2 Hsym Htrans Hascii Hn).
    reflexivity.
Qed.

(** [full_name] and [fullName] find the field [FullName] of [struct{
    FullName string }] (the arguments of [SayHello]). *)
Lemma matchField_by_name_witness :
  matchField testProgram (TStruct [mkStructField "FullName" "" TString])
    "full_name"
  = matchField testProgram (TStruct [mkStructField "FullName" "" TString])
      "fullName".
Proof.
  apply (proj2 (matchField_by_name "full_name" "fullName" eq_refl)).
Defined.

Lemma makeField_no_usable_field (p : Program) assign typ structType v b :
  noUsableField p structType v ->
  forall fe b', makeField p assign typ structType v b <> (Ok fe, b').
Proof.
  intros Hbad fe b' Hrun. unfold makeField, bind in Hrun. simpl in Hrun.
  unfold noUsableField, matchField in Hbad.
  destruct Hbad as [Hnone|(sf & idx & Hsome & Hexp)].
  - rewrite Hnone in Hrun. discriminate.
  - rewrite Hsome in Hrun. rewrite bool_decide_false in Hrun by exact Hexp.
    discriminate.
Qed.

(** [MakeStructPacker] makes no struct packer for a Go type that is
    neither a struct nor a pointer to one, and then leaves the builder as it
    was; nor when one of the arguments has no Go field of its name, or
    several, or an unexported one.  When the first argument is such a one,
    the error names it. *)
Theorem MakeStructPacker_field_errors (p : Program)
    (assign : target -> ast.Type_ -> GoType -> M unit)
    (typ : GoType) (b : Builder) :
  (forall values,
     Kind p (structTypeOf p typ) <> reflect.Struct ->
     MakeStructPacker p assign values typ b =
       (Err (Errorf "expected struct or pointer to struct, got %s (hint: missing `args struct { ... }` wrapper for field arguments?)"
               [AType (Some typ)]), b)) /\
  (forall values v,
     v ∈ values -> noUsableField p (structTypeOf p typ) v ->
     forall a b', MakeStructPacker p assign values typ b <> (Ok a, b')) /\
  (forall v rest,
     Kind p (structTypeOf p typ) = reflect.Struct ->
     matchField p (structTypeOf p typ) (ast.Name v) = None ->
     (MakeStructPacker p assign (v :: rest) typ b).1 =
       Err (Errorf "%s does not define field %q (hint: missing `args struct { ... }` wrapper for field arguments, or missing field on input struct)"
              [AType (Some typ); AString (ast.Name v)])) /\
  (forall v rest sf idx,
     Kind p (structTypeOf p typ) = reflect.Struct ->
     matchField p (structTypeOf p typ) (ast.Name v) = Some (sf, idx) ->
     sfPkgPath sf <> EmptyString ->
     (MakeStructPacker p assign (v :: rest) typ b).1 =
       Err (Errorf "field %q must be exported" [AString (sfName sf)])).
Proof.
  split; [|split; [|split]].
  - intros values Hk. rewrite MakeStructPacker_unfold. cbv zeta.
    rewrite bool_decide_false by exact Hk. reflexivity.
  - intros values v Hin Hbad a b' Hrun.
    rewrite MakeStructPacker_unfold in Hrun. cbv zeta in Hrun.
    destruct (negb _); [discriminate|].
    apply bind_Ok_inv in Hrun as (fields & b1 & Hfields & _).
    revert Hfields.
    apply (forM_rejects (fun _ => True) _ values v); auto.
    + intros x b0 r b0' _ _. exact I.
    + intros b0 _. apply makeField_no_usable_field. exact Hbad.
  - intros v rest Hk Hnone. apply MakeStructPacker_first_Err; [exact Hk|].
    unfold makeField, bind. simpl. unfold matchField in Hnone.
    rewrite Hnone. reflexivity.
  - intros v rest sf idx Hk Hsome Hexp.
    apply MakeStructPacker_first_Err; [exact Hk|].
    unfold makeField, bind. simpl. unfold matchField in Hsome.
    rewrite Hsome. rewrite bool_decide_false by exact Hexp. reflexivity.
Qed.

(** [changeTheNumber(newNumber: Int!)] with [args struct{ newNumber int32
    }], and with [args int32]. *)
Lemma MakeStructPacker_field_errors_witness :
  (MakeStructPacker testProgram (assignPacker testProgram testSchema 2)
     newNumberArguments unexportedArgs NewBuilder).1
  = Err (Errorf "field %q must be exported" [AString "newNumber"]) /\
  MakeStructPacker testProgram (assignPacker testProgram testSchema 2)
    newNumberArguments TInt32 NewBuilder
  = (Err (Errorf "expected struct or pointer to struct, got %s (hint: missing `args struct { ... }` wrapper for field arguments?)"
            [AType (Some TInt32)]), NewBuilder).
Proof.
  split.
  - apply (proj2 (proj2 (proj2
             (MakeStructPacker_field_errors testProgram
                (assignPacker testProgram testSchema 2)
                unexportedArgs NewBuilder)))
             _ [] (mkStructField "newNumber" "graphql_test" TInt32) [0%nat]).
    + reflexivity.
    + reflexivity.
    + discriminate.
  - apply (proj1 (MakeStructPacker_field_errors testProgram
                    (assignPacker testProgram testSchema 2)
                    TInt32 NewBuilder)).
    discriminate.
Defined.

Lemma fieldsKept_refl b : fieldsKept b b.
Proof. unfold fieldsKept. reflexivity. Qed.

Lemma fieldsKept_trans b1 b2 b3 :
  fieldsKept b1 b2 -> fieldsKept b2 b3 -> fieldsKept b1 b3.
Proof. unfold fieldsKept. intros H1 H2. etransitivity; eassumption. Qed.

Lemma fieldsKept_same_fields b b' :
  sfields (heap b') = sfields (heap b) -> fieldsKept b b'.
Proof. unfold fieldsKept. intros ->. reflexivity. Qed.

Section BuildFields.
Variable p : Program.
Variable schema : ast.Schema.
Variable assign : target -> ast.Type_ -> GoType -> M unit.
Hypothesis assign_kept : forall tgt t T, always fieldsKept (assign tgt t T).

Lemma makeField_fieldsKept typ structType v :
  always fieldsKept (makeField p assign typ structType v).
Proof.
  intros b. unfold makeField. unfold bind at 1. unfold newField at 1.
  cbv beta iota.
  set (f := {| name := ast.Name v; index := []; def := ast.Default v;
               fpacker := None |}).
  set (b1 := withHeap _ b).
  assert (H1 : fieldsKept b b1).
  { unfold fieldsKept. simpl. apply prefix_app_r. reflexivity. }
  destruct (FieldByNameFunc _ _ _) as [[sf idx]|]; [|exact H1].
  destruct (negb _); [exact H1|].
  destruct (_ && _); [exact H1|].
  unfold bind at 1. unfold modify at 1. cbv beta iota.
  set (b2 := withHeap (setFieldIndex _ idx) b1).
  assert (H2 : fieldsKept b b2).
  { unfold fieldsKept, b2, b1, setFieldIndex. simpl.
    rewrite list_lookup_middle by reflexivity. simpl.
    replace (length (sfields (heap b)))
      with (length (sfields (heap b)) + 0)%nat at 1 by lia.
    rewrite insert_app_r. simpl.
    apply prefix_app_r. reflexivity. }
  apply (fieldsKept_trans b b2); [exact H2|].
  generalize b2.
  change (always fieldsKept
            (ft <- match ast.Default v with
                   | Some _ => newNonNull (unwrapNonNull (ast.Type' v)).1
                   | None => ret (ast.Type' v)
                   end ;;
             wrapErr (assign (packerOf (length (sfields (heap b)))) ft
                        (sfType sf))
               (fun err => Errorf "field %q: %s"
                             [AString (sfName sf); AError err]) ;;;
             ret (length (sfields (heap b))))).
  apply (always_bind fieldsKept fieldsKept_trans).
  - destruct (ast.Default v).
    + intros s. apply fieldsKept_same_fields. reflexivity.
    + apply (always_ret fieldsKept fieldsKept_refl).
  - intros ft. apply (always_bind fieldsKept fieldsKept_trans).
    + apply always_wrapErr. apply assign_kept.
    + intros _. apply (always_ret fieldsKept fieldsKept_refl).
Qed.

Ltac kept_step_with leaf :=
  first
    [ leaf
    | apply (always_bind fieldsKept fieldsKept_trans); [|intros ?]
    | apply (always_ret fieldsKept fieldsKept_refl)
    | apply (always_fail fieldsKept fieldsKept_refl)
    | apply (always_panic fieldsKept fieldsKept_refl)
    | apply (always_wrapErr fieldsKept)
    | apply (always_forM fieldsKept fieldsKept_refl fieldsKept_trans);
      intros ?
    | apply always_modify; intros ?; apply fieldsKept_same_fields;
      reflexivity
    | intros ?; apply fieldsKept_same_fields; reflexivity
    | match goal with
      | |- always _ (match ?x with _ => _ end) => destruct x
      end ].

Lemma MakeStructPacker_fieldsKept values typ :
  always fieldsKept (MakeStructPacker p assign values typ).
Proof.
  unfold MakeStructPacker.
  repeat kept_step_with ltac:(apply makeField_fieldsKept).
Qed.

Lemma makeNonNullPacker_fieldsKept t T :
  always fieldsKept (makeNonNullPacker p schema assign t T).
Proof.
  unfold makeNonNullPacker.
  repeat kept_step_with
    ltac:(first [apply MakeStructPacker_fieldsKept | apply assign_kept]).
Qed.

Lemma makePacker_fieldsKept t T :
  always fieldsKept (makePacker p schema assign t T).
Proof.
  unfold makePacker.
  repeat kept_step_with ltac:(apply makeNonNullPacker_fieldsKept).
Qed.

Lemma assignPacker_body_fieldsKept tgt t T :
  always fieldsKept (assignPacker_body p schema assign tgt t T).
Proof.
  unfold assignPacker_body. cbv zeta.
  apply (always_bind fieldsKept fieldsKept_trans).
  - intros b. destruct (lookupEntry _ _).
    + apply fieldsKept_refl.
    + revert b. repeat kept_step_with ltac:(apply makePacker_fieldsKept).
  - intros _. apply always_modify. intros b.
    apply fieldsKept_same_fields. reflexivity.
Qed.
End BuildFields.

Lemma assignPacker_fieldsKept p schema fuel tgt t T :
  always fieldsKept (assignPacker p schema fuel tgt t T).
Proof.
  revert tgt t T. induction fuel as [|fuel IH]; intros tgt t T.
  - intros b. apply fieldsKept_refl.
  - simpl. apply assignPacker_body_fieldsKept. exact IH.
Qed.

Section StructFields.
Variable p : Program.
Variable schema : ast.Schema.
Variable assign : target -> ast.Type_ -> GoType -> M unit.
Hypothesis assign_kept : forall tgt t T, always fieldsKept (assign tgt t T).

Lemma fieldFor_kept structType b b' v fe :
  fieldsKept b b' -> fieldFor p structType (heap b) v fe ->
  fieldFor p structType (heap b') v fe.
Proof.
  intros Hk (sf & idx & Hm & He & Hf). exists sf, idx.
  split; [exact Hm|]. split; [exact He|].
  exact (prefix_lookup_Some _ _ _ _ Hf Hk).
Qed.

Lemma makeField_result typ structType v b fe b' :
  makeField p assign typ structType v b = (Ok fe, b') ->
  fieldFor p structType (heap b') v fe.
Proof.
  intros Hrun. unfold makeField in Hrun.
  apply bind_Ok_inv in Hrun as (fe0 & b1 & Hnew & Hrun).
  injection Hnew as <- <-.
  unfold fieldFor, matchField.
  destruct (FieldByNameFunc _ _ _) as [[sf idx]|]; [|discriminate].
  destruct (bool_decide_reflect (sfPkgPath sf = EmptyString)) as [Hexp|];
    [|discriminate].
  simpl in Hrun. destruct (_ && _); [discriminate|].
  apply bind_Ok_inv in Hrun as ([] & b2 & Hmod & Hrun).
  injection Hmod as <-.
  apply bind_Ok_inv in Hrun as (ft & b3 & Hft & Hrun).
  apply bind_Ok_inv in Hrun as ([] & b4 & Hassign & Hret).
  injection Hret as <- <-.
  exists sf, idx. split; [reflexivity|]. split; [exact Hexp|].
  assert (H3 : sfields (heap b3) !! length (sfields (heap b))
               = Some {| name := ast.Name v; index := idx;
                         def := ast.Default v; fpacker := None |}).
  { assert (Hsame : sfields (heap b3)
              = sfields (heap (withHeap
                  (setFieldIndex (length (sfields (heap b))) idx)
                  (withHeap (fun h => {| packers := packers h;
                       sfields := sfields h ++
                         [{| name := ast.Name v; index := [];
                             def := ast.Default v; fpacker := None |}] |})
                     b)))).
    { destruct (ast.Default v); injection Hft as _ <-; reflexivity. }
    rewrite Hsame. unfold setFieldIndex. simpl.
    rewrite list_lookup_middle by reflexivity. simpl.
    apply list_lookup_insert_eq. rewrite length_app. simpl. lia. }
  apply wrapErr_Ok_inv in Hassign.
  pose proof (assign_kept (packerOf (length (sfields (heap b)))) ft
                (sfType sf) b3) as Hk.
  rewrite Hassign in Hk.
  exact (prefix_lookup_Some _ _ _ _ H3 Hk).
Qed.

Lemma makeFields_result typ structType values :
  forall b fes b',
    forM values (makeField p assign typ structType) b = (Ok fes, b') ->
    Forall2 (fieldFor p structType (heap b')) values fes.
Proof.
  induction values as [|v values IH]; intros b fes b' Hrun.
  - injection Hrun as <- <-. constructor.
  - simpl in Hrun.
    apply bind_Ok_inv in Hrun as (fe & b1 & Hfield & Hrun).
    apply bind_Ok_inv in Hrun as (fes0 & b2 & Hrest & Hret).
    injection Hret as <- <-.
    constructor; [|exact (IH _ _ _ Hrest)].
    apply (fieldFor_kept structType b1).
    + pose proof (always_forM fieldsKept fieldsKept_refl fieldsKept_trans
                    values _ (makeField_fieldsKept p assign assign_kept
                                typ structType) b1) as Hk.
      rewrite Hrest in Hk. exact Hk.
    + exact (makeField_result _ _ _ _ _ _ Hfield).
Qed.

Lemma MakeStructPacker_fields_result values typ b a b' :
  MakeStructPacker p assign values typ b = (Ok a, b') ->
  exists fs,
    packers (heap b') !! a
      = Some (StructPacker (structTypeOf p typ)
                (bool_decide (Kind p typ = reflect.Ptr)) RInvalid fs) /\
    last (structPackers b') = Some a /\
    Forall2 (fieldFor p (structTypeOf p typ) (heap b')) values fs.
Proof.
  intros Hrun. rewrite MakeStructPacker_unfold in Hrun. cbv zeta in Hrun.
  destruct (negb _); [discriminate|].
  apply bind_Ok_inv in Hrun as (fields & b1 & Hfields & Hrun).
  apply bind_Ok_inv in Hrun as (a0 & b2 & Hnew & Hrun).
  apply bind_Ok_inv in Hrun as ([] & b3 & Hmod & Hret).
  injection Hret as <- <-. injection Hmod as <-.
  injection Hnew as <- <-. simpl.
  exists fields. split; [apply list_lookup_middle; reflexivity|].
  split; [apply last_snoc|].
  exact (makeFields_result _ _ _ _ _ _ Hfields).
Qed.
End StructFields.

(** A struct packer that [MakeStructPacker] returns is the last of the
    builder's struct packers, has no prototype yet, and has one field per
    declared argument, in the order of the declaration: each with the
    argument's name and default value and the index of the exported Go
    field of that name. *)
Theorem MakeStructPacker_fields (p : Program) (schema : ast.Schema)
    (fuel : nat) (values : list ast.InputValueDefinition) (typ : GoType)
    (b : Builder) (a : addr) (b' : Builder) :
  MakeStructPacker p (assignPacker p schema fuel) values typ b = (Ok a, b') ->
  exists fs,
    packers (heap b') !! a
      = Some (StructPacker (structTypeOf p typ)
                (bool_decide (Kind p typ = reflect.Ptr)) RInvalid fs) /\
    last (structPackers b') = Some a /\
    Forall2 (fieldFor p (structTypeOf p typ) (heap b')) values fs.
Proof.
  apply MakeStructPacker_fields_result.
  intros tgt t T. apply assignPacker_fieldsKept.
Qed.

(** The struct packer of [(first: Int = 10, after: String)]. *)
Lemma MakeStructPacker_fields_witness :
  exists fs,
    packers (heap pageBuilt.2) !! 3%nat
      = Some (StructPacker pageArgs false RInvalid fs) /\
    last (structPackers pageBuilt.2) = Some 3%nat /\
    Forall2 (fieldFor testProgram pageArgs (heap pageBuilt.2))
      pageArguments fs.
Proof.
  exact (MakeStructPacker_fields testProgram testSchema 4 pageArguments
           pageArgs NewBuilder 3%nat pageBuilt.2 eq_refl).
Defined.

(* --------------------------------------------------------------------- *)
(** ** An input object with a default value of its own type *)

Lemma bind_OutOfFuel {A B} (m : M A) (k : A -> M B) b :
  (m b).1 = OutOfFuel -> (bind m k b).1 = OutOfFuel.
Proof.
  unfold bind. destruct (m b) as [[a| | |] b1]; simpl; try discriminate.
  reflexivity.
Qed.

Section SelfDefault.
Variable p : Program.
Variable schema : ast.Schema.
Variable n : string.
Variable v : ast.InputValueDefinition.
Variable rest : list ast.InputValueDefinition.
Variable d : ast.Value.
Variable st : GoType.
Variable sf : StructField.
Variable idx : list nat.
Hypothesis Hschema : schema n = v :: rest.
Hypothesis Htype : ast.Type' v = ast.InputObject n.
Hypothesis Hdef : ast.Default v = Some d.
Hypothesis Hkind : Kind p st = reflect.Struct.
Hypothesis Hmatch : matchField p st (ast.Name v) = Some (sf, idx).
Hypothesis Hexp : sfPkgPath sf = EmptyString.
Hypothesis Hun : unmarshaler_of p (sfType sf) = None.
Hypothesis Hst : structTypeOf p (sfType sf) = st.

Lemma MakeStructPacker_self_default fuel :
  forall typ b,
    structTypeOf p typ = st -> freshIds b ->
    (MakeStructPacker p (assignPacker p schema fuel) (schema n) typ b).1
    = OutOfFuel.
Proof.
  induction fuel as [|fuel IH]; intros typ b Htyp Hfresh;
    rewrite MakeStructPacker_unfold, Hschema; cbv zeta;
    rewrite Htyp, Hkind; rewrite bool_decide_true by reflexivity;
    cbn [negb]; apply bind_OutOfFuel; cbn [forM];
    apply bind_OutOfFuel;
    unfold makeField, bind; cbn [newField];
    unfold matchField in Hmatch; rewrite Hmatch, Hexp, Htype, Hdef;
    rewrite bool_decide_true by reflexivity; cbn [negb unwrapNonNull snd fst andb];
    cbn [modify newNonNull]; unfold wrapErr.
  - reflexivity.
  - set (fe := length (sfields (heap b))).
    set (ft := ast.NonNull (ast.Built (allocated b)) (ast.InputObject n)).
    match goal with
    | |- context [assignPacker p schema (S fuel) _ _ _ ?s] => set (b3 := s)
    end.
    set (k := {| graphQLType := ft; resolverType := sfType sf |}).
    assert (Hk : lookupEntry k (packerMap b3) = None).
    { destruct (lookupEntry k (packerMap b3)) as [e|] eqn:Hl; [|reflexivity].
      apply lookupEntry_Some_key in Hl.
      specialize (Hfresh k (allocated b) (ast.InputObject n) Hl eq_refl).
      lia. }
    cbn [assignPacker].
    rewrite (assignPacker_body_miss p schema _ _ _ _ b3 Hk). fold k.
    unfold ft at 1. rewrite makePacker_NonNull.
    unfold makeNonNullPacker. rewrite Hun.
    assert (Hrec : (MakeStructPacker p (assignPacker p schema fuel)
                      (schema n) (sfType sf) (reserved k b3)).1
                   = OutOfFuel).
    { apply IH; [exact Hst|].
      intros k0 i t Hin Hty. simpl in Hin. rewrite fmap_app in Hin.
      apply elem_of_app in Hin as [Hin|Hin].
      - specialize (Hfresh k0 i t Hin Hty). simpl. lia.
      - apply list_elem_of_singleton in Hin. subst k0. simpl in Hty.
        injection Hty as <- _. simpl. lia. }
    destruct (MakeStructPacker _ _ _ _ _) as [r b4]. simpl in Hrec.
    subst r. reflexivity.
Qed.
End SelfDefault.

(** For an input object that has a field of its own type with a default
    value, [MakeStructPacker] does not return.  The packer of a field with
    a default value is requested for a [NonNull] that is allocated for the
    request, so that no entry of the map is found for it, and the struct
    packer of the input object is built again for the field, without end:
    whatever the bound on the depth of the calls, it is reached. *)
Theorem MakeStructPacker_self_default_diverges (p : Program)
    (schema : ast.Schema) (n : string) (v : ast.InputValueDefinition)
    (rest : list ast.InputValueDefinition) (d : ast.Value)
    (sf : StructField) (idx : list nat) (typ : GoType) (b : Builder) :
  schema n = v :: rest ->
  ast.Type' v = ast.InputObject n -> ast.Default v = Some d ->
  Kind p (structTypeOf p typ) = reflect.Struct ->
  matchField p (structTypeOf p typ) (ast.Name v) = Some (sf, idx) ->
  sfPkgPath sf = EmptyString ->
  unmarshaler_of p (sfType sf) = None ->
  structTypeOf p (sfType sf) = structTypeOf p typ ->
  freshIds b ->
  forall fuel,
    (MakeStructPacker p (assignPacker p schema fuel) (schema n) typ b).1
    = OutOfFuel.
Proof.
  intros Hschema Htype Hdef Hkind Hmatch Hexp Hun Hst Hfresh fuel.
  exact (MakeStructPacker_self_default p schema n v rest d
           (structTypeOf p typ) sf idx Hschema Htype Hdef Hkind Hmatch Hexp
           Hun Hst fuel typ b eq_refl Hfresh).
Qed.

(** [input Node { next: Node = {} }] bound to [*recursive], with 5 levels
    of calls. *)
Lemma MakeStructPacker_self_default_diverges_witness :
  (MakeStructPacker testProgram (assignPacker testProgram nodeSchema 5)
     (nodeSchema "Node") (TPtr (TNamed "recursive")) NewBuilder).1
  = OutOfFuel.
Proof.
  apply (MakeStructPacker_self_default_diverges testProgram nodeSchema
           "Node"
           {| ast.Name := "next"; ast.Type' := ast.InputObject "Node";
              ast.Default := Some (VMap ∅) |}
           [] (VMap ∅)
           (mkStructField "Next" "" (TPtr (TNamed "recursive"))) [0%nat]);
    try reflexivity.
  intros k i t Hin. apply elem_of_nil in Hin. contradiction.
Defined.

(* ===================================================================== *)
(** * More on [Finish] *)
(* ===================================================================== *)

Lemma keeps_listed_same {A} (m : M A) :
  (forall b, structPackers (m b).2 = structPackers b /\
             packers (heap (m b).2) = packers (heap b)) ->
  keeps structsListed m.
Proof.
  intros Hm b r b' [Hnd Hiff] Hrun. destruct (Hm b) as [Hs Hp].
  rewrite Hrun in Hs, Hp. simpl in Hs, Hp.
  unfold structsListed, isStructPacker. rewrite Hs, Hp. auto.
Qed.

Lemma keeps_listed_newPacker o :
  (forall st up d fs, o <> StructPacker st up d fs) ->
  keeps structsListed (newPacker o).
Proof.
  intros Ho b r b' [Hnd Hiff] [= _ <-].
  split; [exact Hnd|]. intros a. simpl. rewrite Hiff.
  unfold isStructPacker. simpl. split.
  - intros (st & up & d & fs & Ha). exists st, up, d, fs.
    apply lookup_app_l_Some. exact Ha.
  - intros (st & up & d & fs & Ha). exists st, up, d, fs.
    apply lookup_app_Some in Ha as [Ha|[_ Ha]]; [exact Ha|].
    apply list_lookup_singleton_Some in Ha as [_ Ha].
    destruct (Ho _ _ _ _ Ha).
Qed.

(** The end of [MakeStructPacker]: the new struct packer is listed. *)
Lemma keeps_listed_struct st up fs :
  keeps structsListed
    (a <- newPacker (StructPacker st up RInvalid fs) ;;
     modify (fun b =>
       {| packerMap := packerMap b;
          structPackers := structPackers b ++ [a];
          heap := heap b;
          allocated := allocated b |}) ;;;
     ret a).
Proof.
  intros b r b' [Hnd Hiff] Hrun.
  apply bind_Ok_inv in Hrun as (a & b1 & Hnew & Hrun).
  apply bind_Ok_inv in Hrun as ([] & b2 & Hmod & Hret).
  injection Hret as _ <-. injection Hmod as <-. injection Hnew as <- <-.
  assert (Hlt : forall a, a ∈ structPackers b ->
                  (a < length (packers (heap b)))%nat).
  { intros a Ha. apply Hiff in Ha as (st0 & up0 & d0 & fs0 & Ha).
    apply lookup_lt_Some in Ha. exact Ha. }
  split; simpl.
  - apply NoDup_app. split; [exact Hnd|]. split; [|apply NoDup_singleton].
    intros a Ha Hin. apply list_elem_of_singleton in Hin. subst a.
    specialize (Hlt _ Ha). lia.
  - intros a. rewrite elem_of_app, list_elem_of_singleton, Hiff.
    unfold isStructPacker. simpl. split.
    + intros [(st0 & up0 & d0 & fs0 & Ha)| ->].
      * exists st0, up0, d0, fs0. apply lookup_app_l_Some. exact Ha.
      * exists st, up, RInvalid, fs. apply list_lookup_middle. reflexivity.
    + intros (st0 & up0 & d0 & fs0 & Ha).
      apply lookup_app_Some in Ha as [Ha|[Hge Ha]]; [left; eauto|].
      right. apply list_lookup_singleton_Some in Ha as [Ha _]. lia.
Qed.

Ltac same_structs :=
  apply keeps_listed_same; intros ?; split;
  [ reflexivity
  | try reflexivity; simpl; unfold setFieldIndex;
    match goal with
    | |- context [sfields ?h !! ?fe] => destruct (sfields h !! fe)
    end; reflexivity ].

Section BuildListed.
Variable p : Program.
Variable schema : ast.Schema.
Variable assign : target -> ast.Type_ -> GoType -> M unit.
Hypothesis assign_listed :
  forall tgt t T, keeps structsListed (assign tgt t T).

Lemma makeField_listed typ structType v :
  keeps structsListed (makeField p assign typ structType v).
Proof.
  unfold makeField.
  repeat keeps_step_with structsListed
    ltac:(first [apply assign_listed | same_structs]).
Qed.

Lemma MakeStructPacker_listed values typ :
  keeps structsListed (MakeStructPacker p assign values typ).
Proof.
  rewrite MakeStructPacker_unfold. cbv zeta.
  repeat keeps_step_with structsListed
    ltac:(first [apply makeField_listed | apply keeps_listed_struct]).
Qed.

Lemma makeNonNullPacker_listed t T :
  keeps structsListed (makeNonNullPacker p schema assign t T).
Proof.
  unfold makeNonNullPacker.
  repeat keeps_step_with structsListed
    ltac:(first [ apply MakeStructPacker_listed | apply assign_listed
                | apply keeps_listed_newPacker; discriminate ]).
Qed.

Lemma makePacker_listed t T :
  keeps structsListed (makePacker p schema assign t T).
Proof.
  unfold makePacker.
  repeat keeps_step_with structsListed
    ltac:(first [ apply makeNonNullPacker_listed
                | apply keeps_listed_newPacker; discriminate ]).
Qed.

Lemma assignPacker_body_listed tgt t T :
  keeps structsListed (assignPacker_body p schema assign tgt t T).
Proof.
  unfold assignPacker_body. cbv zeta.
  apply (keeps_bind structsListed); [|intros _; same_structs].
  intros b r b' Hb Hrun. destruct (lookupEntry _ _).
  - injection Hrun as _ <-. exact Hb.
  - revert b r b' Hb Hrun.
    repeat keeps_step_with structsListed
      ltac:(first [apply makePacker_listed | same_structs]).
Qed.
End BuildListed.

Lemma assignPacker_listed p schema fuel tgt t T :
  keeps structsListed (assignPacker p schema fuel tgt t T).
Proof.
  revert tgt t T. induction fuel as [|fuel IH]; intros tgt t T.
  - intros b a b' _ [=].
  - simpl. apply assignPacker_body_listed. exact IH.
Qed.

Lemma built_structsListed p schema b :
  built p schema b -> structsListed b.
Proof.
  induction 1 as [|fuel values typ b a b' Hb IH Hmake].
  - split; [apply NoDup_nil_2|]. intros a. split.
    + intros Hin. apply elem_of_nil in Hin. contradiction.
    + intros (st & up & d & fs & Ha). discriminate.
  - eapply MakeStructPacker_listed; [|exact IH|exact Hmake].
    intros tgt t T. apply assignPacker_listed.
Qed.

Lemma sameStructs_refl h : sameStructs h h.
Proof. intros a st up d fs. reflexivity. Qed.

Lemma sameStructs_trans h1 h2 h3 :
  sameStructs h1 h2 -> sameStructs h2 h3 -> sameStructs h1 h3.
Proof.
  intros H12 H23 a st up d fs. rewrite (H23 a), (H12 a). reflexivity.
Qed.

Lemma sameStructs_setTarget pk h t : sameStructs h (setTarget pk h t).
Proof.
  destruct t as [a|fe]; simpl.
  - destruct (packers h !! a) as [[| st0 e | | |]|] eqn:Ha;
      try apply sameStructs_refl.
    intros a0 st up d fs. simpl.
    destruct (decide (a0 = a)) as [->|Hne].
    + rewrite list_lookup_insert_eq by (apply lookup_lt_Some in Ha; exact Ha).
      rewrite Ha. split; discriminate.
    + rewrite list_lookup_insert_ne by congruence. reflexivity.
  - destruct (sfields h !! fe); intros a st up d fs; reflexivity.
Qed.

Lemma sameStructs_linkTargets m h : sameStructs h (linkTargets m h).
Proof.
  unfold linkTargets. revert h.
  induction m as [|entry m IH]; intros h; simpl; [apply sameStructs_refl|].
  apply (sameStructs_trans _ (linkEntry h entry)); [|apply IH].
  unfold linkEntry. generalize (targets entry.2) as ts. intros ts. revert h.
  induction ts as [|t ts IHts]; intros h; simpl; [apply sameStructs_refl|].
  apply (sameStructs_trans _ (setTarget (epacker entry.2) h t));
    [apply sameStructs_setTarget | apply IHts].
Qed.

Lemma setDefaultStruct_other a a' d h :
  a' <> a -> packers (setDefaultStruct a d h) !! a' = packers h !! a'.
Proof.
  intros Hne. unfold setDefaultStruct.
  destruct (packers h !! a) as [[st up d0 fs| | | |]|]; try reflexivity.
  simpl. apply list_lookup_insert_ne. congruence.
Qed.

(** The second loop of [Finish]: every struct packer of the list gets its
    prototype, and nothing else changes. *)
Lemma finishStructs_spec p fuel l :
  forall b r b',
    forM l (finishStruct p fuel) b = (Ok r, b') -> NoDup l ->
    (forall a, a ∈ l ->
       exists st up sets fs,
         packers (heap b') !! a
         = Some (StructPacker st up (RStruct st sets) fs)) /\
    (forall a, a ∉ l -> packers (heap b') !! a = packers (heap b) !! a) /\
    sameLinks b b'.
Proof.
  induction l as [|a0 l IH]; intros b r b' Hrun Hnd.
  - injection Hrun as _ <-. split; [|split; [auto | apply sameLinks_refl]].
    intros a Ha. apply elem_of_nil in Ha. contradiction.
  - simpl in Hrun. apply NoDup_cons in Hnd as [Hnot Hnd].
    apply bind_Ok_inv in Hrun as ([] & b1 & Hfirst & Hrun).
    apply bind_Ok_inv in Hrun as (rs & b2 & Hrest & Hret).
    injection Hret as _ <-.
    destruct (IH _ _ _ Hrest Hnd) as (Hin & Hout & Hlinks).
    assert (Ha0 : exists st up d fs,
              packers (heap b) !! a0 = Some (StructPacker st up d fs)).
    { unfold finishStruct in Hfirst.
      destruct (packers (heap b) !! a0) as [[st up d fs| | | |]|];
        try discriminate. eauto. }
    destruct Ha0 as (st & up & d & fs & Ha0).
    destruct (finishStruct_spec p fuel a0 b tt b1 st up d fs Ha0 Hfirst)
      as (xs & Hb1 & _). cbv zeta in Hb1.
    split; [|split].
    + intros a Ha. apply elem_of_cons in Ha as [->|Ha]; [|auto].
      rewrite (Hout a0 Hnot), Hb1. simpl.
      rewrite (setDefaultStruct_lookup _ _ _ _ _ _ _ Ha0). eauto.
    + intros a Ha. apply not_elem_of_cons in Ha as [Hne Ha].
      rewrite (Hout a Ha), Hb1. simpl.
      apply setDefaultStruct_other. exact Hne.
    + apply (sameLinks_trans b b1); [|exact Hlinks].
      rewrite Hb1. apply sameLinks_setDefaultStruct.
Qed.

Lemma Finish_protoHeap p schema fuel b r b' :
  built p schema b -> Finish p fuel b = (Ok r, b') ->
  protoHeap (heap b') /\
  packerMap b' = packerMap b /\ structPackers b' = structPackers b.
Proof.
  intros Hb Hrun. destruct (built_structsListed p schema b Hb) as [Hnd Hiff].
  unfold Finish in Hrun.
  apply bind_Ok_inv in Hrun as ([] & b1 & Hlink & Hrun).
  injection Hlink as <-.
  set (b1 := withHeap (linkTargets (packerMap b)) b) in *.
  apply bind_Ok_inv in Hrun as (rs & b2 & Hloop & Hret).
  injection Hret as _ <-.
  destruct (finishStructs_spec p fuel _ _ _ _ Hloop Hnd)
    as (Hin & Hout & _ & Hmap & Hstructs).
  split; [|split; [exact Hmap | exact Hstructs]].
  intros a st up d fs Ha.
  assert (Hlisted : a ∈ structPackers b).
  { destruct (decide (a ∈ structPackers b)) as [H|H]; [exact H|].
    apply Hiff. rewrite (Hout a H) in Ha.
    apply (sameStructs_linkTargets (packerMap b) (heap b)) in Ha.
    exists st, up, d, fs. exact Ha. }
  destruct (Hin a Hlisted) as (st' & up' & sets & fs' & Ha').
  rewrite Ha in Ha'. injection Ha' as -> -> -> ->. eauto.
Qed.

(** When [Finish] returns without an error on a builder that successful
    calls of [MakeStructPacker] left, every struct packer of the builder has
    a prototype, a struct of the packer's type, which the struct that [Pack]
    allocates can be set to; the map and the list of struct packers are
    what they were. *)
Theorem Finish_prototypes (p : Program) (schema : ast.Schema) (fuel : nat)
    (b : Builder) (r : unit) (b' : Builder) :
  built p schema b -> Finish p fuel b = (Ok r, b') ->
  (forall a st up d fs,
     packers (heap b') !! a = Some (StructPacker st up d fs) ->
     (exists sets, d = RStruct st sets) /\ assignable p st d = true) /\
  packerMap b' = packerMap b /\ structPackers b' = structPackers b.
Proof.
  intros Hb Hrun.
  destruct (Finish_protoHeap p schema fuel b r b' Hb Hrun)
    as (Hproto & Hmap & Hstructs).
  split; [|split; [exact Hmap | exact Hstructs]].
  intros a st up d fs Ha.
  destruct (Hproto a st up d fs Ha) as [sets ->].
  split; [eauto|]. apply assignable_same. reflexivity.
Qed.

(** The packers of [(first: Int = 10, after: String)]: after [Finish] the
    struct packer has a prototype. *)
Lemma Finish_prototypes_witness :
  (exists sets,
     RStruct pageArgs [([0%nat], ROf (VInt32 10))] = RStruct pageArgs sets) /\
  assignable testProgram pageArgs
    (RStruct pageArgs [([0%nat], ROf (VInt32 10))]) = true.
Proof.
  assert (Hb : built testProgram testSchema pageBuilt.2).
  { apply (built_make testProgram testSchema 4 pageArguments pageArgs
             NewBuilder 3%nat); [constructor | reflexivity]. }
  exact (proj1 (Finish_prototypes testProgram testSchema 4 pageBuilt.2 tt
                  pageFinished.2 Hb eq_refl)
           3%nat pageArgs false _ [0%nat; 1%nat] eq_refl).
Defined.

(* ===================================================================== *)
(** * The pairs a builder makes packers for *)
(* ===================================================================== *)

Section Compatible.
Variable p : Program.
Variable schema : ast.Schema.

Lemma makeNonNullPacker_checks assign t T b a b' :
  makeNonNullPacker p schema assign t T b = (Ok a, b') ->
  match unmarshaler_of p T with
  | Some u => ImplementsGraphQLType u (ast.String t) = true
  | None =>
      match t with
      | ast.ScalarTypeDefinition _ => True
      | ast.EnumTypeDefinition _ => Kind p T = reflect.String
      | ast.InputObject _ => Kind p (structTypeOf p T) = reflect.Struct
      | ast.List _ _ => Kind p T = reflect.Slice
      | _ => False
      end
  end.
Proof.
  unfold makeNonNullPacker. destruct (unmarshaler_of p T) as [u|].
  { destruct (ImplementsGraphQLType u (ast.String t)); [auto | discriminate]. }
  destruct t as [n|n|n|n|n|n|id t|id t]; try discriminate.
  - auto.
  - destruct (bool_decide_reflect (Kind p T = reflect.String));
      [auto | discriminate].
  - rewrite MakeStructPacker_unfold. cbv zeta.
    destruct (bool_decide_reflect
                (Kind p (structTypeOf p T) = reflect.Struct));
      [auto | discriminate].
  - destruct (Kind p T); try discriminate. auto.
Qed.

Lemma makePacker_compatible assign t T b a b' :
  makePacker p schema assign t T b = (Ok a, b') -> compatible p t T.
Proof.
  unfold makePacker, compatible, elemTypeOf.
  destruct (unwrapNonNull t) as [t0 nonNull]. simpl.
  destruct nonNull; simpl.
  - intros Hrun. split; [discriminate|].
    exact (makeNonNullPacker_checks _ _ _ _ _ _ Hrun).
  - destruct (bool_decide_reflect (Kind p T = reflect.Ptr)) as [Hptr|Hptr].
    + intros Hrun. split; [auto|].
      assert (Hel : exists elem b1,
                makeNonNullPacker p schema assign t0
                  match t0 with
                  | ast.InputObject _ => T
                  | _ => default T (Elem p T)
                  end b = (Ok elem, b1)).
      { destruct t0; apply bind_Ok_inv in Hrun as (elem & b1 & Hm & _);
          eauto. }
      destruct Hel as (elem & b1 & Hm).
      exact (makeNonNullPacker_checks _ _ _ _ _ _ Hm).
    + destruct (isNullable p T) eqn:Hn; [|discriminate].
      intros Hrun. split; [auto|].
      apply bind_Ok_inv in Hrun as (elem & b1 & Hm & _).
      exact (makeNonNullPacker_checks _ _ _ _ _ _ Hm).
Qed.

Lemma keeps_compatible_same_map {A} (m : M A) :
  (forall b, packerMap (m b).2 = packerMap b) ->
  keeps (allCompatible p) m.
Proof.
  intros Hm b r b' Hb Hrun. specialize (Hm b). rewrite Hrun in Hm.
  unfold allCompatible. simpl in Hm. rewrite Hm. exact Hb.
Qed.

Section Methods.
Variable assign : target -> ast.Type_ -> GoType -> M unit.
Hypothesis assign_compatible :
  forall tgt t T, keeps (allCompatible p) (assign tgt t T).

Ltac same_map := apply keeps_compatible_same_map; intros ?; reflexivity.

Lemma makeField_compatible typ structType v :
  keeps (allCompatible p) (makeField p assign typ structType v).
Proof.
  unfold makeField.
  repeat keeps_step_with (allCompatible p)
    ltac:(first [apply assign_compatible | same_map]).
Qed.

Lemma MakeStructPacker_compatible values typ :
  keeps (allCompatible p) (MakeStructPacker p assign values typ).
Proof.
  unfold MakeStructPacker.
  repeat keeps_step_with (allCompatible p)
    ltac:(first [apply makeField_compatible | same_map]).
Qed.

Lemma makeNonNullPacker_compatible t T :
  keeps (allCompatible p) (makeNonNullPacker p schema assign t T).
Proof.
  unfold makeNonNullPacker.
  repeat keeps_step_with (allCompatible p)
    ltac:(first [ apply MakeStructPacker_compatible
                | apply assign_compatible | same_map ]).
Qed.

Lemma makePacker_keeps_compatible t T :
  keeps (allCompatible p) (makePacker p schema assign t T).
Proof.
  unfold makePacker.
  repeat keeps_step_with (allCompatible p)
    ltac:(first [apply makeNonNullPacker_compatible | same_map]).
Qed.

Lemma assignPacker_body_compatible tgt t T :
  keeps (allCompatible p) (assignPacker_body p schema assign tgt t T).
Proof.
  intros b r b' Hb Hrun.
  set (k := {| graphQLType := t; resolverType := T |}).
  assert (Hrec : forall b0, allCompatible p b0 ->
            allCompatible p (recorded k tgt b0)).
  { intros b0 Hb0 k0 e0 Hin He. simpl in Hin.
    apply elem_of_updateEntry in Hin as [Hin|(-> & e & Hin & ->)].
    - exact (Hb0 k0 e0 Hin He).
    - exact (Hb0 k e Hin He). }
  destruct (lookupEntry k (packerMap b)) as [e|] eqn:Hk.
  - rewrite (assignPacker_body_hit p schema assign tgt t T b e Hk) in Hrun.
    injection Hrun as _ <-. apply Hrec. exact Hb.
  - rewrite (assignPacker_body_miss p schema assign tgt t T b Hk) in Hrun.
    fold k in Hrun.
    destruct (makePacker _ _ _ _ _ _) as [[pk| | |] b1] eqn:Hmake;
      try discriminate.
    injection Hrun as _ <-. apply Hrec.
    assert (Hb1 : allCompatible p b1).
    { eapply makePacker_keeps_compatible; [|exact Hmake].
      intros k0 e0 Hin He. simpl in Hin.
      apply elem_of_app in Hin as [Hin|Hin]; [exact (Hb k0 e0 Hin He)|].
      apply list_elem_of_singleton in Hin. injection Hin as -> ->.
      destruct (He eq_refl). }
    intros k0 e0 Hin He. simpl in Hin.
    apply elem_of_updateEntry in Hin as [Hin|(-> & e & Hin & ->)].
    + exact (Hb1 k0 e0 Hin He).
    + exact (makePacker_compatible _ _ _ _ _ _ Hmake).
Qed.
End Methods.

Lemma assignPacker_compatible fuel tgt t T :
  keeps (allCompatible p) (assignPacker p schema fuel tgt t T).
Proof.
  revert tgt t T. induction fuel as [|fuel IH]; intros tgt t T.
  - intros b a b' _ [=].
  - simpl. apply assignPacker_body_compatible. exact IH.
Qed.

Lemma built_allCompatible b : built p schema b -> allCompatible p b.
Proof.
  induction 1 as [|fuel values typ b a b' Hb IH Hmake].
  - intros k e Hin. apply elem_of_nil in Hin. contradiction.
  - eapply MakeStructPacker_compatible; [|exact IH|exact Hmake].
    intros tgt t T. apply assignPacker_compatible.
Qed.
End Compatible.

(** In a builder that successful calls of [MakeStructPacker] left, every
    pair of the map passed the checks of [makePacker]: a nullable GraphQL
    type is paired with a pointer or a [NullUnmarshaller]; a Go type with
    the [Unmarshaler] methods implements the GraphQL type; otherwise an enum
    is paired with a string type, an input object with a struct or a
    pointer to one, a list with a slice, and no object, interface or union
    type is in the map. *)
Theorem built_pairs_compatible (p : Program) (schema : ast.Schema)
    (b : Builder) (k : typePair) :
  built p schema b -> k ∈ (packerMap b).*1 ->
  compatible p (graphQLType k) (resolverType k).
Proof.
  intros Hb Hk. apply list_elem_of_fmap in Hk as ([k0 e] & -> & Hin).
  apply (built_allCompatible p schema b Hb k0 e Hin).
  exact (proj2 (built_WF p schema b Hb) k0 e Hin).
Qed.

(** The one pair of [recursive(value: RecursiveInput)]. *)
Lemma built_pairs_compatible_witness :
  compatible testProgram (ast.InputObject "RecursiveInput")
    (TPtr (TNamed "recursive")).
Proof.
  apply (built_pairs_compatible testProgram testSchema recursiveBuilt.2
           {| graphQLType := ast.InputObject "RecursiveInput";
              resolverType := TPtr (TNamed "recursive") |}).
  - apply (built_make testProgram testSchema 4 recursiveArguments
             recursiveArgs NewBuilder 2%nat); [constructor | reflexivity].
  - apply elem_of_cons. left. reflexivity.
Defined.

(** A nullable GraphQL type bound to a [NullUnmarshaller] that is no
    pointer: the packer that [makePacker] returns hands every input, null
    included, to [UnmarshalGraphQL], and returns its error or the
    unmarshaled value. *)
Theorem makePacker_NullUnmarshaller (p : Program) (schema : ast.Schema)
    (assign : target -> ast.Type_ -> GoType -> M unit)
    (t : ast.Type_) (T : GoType) (u : Unmarshaler)
    (b : Builder) (pk : addr) (b' : Builder) :
  (unwrapNonNull t).2 = false -> Kind p T <> reflect.Ptr ->
  unmarshaler_of p T = Some u -> Nullable u = true ->
  makePacker p schema assign t T b = (Ok pk, b') ->
  ImplementsGraphQLType u (ast.String t) = true /\
  forall fuel value,
    Pack p (S (S fuel)) (heap b') (Some pk) value =
      match UnmarshalGraphQL u value with
      | Some err => Err err
      | None => Ok (RUnmarshaled T value)
      end.
Proof.
  intros Hnn Hptr Hu Hnull Hrun.
  assert (Hn : isNullable p T = true).
  { unfold isNullable. rewrite Hu. exact Hnull. }
  unfold makePacker in Hrun.
  destruct (unwrapNonNull t) as [t0 nonNull] eqn:Hun. simpl in Hnn.
  subst nonNull. simpl in Hrun.
  assert (Ht0 : t0 = t).
  { destruct t; simpl in Hun; congruence. }
  subst t0.
  rewrite bool_decide_false in Hrun by exact Hptr. rewrite Hn in Hrun.
  apply bind_Ok_inv in Hrun as (elem & b1 & Hmake & Hnew).
  unfold makeNonNullPacker in Hmake. rewrite Hu in Hmake.
  destruct (ImplementsGraphQLType u (ast.String t)); [|discriminate].
  split; [reflexivity|]. simpl in Hmake.
  injection Hmake as <- <-. injection Hnew as <- <-.
  intros fuel value.
  assert (Hwrap : packers (heap (withHeap (fun h =>
              {| packers := packers h ++
                   [nullPacker (Some (length (packers (heap b)))) T false];
                 sfields := sfields h |})
              (withHeap (fun h =>
                 {| packers := packers h ++ [unmarshalerPacker T];
                    sfields := sfields h |}) b)))
            = packers (heap b) ++
                [unmarshalerPacker T;
                 nullPacker (Some (length (packers (heap b)))) T false]).
  { simpl. rewrite <- app_assoc. reflexivity. }
  set (h' := heap _) in *.
  assert (Hpk : packers h' !! length (packers (heap (withHeap (fun h =>
                 {| packers := packers h ++ [unmarshalerPacker T];
                    sfields := sfields h |}) b)))
            = Some (nullPacker (Some (length (packers (heap b)))) T false)).
  { rewrite Hwrap. simpl. rewrite length_app. simpl.
    rewrite lookup_app_r by lia.
    replace (length (packers (heap b)) + 1 - length (packers (heap b)))%nat
      with 1%nat by lia.
    reflexivity. }
  assert (Helem : packers h' !! length (packers (heap b))
            = Some (unmarshalerPacker T)).
  { rewrite Hwrap. apply list_lookup_middle. reflexivity. }
  assert (Hinner : Pack p (S fuel) h' (Some (length (packers (heap b))))
                     value
            = match UnmarshalGraphQL u value with
              | Some err => Err err
              | None => Ok (RUnmarshaled T value)
              end).
  { cbn [Pack mbind option_bind]. rewrite Helem, Hn, andb_false_r, Hu.
    reflexivity. }
  rewrite (Pack_nullPacker p h' (S fuel) _ _ _ _ _ Hpk), Hn.
  cbn [negb]. rewrite andb_false_r, Hinner.
  destruct (UnmarshalGraphQL u value); reflexivity.
Qed.

(** [(name: String)] bound to a [graphql.NullString]: null is what
    [UnmarshalGraphQL] makes of it. *)
Lemma makePacker_NullUnmarshaller_witness :
  Pack nullStringProgram 2
    (heap (makePacker nullStringProgram testSchema
             (assignPacker nullStringProgram testSchema 1)
             (ast.ScalarTypeDefinition "String") (TNamed "NullString")
             NewBuilder).2)
    (Some 1%nat) VNil
  = Ok (RUnmarshaled (TNamed "NullString") VNil).
Proof.
  refine (proj2 (makePacker_NullUnmarshaller nullStringProgram testSchema
                   (assignPacker nullStringProgram testSchema 1)
                   (ast.ScalarTypeDefinition "String") (TNamed "NullString")
                   _ NewBuilder 1%nat _ eq_refl _ eq_refl eq_refl eq_refl)
            0%nat VNil).
  discriminate.
Defined.

(* ===================================================================== *)
(** * The Go type of a packed value *)
(* ===================================================================== *)

Lemma plain_pointer p T :
  plainProgram p -> Kind p T = reflect.Ptr -> exists e, T = TPtr e.
Proof.
  intros Hplain Hk.
  destruct T as [| | | | |nm|e|e|fs| |]; try discriminate Hk; [|eauto].
  specialize (Hplain nm). simpl in Hk. rewrite Hk in Hplain.
  contradiction.
Qed.

Lemma plain_numeric p T :
  plainProgram p -> unmarshaler_of p T = None ->
  (Kind p T = reflect.Int32 -> T = TInt32) /\
  (Kind p T = reflect.Float64 -> T = TFloat64).
Proof.
  intros Hplain Hu.
  destruct T as [| | | | |nm|e|e|fs| |]; split; intros Hk;
    try discriminate Hk; try reflexivity;
    specialize (Hplain nm); simpl in Hk, Hu; rewrite Hk in Hplain;
    contradiction.
Qed.

Lemma foldM_packField_struct p Pk h values fields :
  forall st sets s,
    foldM_res (packField p Pk h values) (RStruct st sets) fields = Ok s ->
    exists sets', s = RStruct st sets'.
Proof.
  induction fields as [|fa fields IH]; intros st sets s Hrun.
  - injection Hrun as <-. eauto.
  - rewrite foldM_res_cons in Hrun.
    destruct (packField p Pk h values (RStruct st sets) fa) as [s1| | |]
      eqn:Hstep; try discriminate.
    simpl in Hrun.
    assert (Hs1 : exists sets1, s1 = RStruct st sets1).
    { unfold packField in Hstep.
      destruct (sfields h !! fa) as [f|]; [|discriminate].
      destruct (values !! name f) as [v|]; [|injection Hstep as <-; eauto].
      destruct (Pk (fpacker f) v) as [x| | |]; try discriminate.
      simpl in Hstep. unfold SetField in Hstep.
      destruct (field_type p st (index f)); [|discriminate].
      destruct (assignable p g x); [|discriminate].
      injection Hstep as <-. eauto. }
    destruct Hs1 as (sets1 & ->). exact (IH _ _ _ Hrun).
Qed.

(** In a heap whose packer objects are as the builder makes them and
    whose struct packers have their prototypes, what a packer returns has
    the packer's Go type. *)
Lemma Pack_wantType p h :
  plainProgram p -> typedHeap p h -> protoHeap h ->
  forall fuel a o v x,
    packers h !! a = Some o -> Pack p fuel h (Some a) v = Ok x ->
    rtype x = Some (wantType o).
Proof.
  intros Hplain Htyped Hproto.
  induction fuel as [|fuel IH]; intros a o v x Ha Hrun; [discriminate|].
  pose proof (Htyped a o Ha) as Ho.
  destruct o as [st up d fs|st elem|elem vt addPtr|T|T].
  - destruct (Hproto a st up d fs Ha) as (sets & ->).
    destruct v; try (simpl in Hrun; rewrite Ha in Hrun; discriminate).
    rewrite (Pack_StructPacker p h fuel a _ _ _ _ _ Ha) in Hrun.
    rewrite assignable_same in Hrun by reflexivity. rewrite bind_Ok in Hrun.
    destruct (foldM_res _ _ _) as [s| | |] eqn:Hfold; try discriminate.
    apply foldM_packField_struct in Hfold as (sets' & ->).
    injection Hrun as <-. simpl. destruct up; reflexivity.
  - simpl in Hrun. rewrite Ha in Hrun.
    destruct (Kind p st); try discriminate.
    destruct (Elem p st) as [et|]; [|discriminate].
    destruct (mapM_res _ _) as [elems| | |]; try discriminate.
    injection Hrun as <-. reflexivity.
  - rewrite (Pack_nullPacker p h fuel a _ _ _ _ Ha) in Hrun.
    destruct (is_nil v && negb (isNullable p vt));
      [injection Hrun as <-; reflexivity|].
    destruct (Pack p fuel h elem v) as [y| | |] eqn:Hy; try discriminate.
    simpl in Hrun, Ho. destruct addPtr.
    + destruct (plain_pointer p vt Hplain Ho) as (e & ->).
      simpl in Hrun. destruct (assignable p e y); [|discriminate].
      injection Hrun as <-. reflexivity.
    + injection Hrun as <-. destruct Ho as (e & o' & -> & He & Hw).
      rewrite <- Hw. exact (IH e o' v y He Hy).
  - simpl in Hrun. rewrite Ha in Hrun. simpl in Ho.
    destruct (plain_numeric p T Hplain Ho) as [Hi Hf].
    destruct v; try discriminate;
      (destruct (unmarshalInput p T _) as [c| | |] eqn:Hc; try discriminate;
       injection Hrun as <-;
       exact (unmarshalInput_TypeOf p T _ c Hi Hf Hc)).
  - simpl in Hrun. rewrite Ha in Hrun.
    destruct (_ && _); [discriminate|].
    destruct (unmarshaler_of p T) as [u|]; [|discriminate].
    destruct (UnmarshalGraphQL u v); [discriminate|].
    injection Hrun as <-. reflexivity.
Qed.

Lemma typedObj_grows p h h' o :
  packers h `prefix_of` packers h' -> typedObj p h o -> typedObj p h' o.
Proof.
  intros Hp. destruct o as [| |elem vt addPtr| |]; simpl; auto.
  destruct addPtr; [auto|]. intros (e & o' & -> & He & Hw).
  exists e, o'. split; [reflexivity|]. split; [|exact Hw].
  exact (prefix_lookup_Some _ _ _ _ He Hp).
Qed.

Lemma typedBuilder_same p b b' :
  packerMap b' = packerMap b -> packers (heap b') = packers (heap b) ->
  typedBuilder p b -> typedBuilder p b'.
Proof.
  intros Hm Hp [Hheap Hmap]. split.
  - intros a o Ha. rewrite Hp in Ha.
    apply (typedObj_grows p (heap b)); [rewrite Hp; reflexivity|].
    exact (Hheap a o Ha).
  - rewrite Hm, Hp. exact Hmap.
Qed.

Lemma keeps_typed_same p {A} (m : M A) :
  (forall b, packerMap (m b).2 = packerMap b /\
             packers (heap (m b).2) = packers (heap b)) ->
  keeps (typedBuilder p) m.
Proof.
  intros Hm b r b' Hb Hrun. destruct (Hm b) as [H1 H2].
  rewrite Hrun in H1, H2. exact (typedBuilder_same p b b' H1 H2 Hb).
Qed.

Lemma newPacker_typed p o b a b' :
  typedBuilder p b ->
  typedObj p {| packers := packers (heap b) ++ [o];
                sfields := sfields (heap b) |} o ->
  newPacker o b = (Ok a, b') ->
  typedBuilder p b' /\ packers (heap b') !! a = Some o.
Proof.
  intros [Hheap Hmap] Ho [= <- <-]. simpl.
  split; [|apply list_lookup_middle; reflexivity].
  split; simpl.
  - intros a o0 Ha. apply lookup_app_Some in Ha as [Ha|[_ Ha]].
    + apply (typedObj_grows p (heap b)); [apply prefix_app_r; reflexivity|].
      exact (Hheap a o0 Ha).
    + apply list_lookup_singleton_Some in Ha as [_ <-]. exact Ho.
  - intros k e a Hin He. destruct (Hmap k e a Hin He) as (o0 & Ha & Hw).
    exists o0. split; [apply lookup_app_l_Some; exact Ha | exact Hw].
Qed.

Lemma keeps_typed_newPacker p o :
  (forall h, typedObj p h o) -> keeps (typedBuilder p) (newPacker o).
Proof.
  intros Ho b a b' Hb Hnew.
  exact (proj1 (newPacker_typed p o b a b' Hb (Ho _) Hnew)).
Qed.

Lemma wantType_struct p T d fs :
  plainProgram p ->
  wantType (StructPacker (structTypeOf p T)
              (bool_decide (Kind p T = reflect.Ptr)) d fs) = T.
Proof.
  intros Hplain. unfold structTypeOf. simpl.
  destruct (bool_decide_reflect (Kind p T = reflect.Ptr)) as [Hk|Hk];
    [|reflexivity].
  destruct (plain_pointer p T Hplain Hk) as (e & ->). reflexivity.
Qed.

Ltac typed_same :=
  apply keeps_typed_same; intros ?; split;
  [ reflexivity
  | try reflexivity; simpl; unfold setFieldIndex;
    match goal with
    | |- context [sfields ?h !! ?fe] => destruct (sfields h !! fe)
    end; reflexivity ].

Section TypedBuild.
Variable p : Program.
Variable schema : ast.Schema.
Hypothesis Hplain : plainProgram p.

Section Methods.
Variable assign : target -> ast.Type_ -> GoType -> M unit.
Hypothesis assign_typed :
  forall tgt t T, keeps (typedBuilder p) (assign tgt t T).
Hypothesis assign_grows : forall tgt t T, always grows (assign tgt t T).

Lemma makeField_typed typ structType v :
  keeps (typedBuilder p) (makeField p assign typ structType v).
Proof.
  unfold makeField.
  repeat keeps_step_with (typedBuilder p)
    ltac:(first [apply assign_typed | typed_same]).
Qed.

Lemma MakeStructPacker_typed values typ :
  keeps (typedBuilder p) (MakeStructPacker p assign values typ).
Proof.
  unfold MakeStructPacker.
  repeat keeps_step_with (typedBuilder p)
    ltac:(first [ apply makeField_typed
                | apply keeps_typed_newPacker; intros ?; exact I
                | typed_same ]).
Qed.

Lemma makeNonNullPacker_typed t T b a b' :
  typedBuilder p b ->
  makeNonNullPacker p schema assign t T b = (Ok a, b') ->
  typedBuilder p b' /\
  exists o, packers (heap b') !! a = Some o /\ wantType o = T.
Proof.
  intros Hb Hrun. unfold makeNonNullPacker in Hrun.
  destruct (unmarshaler_of p T) as [u|] eqn:Hu.
  { destruct (negb _); [discriminate|].
    destruct (newPacker_typed p (unmarshalerPacker T) _ _ _ Hb I Hrun)
      as [Hb' Ha].
    eauto. }
  destruct t as [n|n|n|n|n|n|id t|id t]; try discriminate.
  - destruct (newPacker_typed p (ValuePacker T) _ _ _ Hb Hu Hrun)
      as [Hb' Ha].
    eauto.
  - destruct (negb _); [discriminate|].
    destruct (newPacker_typed p (ValuePacker T) _ _ _ Hb Hu Hrun)
      as [Hb' Ha].
    eauto.
  - split; [exact (MakeStructPacker_typed _ _ _ _ _ Hb Hrun)|].
    destruct (MakeStructPacker_result p assign _ _ _ _ _ Hrun)
      as (fs & Ha & _).
    eexists. split; [exact Ha|]. apply wantType_struct. exact Hplain.
  - destruct (Kind p T); try discriminate.
    destruct (Elem p T) as [et|]; [|discriminate].
    apply bind_Ok_inv in Hrun as (a0 & b1 & Hnew & Hrun).
    apply bind_Ok_inv in Hrun as ([] & b2 & Hassign & Hret).
    injection Hret as <- <-.
    destruct (newPacker_typed p (listPacker T None) _ _ _ Hb I Hnew)
      as [Hb1 Ha].
    split; [exact (assign_typed _ _ _ _ _ _ Hb1 Hassign)|].
    pose proof (assign_grows (elemOf a0) t et b1) as [Hp _].
    rewrite Hassign in Hp. simpl in Hp.
    exists (listPacker T None). split; [|reflexivity].
    exact (prefix_lookup_Some _ _ _ _ Ha Hp).
Qed.

Lemma makePacker_typed t T b a b' :
  typedBuilder p b ->
  makePacker p schema assign t T b = (Ok a, b') ->
  typedBuilder p b' /\
  exists o, packers (heap b') !! a = Some o /\ wantType o = T.
Proof.
  intros Hb Hrun. unfold makePacker in Hrun.
  destruct (unwrapNonNull t) as [t0 nonNull].
  destruct nonNull; simpl in Hrun;
    [exact (makeNonNullPacker_typed _ _ _ _ _ Hb Hrun)|].
  assert (Hwrap : forall elemType addPtr,
            (addPtr = true -> Kind p T = reflect.Ptr) ->
            (addPtr = false -> elemType = T) ->
            (elem <- makeNonNullPacker p schema assign t0 elemType ;;
             newPacker (nullPacker (Some elem) T addPtr)) b = (Ok a, b') ->
            typedBuilder p b' /\
            exists o, packers (heap b') !! a = Some o /\ wantType o = T).
  { intros elemType addPtr Hptr Hsame Hrun'.
    apply bind_Ok_inv in Hrun' as (elem & b1 & Hmake & Hnew).
    destruct (makeNonNullPacker_typed _ _ _ _ _ Hb Hmake)
      as (Hb1 & o & Ho & Hw).
    assert (Hobj : typedObj p
              {| packers := packers (heap b1) ++
                              [nullPacker (Some elem) T addPtr];
                 sfields := sfields (heap b1) |}
              (nullPacker (Some elem) T addPtr)).
    { simpl. destruct addPtr; [auto|].
      exists elem, o. split; [reflexivity|].
      split; [apply lookup_app_l_Some; exact Ho|].
      rewrite Hw. auto. }
    destruct (newPacker_typed p _ _ _ _ Hb1 Hobj Hnew) as [Hb' Ha].
    eauto. }
  destruct (bool_decide_reflect (Kind p T = reflect.Ptr)) as [Hk|Hk].
  - destruct t0; (eapply Hwrap; [| |exact Hrun]); auto; discriminate.
  - destruct (isNullable p T); [|discriminate].
    eapply Hwrap; [| |exact Hrun]; auto; discriminate.
Qed.

Lemma assignPacker_body_typed tgt t T :
  keeps (typedBuilder p) (assignPacker_body p schema assign tgt t T).
Proof.
  intros b r b' Hb Hrun.
  set (k := {| graphQLType := t; resolverType := T |}).
  assert (Hrec : forall b0, typedBuilder p b0 ->
            typedBuilder p (recorded k tgt b0)).
  { intros b0 [Hheap Hmap]. split; [exact Hheap|].
    intros k0 e0 a Hin He. simpl in Hin |- *.
    apply elem_of_updateEntry in Hin as [Hin|(-> & e & Hin & ->)].
    - exact (Hmap k0 e0 a Hin He).
    - exact (Hmap k e a Hin He). }
  destruct (lookupEntry k (packerMap b)) as [e|] eqn:Hk.
  - rewrite (assignPacker_body_hit p schema assign tgt t T b e Hk) in Hrun.
    injection Hrun as _ <-. apply Hrec. exact Hb.
  - rewrite (assignPacker_body_miss p schema assign tgt t T b Hk) in Hrun.
    fold k in Hrun.
    destruct (makePacker _ _ _ _ _ _) as [[pk| | |] b1] eqn:Hmake;
      try discriminate.
    injection Hrun as _ <-. apply Hrec.
    assert (Hres : typedBuilder p (reserved k b)).
    { destruct Hb as [Hheap Hmap]. split; [exact Hheap|].
      intros k0 e0 a Hin He. simpl in Hin |- *.
      apply elem_of_app in Hin as [Hin|Hin]; [exact (Hmap k0 e0 a Hin He)|].
      apply list_elem_of_singleton in Hin. injection Hin as -> ->.
      discriminate. }
    destruct (makePacker_typed _ _ _ _ _ Hres Hmake)
      as ([Hheap Hmap] & o & Ho & Hw).
    split; [exact Hheap|].
    intros k0 e0 a Hin He. simpl in Hin |- *.
    apply elem_of_updateEntry in Hin as [Hin|(-> & e & Hin & ->)].
    + exact (Hmap k0 e0 a Hin He).
    + injection He as <-. eauto.
Qed.
End Methods.

Lemma assignPacker_typed fuel tgt t T :
  keeps (typedBuilder p) (assignPacker p schema fuel tgt t T).
Proof.
  revert tgt t T. induction fuel as [|fuel IH]; intros tgt t T.
  - intros b a b' _ [=].
  - simpl. apply assignPacker_body_typed; [exact IH|].
    intros tgt0 t0 T0. apply assignPacker_grows.
Qed.

Lemma built_typedBuilder b : built p schema b -> typedBuilder p b.
Proof.
  induction 1 as [|fuel values typ b a b' Hb IH Hmake].
  - split.
    + intros a o Ha. discriminate.
    + intros k e a Hin. apply elem_of_nil in Hin. contradiction.
  - eapply MakeStructPacker_typed; [|exact IH|exact Hmake].
    intros tgt t T. apply assignPacker_typed.
Qed.
End TypedBuild.

Lemma length_setTarget pk h t :
  length (packers (setTarget pk h t)) = length (packers h).
Proof.
  destruct t as [a|fe]; simpl.
  - destruct (packers h !! a) as [[| st e | | |]|]; try reflexivity.
    simpl. apply length_insert.
  - destruct (sfields h !! fe); reflexivity.
Qed.

Lemma length_linkTargets m h :
  length (packers (linkTargets m h)) = length (packers h).
Proof.
  unfold linkTargets. revert h.
  induction m as [|entry m IH]; intros h; simpl; [reflexivity|].
  rewrite IH. unfold linkEntry. generalize (targets entry.2) as ts.
  intros ts. revert h.
  induction ts as [|t ts IHts]; intros h; simpl; [reflexivity|].
  rewrite IHts. apply length_setTarget.
Qed.

Lemma length_setDefaultStruct a d h :
  length (packers (setDefaultStruct a d h)) = length (packers h).
Proof.
  unfold setDefaultStruct.
  destruct (packers h !! a) as [[st up d0 fs| | | |]|]; try reflexivity.
  simpl. apply length_insert.
Qed.

Section FinishSize.
Variable p : Program.

Lemma sameSize_refl b : sameSize b b.
Proof. reflexivity. Qed.

Lemma sameSize_trans b1 b2 b3 :
  sameSize b1 b2 -> sameSize b2 b3 -> sameSize b1 b3.
Proof. unfold sameSize. congruence. Qed.

Lemma sameSize_setDefaultStruct a d b :
  sameSize b (withHeap (setDefaultStruct a d) b).
Proof. unfold sameSize. simpl. symmetry. apply length_setDefaultStruct. Qed.

Lemma finishField_sameSize fuel a fa :
  always sameSize (finishField p fuel a fa).
Proof.
  intros b. unfold finishField.
  destruct (sfields (heap b) !! fa) as [f|]; [|apply sameSize_refl].
  destruct (def f) as [dv|]; [|apply sameSize_refl].
  destruct (Pack _ _ _ _ _) as [v| | |]; try apply sameSize_refl.
  destruct (packers (heap b) !! a) as [[st up d fs| | | |]|];
    try apply sameSize_refl.
  destruct (SetField p d (index f) v); try apply sameSize_refl.
  apply sameSize_setDefaultStruct.
Qed.

Lemma finishStruct_sameSize fuel a : always sameSize (finishStruct p fuel a).
Proof.
  intros b. unfold finishStruct.
  destruct (packers (heap b) !! a) as [[st up d fs| | | |]|];
    try apply sameSize_refl.
  revert b. apply (always_bind sameSize sameSize_trans).
  - apply always_modify. intros b. apply sameSize_setDefaultStruct.
  - intros _. apply (always_bind sameSize sameSize_trans).
    + apply (always_forM sameSize sameSize_refl sameSize_trans).
      intros fa. apply finishField_sameSize.
    + intros _. apply (always_ret sameSize sameSize_refl).
Qed.

Lemma Finish_sameSize fuel : always sameSize (Finish p fuel).
Proof.
  unfold Finish. apply (always_bind sameSize sameSize_trans).
  - apply always_modify. intros b. unfold sameSize. simpl.
    symmetry. apply length_linkTargets.
  - intros _ b. revert b. apply (always_bind sameSize sameSize_trans).
    + intros b. apply (always_forM sameSize sameSize_refl sameSize_trans).
      intros a. apply finishStruct_sameSize.
    + intros _. apply (always_ret sameSize sameSize_refl).
Qed.
End FinishSize.

Lemma wantType_sameShape o o' : sameShape o o' -> wantType o = wantType o'.
Proof.
  destruct o, o'; simpl; try contradiction; intros H;
    repeat match goal with H : _ /\ _ |- _ => destruct H end;
    subst; reflexivity.
Qed.

Lemma typedHeap_shapes p h h' :
  sameShapes h h' -> length (packers h) = length (packers h') ->
  typedHeap p h -> typedHeap p h'.
Proof.
  intros Hs Hlen Hh a o' Ha'.
  destruct (lookup_lt_is_Some_2 (packers h) a) as [o Ha].
  { rewrite Hlen. apply lookup_lt_Some in Ha'. exact Ha'. }
  destruct (Hs a o Ha) as (o'' & Ha'' & Hshape).
  assert (o'' = o') by congruence. subst o''.
  pose proof (Hh a o Ha) as Ho.
  destruct o as [| |elem vt addPtr|T|T], o' as [| |elem' vt' addPtr'|T'|T'];
    simpl in Hshape; try contradiction; try exact I.
  - destruct Hshape as (<- & <- & <-). simpl in Ho |- *.
    destruct addPtr; [exact Ho|].
    destruct Ho as (e & o0 & -> & He & Hw).
    destruct (Hs e o0 He) as (o0' & He' & Hshape0).
    exists e, o0'. split; [reflexivity|]. split; [exact He'|].
    rewrite <- (wantType_sameShape o0 o0' Hshape0). exact Hw.
  - subst T'. exact Ho.
Qed.

(** A builder that successful calls of [MakeStructPacker] left and that
    [Finish] has finished without an error, for a program without defined
    pointer types and whose defined types of kind [Int32] or [Float64] are
    [Unmarshaler]s: what a packer of the builder returns has the packer's
    Go type, and what the packer of a map entry returns has the Go type of
    the entry's pair. *)
Theorem Pack_typed (p : Program) (schema : ast.Schema) (fuel0 : nat)
    (b : Builder) (r : unit) (b' : Builder) :
  plainProgram p -> built p schema b -> Finish p fuel0 b = (Ok r, b') ->
  (forall fuel a o v x,
     packers (heap b') !! a = Some o ->
     Pack p fuel (heap b') (Some a) v = Ok x ->
     rtype x = Some (wantType o)) /\
  (forall fuel k e v x,
     (k, e) ∈ packerMap b' ->
     Pack p fuel (heap b') (epacker e) v = Ok x ->
     rtype x = Some (resolverType k)).
Proof.
  intros Hplain Hb Hrun.
  destruct (built_typedBuilder p schema Hplain b Hb) as [Hheap Hmap].
  destruct (Finish_protoHeap p schema fuel0 b r b' Hb Hrun)
    as (Hproto' & Hsamemap & _).
  pose proof (Finish_sameShapes p fuel0 b) as Hshapes.
  pose proof (Finish_sameSize p fuel0 b) as Hsize. unfold sameSize in Hsize.
  rewrite Hrun in Hshapes, Hsize. simpl in Hshapes, Hsize.
  assert (Hheap' : typedHeap p (heap b'))
    by exact (typedHeap_shapes p _ _ Hshapes Hsize Hheap).
  assert (Hpack : forall fuel a o v x,
     packers (heap b') !! a = Some o ->
     Pack p fuel (heap b') (Some a) v = Ok x ->
     rtype x = Some (wantType o))
    by exact (Pack_wantType p (heap b') Hplain Hheap' Hproto').
  split; [exact Hpack|].
  intros fuel k e v x Hin Hok. rewrite Hsamemap in Hin.
  destruct (epacker e) as [a|] eqn:He;
    [|destruct (proj2 (built_WF p schema b Hb) k e Hin He)].
  destruct (Hmap k e a Hin He) as (o & Ha & Hw).
  destruct (Hshapes a o Ha) as (o' & Ha' & Hshape).
  rewrite (Hpack fuel a o' v x Ha' Hok).
  rewrite <- (wantType_sameShape o o' Hshape), Hw. reflexivity.
Qed.

Lemma plainProgram_testProgram : plainProgram testProgram.
Proof.
  intros n. unfold testProgram. simpl.
  repeat case_bool_decide; simpl; exact I.
Qed.

(** The packers of [(first: Int = 10, after: String)]: the struct packer
    returns a [pageArgs] struct. *)
Lemma Pack_typed_witness :
  exists x,
    Pack testProgram 3 (heap pageFinished.2) (Some 3%nat)
      (VMap {[ "after" := VString "x" ]}) = Ok x /\
    rtype x = Some pageArgs.
Proof.
  assert (Hb : built testProgram testSchema pageBuilt.2).
  { apply (built_make testProgram testSchema 4 pageArguments pageArgs
             NewBuilder 3%nat); [constructor | reflexivity]. }
  eexists. split; [vm_compute; reflexivity|].
  apply (proj1 (Pack_typed testProgram testSchema 4 pageBuilt.2 tt
                  pageFinished.2 plainProgram_testProgram Hb eq_refl)
           3%nat 3%nat
           (StructPacker pageArgs false
              (RStruct pageArgs [([0%nat], ROf (VInt32 10))])
              [0%nat; 1%nat])
           (VMap {[ "after" := VString "x" ]}));
    [reflexivity | vm_compute; reflexivity].
Defined.

(* ===================================================================== *)
(** * Code of the test-suite *)
(* ===================================================================== *)

(** [IntEnum]: unmarshaling the name of 0 or 1 gives that value back, and
    the name of any other value gives -1; the name of what a string
    unmarshals to is the string for [Int0] and [Int1], and [IntN] for every
    other string; a string is never an error, whatever [*e] was, and an
    input that is no string is one, and leaves [*e] as it was.  The
    [Unmarshaler] of [IntEnum] in the program of the tests returns the same
    errors. *)
Theorem IntEnum_round_trip (e0 : Z) :
  (forall e,
     IntEnum.UnmarshalGraphQL e0 (VString (IntEnum.String e))
     = (None, if (e =? 0) || (e =? 1) then e else -1)) /\
  (forall s,
     (IntEnum.UnmarshalGraphQL e0 (VString s)).1 = None /\
     IntEnum.String (IntEnum.UnmarshalGraphQL e0 (VString s)).2
     = if bool_decide (s = "Int0") || bool_decide (s = "Int1") then s
       else "IntN") /\
  (forall input, (forall s, input <> VString s) ->
     IntEnum.UnmarshalGraphQL e0 input
     = (Some (Errorf "wrong type for IntEnum: %T" [AType (TypeOf input)]),
        e0)) /\
  (forall u input,
     methods testProgram "IntEnum" = Some u ->
     UnmarshalGraphQL u input = (IntEnum.UnmarshalGraphQL e0 input).1 /\
     forall name,
       ImplementsGraphQLType u name = IntEnum.ImplementsGraphQLType name).
Proof.
  split; [|split; [|split]].
  - intros e. unfold IntEnum.String.
    destruct (Z.eqb_spec e 0) as [->|H0]; [reflexivity|].
    destruct (Z.eqb_spec e 1) as [->|H1]; reflexivity.
  - intros s. split; [reflexivity|]. simpl.
    destruct (bool_decide_reflect (s = "Int0")) as [->|H0]; [reflexivity|].
    destruct (bool_decide_reflect (s = "Int1")) as [->|H1]; reflexivity.
  - intros input Hns. destruct input; try reflexivity.
    exfalso. eapply Hns. reflexivity.
  - intros u input [= <-]. split; [|reflexivity].
    destruct input; reflexivity.
Qed.

(** [IntEnum1] through its name, and a number as input. *)
Lemma IntEnum_round_trip_witness :
  IntEnum.UnmarshalGraphQL 0 (VString (IntEnum.String 1)) = (None, 1) /\
  IntEnum.UnmarshalGraphQL 1 (VInt32 0)
  = (Some (Errorf "wrong type for IntEnum: %T" [AType (Some TInt32)]), 1).
Proof.
  split.
  - exact (proj1 (IntEnum_round_trip 0) 1).
  - apply (proj1 (proj2 (proj2 (IntEnum_round_trip 1)))). discriminate.
Defined.

Lemma Pack_ValuePacker_Ok p h fuel a T v out :
  packers h !! a = Some (ValuePacker T) -> v <> VNil ->
  unmarshalInput p T v = Ok out ->
  Pack p (S fuel) h (Some a) v = Ok (ROf out).
Proof.
  intros Ha Hv Hu. simpl. rewrite Ha.
  destruct v; try congruence; rewrite Hu; reflexivity.
Qed.

Lemma Pack_input_entry fuel n :
  is_int32 n ->
  Pack testProgram (S (S fuel)) (heap listFinished.2) (Some 2%nat)
    (VMap {[ "v" := VInt n ]}) =
  Ok (RNew inputStruct (RStruct inputStruct [([0%nat], ROf (VInt32 n))])).
Proof.
  intros Hn.
  assert (Hv : Pack testProgram (S fuel) (heap listFinished.2) (Some 1%nat)
                 (VInt n) = Ok (ROf (VInt32 n))).
  { apply (Pack_ValuePacker_Ok testProgram (heap listFinished.2) fuel 1%nat
             TInt32);
      [reflexivity | discriminate |].
    rewrite (unmarshalInput_VInt testProgram TInt32 n eq_refl).
    rewrite (int32_of_int_in_range n Hn).
    unfold is_int32 in Hn.
    destruct (n <? math.MinInt32) eqn:H1; [apply Z.ltb_lt in H1; lia|].
    destruct (n >? math.MaxInt32) eqn:H2; [apply Z.gtb_gt in H2; lia|].
    reflexivity. }
  rewrite (Pack_StructPacker testProgram (heap listFinished.2) (S fuel) 2%nat
             inputStruct true
             (RStruct inputStruct []) [1%nat] _ eq_refl).
  rewrite (assignable_same testProgram inputStruct (RStruct inputStruct [])
             eq_refl), bind_Ok.
  cbn [foldM_res].
  rewrite (packField_present testProgram (heap listFinished.2) _
             {[ "v" := VInt n ]} _ 1%nat
             {| name := "v"; index := [0%nat]; def := None;
                fpacker := Some 1%nat |} (VInt n) eq_refl
             (lookup_singleton_eq _ _)).
  cbn [fpacker index]. rewrite Hv. reflexivity.
Qed.

(** [inputResolver.List] after the packers of [list(value: [Input!]!)]:
    for an input list of objects [{v: n}] with every [n] a 32-bit integer,
    the packers return an [args] struct and the method returns the list of
    the [n], in the order of the input. *)
Theorem inputResolver_List_round_trip (fuel : nat) (ns : list Z) :
  Forall is_int32 ns ->
  exists args,
    Pack testProgram (4 + fuel) (heap listFinished.2) (Some 3%nat)
      (VMap {[ "value" := inputList ns ]}) = Ok args /\
    inputResolver.List args = Some ns.
Proof.
  intros Hns.
  set (entry := fun n : Z =>
         RNew inputStruct (RStruct inputStruct [([0%nat], ROf (VInt32 n))])).
  assert (Hentries :
    mapM_res (packElem testProgram
                (Pack testProgram (S (S fuel)) (heap listFinished.2))
                (Some 2%nat) (TPtr inputStruct))
      ((fun n => VMap {[ "v" := VInt n ]}) <$> ns) = Ok (entry <$> ns)).
  { induction Hns as [|n ns Hn Hns IH]; [reflexivity|].
    rewrite fmap_cons. cbn [mapM_res]. rewrite IH.
    unfold packElem. rewrite (Pack_input_entry fuel n Hn). reflexivity. }
  assert (Hlist :
    Pack testProgram (S (S (S fuel))) (heap listFinished.2) (Some 0%nat)
      (inputList ns) = Ok (RSlice (TSlice (TPtr inputStruct)) (entry <$> ns))).
  { rewrite (Pack_listPacker testProgram (heap listFinished.2)
               (S (S fuel)) 0%nat
               (TSlice (TPtr inputStruct)) (Some 2%nat) (TPtr inputStruct)
               _ eq_refl eq_refl eq_refl).
    unfold inputList. rewrite Hentries. reflexivity. }
  exists (RStruct listArgs
            [([0%nat], RSlice (TSlice (TPtr inputStruct)) (entry <$> ns))]).
  split.
  - change (4 + fuel)%nat with (S (S (S (S fuel)))).
    rewrite (Pack_StructPacker testProgram (heap listFinished.2)
               (S (S (S fuel))) 3%nat listArgs
               false (RStruct listArgs []) [0%nat] _ eq_refl).
    rewrite (assignable_same testProgram listArgs (RStruct listArgs [])
               eq_refl), bind_Ok.
    cbn [foldM_res].
    rewrite (packField_present testProgram (heap listFinished.2) _
               {[ "value" := inputList ns ]} _ 0%nat
               {| name := "value"; index := [0%nat]; def := None;
                  fpacker := Some 0%nat |} (inputList ns) eq_refl
               (lookup_singleton_eq _ _)).
    cbn [fpacker index]. rewrite Hlist. reflexivity.
  - unfold inputResolver.List. simpl FieldByIndex.
    clear. induction ns as [|n ns IH]; [reflexivity|].
    rewrite fmap_cons. simpl. simpl in IH. rewrite IH. reflexivity.
Qed.

(** The input [[{v: 41}, {v: 42}, {v: 43}]] of the test. *)
Lemma inputResolver_List_round_trip_witness :
  exists args,
    Pack testProgram 4 (heap listFinished.2) (Some 3%nat)
      (VMap {[ "value" := inputList [41; 42; 43] ]}) = Ok args /\
    inputResolver.List args = Some [41; 42; 43].
Proof.
  apply (inputResolver_List_round_trip 0 [41; 42; 43]).
  repeat constructor; unfold math.MinInt32, math.MaxInt32; lia.
Defined.

(* ===================================================================== *)
(** * The executor: schedules, field groups and the order of events *)
(* ===================================================================== *)

Import exec.

(** Whatever the schedule answers, every field group runs once. *)
Lemma runOrder_perm n wish : runOrder n wish ≡ₚ seq 0 n.
Proof.
  unfold runOrder.
  set (named := remove_dups (filter (fun i => i < n)%nat wish)).
  apply NoDup_Permutation.
  - apply NoDup_app. split; [apply NoDup_remove_dups|]. split.
    + intros i Hi Hi'. apply list_elem_of_filter in Hi' as [Hi' _].
      contradiction.
    + apply NoDup_filter, NoDup_seq.
  - apply NoDup_seq.
  - intros i. rewrite elem_of_app, list_elem_of_filter, elem_of_seq.
    split.
    + intros [Hi|[_ Hi]]; [|exact Hi].
      apply elem_of_remove_dups, list_elem_of_filter in Hi as [Hi _]. lia.
    + intros Hi. destruct (decide (i ∈ named)); auto.
Qed.

(** With fewer than two groups there is nothing to order. *)
Lemma runOrder_small n wish : (n <= 1)%nat -> runOrder n wish = seq 0 n.
Proof.
  intros Hn. pose proof (runOrder_perm n wish) as Hp.
  destruct n as [|[|n]]; [| |lia].
  - apply Permutation_nil_r in Hp. exact Hp.
  - apply Permutation_singleton_r in Hp. exact Hp.
Qed.






Section Schedules.
Context {Store : Type}.
Variable types : FieldTypes.

Let Complete : Type :=
  ast.Type_ -> list Selection -> list segment -> @resolved Store ->
  @State Store -> @completed * @State Store.

(** ** What the completion of the members depends on *)

Lemma completeItems_ext (c1 c2 : Complete) OfType sels path :
  (forall i x st,
     c1 OfType sels (path ++ [Index i]) x st
     = c2 OfType sels (path ++ [Index i]) x st) ->
  forall l i st,
    completeItems c1 OfType sels path i l st
    = completeItems c2 OfType sels path i l st.
Proof.
  intros H l. induction l as [|x l IH]; intros i st; simpl; [reflexivity|].
  rewrite H. destruct (c2 _ _ _ _ _) as [c st1]. rewrite IH. reflexivity.
Qed.

Lemma runGroups_ext (c1 c2 : Complete) typeName call path groups :
  (forall g ft x st,
     g ∈ groups ->
     c1 ft (gsels g) (path ++ [Key (gkey g)]) x st
     = c2 ft (gsels g) (path ++ [Key (gkey g)]) x st) ->
  forall order st,
    runGroups types c1 typeName call path groups order st
    = runGroups types c2 typeName call path groups order st.
Proof.
  intros H order.
  induction order as [|i order IH]; intros st; simpl; [reflexivity|].
  destruct (groups !! i) as [g|] eqn:Hg; simpl; [|apply IH].
  unfold resolveGroup. destruct (types typeName (gname g)) as [ft|];
    [|apply IH].
  destruct (call (gname g) (gargs g) (store st)) as [x s'].
  rewrite (H g ft x _ (list_elem_of_lookup_2 _ _ _ Hg)).
  destruct (c2 _ _ _ _ _) as [c st1]. rewrite IH. reflexivity.
Qed.


Lemma narrow_S depth sels :
  narrow (S depth) sels = true -> narrow depth sels = true.
Proof.
  revert sels. induction depth as [|depth IH]; intros sels H; [reflexivity|].
  cbn [narrow] in H |- *. apply andb_true_iff in H as [Hlen Hall].
  apply andb_true_iff. split; [exact Hlen|].
  apply forallb_forall. intros g Hg.
  apply IH. rewrite forallb_forall in Hall. apply Hall, Hg.
Qed.

(** A schedule has no say in selection sets of at most one field group. *)
Lemma completeValue_narrow (sched1 sched2 : Schedule) fuel :
  forall t sels path (r : @resolved Store) st,
    narrow fuel sels = true ->
    completeValue types sched1 fuel t sels path r st
    = completeValue types sched2 fuel t sels path r st.
Proof.
  induction fuel as [|fuel IH]; intros t sels path r st Hn; [reflexivity|].
  cbn [completeValue]. destruct r as [| | |l|typeName call]; try reflexivity.
  - destruct ((unwrapNonNull t).1); try reflexivity.
    rewrite (completeItems_ext (completeValue types sched1 fuel)
               (completeValue types sched2 fuel)); [reflexivity|].
    intros i x st0. apply IH, narrow_S, Hn.
  - cbn [narrow] in Hn. apply andb_true_iff in Hn as [Hlen Hall].
    apply bool_decide_eq_true_1 in Hlen.
    unfold resolveFields. rewrite !(runOrder_small _ _ Hlen).
    rewrite (runGroups_ext (completeValue types sched1 fuel)
               (completeValue types sched2 fuel)); [reflexivity|].
    intros g ft x st0 Hg. apply IH.
    rewrite forallb_forall in Hall. apply Hall.
    apply list_elem_of_In, Hg.
Qed.

Lemma runOperation_narrow (sched1 sched2 : Schedule) fuel kind rootType
    (root : string -> gmap string value -> Store -> @resolved Store * Store)
    sels st :
  (if isSerial kind
   then forallb (fun g => narrow fuel (gsels g)) (collectFields sels)
   else narrow (S fuel) sels) = true ->
  runOperation types sched1 (S fuel) kind rootType root sels st
  = runOperation types sched2 (S fuel) kind rootType root sels st.
Proof.
  intros Hn. cbn [runOperation]. unfold resolveFields.
  assert (Hall : forallb (fun g => narrow fuel (gsels g)) (collectFields sels)
                 = true).
  { destruct kind; simpl in Hn; [|exact Hn].
    apply andb_true_iff in Hn as [_ Hn]. exact Hn. }
  assert (Horder :
    (if isSerial kind then seq 0 (length (collectFields sels))
     else runOrder (length (collectFields sels))
            (sched1 [] (length (collectFields sels))))
    = (if isSerial kind then seq 0 (length (collectFields sels))
       else runOrder (length (collectFields sels))
              (sched2 [] (length (collectFields sels))))).
  { destruct kind; simpl in Hn |- *; [|reflexivity].
    apply andb_true_iff in Hn as [Hlen _].
    apply bool_decide_eq_true_1 in Hlen.
    rewrite !(runOrder_small _ _ Hlen). reflexivity. }
  rewrite Horder.
  rewrite (runGroups_ext (completeValue types sched1 fuel)
             (completeValue types sched2 fuel)); [reflexivity|].
  intros g ft x st0 Hg. apply completeValue_narrow.
  rewrite forallb_forall in Hall. apply Hall. apply list_elem_of_In, Hg.
Qed.

Lemma Exec_narrow (sched1 sched2 : Schedule) fuel kind rootType
    (root : string -> gmap string value -> Store -> @resolved Store * Store)
    sels s :
  (if isSerial kind
   then forallb (fun g => narrow fuel (gsels g)) (collectFields sels)
   else narrow (S fuel) sels) = true ->
  Exec types sched1 (S fuel) kind rootType root sels s
  = Exec types sched2 (S fuel) kind rootType root sels s.
Proof.
  intros Hn. unfold Exec.
  rewrite (runOperation_narrow sched1 sched2 _ _ _ _ _ _ Hn). reflexivity.
Qed.
End Schedules.

(** ** The events of an execution *)

Section History.
Context {Store : Type}.
Variable types : FieldTypes.

Let Complete : Type :=
  ast.Type_ -> list Selection -> list segment -> @resolved Store ->
  @State Store -> @completed * @State Store.










End History.

(** ** The serial order *)





Section Serial.
Context {Store : Type}.
Variable types : FieldTypes.
Variable complete :
  ast.Type_ -> list Selection -> list segment -> @resolved Store ->
  @State Store -> @completed * @State Store.
Variable typeName : string.
Variable call : string -> gmap string value -> Store -> @resolved Store * Store.
Variable path : list segment.



End Serial.


(* ===================================================================== *)
(** * The executor scenarios *)
(* ===================================================================== *)

(** C1.  List null propagation.  With [findDroids: [Droid!]!] and
    [Droid.name: String!], the resolver's three droids, the middle one
    failing on [name] with the [NotFound] error, give [data] null and one
    error, at path [findDroids, 1, name], with the error's extensions.  With
    [findDroids: [Droid]!] the same resolver gives a list of three entries,
    the middle one null, and the same single error.  This is so under
    every schedule. *)
Theorem findDroids_null_propagation (sched : Schedule) (fuel : nat) :
  Exec (scenario.droidTypes true) sched (4 + fuel) Query "Query"
    scenario.findDroidsResolver scenario.findDroidsQuery tt
  = Some ({| Data := JNull; Errors := [scenario.droidError] |}, tt) /\
  Exec (scenario.droidTypes false) sched (4 + fuel) Query "Query"
    scenario.findDroidsResolver scenario.findDroidsQuery tt
  = Some ({| Data :=
               JObject
                 [("findDroids",
                   JArray [JObject [("name", JString "R2-D2")];
                           JNull;
                           JObject [("name", JString "C-3PO")]])];
             Errors := [scenario.droidError] |}, tt) /\
  Path scenario.droidError = [Key "findDroids"; Index 1; Key "name"] /\
  Extensions scenario.droidError
  = Some {[ "code" := VString "NotFound";
            "message" := VString "This is not the droid you are looking for" ]}.
Proof.
  change (4 + fuel)%nat with (S (3 + fuel)).
  rewrite !(Exec_narrow _ sched (fun _ _ => []) (3 + fuel) Query)
    by reflexivity.
  repeat split.
Qed.



(** The events of the three mutations. *)
Example changeThrice_history (sched : Schedule) :
  history (runOperation scenario.numberTypes sched 3 Mutation "Mutation"
             scenario.theNumberResolver scenario.changeThrice
             {| store := 0; errors := []; history := [] |}).2
  = [Started [Key "first"];
       Started [Key "first"; Key "theNumber"];
       Finished [Key "first"; Key "theNumber"];
     Finished [Key "first"];
     Started [Key "second"];
       Started [Key "second"; Key "theNumber"];
       Finished [Key "second"; Key "theNumber"];
     Finished [Key "second"];
     Started [Key "third"];
       Started [Key "third"; Key "theNumber"];
       Finished [Key "third"; Key "theNumber"];
     Finished [Key "third"]].
Proof.
  rewrite (runOperation_narrow _ sched (fun _ _ => []) 2 Mutation)
    by reflexivity.
  reflexivity.
Qed.

(** The same selection set run as a query, under the schedule that goes
    last to first: the response has the keys in selection order, but the
    fields ran in the other order, and the number is left at 1. *)
Example query_fields_unordered :
  Exec scenario.numberTypes scenario.lastFirst 3 Query "Mutation"
    scenario.theNumberResolver scenario.changeThrice 0
  = Some ({| Data :=
               JObject
                 [("first", JObject [("theNumber", JInt 1)]);
                  ("second", JObject [("theNumber", JInt 3)]);
                  ("third", JObject [("theNumber", JInt 2)])];
             Errors := [] |}, 1) /\
  take 1 (history
            (runOperation scenario.numberTypes scenario.lastFirst 3 Query
               "Mutation" scenario.theNumberResolver scenario.changeThrice
               {| store := 0; errors := []; history := [] |}).2)
  = [Started [Key "third"]].
Proof. split; reflexivity. Qed.

(** Two selections with one response key are one field group: the field is
    resolved once, with the subselections of both. *)
Example repeated_key_one_group (sched : Schedule) (number : Z) :
  Exec scenario.numberTypes sched 3 Mutation "Mutation"
    scenario.theNumberResolver
    [scenario.change "first" 1; scenario.change "first" 1] number
  = Some ({| Data := JObject [("first", JObject [("theNumber", JInt 1)])];
             Errors := [] |}, 1).
Proof.
  rewrite (Exec_narrow _ sched (fun _ _ => []) 2 Mutation) by reflexivity.
  reflexivity.
Qed.
